(** * OS_Algorithm: the Banker's algorithm and the block-allocation strategies

    A shallow embedding of [src/components/deadlock/BankersAlgorithm.js]
    (isSafeState, resourceRequest, runBankersAlgorithm) and of the memory
    allocation strategies (firstFit, nextFit, bestFit, worstFit), with the
    properties stated about them.

    Numbers are the integers the engine is handed (JavaScript numbers that
    hold integers, far below 2^53), modelled as [Z].  Arrays are lists; an
    array read past the end is the fault [OutOfBounds]: the source would get
    [undefined] there (and a TypeError when it indexes a missing row), which
    the embedding does not follow any further.

    The operations are embedded twice.  [Bankers] and [Memory] take and
    return values: the copies the source makes of its arguments are the
    arguments themselves there.  [Store] takes references into a store of
    arrays and records, and makes the copies and the writes in place that the
    source makes; it is there that the caller's arrays are shown to be left
    alone, and the two embeddings are shown to return the same results.

    Around the engine, [AllAlgorithms] embeds runAllAlgorithms and the
    handler of the application that calls it, [BankersInput] and
    [MemoryInput] the state and the event handlers of the two forms (a
    handler is a function from the state it reads to the state it sets, and
    [parseInt] is a parameter), and [MemoryVisualization] the blocks panel of
    the results. *)

From Stdlib Require Import ZArith Lia.
From stdpp Require Import base option list sorting strings.

Open Scope Z_scope.

(** ** Outcomes: a result, or a fault *)

Inductive fault : Type :=
| OutOfBounds   (* an array was read past its end *)
| OutOfFuel     (* a loop bound of the embedding was too small *)
| WrongKind.    (* a value or object of another kind than the code expects *)

Inductive outcome (A : Type) : Type :=
| Ok (a : A)
| Fault (e : fault).
Arguments Ok {A} a.
Arguments Fault {A} e.

#[global] Instance outcome_ret : MRet outcome := fun A a => Ok a.
#[global] Instance outcome_bind : MBind outcome := fun A B f m =>
  match m with
  | Ok a => f a
  | Fault e => Fault e
  end.

(** [a[i]] for an index the code expects to be in range. *)
Definition read {A} (a : list A) (i : nat) : outcome A :=
  match a !! i with
  | Some x => Ok x
  | None => Fault OutOfBounds
  end.

(** [for (let i = lo; i < lo + n; i++) s = body(i, s)] *)
Fixpoint for_loop {St : Type} (n lo : nat) (body : nat -> St -> outcome St) (s : St)
  : outcome St :=
  match n with
  | O => Ok s
  | S n' => s' ← body lo s; for_loop n' (S lo) body s'
  end.

(** [a.map((x, i) => f(i, x))], the callback run left to right from index [lo]. *)
Fixpoint map_indexed {A B : Type} (lo : nat) (f : nat -> A -> outcome B) (a : list A)
  : outcome (list B) :=
  match a with
  | [] => Ok []
  | x :: a' => y ← f lo x; ys ← map_indexed (S lo) f a'; Ok (y :: ys)
  end.

(** The sum of a list of numbers. *)
Definition sum_of (v : list Z) : Z := foldr Z.add 0 v.

(** ** The Banker's algorithm *)

Module Bankers.

Abbreviation vector := (list Z).
Abbreviation matrix := (list (list Z)).

(** The object isSafeState returns. *)
Record SafetyResult : Type := {
  safe : bool;
  safeSequence : list nat;
  unfinishedProcesses : list nat
}.

(** The variables the while loop of isSafeState updates. *)
Record SafetyState : Type := {
  st_availableResources : vector;
  st_finished : list bool;
  st_safeSequence : list nat;
  st_count : nat;
  st_found : bool
}.

(** [maxDemand.map((process, i) =>
       process.map((resource, j) => resource - currentAllocation[i][j]))] *)
Definition compute_need (maxDemand currentAllocation : matrix) : outcome matrix :=
  map_indexed 0 (fun i process =>
    map_indexed 0 (fun j resource =>
      row ← read currentAllocation i;
      a ← read row j;
      Ok (resource - a)) process) maxDemand.

Section SafetyLoop.
Variables (need currentAllocation : matrix) (numProcesses numResources : nat).

(** The loop that decides [canAllocate] for process [i], from resource [j]
    with [n] resources still to compare; it breaks at the first
    [need[i][j] > availableResources[j]]. *)
Fixpoint can_allocate (n j : nat) (i : nat) (avail : vector) : outcome bool :=
  match n with
  | O => Ok true
  | S n' =>
      row ← read need i;
      x ← read row j;
      a ← read avail j;
      if x >? a then Ok false else can_allocate n' (S j) i avail
  end.

(** [availableResources[j] += currentAllocation[i][j]] *)
Definition release_one (i j : nat) (avail : vector) : outcome vector :=
  row ← read currentAllocation i;
  x ← read row j;
  a ← read avail j;
  Ok (<[j := a + x]> avail).

Definition release (i : nat) (avail : vector) : outcome vector :=
  for_loop numResources 0 (release_one i) avail.

(** The body of [for (let i = 0; i < numProcesses; i++)]. *)
Definition visit (i : nat) (st : SafetyState) : outcome SafetyState :=
  f ← read (st_finished st) i;
  if f : bool then Ok st
  else
    canAllocate ← can_allocate numResources 0 i (st_availableResources st);
    if canAllocate : bool then
      avail ← release i (st_availableResources st);
      Ok {| st_availableResources := avail;
            st_finished := <[i := true]> (st_finished st);
            st_safeSequence := st_safeSequence st ++ [i];
            st_count := S (st_count st);
            st_found := true |}
    else Ok st.

Definition pass (st : SafetyState) : outcome SafetyState :=
  for_loop numProcesses 0 visit st.

(** [finished.map((status, index) => !status ? index : null)
      .filter(p => p !== null)] *)
Definition unfinished_ids (finished : list bool) : list nat :=
  omap id (imap (fun index status => if negb status then Some index else None)
                finished).

Definition set_found (b : bool) (st : SafetyState) : SafetyState :=
  {| st_availableResources := st_availableResources st;
     st_finished := st_finished st;
     st_safeSequence := st_safeSequence st;
     st_count := st_count st;
     st_found := b |}.

(** [while (count < numProcesses) { ... }] followed by the final return.
    [fuel] bounds the number of passes. *)
Fixpoint while_unfinished (fuel : nat) (st : SafetyState) : outcome SafetyResult :=
  if (st_count st <? numProcesses)%nat then
    match fuel with
    | O => Fault OutOfFuel
    | S fuel' =>
        st' ← pass (set_found false st);
        if st_found st' then while_unfinished fuel' st'
        else Ok {| safe := false;
                   safeSequence := [];
                   unfinishedProcesses := unfinished_ids (st_finished st') |}
    end
  else Ok {| safe := true;
             safeSequence := st_safeSequence st;
             unfinishedProcesses := [] |}.
End SafetyLoop.

(** isSafeState.  The copies the source takes of its arguments are the
    arguments themselves here: values are immutable.  Every pass that does not
    return finishes a process, so [numProcesses] passes are enough. *)
Definition isSafeState (available : vector) (max allocation : matrix)
  : outcome SafetyResult :=
  let availableResources := available in
  let maxDemand := max in
  let currentAllocation := allocation in
  need ← compute_need maxDemand currentAllocation;
  let numProcesses := length maxDemand in
  let numResources := length available in
  while_unfinished need currentAllocation numProcesses numResources numProcesses
    {| st_availableResources := availableResources;
       st_finished := replicate numProcesses false;
       st_safeSequence := [];
       st_count := 0;
       st_found := false |}.

(** The object resourceRequest returns; a field the source leaves out of
    the object is [None]. *)
Record RequestResult : Type := {
  granted : bool;
  reason : option string;
  resourceIndex : option nat;
  rr_safeSequence : option (list nat);
  unsafeProcesses : option (list nat)
}.

(** [for (let j = ...; ...; j++) if (request[j] > bound(j)) return j], with [n]
    indices still to compare; [None] when the loop runs to its end. *)
Fixpoint first_exceeding (n j : nat) (request : vector) (bound : nat -> outcome Z)
  : outcome (option nat) :=
  match n with
  | O => Ok None
  | S n' =>
      r ← read request j;
      b ← bound j;
      if r >? b then Ok (Some j) else first_exceeding n' (S j) request bound
  end.

(** The body of the loop that applies the request tentatively:
    [availableResources[j] -= request[j];
     currentAllocation[processId][j] += request[j];
     need[processId][j] -= request[j]]. *)
Definition tentative_one (processId : nat) (request : vector) (j : nat)
    (s : vector * matrix * matrix) : outcome (vector * matrix * matrix) :=
  let '(availableResources, currentAllocation, need) := s in
  r ← read request j;
  a ← read availableResources j;
  arow ← read currentAllocation processId;
  x ← read arow j;
  nrow ← read need processId;
  y ← read nrow j;
  Ok (<[j := a - r]> availableResources,
      <[processId := <[j := x + r]> arow]> currentAllocation,
      <[processId := <[j := y - r]> nrow]> need).

Definition resourceRequest (available : vector) (max allocation : matrix)
    (processId : nat) (request : vector) : outcome RequestResult :=
  let availableResources := available in
  let maxDemand := max in
  let currentAllocation := allocation in
  need ← compute_need maxDemand currentAllocation;
  let numResources := length available in
  over ← first_exceeding numResources 0 request
            (fun j => row ← read need processId; read row j);
  match over with
  | Some j =>
      Ok {| granted := false;
            reason := Some "Request exceeds maximum claim"%string;
            resourceIndex := Some j;
            rr_safeSequence := None;
            unsafeProcesses := None |}
  | None =>
      short ← first_exceeding numResources 0 request
                 (fun j => read availableResources j);
      match short with
      | Some j =>
          Ok {| granted := false;
                reason := Some "Resources not available"%string;
                resourceIndex := Some j;
                rr_safeSequence := None;
                unsafeProcesses := None |}
      | None =>
          '(availableResources, currentAllocation, _) ←
            for_loop numResources 0 (tentative_one processId request)
                     (availableResources, currentAllocation, need);
          safetyResult ← isSafeState availableResources maxDemand currentAllocation;
          if safe safetyResult then
            Ok {| granted := true;
                  reason := None;
                  resourceIndex := None;
                  rr_safeSequence := Some (safeSequence safetyResult);
                  unsafeProcesses := None |}
          else
            Ok {| granted := false;
                  reason := Some "Resulting state would be unsafe"%string;
                  resourceIndex := None;
                  rr_safeSequence := None;
                  unsafeProcesses := Some (unfinishedProcesses safetyResult) |}
      end
  end.

(** One element of [data.requests]. *)
Record Request : Type := {
  processId : nat;
  request : vector
}.

(** The argument of runBankersAlgorithm; [requests] may be missing. *)
Record SimulationData : Type := {
  available : vector;
  max : matrix;
  allocation : matrix;
  requests : option (list Request)
}.

(** One element of [requestResults]:
    [{ processId, request, ...requestResult }]. *)
Record RequestOutcome : Type := {
  ro_processId : nat;
  ro_request : vector;
  ro_result : RequestResult
}.

Record SimulationResult : Type := {
  initialState : SafetyResult;
  requestResults : list RequestOutcome
}.

(** [currentAvailable[j] -= request[j];
     currentAllocation[processId][j] += request[j]] *)
Definition commit_one (processId : nat) (request : vector) (j : nat)
    (s : vector * matrix) : outcome (vector * matrix) :=
  let '(currentAvailable, currentAllocation) := s in
  r ← read request j;
  a ← read currentAvailable j;
  row ← read currentAllocation processId;
  x ← read row j;
  Ok (<[j := a - r]> currentAvailable,
      <[processId := <[j := x + r]> row]> currentAllocation).

(** The variables the request loop of runBankersAlgorithm updates. *)
Record DriverState : Type := {
  currentAvailable : vector;
  currentAllocation : matrix;
  results : list RequestOutcome
}.

(** The body of [for (const req of requests)]. *)
Definition process_request (max : matrix) (req : Request) (st : DriverState)
  : outcome DriverState :=
  let processId := processId req in
  let request := request req in
  requestResult ← resourceRequest (currentAvailable st) max (currentAllocation st)
                     processId request;
  let results' := results st ++ [{| ro_processId := processId;
                                    ro_request := request;
                                    ro_result := requestResult |}] in
  if granted requestResult then
    '(avail, alloc) ← for_loop (length request) 0 (commit_one processId request)
                        (currentAvailable st, currentAllocation st);
    Ok {| currentAvailable := avail; currentAllocation := alloc; results := results' |}
  else
    Ok {| currentAvailable := currentAvailable st;
          currentAllocation := currentAllocation st;
          results := results' |}.

Fixpoint process_requests (max : matrix) (reqs : list Request) (st : DriverState)
  : outcome DriverState :=
  match reqs with
  | [] => Ok st
  | req :: reqs' => st' ← process_request max req st; process_requests max reqs' st'
  end.

Definition runBankersAlgorithm (data : SimulationData) : outcome SimulationResult :=
  let available := available data in
  let max := max data in
  let allocation := allocation data in
  initialSafetyCheck ← isSafeState available max allocation;
  st ← match requests data with
       | Some reqs =>
           if safe initialSafetyCheck && (0 <? length reqs)%nat then
             process_requests max reqs
               {| currentAvailable := available;
                  currentAllocation := allocation;
                  results := [] |}
           else Ok {| currentAvailable := available;
                      currentAllocation := allocation;
                      results := [] |}
       | None => Ok {| currentAvailable := available;
                       currentAllocation := allocation;
                       results := [] |}
       end;
  Ok {| initialState := {| safe := safe initialSafetyCheck;
                           safeSequence := safeSequence initialSafetyCheck;
                           unfinishedProcesses := unfinishedProcesses initialSafetyCheck |};
        requestResults := results st |}.

End Bankers.

(** ** The block-allocation strategies *)

Module Memory.

(** The shape [{ id, size }] of a memory block and of a process. *)
Record sized : Type := {
  id : Z;
  size : Z
}.
Abbreviation MemoryBlock := sized.
Abbreviation Process := sized.

(** The object every strategy returns; an [allocation] entry is the index of
    the chosen block, [None] for the source's [null]. *)
Record AllocationResult : Type := {
  algorithm : string;
  allocation : list (option nat);
  internalFragmentation : list Z;
  externalFragmentation : Z;
  totalFragmentation : Z;
  unallocatedProcesses : list Z
}.

(** The arrays a strategy updates while it runs: its copy of the blocks,
    [allocation] and [internalFragmentation]. *)
Record AllocState : Type := {
  st_blocks : list MemoryBlock;
  st_allocation : list (option nat);
  st_internalFragmentation : list Z
}.

(** [procs.map(() => null)] and [blocks.map(() => 0)] *)
Definition initial (blocks : list MemoryBlock) (procs : list Process) : AllocState :=
  {| st_blocks := blocks;
     st_allocation := (fun _ => None) <$> procs;
     st_internalFragmentation := (fun _ => 0) <$> blocks |}.

(** [allocation[i] = j;
     internalFragmentation[j] = blocks[j].size - procs[i].size;
     blocks[j].size = 0] *)
Definition place (i j : nat) (p : Process) (st : AllocState) : outcome AllocState :=
  b ← read (st_blocks st) j;
  Ok {| st_blocks := <[j := {| id := id b; size := 0 |}]> (st_blocks st);
        st_allocation := <[i := Some j]> (st_allocation st);
        st_internalFragmentation :=
          <[j := size b - size p]> (st_internalFragmentation st) |}.

(** The inner loop of firstFit from block [j], [n] blocks still to try: it
    places the process in the first block that is large enough and breaks. *)
Fixpoint first_fit_scan (n j : nat) (i : nat) (p : Process) (st : AllocState)
  : outcome AllocState :=
  match n with
  | O => Ok st
  | S n' =>
      b ← read (st_blocks st) j;
      if size b >=? size p then place i j p st
      else first_fit_scan n' (S j) i p st
  end.

(** The while loop of nextFit: [n] is [blocks.length - blocksChecked], [j]
    the block under test; the second component is [lastAllocatedIndex]. *)
Fixpoint next_fit_scan (n j : nat) (i : nat) (p : Process) (s : AllocState * nat)
  : outcome (AllocState * nat) :=
  match n with
  | O => Ok s
  | S n' =>
      b ← read (st_blocks (fst s)) j;
      if size b >=? size p then
        st' ← place i j p (fst s);
        Ok (st', ((j + 1) mod length (st_blocks (fst s)))%nat)
      else next_fit_scan n' ((j + 1) mod length (st_blocks (fst s)))%nat i p s
  end.

(** [bestBlockSize], which starts at [Infinity]. *)
Inductive bound : Type :=
| Infinity
| Finite (z : Z).

Definition below (z : Z) (b : bound) : bool :=
  match b with
  | Infinity => true
  | Finite y => z <? y
  end.

(** The body of the inner loop of bestFit; the state is
    [(bestBlockIndex, bestBlockSize)], [None] for the index [-1]. *)
Definition best_fit_step (blocks : list MemoryBlock) (p : Process) (j : nat)
    (best : option nat * bound) : outcome (option nat * bound) :=
  b ← read blocks j;
  if (size b >=? size p) && below (size b) (snd best)
  then Ok (Some j, Finite (size b))
  else Ok best.

(** The body of the inner loop of worstFit; the state is
    [(worstBlockIndex, worstBlockSize)], [None] for the index [-1]. *)
Definition worst_fit_step (blocks : list MemoryBlock) (p : Process) (j : nat)
    (worst : option nat * Z) : outcome (option nat * Z) :=
  b ← read blocks j;
  if (size b >=? size p) && (size b >? snd worst)
  then Ok (Some j, size b)
  else Ok worst.

(** [if (index !== -1) { ... }] *)
Definition place_if_found (found : option nat) (i : nat) (p : Process) (st : AllocState)
  : outcome AllocState :=
  match found with
  | Some j => place i j p st
  | None => Ok st
  end.

(** The bodies of [for (let i = 0; i < procs.length; i++)]. *)
Definition first_fit_process (procs : list Process) (i : nat) (st : AllocState)
  : outcome AllocState :=
  p ← read procs i;
  first_fit_scan (length (st_blocks st)) 0 i p st.

Definition next_fit_process (procs : list Process) (i : nat) (s : AllocState * nat)
  : outcome (AllocState * nat) :=
  p ← read procs i;
  next_fit_scan (length (st_blocks (fst s))) (snd s) i p s.

Definition best_fit_process (procs : list Process) (i : nat) (st : AllocState)
  : outcome AllocState :=
  p ← read procs i;
  best ← for_loop (length (st_blocks st)) 0 (best_fit_step (st_blocks st) p)
           (None, Infinity);
  place_if_found (fst best) i p st.

Definition worst_fit_process (procs : list Process) (i : nat) (st : AllocState)
  : outcome AllocState :=
  p ← read procs i;
  worst ← for_loop (length (st_blocks st)) 0 (worst_fit_step (st_blocks st) p)
            (None, -1);
  place_if_found (fst worst) i p st.

(** [procs.filter((_, index) => allocation[index] === null)] *)
Definition unallocated (procs : list Process) (allocation : list (option nat))
  : list Process :=
  omap (fun x => x)
    (imap (fun index p =>
             match allocation !! index with
             | Some None => Some p
             | _ => None
             end) procs).

(** [Math.max(...sizes)] for the non-empty list [z :: zs]. *)
Definition maximum (z : Z) (zs : list Z) : Z := foldl Z.max z zs.

(** [blocks.filter(block => block.size > 0 && block.size < largest)
          .reduce((sum, block) => sum + block.size, 0)] *)
Definition too_small_total (blocks : list MemoryBlock) (largest : Z) : Z :=
  foldl (fun sum block => sum + size block) 0
    (filter (fun block => 0 < size block ∧ size block < largest) blocks).

(** The part every strategy ends with: external fragmentation and the
    returned object. *)
Definition report (name : string) (procs : list Process) (st : AllocState)
  : AllocationResult :=
  let unallocatedProcesses := unallocated procs (st_allocation st) in
  let externalFragmentation :=
    match unallocatedProcesses with
    | [] => 0
    | p :: ps =>
        let largestUnallocatedSize := maximum (size p) (size <$> ps) in
        too_small_total (st_blocks st) largestUnallocatedSize
    end in
  {| algorithm := name;
     allocation := st_allocation st;
     internalFragmentation := st_internalFragmentation st;
     externalFragmentation := externalFragmentation;
     totalFragmentation :=
       foldl (fun sum frag => sum + frag) 0 (st_internalFragmentation st)
       + externalFragmentation;
     unallocatedProcesses := id <$> unallocated procs (st_allocation st) |}.

(** The state each strategy reaches after its loop over the processes. *)
Definition firstFit_loop (memoryBlocks : list MemoryBlock) (processes : list Process)
  : outcome AllocState :=
  for_loop (length processes) 0 (first_fit_process processes)
    (initial memoryBlocks processes).

Definition nextFit_loop (memoryBlocks : list MemoryBlock) (processes : list Process)
  : outcome (AllocState * nat) :=
  for_loop (length processes) 0 (next_fit_process processes)
    (initial memoryBlocks processes, 0%nat).

Definition bestFit_loop (memoryBlocks : list MemoryBlock) (processes : list Process)
  : outcome AllocState :=
  for_loop (length processes) 0 (best_fit_process processes)
    (initial memoryBlocks processes).

Definition worstFit_loop (memoryBlocks : list MemoryBlock) (processes : list Process)
  : outcome AllocState :=
  for_loop (length processes) 0 (worst_fit_process processes)
    (initial memoryBlocks processes).

Definition firstFit (memoryBlocks : list MemoryBlock) (processes : list Process)
  : outcome AllocationResult :=
  st ← firstFit_loop memoryBlocks processes;
  Ok (report "First Fit" processes st).

Definition nextFit (memoryBlocks : list MemoryBlock) (processes : list Process)
  : outcome AllocationResult :=
  s ← nextFit_loop memoryBlocks processes;
  Ok (report "Next Fit" processes (fst s)).

Definition bestFit (memoryBlocks : list MemoryBlock) (processes : list Process)
  : outcome AllocationResult :=
  st ← bestFit_loop memoryBlocks processes;
  Ok (report "Best Fit" processes st).

Definition worstFit (memoryBlocks : list MemoryBlock) (processes : list Process)
  : outcome AllocationResult :=
  st ← worstFit_loop memoryBlocks processes;
  Ok (report "Worst Fit" processes st).

(** The four strategies, as runAllAlgorithms lists them. *)
Inductive strategy : Type := FirstFit | NextFit | BestFit | WorstFit.

Definition run (s : strategy) : list MemoryBlock -> list Process -> outcome AllocationResult :=
  match s with
  | FirstFit => firstFit
  | NextFit => nextFit
  | BestFit => bestFit
  | WorstFit => worstFit
  end.

(** The arrays of strategy [s] after its loop over the processes. *)
Definition run_loop (s : strategy) (memoryBlocks : list MemoryBlock)
    (processes : list Process) : outcome AllocState :=
  match s with
  | FirstFit => firstFit_loop memoryBlocks processes
  | NextFit => s ← nextFit_loop memoryBlocks processes; Ok (fst s)
  | BestFit => bestFit_loop memoryBlocks processes
  | WorstFit => worstFit_loop memoryBlocks processes
  end.

End Memory.

(** ** The safety algorithm as the specification words it *)

Module BankersSpec.
Import Bankers.

(** need = max − allocation *)
Definition need_of (max allocation : matrix) : matrix :=
  zip_with (zip_with Z.sub) max allocation.

(** Dimensions that match: as many allocation rows as max rows, every row as
    long as the available vector. *)
Definition consistent (available : vector) (max allocation : matrix) : Prop :=
  length max = length allocation
  /\ Forall (fun row => length row = length available) max
  /\ Forall (fun row => length row = length available) allocation.

(** A process that has not finished: its id, need row and allocation row. *)
Record entry : Type := {
  pid : nat;
  need_row : vector;
  alloc_row : vector
}.

(** All processes, in ascending id order. *)
Definition table (max allocation : matrix) : list entry :=
  imap (fun i rows => {| pid := i; need_row := fst rows; alloc_row := snd rows |})
       (zip (need_of max allocation) allocation).

(** A process is eligible when its need row is pointwise at most the working
    available vector. *)
Definition eligible (need_row avail : vector) : Prop := Forall2 Z.le need_row avail.

#[global] Instance eligible_dec need_row avail : Decision (eligible need_row avail) :=
  Forall2_dec Z.le need_row avail.

(** One pass over the unfinished processes in ascending id order.  An
    eligible process is finished at once: its allocation row is added to the
    working available vector and its id recorded.  The result is the new
    available vector, the processes still unfinished, and the ids finished in
    this pass in the order they finished. *)
Fixpoint scan_pass (avail : vector) (unfinished : list entry)
  : vector * list entry * list nat :=
  match unfinished with
  | [] => (avail, [], [])
  | p :: rest =>
      if decide (eligible (need_row p) avail) then
        let '(avail', still, fin) := scan_pass (zip_with Z.add avail (alloc_row p)) rest in
        (avail', still, pid p :: fin)
      else
        let '(avail', still, fin) := scan_pass avail rest in
        (avail', p :: still, fin)
  end.

(** Passes are repeated until every process has finished (safe, with the
    sequence built so far) or a pass finishes none (unsafe, with an empty
    sequence and the ids of the unfinished processes). *)
Inductive passes : vector -> list entry -> list nat -> SafetyResult -> Prop :=
| passes_all_finished avail seq :
    passes avail [] seq
      {| safe := true; safeSequence := seq; unfinishedProcesses := [] |}
| passes_stuck avail unfinished seq :
    unfinished <> [] ->
    snd (scan_pass avail unfinished) = [] ->
    passes avail unfinished seq
      {| safe := false; safeSequence := []; unfinishedProcesses := pid <$> unfinished |}
| passes_progress avail unfinished seq avail' still fin r :
    unfinished <> [] ->
    scan_pass avail unfinished = (avail', still, fin) ->
    fin <> [] ->
    passes avail' still (seq ++ fin) r ->
    passes avail unfinished seq r.

(** The unfinished processes among [es], given the [finished] flags. *)
Definition pending (finished : list bool) (es : list entry) : list entry :=
  filter (fun e => finished !! pid e = Some false) es.

(** What one iteration of the pass does, written without array indexing. *)
Definition visit_result (nrow arow : vector) (i : nat) (f : bool) (st : SafetyState)
  : SafetyState :=
  if f then st
  else if bool_decide (eligible nrow (st_availableResources st)) then
    {| st_availableResources := zip_with Z.add (st_availableResources st) arow;
       st_finished := <[i := true]> (st_finished st);
       st_safeSequence := st_safeSequence st ++ [i];
       st_count := S (st_count st);
       st_found := true |}
  else st.

Definition safety_algorithm (available : vector) (max allocation : matrix)
    (r : SafetyResult) : Prop :=
  passes available (table max allocation) [] r.

End BankersSpec.

(** ** Requests as the specification words them *)

Module RequestSpec.
Import Bankers BankersSpec.

(** The smallest index at which [request] exceeds [bound], if any. *)
Fixpoint first_over (request bound : vector) : option nat :=
  match request, bound with
  | r :: request', b :: bound' =>
      if r >? b then Some 0%nat else S <$> first_over request' bound'
  | _, _ => None
  end.

(** The state after a request is granted: the request is subtracted from
    available and added to the allocation row of the process. *)
Definition grant (available : vector) (allocation : matrix) (processId : nat)
    (request : vector) : vector * matrix :=
  (zip_with Z.sub available request,
   match allocation !! processId with
   | Some row => <[processId := zip_with Z.add row request]> allocation
   | None => allocation
   end).

(** A request the engine can be handed in a state of [numProcesses]
    processes and [numResources] resource types. *)
Definition request_fits (numProcesses numResources : nat) (req : Request) : Prop :=
  (processId req < numProcesses)%nat /\ length (request req) = numResources.

(** The three denials and the grant, as resourceRequest builds them. *)
Definition exceeds_claim (j : nat) : RequestResult :=
  {| granted := false;
     reason := Some "Request exceeds maximum claim"%string;
     resourceIndex := Some j;
     rr_safeSequence := None;
     unsafeProcesses := None |}.

Definition not_available (j : nat) : RequestResult :=
  {| granted := false;
     reason := Some "Resources not available"%string;
     resourceIndex := Some j;
     rr_safeSequence := None;
     unsafeProcesses := None |}.

Definition request_granted (seq : list nat) : RequestResult :=
  {| granted := true;
     reason := None;
     resourceIndex := None;
     rr_safeSequence := Some seq;
     unsafeProcesses := None |}.

Definition would_be_unsafe (unfinished : list nat) : RequestResult :=
  {| granted := false;
     reason := Some "Resulting state would be unsafe"%string;
     resourceIndex := None;
     rr_safeSequence := None;
     unsafeProcesses := Some unfinished |}.

(** The verdict on the state a grant would lead to. *)
Definition safety_verdict (r : SafetyResult) : RequestResult :=
  if safe r then request_granted (safeSequence r)
  else would_be_unsafe (unfinishedProcesses r).

(** The requests replayed in the given order against a running
    (available, allocation) state: a granted request moves the state on by
    [grant], a denied one leaves it as it was. *)
Fixpoint replay (max : matrix) (available : vector) (allocation : matrix)
    (reqs : list Request) : outcome (list RequestOutcome) :=
  match reqs with
  | [] => Ok []
  | req :: reqs' =>
      r ← resourceRequest available max allocation (processId req) (request req);
      let '(available', allocation') :=
        if granted r then grant available allocation (processId req) (request req)
        else (available, allocation) in
      rest ← replay max available' allocation' reqs';
      Ok ({| ro_processId := processId req;
             ro_request := request req;
             ro_result := r |} :: rest)
  end.

End RequestSpec.

Module RequestProps.
Import Bankers BankersSpec RequestSpec.

(** [j] is the smallest index at which [request] exceeds [bound]. *)
Definition first_excess (request bound : vector) (j : nat) : Prop :=
  (exists r b, request !! j = Some r /\ bound !! j = Some b /\ r > b)
  /\ (forall k r b, (k < j)%nat -> request !! k = Some r -> bound !! k = Some b -> r <= b).

(** [request] exceeds [bound] nowhere. *)
Definition within (request bound : vector) : Prop :=
  forall k r b, request !! k = Some r -> bound !! k = Some b -> r <= b.

(** The two results isSafeState can give for [numProcesses] processes. *)
Definition safety_shape (numProcesses : nat) (r : SafetyResult) : Prop :=
  (safe r = true /\ unfinishedProcesses r = []
   /\ length (safeSequence r) = numProcesses)
  \/ (safe r = false /\ safeSequence r = [] /\ unfinishedProcesses r <> []).

(** The four results resourceRequest can give for [numResources] resource
    types. *)
Definition request_shape (numResources : nat) (r : RequestResult) : Prop :=
  (exists j, (j < numResources)%nat /\ r = exceeds_claim j)
  \/ (exists j, (j < numResources)%nat /\ r = not_available j)
  \/ (exists seq, r = request_granted seq)
  \/ (exists unfinished, unfinished <> [] /\ r = would_be_unsafe unfinished).

End RequestProps.

(** ** The resources the safety algorithm accounts for *)

Module Conservation.
Import Bankers BankersSpec.

(** Entry [j] of a vector, 0 past its end. *)
Definition entry_at (j : nat) (v : vector) : Z := default 0 (v !! j).

(** The measure [w] of the allocation rows whose flag is set, summed. *)
Definition held (w : vector -> Z) (allocation : matrix) (flags : list bool) : Z :=
  sum_of (zip_with (fun row (flag : bool) => if flag then w row else 0) allocation flags).

(** A measure that adds up over the release of an allocation row of length
    [m]. *)
Definition additive (m : nat) (w : vector -> Z) : Prop :=
  forall a r, length a = m -> length r = m -> w (zip_with Z.add a r) = w a + w r.

(** The state isSafeState starts its loop in. *)
Definition initial_state (available : vector) (max : matrix) : SafetyState :=
  {| st_availableResources := available;
     st_finished := replicate (length max) false;
     st_safeSequence := [];
     st_count := 0;
     st_found := false |}.

(** The states the loops of isSafeState go through: the initial one, the
    one after each iteration over a process, and the one at the start of each
    pass (where [found] is reset). *)
Inductive reachable (available : vector) (max allocation : matrix)
  : SafetyState -> Prop :=
| reach_initial :
    reachable available max allocation (initial_state available max)
| reach_visit need st i st' :
    reachable available max allocation st ->
    compute_need max allocation = Ok need ->
    (i < length max)%nat ->
    visit need allocation (length available) i st = Ok st' ->
    reachable available max allocation st'
| reach_pass st :
    reachable available max allocation st ->
    reachable available max allocation (set_found false st).

(** Under measure [w]: what is in the working available vector, what the
    unfinished processes hold, and what the finished processes have given
    back. *)
Definition on_hand (w : vector -> Z) (st : SafetyState) : Z :=
  w (st_availableResources st).

Definition held_by_unfinished (w : vector -> Z) (allocation : matrix) (st : SafetyState) : Z :=
  held w allocation (negb <$> st_finished st).

Definition returned_by_finished (w : vector -> Z) (allocation : matrix) (st : SafetyState) : Z :=
  held w allocation (st_finished st).

(** The sum of the specification: what the input, [available], has
    available, what the unfinished processes hold, and what the finished
    processes have given back.  isSafeState never writes to [available]; its
    working copy is [availableResources]. *)
Definition stated_sum (w : vector -> Z) (available : vector) (allocation : matrix)
    (st : SafetyState) : Z :=
  w available + held_by_unfinished w allocation st + returned_by_finished w allocation st.

(** What the working available vector and the unfinished processes hold. *)
Definition conserved_sum (w : vector -> Z) (allocation : matrix) (st : SafetyState) : Z :=
  on_hand w st + held_by_unfinished w allocation st.

(** The three terms with the working available vector in the place of
    [available]. *)
Definition working_sum (w : vector -> Z) (allocation : matrix) (st : SafetyState) : Z :=
  on_hand w st + held_by_unfinished w allocation st + returned_by_finished w allocation st.

End Conservation.

(** ** The strategies as choices of a block per process *)

Module MemorySpec.
Import Memory.

(** A block once a process has been placed in it. *)
Definition zeroed (b : MemoryBlock) : MemoryBlock := {| id := id b; size := 0 |}.

(** The arrays after process [i] has been placed in block [j], which was [b]. *)
Definition placed (i j : nat) (b : MemoryBlock) (p : Process) (st : AllocState)
  : AllocState :=
  {| st_blocks := <[j := zeroed b]> (st_blocks st);
     st_allocation := <[i := Some j]> (st_allocation st);
     st_internalFragmentation := <[j := size b - size p]> (st_internalFragmentation st) |}.

Definition apply_choice (i : nat) (p : Process) (choice : option nat) (st : AllocState)
  : AllocState :=
  match choice with
  | Some j =>
      match st_blocks st !! j with
      | Some b => placed i j b p st
      | None => st
      end
  | None => st
  end.

(** A block of the current sizes that is large enough for the process. *)
Definition fits (p : Process) (b : MemoryBlock) : Prop := size p <= size b.

(** First fit: the first block from index [j] on that is large enough. *)
Fixpoint first_from (j : nat) (blocks : list MemoryBlock) (p : Process) : option nat :=
  match blocks with
  | [] => None
  | b :: blocks' => if size b >=? size p then Some j else first_from (S j) blocks' p
  end.

(** Next fit: at most [n] blocks tried in circular order from block [j]. *)
Fixpoint next_from (n j : nat) (blocks : list MemoryBlock) (p : Process) : option nat :=
  match n with
  | O => None
  | S n' =>
      match blocks !! j with
      | Some b =>
          if size b >=? size p then Some j
          else next_from n' ((j + 1) mod length blocks)%nat blocks p
      | None => None
      end
  end.

(** Best fit: the running best over the blocks from index [j] on. *)
Fixpoint best_from (j : nat) (blocks : list MemoryBlock) (p : Process)
    (best : option nat * bound) : option nat * bound :=
  match blocks with
  | [] => best
  | b :: blocks' =>
      best_from (S j) blocks' p
        (if (size b >=? size p) && below (size b) (snd best)
         then (Some j, Finite (size b)) else best)
  end.

(** Worst fit: the running worst over the blocks from index [j] on. *)
Fixpoint worst_from (j : nat) (blocks : list MemoryBlock) (p : Process)
    (worst : option nat * Z) : option nat * Z :=
  match blocks with
  | [] => worst
  | b :: blocks' =>
      worst_from (S j) blocks' p
        (if (size b >=? size p) && (size b >? snd worst)
         then (Some j, size b) else worst)
  end.

(** What a strategy decides for one process: a block or none, from the
    current blocks and what it remembers from earlier processes (nextFit its
    [lastAllocatedIndex], the others nothing). *)
Definition chooser (M : Type) : Type :=
  M -> list MemoryBlock -> Process -> option nat * M.

Definition choose_first : chooser unit :=
  fun _ blocks p => (first_from 0 blocks p, tt).

Definition choose_next : chooser nat :=
  fun lastAllocatedIndex blocks p =>
    match next_from (length blocks) lastAllocatedIndex blocks p with
    | Some j => (Some j, ((j + 1) mod length blocks)%nat)
    | None => (None, lastAllocatedIndex)
    end.

Definition choose_best : chooser unit :=
  fun _ blocks p => (fst (best_from 0 blocks p (None, Infinity)), tt).

Definition choose_worst : chooser unit :=
  fun _ blocks p => (fst (worst_from 0 blocks p (None, -1)), tt).

(** One process handled, and the processes handled in input order from
    index [i]. *)
Definition choice_step {M} (choose : chooser M) (i : nat) (p : Process)
    (s : AllocState * M) : AllocState * M :=
  (apply_choice i p (fst (choose (snd s) (st_blocks (fst s)) p)) (fst s),
   snd (choose (snd s) (st_blocks (fst s)) p)).

Fixpoint fold_indexed {A St} (f : nat -> A -> St -> St) (i : nat) (l : list A) (s : St)
  : St :=
  match l with
  | [] => s
  | x :: l' => fold_indexed f (S i) l' (f i x s)
  end.

Definition run_choices {M} (choose : chooser M) (i : nat) (procs : list Process)
    (s : AllocState * M) : AllocState * M :=
  fold_indexed (choice_step choose) i procs s.

(** A chooser only picks blocks that are large enough. *)
Definition sound {M} (choose : chooser M) : Prop :=
  forall m blocks p j,
    fst (choose m blocks p) = Some j ->
    exists b, blocks !! j = Some b /\ fits p b.

(** [j] is the best fit for [p]: large enough, no larger than any block that
    is large enough, and the lowest index among those of its size. *)
Definition best_fit (blocks : list MemoryBlock) (p : Process) (j : nat) : Prop :=
  exists b, blocks !! j = Some b /\ fits p b
    /\ forall k b', blocks !! k = Some b' -> fits p b' ->
         size b <= size b' /\ (size b' = size b -> (j <= k)%nat).

(** [j] is the worst fit for [p]: large enough, no smaller than any block
    that is large enough, and the lowest index among those of its size. *)
Definition worst_fit (blocks : list MemoryBlock) (p : Process) (j : nat) : Prop :=
  exists b, blocks !! j = Some b /\ fits p b
    /\ forall k b', blocks !! k = Some b' -> fits p b' ->
         size b' <= size b /\ (size b' = size b -> (j <= k)%nat).

(** No block is large enough for [p]. *)
Definition no_fit (blocks : list MemoryBlock) (p : Process) : Prop :=
  forall k b, blocks !! k = Some b -> ~ fits p b.

(** The choice made for process [i] is that of the best (worst) fit. *)
Definition chooses (fit : list MemoryBlock -> Process -> nat -> Prop)
    (blocks : list MemoryBlock) (p : Process) (choice : option nat) : Prop :=
  match choice with
  | Some j => fit blocks p j
  | None => no_fit blocks p
  end.

End MemorySpec.

Module MemoryRun.
Import Memory MemorySpec.

(** nextFit keeps [lastAllocatedIndex] inside the block list. *)
Definition last_in_range (s : AllocState * nat) : Prop :=
  (snd s < length (st_blocks (fst s)))%nat \/ (snd s = 0%nat).

Section Run.
Context {M : Type}.
Variables (choose : chooser M) (blocks : list MemoryBlock) (procs : list Process) (m0 : M).

(** The arrays (and the memory of the chooser) once the first [k] processes
    have been handled. *)
Definition state_after (k : nat) : AllocState * M :=
  run_choices choose 0 (take k procs) (initial blocks procs, m0).

(** The choice made for process [i]. *)
Definition choice_at (i : nat) : option nat :=
  match procs !! i with
  | Some p => fst (choose (snd (state_after i)) (st_blocks (fst (state_after i))) p)
  | None => None
  end.

End Run.

(** What holds of the arrays [state k] that [k] processes leave, [choice i]
    being the block chosen for process [i]. *)
Record run_invariant (blocks : list MemoryBlock) (procs : list Process)
    (state : nat -> AllocState) (choice : nat -> option nat) (k : nat) : Prop := {
  inv_blocks : length (st_blocks (state k)) = length blocks;
  inv_allocation : length (st_allocation (state k)) = length procs;
  inv_fragmentation : length (st_internalFragmentation (state k)) = length blocks;
  inv_pending : forall i, (k <= i < length procs)%nat ->
    st_allocation (state k) !! i = Some None;
  inv_decided : forall i, (i < k)%nat ->
    st_allocation (state k) !! i = Some (choice i);
  inv_original : forall j b', st_blocks (state k) !! j = Some b' ->
    exists b, blocks !! j = Some b /\ (b' = b \/ b' = zeroed b);
  inv_untouched : forall j, (forall i, (i < k)%nat -> choice i <> Some j) ->
    st_blocks (state k) !! j = blocks !! j
    /\ st_internalFragmentation (state k) !! j = (fun _ => 0) <$> blocks !! j;
  inv_fits : forall i j p, (i < k)%nat -> procs !! i = Some p ->
    choice i = Some j ->
    exists b, st_blocks (state i) !! j = Some b /\ fits p b;
  inv_recorded : forall i j p b, (i < k)%nat -> procs !! i = Some p ->
    choice i = Some j ->
    st_blocks (state i) !! j = Some b ->
    (forall i', (i < i' < k)%nat -> choice i' <> Some j) ->
    st_internalFragmentation (state k) !! j = Some (size b - size p);
  inv_consumed : forall i j, (i < k)%nat -> choice i = Some j ->
    exists b, st_blocks (state k) !! j = Some b /\ size b = 0
}.


(** The chooser of each strategy and what it starts with. *)
Definition loop_choices (s : strategy) (blocks : list MemoryBlock) (procs : list Process)
    (k : nat) : AllocState :=
  match s with
  | FirstFit => fst (state_after choose_first blocks procs tt k)
  | NextFit => fst (state_after choose_next blocks procs 0%nat k)
  | BestFit => fst (state_after choose_best blocks procs tt k)
  | WorstFit => fst (state_after choose_worst blocks procs tt k)
  end.

Definition strategy_choice (s : strategy) (blocks : list MemoryBlock) (procs : list Process)
    (i : nat) : option nat :=
  match s with
  | FirstFit => choice_at choose_first blocks procs tt i
  | NextFit => choice_at choose_next blocks procs 0%nat i
  | BestFit => choice_at choose_best blocks procs tt i
  | WorstFit => choice_at choose_worst blocks procs tt i
  end.

Definition strategy_name (s : strategy) : string :=
  match s with
  | FirstFit => "First Fit"
  | NextFit => "Next Fit"
  | BestFit => "Best Fit"
  | WorstFit => "Worst Fit"
  end.

End MemoryRun.

Module FitSpec.
Import Memory MemorySpec.

(** The running best of bestFit over the blocks [pre] scanned so far. *)
Definition best_so_far (pre : list MemoryBlock) (p : Process) (best : option nat * bound)
  : Prop :=
  match fst best with
  | None => snd best = Infinity /\ no_fit pre p
  | Some i => best_fit pre p i
              /\ exists b, pre !! i = Some b /\ snd best = Finite (size b)
  end.

(** The running worst of worstFit over the blocks [pre] scanned so far. *)
Definition worst_so_far (pre : list MemoryBlock) (p : Process) (worst : option nat * Z)
  : Prop :=
  match fst worst with
  | None => snd worst = -1 /\ no_fit pre p
  | Some i => worst_fit pre p i
              /\ exists b, pre !! i = Some b /\ snd worst = size b
  end.

End FitSpec.

Module FragmentationSpec.
Import Memory MemorySpec.

(** [L] is the size of the largest process that was given no block. *)
Definition largest_unallocated (procs : list Process) (allocation : list (option nat))
    (L : Z) : Prop :=
  (exists i p, procs !! i = Some p /\ allocation !! i = Some None /\ size p = L)
  /\ (forall i p, procs !! i = Some p -> allocation !! i = Some None -> size p <= L).

(** The sizes of the blocks that are still free and smaller than [L], summed. *)
Definition free_below (blocks : list MemoryBlock) (L : Z) : Z :=
  sum_of (size <$> filter (fun b => 0 < size b /\ size b < L) blocks).

(** Block [j] was given to no process. *)
Definition never_chosen (allocation : list (option nat)) (j : nat) : Prop :=
  forall i, allocation !! i <> Some (Some j).

(** Block [j] was given to process [i] and to no later process. *)
Definition last_chosen (allocation : list (option nat)) (i j : nat) : Prop :=
  allocation !! i = Some (Some j)
  /\ forall i', (i < i')%nat -> allocation !! i' <> Some (Some j).

End FragmentationSpec.

(** ** The engine on a store of arrays

    The same operations once more, this time on the arrays the caller hands
    over by reference.  The store is a list of objects and a reference is an
    index in it; an array literal, a spread or a JSON round trip allocates at
    the end of the store, an indexed assignment or a push overwrites the
    object at its reference.  Results are returned by value. *)

Module Store.

Abbreviation loc := nat.

Inductive value : Type :=
| Num (z : Z)
| Ref (l : loc)
| Flag (b : bool)
| Null.

Inductive object : Type :=
| Arr (elems : list value)               (* an array *)
| Rec (id size : Z)                      (* { id, size } *)
| Req (processId : nat) (request : loc). (* { processId, request } *)

Abbreviation heap := (list object).

Definition prog (A : Type) : Type := heap -> outcome (A * heap).

#[global] Instance prog_ret : MRet prog := fun A a h => Ok (a, h).
#[global] Instance prog_bind : MBind prog := fun A B f m h =>
  match m h with
  | Ok (a, h') => f a h'
  | Fault e => Fault e
  end.

Definition fail {A} (e : fault) : prog A := fun _ => Fault e.

Definition alloc (o : object) : prog loc := fun h => Ok (length h, h ++ [o]).

Definition load (l : loc) : prog object := fun h =>
  match h !! l with
  | Some o => Ok (o, h)
  | None => Fault OutOfBounds
  end.

Definition store (l : loc) (o : object) : prog unit := fun h =>
  match h !! l with
  | Some _ => Ok (tt, <[l := o]> h)
  | None => Fault OutOfBounds
  end.

Definition num (v : value) : prog Z :=
  match v with Num z => mret z | _ => fail WrongKind end.

Definition ref (v : value) : prog loc :=
  match v with Ref l => mret l | _ => fail WrongKind end.

Definition flag (v : value) : prog bool :=
  match v with Flag b => mret b | _ => fail WrongKind end.

Definition elems (l : loc) : prog (list value) :=
  o ← load l;
  match o with Arr es => mret es | _ => fail WrongKind end.

(** [a.length] *)
Definition length_of (l : loc) : prog nat := es ← elems l; mret (length es).

(** [a[j]] *)
Definition index (l : loc) (j : nat) : prog value :=
  es ← elems l;
  match es !! j with Some v => mret v | None => fail OutOfBounds end.

(** [a[j] = v], for [j] inside the array *)
Definition set_index (l : loc) (j : nat) (v : value) : prog unit :=
  es ← elems l;
  if (j <? length es)%nat then store l (Arr (<[j := v]> es)) else fail OutOfBounds.

(** [a.push(v)] *)
Definition push (l : loc) (v : value) : prog unit :=
  es ← elems l; store l (Arr (es ++ [v])).

(** [r.size] and [r.size = z] for a record [{ id, size }] *)
Definition size_of (r : loc) : prog Z :=
  o ← load r;
  match o with Rec _ s => mret s | _ => fail WrongKind end.

Definition set_size (r : loc) (z : Z) : prog unit :=
  o ← load r;
  match o with Rec i _ => store r (Rec i z) | _ => fail WrongKind end.

Fixpoint for_each {St : Type} (n lo : nat) (body : nat -> St -> prog St) (s : St)
  : prog St :=
  match n with
  | O => mret s
  | S n' => s' ← body lo s; for_each n' (S lo) body s'
  end.

Fixpoint map_each {A B : Type} (lo : nat) (f : nat -> A -> prog B) (a : list A)
  : prog (list B) :=
  match a with
  | [] => mret []
  | x :: a' => y ← f lo x; ys ← map_each (S lo) f a'; mret (y :: ys)
  end.

(** The numbers an array holds. *)
Definition numbers (l : loc) : prog (list Z) :=
  es ← elems l; map_each 0 (fun _ v => num v) es.

(** [[...a]] for an array of numbers *)
Definition spread (l : loc) : prog loc :=
  zs ← numbers l; alloc (Arr (Num <$> zs)).

(** [JSON.parse(JSON.stringify(m))] for an array of arrays of numbers *)
Definition json_copy_matrix (l : loc) : prog loc :=
  rows ← elems l;
  copies ← map_each 0 (fun _ v => r ← ref v; spread r) rows;
  alloc (Arr (Ref <$> copies)).

(** [JSON.parse(JSON.stringify(a))] for an array of records [{ id, size }] *)
Definition json_copy_records (l : loc) : prog loc :=
  recs ← elems l;
  copies ← map_each 0 (fun _ v =>
              r ← ref v; o ← load r;
              match o with
              | Rec i s => alloc (Rec i s)
              | _ => fail WrongKind
              end) recs;
  alloc (Arr (Ref <$> copies)).

(** The rows of a matrix, by value. *)
Definition matrix_rows (l : loc) : prog (list (list Z)) :=
  rows ← elems l; map_each 0 (fun _ v => r ← ref v; numbers r) rows.

(** The records of an array, by value. *)
Definition records (l : loc) : prog (list Memory.sized) :=
  recs ← elems l;
  map_each 0 (fun _ v =>
    r ← ref v; o ← load r;
    match o with
    | Rec i s => mret {| Memory.id := i; Memory.size := s |}
    | _ => fail WrongKind
    end) recs.

(** *** The Banker's algorithm *)

(** [maxDemand.map((process, i) =>
       process.map((resource, j) => resource - currentAllocation[i][j]))] *)
Definition compute_need (maxDemand currentAllocation : loc) : prog loc :=
  rows ← elems maxDemand;
  need ← map_each 0 (fun i v =>
            process ← ref v;
            cols ← elems process;
            row ← map_each 0 (fun j rv =>
                     resource ← num rv;
                     arow ← index currentAllocation i ≫= ref;
                     a ← index arow j ≫= num;
                     mret (Num (resource - a))) cols;
            r ← alloc (Arr row);
            mret (Ref r)) rows;
  alloc (Arr need).

Section SafetyLoop.
Variables (need currentAllocation availableResources finished safeSequence : loc).
Variables (numProcesses numResources : nat).

Fixpoint can_allocate (n j : nat) (i : nat) : prog bool :=
  match n with
  | O => mret true
  | S n' =>
      row ← index need i ≫= ref;
      x ← index row j ≫= num;
      a ← index availableResources j ≫= num;
      if x >? a then mret false else can_allocate n' (S j) i
  end.

(** [availableResources[j] += currentAllocation[i][j]] *)
Definition release_one (i j : nat) (_ : unit) : prog unit :=
  row ← index currentAllocation i ≫= ref;
  x ← index row j ≫= num;
  a ← index availableResources j ≫= num;
  set_index availableResources j (Num (a + x)).

(** The body of [for (let i = 0; i < numProcesses; i++)]; the state is
    [(count, found)]. *)
Definition visit (i : nat) (s : nat * bool) : prog (nat * bool) :=
  f ← index finished i ≫= flag;
  if f : bool then mret s
  else
    canAllocate ← can_allocate numResources 0 i;
    if canAllocate : bool then
      _ ← for_each numResources 0 (release_one i) tt;
      _ ← set_index finished i (Flag true);
      _ ← push safeSequence (Num (Z.of_nat i));
      mret (S (fst s), true)
    else mret s.

Fixpoint while_unfinished (fuel : nat) (count : nat) : prog Bankers.SafetyResult :=
  if (count <? numProcesses)%nat then
    match fuel with
    | O => fail OutOfFuel
    | S fuel' =>
        '(count', found) ← for_each numProcesses 0 visit (count, false);
        if found : bool then while_unfinished fuel' count'
        else
          fs ← elems finished;
          flags ← map_each 0 (fun _ v => flag v) fs;
          mret {| Bankers.safe := false;
                  Bankers.safeSequence := [];
                  Bankers.unfinishedProcesses := Bankers.unfinished_ids flags |}
    end
  else
    seq ← numbers safeSequence;
    mret {| Bankers.safe := true;
            Bankers.safeSequence := Z.to_nat <$> seq;
            Bankers.unfinishedProcesses := [] |}.
End SafetyLoop.

Definition isSafeState (available max allocation : loc) : prog Bankers.SafetyResult :=
  availableResources ← spread available;
  maxDemand ← json_copy_matrix max;
  currentAllocation ← json_copy_matrix allocation;
  need ← compute_need maxDemand currentAllocation;
  numProcesses ← length_of maxDemand;
  numResources ← length_of available;
  finished ← alloc (Arr (replicate numProcesses (Flag false)));
  safeSequence ← alloc (Arr []);
  while_unfinished need currentAllocation availableResources finished safeSequence
    numProcesses numResources numProcesses 0.

Fixpoint first_exceeding (n j : nat) (request : loc) (bound : nat -> prog Z)
  : prog (option nat) :=
  match n with
  | O => mret None
  | S n' =>
      r ← index request j ≫= num;
      b ← bound j;
      if r >? b then mret (Some j) else first_exceeding n' (S j) request bound
  end.

(** [availableResources[j] -= request[j];
     currentAllocation[processId][j] += request[j];
     need[processId][j] -= request[j]] *)
Definition tentative_one (availableResources currentAllocation need : loc)
    (processId : nat) (request : loc) (j : nat) (_ : unit) : prog unit :=
  r ← index request j ≫= num;
  a ← index availableResources j ≫= num;
  _ ← set_index availableResources j (Num (a - r));
  arow ← index currentAllocation processId ≫= ref;
  x ← index arow j ≫= num;
  _ ← set_index arow j (Num (x + r));
  nrow ← index need processId ≫= ref;
  y ← index nrow j ≫= num;
  set_index nrow j (Num (y - r)).

Definition resourceRequest (available max allocation : loc) (processId : nat)
    (request : loc) : prog Bankers.RequestResult :=
  availableResources ← spread available;
  maxDemand ← json_copy_matrix max;
  currentAllocation ← json_copy_matrix allocation;
  need ← compute_need maxDemand currentAllocation;
  numResources ← length_of available;
  over ← first_exceeding numResources 0 request
            (fun j => row ← index need processId ≫= ref; index row j ≫= num);
  match over with
  | Some j => mret (RequestSpec.exceeds_claim j)
  | None =>
      short ← first_exceeding numResources 0 request
                 (fun j => index availableResources j ≫= num);
      match short with
      | Some j => mret (RequestSpec.not_available j)
      | None =>
          _ ← for_each numResources 0
                (tentative_one availableResources currentAllocation need
                               processId request) tt;
          safetyResult ← isSafeState availableResources maxDemand currentAllocation;
          mret (RequestSpec.safety_verdict safetyResult)
      end
  end.

(** [currentAvailable[j] -= request[j];
     currentAllocation[processId][j] += request[j]] *)
Definition commit_one (currentAvailable currentAllocation : loc) (processId : nat)
    (request : loc) (j : nat) (_ : unit) : prog unit :=
  r ← index request j ≫= num;
  a ← index currentAvailable j ≫= num;
  _ ← set_index currentAvailable j (Num (a - r));
  row ← index currentAllocation processId ≫= ref;
  x ← index row j ≫= num;
  set_index row j (Num (x + r)).

(** The body of [for (const req of requests)]; the state is
    [requestResults]. *)
Definition process_request (max currentAvailable currentAllocation : loc) (v : value)
    (results : list Bankers.RequestOutcome) : prog (list Bankers.RequestOutcome) :=
  req ← ref v;
  o ← load req;
  match o with
  | Req processId request =>
      requestResult ← resourceRequest currentAvailable max currentAllocation
                         processId request;
      asked ← numbers request;
      let results' :=
        results ++ [{| Bankers.ro_processId := processId;
                       Bankers.ro_request := asked;
                       Bankers.ro_result := requestResult |}] in
      if Bankers.granted requestResult then
        n ← length_of request;
        _ ← for_each n 0 (commit_one currentAvailable currentAllocation
                                     processId request) tt;
        mret results'
      else mret results'
  | _ => fail WrongKind
  end.

Fixpoint process_requests (max currentAvailable currentAllocation : loc)
    (reqs : list value) (results : list Bankers.RequestOutcome)
  : prog (list Bankers.RequestOutcome) :=
  match reqs with
  | [] => mret results
  | v :: reqs' =>
      results' ← process_request max currentAvailable currentAllocation v results;
      process_requests max currentAvailable currentAllocation reqs' results'
  end.

(** runBankersAlgorithm on the four fields of [data]. *)
Definition runBankersAlgorithm (available max allocation : loc) (requests : option loc)
  : prog Bankers.SimulationResult :=
  initialSafetyCheck ← isSafeState available max allocation;
  requestResults ←
    match requests with
    | Some requests =>
        reqs ← elems requests;
        if Bankers.safe initialSafetyCheck && (0 <? length reqs)%nat then
          currentAvailable ← spread available;
          currentAllocation ← json_copy_matrix allocation;
          process_requests max currentAvailable currentAllocation reqs []
        else mret []
    | None => mret []
    end;
  mret {| Bankers.initialState :=
            {| Bankers.safe := Bankers.safe initialSafetyCheck;
               Bankers.safeSequence := Bankers.safeSequence initialSafetyCheck;
               Bankers.unfinishedProcesses :=
                 Bankers.unfinishedProcesses initialSafetyCheck |};
          Bankers.requestResults := requestResults |}.

(** *** The block-allocation strategies *)

Section Strategy.
Variables (blocks procs allocation internalFragmentation : loc).

(** [allocation[i] = j;
     internalFragmentation[j] = blocks[j].size - procs[i].size;
     blocks[j].size = 0] *)
Definition place (i j : nat) : prog unit :=
  _ ← set_index allocation i (Num (Z.of_nat j));
  b ← index blocks j ≫= ref;
  bsize ← size_of b;
  p ← index procs i ≫= ref;
  psize ← size_of p;
  _ ← set_index internalFragmentation j (Num (bsize - psize));
  set_size b 0.

(** [blocks[j].size >= procs[i].size] *)
Definition large_enough (i j : nat) : prog bool :=
  b ← index blocks j ≫= ref;
  bsize ← size_of b;
  p ← index procs i ≫= ref;
  psize ← size_of p;
  mret (bsize >=? psize).

Fixpoint first_fit_scan (n j : nat) (i : nat) : prog unit :=
  match n with
  | O => mret tt
  | S n' =>
      fits ← large_enough i j;
      if fits : bool then place i j else first_fit_scan n' (S j) i
  end.

Fixpoint next_fit_scan (n j : nat) (numBlocks : nat) (i : nat) (lastAllocatedIndex : nat)
  : prog nat :=
  match n with
  | O => mret lastAllocatedIndex
  | S n' =>
      fits ← large_enough i j;
      if fits : bool then
        _ ← place i j;
        mret ((j + 1) mod numBlocks)%nat
      else next_fit_scan n' ((j + 1) mod numBlocks)%nat numBlocks i lastAllocatedIndex
  end.

Definition best_fit_step (i j : nat) (best : option nat * Memory.bound)
  : prog (option nat * Memory.bound) :=
  b ← index blocks j ≫= ref;
  bsize ← size_of b;
  p ← index procs i ≫= ref;
  psize ← size_of p;
  if (bsize >=? psize) && Memory.below bsize (snd best)
  then mret (Some j, Memory.Finite bsize)
  else mret best.

Definition worst_fit_step (i j : nat) (worst : option nat * Z)
  : prog (option nat * Z) :=
  b ← index blocks j ≫= ref;
  bsize ← size_of b;
  p ← index procs i ≫= ref;
  psize ← size_of p;
  if (bsize >=? psize) && (bsize >? snd worst)
  then mret (Some j, bsize)
  else mret worst.

Definition place_if_found (found : option nat) (i : nat) : prog unit :=
  match found with
  | Some j => place i j
  | None => mret tt
  end.

(** The end of every strategy: the arrays are read and the result built
    from them as in [Memory.report]. *)
Definition report (name : string) : prog Memory.AllocationResult :=
  bs ← records blocks;
  ps ← records procs;
  chosen ← elems allocation;
  choices ← map_each 0 (fun _ v =>
               match v with
               | Null => mret None
               | Num z => mret (Some (Z.to_nat z))
               | _ => fail WrongKind
               end) chosen;
  frags ← numbers internalFragmentation;
  mret (Memory.report name ps
          {| Memory.st_blocks := bs;
             Memory.st_allocation := choices;
             Memory.st_internalFragmentation := frags |}).
End Strategy.

(** The beginning of every strategy: the copies and the two result arrays. *)
Definition prepare (memoryBlocks processes : loc) : prog (loc * loc * loc * loc) :=
  blocks ← json_copy_records memoryBlocks;
  procs ← json_copy_records processes;
  numProcs ← length_of procs;
  numBlocks ← length_of blocks;
  allocation ← alloc (Arr (replicate numProcs Null));
  internalFragmentation ← alloc (Arr (replicate numBlocks (Num 0)));
  mret (blocks, procs, allocation, internalFragmentation).

Definition firstFit (memoryBlocks processes : loc) : prog Memory.AllocationResult :=
  '(blocks, procs, allocation, internalFragmentation) ← prepare memoryBlocks processes;
  numProcs ← length_of procs;
  numBlocks ← length_of blocks;
  _ ← for_each numProcs 0 (fun i _ =>
         first_fit_scan blocks procs allocation internalFragmentation numBlocks 0 i) tt;
  report blocks procs allocation internalFragmentation "First Fit".

Definition nextFit (memoryBlocks processes : loc) : prog Memory.AllocationResult :=
  '(blocks, procs, allocation, internalFragmentation) ← prepare memoryBlocks processes;
  numProcs ← length_of procs;
  numBlocks ← length_of blocks;
  _ ← for_each numProcs 0 (fun i lastAllocatedIndex =>
         next_fit_scan blocks procs allocation internalFragmentation
                       numBlocks lastAllocatedIndex numBlocks i lastAllocatedIndex)
       0%nat;
  report blocks procs allocation internalFragmentation "Next Fit".

Definition bestFit (memoryBlocks processes : loc) : prog Memory.AllocationResult :=
  '(blocks, procs, allocation, internalFragmentation) ← prepare memoryBlocks processes;
  numProcs ← length_of procs;
  numBlocks ← length_of blocks;
  _ ← for_each numProcs 0 (fun i _ =>
         best ← for_each numBlocks 0 (best_fit_step blocks procs i)
                  (None, Memory.Infinity);
         place_if_found blocks procs allocation internalFragmentation (fst best) i) tt;
  report blocks procs allocation internalFragmentation "Best Fit".

Definition worstFit (memoryBlocks processes : loc) : prog Memory.AllocationResult :=
  '(blocks, procs, allocation, internalFragmentation) ← prepare memoryBlocks processes;
  numProcs ← length_of procs;
  numBlocks ← length_of blocks;
  _ ← for_each numProcs 0 (fun i _ =>
         worst ← for_each numBlocks 0 (worst_fit_step blocks procs i) (None, -1);
         place_if_found blocks procs allocation internalFragmentation (fst worst) i) tt;
  report blocks procs allocation internalFragmentation "Worst Fit".

End Store.

(** ** What a call leaves of the caller's store *)

Module Frame.
Import Store.

(** Every object of [h] is in [h'], at the same reference. *)
Definition unchanged (h h' : heap) : Prop :=
  forall l o, h !! l = Some o -> h' !! l = Some o.

(** The calls of the engine, on references into the store. *)
Inductive call : Type :=
| IsSafeState (available max allocation : loc)
| ResourceRequest (available max allocation : loc) (processId : nat) (request : loc)
| RunBankersAlgorithm (available max allocation : loc) (requests : option loc)
| FirstFit (memoryBlocks processes : loc)
| NextFit (memoryBlocks processes : loc)
| BestFit (memoryBlocks processes : loc)
| WorstFit (memoryBlocks processes : loc).

(** What a call returns. *)
Inductive result : Type :=
| Safety (r : Bankers.SafetyResult)
| Answer (r : Bankers.RequestResult)
| Simulation (r : Bankers.SimulationResult)
| Allocation (r : Memory.AllocationResult).

(** What a call returns, and the store it leaves. *)
Definition on_store (c : call) : prog result :=
  match c with
  | IsSafeState a m al => r ← isSafeState a m al; mret (Safety r)
  | ResourceRequest a m al p q => r ← resourceRequest a m al p q; mret (Answer r)
  | RunBankersAlgorithm a m al rs => r ← runBankersAlgorithm a m al rs; mret (Simulation r)
  | FirstFit b p => r ← firstFit b p; mret (Allocation r)
  | NextFit b p => r ← nextFit b p; mret (Allocation r)
  | BestFit b p => r ← bestFit b p; mret (Allocation r)
  | WorstFit b p => r ← worstFit b p; mret (Allocation r)
  end.

(** The store a call leaves. *)
Definition store_after (c : call) (h : heap) : outcome heap :=
  '(_, h') ← on_store c h; Ok h'.

(** A value, an object, that holds no reference below [base]. *)
Definition value_above (base : nat) (v : value) : Prop :=
  match v with
  | Ref l => (base <= l)%nat
  | _ => True
  end.

Definition object_above (base : nat) (o : object) : Prop :=
  match o with
  | Arr es => Forall (value_above base) es
  | Rec _ _ => True
  | Req _ r => (base <= r)%nat
  end.

(** During a call on the store [h0]: the store still begins with [h0], and
    the objects allocated since hold references to such objects only. *)
Definition during (h0 h : heap) : Prop :=
  h0 `prefix_of` h
  /\ forall l o, (length h0 <= l)%nat -> h !! l = Some o -> object_above (length h0) o.

(** A program that keeps [during h0] and whose result satisfies [Q]. *)
Definition keeps (h0 : heap) {A} (m : prog A) (Q : A -> Prop) : Prop :=
  forall h a h', during h0 h -> m h = Ok (a, h') -> during h0 h' /\ Q a.

(** *** Stores for the examples *)

Definition put_vector (v : list Z) : prog loc := alloc (Arr (Num <$> v)).

Definition put_matrix (m : list (list Z)) : prog loc :=
  rows ← map_each 0 (fun _ row => put_vector row) m;
  alloc (Arr (Ref <$> rows)).

Definition put_records (rs : list Memory.sized) : prog loc :=
  recs ← map_each 0 (fun _ r => alloc (Rec (Memory.id r) (Memory.size r))) rs;
  alloc (Arr (Ref <$> recs)).

Definition put_requests (reqs : list Bankers.Request) : prog loc :=
  rs ← map_each 0 (fun _ r =>
          l ← put_vector (Bankers.request r);
          alloc (Req (Bankers.processId r) l)) reqs;
  alloc (Arr (Ref <$> rs)).

End Frame.

Module FrameExamples.
Import Store Frame.

(** A caller's store with available = [1], max = [[2], [2]],
    allocation = [[1], [0]] and the request [1]: available at 0, max at 3,
    allocation at 6, the request at 7. *)
Definition caller_store : heap :=
  [ Arr [Num 1];
    Arr [Num 2]; Arr [Num 2]; Arr [Ref 1%nat; Ref 2%nat];
    Arr [Num 1]; Arr [Num 0]; Arr [Ref 4%nat; Ref 5%nat];
    Arr [Num 1] ].

(** Process 1 asks for the last unit: the request passes both checks, is
    applied to the copies, and is denied as unsafe. *)
Definition unsafe_request : call := ResourceRequest 0 3 6 1 7.

Definition store_after_unsafe_request : heap :=
  Eval vm_compute in
    match store_after unsafe_request caller_store with
    | Ok h => h
    | Fault _ => []
    end.

(** A caller's store with blocks of sizes 100, 50 and 200 (the array at 3)
    and processes of sizes 90 and 50 (the array at 6). *)
Definition memory_store : heap :=
  [ Rec 1 100; Rec 2 50; Rec 3 200; Arr [Ref 0%nat; Ref 1%nat; Ref 2%nat];
    Rec 1 90; Rec 2 50; Arr [Ref 4%nat; Ref 5%nat] ].

(** The result of a program and nothing of the store. *)
Definition result_of {A} (m : prog A) (h : heap) : outcome A :=
  match m h with
  | Ok (a, _) => Ok a
  | Fault e => Fault e
  end.

End FrameExamples.

(** ** Stores that hold the inputs of the value embedding *)

Module Holds.
Import Store.

(** The array at [l] holds the numbers [zs]. *)
Definition holds_numbers (h : heap) (l : loc) (zs : list Z) : Prop :=
  h !! l = Some (Arr (Num <$> zs)).

(** The array at [l] holds references [rows] to the rows of [m]. *)
Definition holds_rows (h : heap) (l : loc) (rows : list loc) (m : list (list Z)) : Prop :=
  h !! l = Some (Arr (Ref <$> rows)) /\ Forall2 (holds_numbers h) rows m.

Definition holds_matrix (h : heap) (l : loc) (m : list (list Z)) : Prop :=
  exists rows, holds_rows h l rows m.

(** The record at [r] is [x]. *)
Definition holds_record (h : heap) (r : loc) (x : Memory.sized) : Prop :=
  h !! r = Some (Rec (Memory.id x) (Memory.size x)).

(** The array at [l] holds references [refs] to the records [xs]. *)
Definition holds_refs (h : heap) (l : loc) (refs : list loc) (xs : list Memory.sized)
  : Prop :=
  h !! l = Some (Arr (Ref <$> refs)) /\ Forall2 (holds_record h) refs xs.

Definition holds_records (h : heap) (l : loc) (xs : list Memory.sized) : Prop :=
  exists refs, holds_refs h l refs xs.

(** The cells a copy of a matrix takes at the end of a store of length
    [base]: its rows, then the array of references to them. *)
Definition matrix_cells (base : nat) (m : list (list Z)) : heap :=
  ((fun row => Arr (Num <$> row)) <$> m) ++ [Arr (Ref <$> seq base (length m))].

(** The cells a copy of an array of records takes. *)
Definition record_cells (base : nat) (xs : list Memory.sized) : heap :=
  ((fun x => Rec (Memory.id x) (Memory.size x)) <$> xs)
  ++ [Arr (Ref <$> seq base (length xs))].

(** A program run on [h] returns [a] and leaves the store [h']. *)
Definition runs {A} (m : prog A) (h : heap) (a : A) (h' : heap) : Prop :=
  m h = Ok (a, h').

End Holds.

(** ** The stores of the loops *)

Module Loops.
Import Store Holds.

(** The store of the while loop of isSafeState: [need] and
    [currentAllocation] as computed, and the three arrays the loop updates. *)
Record safety_store (need currentAllocation : list (list Z))
    (lneed lalloc lavail lfinished lsequence : loc) (nrows arows : list loc)
    (h : heap) (availableResources : list Z) (finished : list bool)
    (safeSequence : list nat) : Prop := {
  store_need : holds_rows h lneed nrows need;
  store_allocation : holds_rows h lalloc arows currentAllocation;
  store_available : holds_numbers h lavail availableResources;
  store_finished : h !! lfinished = Some (Arr (Flag <$> finished));
  store_sequence :
    h !! lsequence = Some (Arr ((fun i => Num (Z.of_nat i)) <$> safeSequence))
}.

(** The arrays at [written] are not among the arrays of the matrix at [l]. *)
Definition apart (written : list loc) (l : loc) (rows : list loc) : Prop :=
  forall w, w ∈ written -> w <> l /\ w ∉ rows.

End Loops.

(** ** The stores of the request loops *)

Module Copies.
Import Store Holds.

(** The copy of the matrix [m] that begins at [base]: its rows, then the
    array of references to them. *)
Definition copy_at (h : heap) (base : nat) (m : list (list Z)) : Prop :=
  holds_rows h (base + length m) (seq base (length m)) m.

(** The store of the loop of resourceRequest that applies the request: the
    request of the caller, and the copies of available, max and allocation
    and the need matrix, one after the other. *)
Record tentative_store (max : list (list Z)) (request : list Z)
    (lrequest lavail bmax balloc bneed : nat) (h : heap)
    (s : list Z * list (list Z) * list (list Z)) : Prop := {
  store_request : holds_numbers h lrequest request;
  store_avail : holds_numbers h lavail s.1.1;
  store_max : copy_at h bmax max;
  store_alloc : copy_at h balloc s.1.2;
  store_needed : copy_at h bneed s.2;
  store_order : (lrequest < lavail < bmax /\ bmax + length max < balloc
                 /\ balloc + length s.1.2 < bneed)%nat
}.

(** The store of the request loop of runBankersAlgorithm: the store [h0] of
    the caller, and the copies of available and allocation the loop
    updates. *)
Record driver_store (h0 : heap) (lavail balloc : nat) (h : heap)
    (currentAvailable : list Z) (currentAllocation : list (list Z)) : Prop := {
  store_caller : forall l o, h0 !! l = Some o -> h !! l = Some o;
  store_current_available : holds_numbers h lavail currentAvailable;
  store_current_allocation : copy_at h balloc currentAllocation;
  store_above : (length h0 <= lavail < balloc)%nat
}.

(** The requests the array at [l] holds. *)
Definition holds_request (h : heap) (r : loc) (req : Bankers.Request) : Prop :=
  exists lrequest,
    h !! r = Some (Req (Bankers.processId req) lrequest)
    /\ holds_numbers h lrequest (Bankers.request req).

Definition holds_requests (h : heap) (l : loc) (reqs : list Bankers.Request) : Prop :=
  exists refs, h !! l = Some (Arr (Ref <$> refs)) /\ Forall2 (holds_request h) refs reqs.

End Copies.

(** ** The stores of the block-allocation strategies *)

Module Blocks.
Import Store Holds.

(** The copy of the records [xs] that begins at [base]. *)
Definition records_at (h : heap) (base : nat) (xs : list Memory.sized) : Prop :=
  holds_refs h (base + length xs) (seq base (length xs)) xs.

(** An entry of [allocation]: [null] or the index of a block. *)
Definition choice_value (c : option nat) : value :=
  match c with
  | None => Null
  | Some j => Num (Z.of_nat j)
  end.

(** The store of the loop over the processes: the copies of the blocks and
    of the processes, then [allocation] and [internalFragmentation]. *)
Record alloc_store (procs : list Memory.sized) (numBlocks : nat)
    (bblocks bprocs lallocation lfragmentation : nat) (h : heap)
    (st : Memory.AllocState) : Prop := {
  store_blocks : records_at h bblocks (Memory.st_blocks st);
  store_procs : records_at h bprocs procs;
  store_choices : h !! lallocation = Some (Arr (choice_value <$> Memory.st_allocation st));
  store_fragmentation : holds_numbers h lfragmentation (Memory.st_internalFragmentation st);
  store_sizes : length (Memory.st_blocks st) = numBlocks
                /\ length (Memory.st_allocation st) = length procs
                /\ length (Memory.st_internalFragmentation st) = numBlocks;
  store_places : (bblocks + numBlocks < bprocs
                  /\ bprocs + length procs < lallocation < lfragmentation)%nat
}.

End Blocks.

(** ** The calls of the engine, on values and on the store *)

Module Calls.
Import Store Holds Copies Frame.

(** A call of the engine on values. *)
Inductive value_call : Type :=
| OnIsSafeState (available : list Z) (max allocation : list (list Z))
| OnResourceRequest (available : list Z) (max allocation : list (list Z))
    (processId : nat) (request : list Z)
| OnRunBankersAlgorithm (data : Bankers.SimulationData)
| OnStrategy (s : Memory.strategy) (memoryBlocks processes : list Memory.sized).

Definition on_values (c : value_call) : outcome result :=
  match c with
  | OnIsSafeState a m al => r ← Bankers.isSafeState a m al; Ok (Safety r)
  | OnResourceRequest a m al p q => r ← Bankers.resourceRequest a m al p q; Ok (Answer r)
  | OnRunBankersAlgorithm data => r ← Bankers.runBankersAlgorithm data; Ok (Simulation r)
  | OnStrategy s b p => r ← Memory.run s b p; Ok (Allocation r)
  end.

(** The strategy a call on the store runs. *)
Definition strategy_of (c : call) : option (Memory.strategy * loc * loc) :=
  match c with
  | FirstFit b p => Some (Memory.FirstFit, b, p)
  | NextFit b p => Some (Memory.NextFit, b, p)
  | BestFit b p => Some (Memory.BestFit, b, p)
  | WorstFit b p => Some (Memory.WorstFit, b, p)
  | _ => None
  end.

(** The store [h] holds, at the references of the call [c], the arguments of
    the call [v] on values.  The arrays of the caller may share rows. *)
Definition holds_call (h : heap) (c : call) (v : value_call) : Prop :=
  match v with
  | OnIsSafeState available max allocation =>
      exists la lm lal,
        c = IsSafeState la lm lal
        /\ holds_numbers h la available
        /\ holds_matrix h lm max /\ holds_matrix h lal allocation
  | OnResourceRequest available max allocation processId request =>
      exists la lm lal lr,
        c = ResourceRequest la lm lal processId lr
        /\ holds_numbers h la available
        /\ holds_matrix h lm max /\ holds_matrix h lal allocation
        /\ holds_numbers h lr request
  | OnRunBankersAlgorithm data =>
      exists la lm lal lrs,
        c = RunBankersAlgorithm la lm lal lrs
        /\ holds_numbers h la (Bankers.available data)
        /\ holds_matrix h lm (Bankers.max data)
        /\ holds_matrix h lal (Bankers.allocation data)
        /\ match lrs, Bankers.requests data with
           | Some l, Some reqs => holds_requests h l reqs
           | None, None => True
           | _, _ => False
           end
  | OnStrategy s memoryBlocks processes =>
      exists lb lp,
        strategy_of c = Some (s, lb, lp)
        /\ holds_records h lb memoryBlocks /\ holds_records h lp processes
  end.

End Calls.

(** ** Safe sequences *)

Module SafeSequences.
Import Bankers BankersSpec.

(** The processes [ids] can finish one after the other from the working
    vector [work]: the need of each is within what is then available, and
    what it holds is available to the ones after it. *)
Fixpoint completes (need allocation : matrix) (work : vector) (ids : list nat) : Prop :=
  match ids with
  | [] => True
  | i :: rest =>
      match need !! i, allocation !! i with
      | Some nrow, Some arow =>
          eligible nrow work /\ completes need allocation (zip_with Z.add work arow) rest
      | _, _ => False
      end
  end.

(** A safe sequence of the state: every process once, in an order in which
    all can finish. *)
Definition safe_sequence (available : vector) (max allocation : matrix)
    (ids : list nat) : Prop :=
  ids ≡ₚ seq 0 (length max)
  /\ completes (need_of max allocation) allocation available ids.

(** A matrix, a vector, without negative entries. *)
Definition non_negative (v : vector) : Prop := Forall (fun x => 0 <= x) v.

Definition non_negative_rows (m : matrix) : Prop := Forall non_negative m.

(** The same on the entries of the table of processes. *)
Fixpoint finishes (work : vector) (es : list entry) : Prop :=
  match es with
  | [] => True
  | e :: rest =>
      eligible (need_row e) work /\ finishes (zip_with Z.add work (alloc_row e)) rest
  end.

(** The working vector once the processes [es] have given back what they
    hold. *)
Definition release_all (work : vector) (es : list entry) : vector :=
  foldl (fun w e => zip_with Z.add w (alloc_row e)) work es.

(** Process [i] with its rows. *)
Definition entry_of (max allocation : matrix) (i : nat) : entry :=
  {| pid := i;
     need_row := default [] (need_of max allocation !! i);
     alloc_row := default [] (allocation !! i) |}.

(** An entry whose allocation row has [m] entries, none negative. *)
Definition gives_back (m : nat) (e : entry) : Prop :=
  length (alloc_row e) = m /\ non_negative (alloc_row e).

End SafeSequences.

(** ** The running state of the request loop *)

Module RunningState.
Import Bankers BankersSpec Conservation.

(** Resource type [j] in the state: what is available and what the
    processes hold. *)
Definition column_total (available : vector) (allocation : matrix) (j : nat) : Z :=
  entry_at j available + sum_of (entry_at j <$> allocation).

(** No process holds more than it may claim. *)
Definition within_claims (max allocation : matrix) : Prop :=
  Forall2 (Forall2 Z.le) allocation max.

(** isSafeState returns on the state and says safe. *)
Definition says_safe (available : vector) (max allocation : matrix) : Prop :=
  exists r, isSafeState available max allocation = Ok r /\ safe r = true.

End RunningState.

(** ** First fit and next fit as the choice of a block *)

Module ScanSpec.
Import Memory MemorySpec.

(** [j] is the first fit for [p]: the lowest index of a block that is large
    enough. *)
Definition first_fit (blocks : list MemoryBlock) (p : Process) (j : nat) : Prop :=
  exists b, blocks !! j = Some b /\ fits p b
    /\ forall k b', (k < j)%nat -> blocks !! k = Some b' -> ~ fits p b'.

(** The block nextFit tests in round [t] of a scan that starts at block
    [start]: [(start + t) % blocks.length]. *)
Definition visited (blocks : list MemoryBlock) (start t : nat) : nat :=
  ((start + t) mod length blocks)%nat.

(** [j] is the next fit for [p] from [start]: the first block that is large
    enough, in circular order from [start]. *)
Definition next_fit (start : nat) (blocks : list MemoryBlock) (p : Process) (j : nat)
  : Prop :=
  exists t b, (t < length blocks)%nat /\ j = visited blocks start t
    /\ blocks !! j = Some b /\ fits p b
    /\ forall t' b', (t' < t)%nat -> blocks !! visited blocks start t' = Some b' ->
                     ~ fits p b'.

(** Where the scan for the next process starts. *)
Definition resume (blocks : list MemoryBlock) (start : nat) (choice : option nat) : nat :=
  match choice with
  | Some j => ((j + 1) mod length blocks)%nat
  | None => start
  end.

(** The memory that is still free in [blocks]. *)
Definition free_total (blocks : list MemoryBlock) : Z :=
  sum_of (size <$> filter (fun b => 0 < size b) blocks).

(** The blocks that were given to a process, in the order of the processes. *)
Definition given (allocation : list (option nat)) : list nat :=
  omap (fun choice => choice) allocation.

End ScanSpec.

(** ** The memory a run accounts for *)

Module Accounting.
Import Memory MemorySpec.

(** The memory of the blocks. *)
Definition memory_total (blocks : list MemoryBlock) : Z := sum_of (size <$> blocks).

(** The sizes of the processes that have a block, summed. *)
Definition allocated_total (procs : list Process) (allocation : list (option nat)) : Z :=
  sum_of (zip_with (fun p (choice : option nat) =>
                      match choice with
                      | Some _ => size p
                      | None => 0
                      end) procs allocation).

End Accounting.

(** ** runAllAlgorithms and its caller *)

Module AllAlgorithms.

(** The object [{ firstFit, nextFit, bestFit, worstFit }]. *)
Record Results (R : Type) : Type := {
  firstFit : R;
  nextFit : R;
  bestFit : R;
  worstFit : R
}.
Arguments firstFit {R} _.
Arguments nextFit {R} _.
Arguments bestFit {R} _.
Arguments worstFit {R} _.

(** The entry of a strategy. *)
Definition entry {R} (s : Memory.strategy) (results : Results R) : R :=
  match s with
  | Memory.FirstFit => firstFit results
  | Memory.NextFit => nextFit results
  | Memory.BestFit => bestFit results
  | Memory.WorstFit => worstFit results
  end.

(** runAllAlgorithms on values. *)
Definition runAllAlgorithms (memoryBlocks processes : list Memory.sized)
  : outcome (Results Memory.AllocationResult) :=
  first ← Memory.firstFit memoryBlocks processes;
  next ← Memory.nextFit memoryBlocks processes;
  best ← Memory.bestFit memoryBlocks processes;
  worst ← Memory.worstFit memoryBlocks processes;
  Ok {| firstFit := first; nextFit := next; bestFit := best; worstFit := worst |}.

(** runAllAlgorithms on the store: the four strategies one after the other
    on the same two references. *)
Definition runAllAlgorithms_on_store (memoryBlocks processes : Store.loc)
  : Store.prog (Results Memory.AllocationResult) :=
  first ← Store.firstFit memoryBlocks processes;
  next ← Store.nextFit memoryBlocks processes;
  best ← Store.bestFit memoryBlocks processes;
  worst ← Store.worstFit memoryBlocks processes;
  mret {| firstFit := first; nextFit := next; bestFit := best; worstFit := worst |}.

(** A result with the two arrays handleMemorySubmit attaches to it. *)
Record Shown : Type := {
  result : Memory.AllocationResult;
  memoryBlocks : Store.loc;
  processes : Store.loc
}.

(** handleMemorySubmit of the application: what it passes to
    [setMemoryResults]. *)
Definition handleMemorySubmit (data_memoryBlocks data_processes : Store.loc)
  : Store.prog (Results Shown) :=
  results ← runAllAlgorithms_on_store data_memoryBlocks data_processes;
  let attach r := {| result := r;
                     memoryBlocks := data_memoryBlocks;
                     processes := data_processes |} in
  mret {| firstFit := attach (firstFit results);
          nextFit := attach (nextFit results);
          bestFit := attach (bestFit results);
          worstFit := attach (worstFit results) |}.

End AllAlgorithms.

(** ** The form of the Banker's algorithm

    The component BankersInput keeps six state cells and changes them in its
    event handlers; handleSubmit converts the fields to numbers, checks that
    no allocation exceeds its maximum claim and hands the data to the
    application, which runs runBankersAlgorithm on it.  A handler is a
    function of the state it reads to the state it sets.  The rows of one
    state are never shared, so a write to a row of the copied array is a
    write to that row alone.  [parseInt] is a parameter: [None] is [NaN].

    A handler that writes a field past the end of its array is not followed
    (JavaScript would grow the array and leave holes in it): the embedding
    answers [Fault OutOfBounds], as it does for a read past the end.  The
    form calls such a handler with the index of a field it shows. *)

Module BankersInput.

(** The content of a field: the string typed in it. *)
Abbreviation cell := string.

(** An element of [requests]. *)
Record FormRequest : Type := {
  processId : nat;
  request : list cell
}.

(** The six state cells. *)
Record FormState : Type := {
  numProcesses : nat;
  numResources : nat;
  available : list cell;
  max : list (list cell);
  allocation : list (list cell);
  requests : list FormRequest
}.

(** The values the cells start with. *)
Definition initial : FormState :=
  {| numProcesses := 3;
     numResources := 3;
     available := replicate 3 ""%string;
     max := replicate 3 (replicate 3 ""%string);
     allocation := replicate 3 (replicate 3 ""%string);
     requests := [ {| processId := 0; request := replicate 3 ""%string |} ] |}.

(** [a[index] = value] for an index inside the array. *)
Definition assign (index : nat) (value : string) (a : list cell)
  : outcome (list cell) :=
  if (index <? length a)%nat then Ok (<[index := value]> a)
  else Fault OutOfBounds.

(** How handleSubmit ends: with the alert for process [i] and resource [j],
    or with [onSubmit(data)]. *)
Inductive submission : Type :=
| Alert (i j : nat)
| Submit (data : Bankers.SimulationData).

(** [a > m] on entries that may be [undefined]. *)
Definition exceeds (a m : option Z) : bool :=
  match a, m with
  | Some a, Some m => a >? m
  | _, _ => false
  end.

(** The inner loop of the check of handleSubmit, from resource [j], [n]
    resources to go: the first resource of process [i] whose allocation
    exceeds the maximum claim. *)
Fixpoint first_excess_in_row (n j : nat) (i : nat) (validAllocation validMax : list (list Z))
  : outcome (option nat) :=
  match n with
  | O => Ok None
  | S n' =>
      arow ← read validAllocation i;
      mrow ← read validMax i;
      if exceeds (arow !! j) (mrow !! j) then Ok (Some j)
      else first_excess_in_row n' (S j) i validAllocation validMax
  end.

(** The outer loop, from process [i], [n] processes to go. *)
Fixpoint first_excess (n i : nat) (numResources : nat) (validAllocation validMax : list (list Z))
  : outcome (option (nat * nat)) :=
  match n with
  | O => Ok None
  | S n' =>
      found ← first_excess_in_row numResources 0 i validAllocation validMax;
      match found with
      | Some j => Ok (Some (i, j))
      | None => first_excess n' (S i) numResources validAllocation validMax
      end
  end.

Section Form.
Variable parseInt : string -> option Z.

(** [parseInt(value) || 0] *)
Definition int_or_0 (value : string) : Z :=
  match parseInt value with
  | Some z => z
  | None => 0
  end.

(** handleNumProcessesChange; [Array(n)] throws for a negative [n]. *)
Definition handleNumProcessesChange (value : string) (st : FormState)
  : outcome FormState :=
  let newNumProcesses := int_or_0 value in
  if newNumProcesses <? 1 then Ok st
  else
    let n := Z.to_nat newNumProcesses in
    if (length (max st) <? n)%nat then
      if (n <? length (allocation st))%nat then Fault WrongKind
      else
        Ok {| numProcesses := n;
              numResources := numResources st;
              available := available st;
              max := max st ++ replicate (n - length (max st))
                                 (replicate (numResources st) ""%string);
              allocation := allocation st
                            ++ replicate (n - length (allocation st))
                                 (replicate (numResources st) ""%string);
              requests := requests st |}
    else
      Ok {| numProcesses := n;
            numResources := numResources st;
            available := available st;
            max := take n (max st);
            allocation := take n (allocation st);
            requests := filter (fun req => (processId req < n)%nat) (requests st) |}.

(** A vector or a row made [n] long: new fields at its end, or its first
    [n] fields. *)
Definition widen_or_cut (n : nat) (row : list cell) : list cell :=
  if (length row <? n)%nat then row ++ replicate (n - length row) ""%string
  else take n row.

(** The same for the vector of a request, the test the other way round. *)
Definition cut_or_widen (n : nat) (row : list cell) : list cell :=
  if (n <? length row)%nat then take n row
  else row ++ replicate (n - length row) ""%string.

Definition handleNumResourcesChange (value : string) (st : FormState) : FormState :=
  let newNumResources := int_or_0 value in
  if newNumResources <? 1 then st
  else
    let n := Z.to_nat newNumResources in
    {| numProcesses := numProcesses st;
       numResources := n;
       available := widen_or_cut n (available st);
       max := widen_or_cut n <$> max st;
       allocation := widen_or_cut n <$> allocation st;
       requests := (fun req => {| processId := processId req;
                                  request := cut_or_widen n (request req) |})
                   <$> requests st |}.

Definition handleAvailableChange (index : nat) (value : string) (st : FormState)
  : outcome FormState :=
  newAvailable ← assign index value (available st);
  Ok {| numProcesses := numProcesses st;
        numResources := numResources st;
        available := newAvailable;
        max := max st;
        allocation := allocation st;
        requests := requests st |}.

(** [newMax[processIndex][resourceIndex] = value] throws when there is no
    row [processIndex]. *)
Definition handleMaxChange (processIndex resourceIndex : nat) (value : string)
    (st : FormState) : outcome FormState :=
  row ← read (max st) processIndex;
  row' ← assign resourceIndex value row;
  Ok {| numProcesses := numProcesses st;
        numResources := numResources st;
        available := available st;
        max := <[processIndex := row']> (max st);
        allocation := allocation st;
        requests := requests st |}.

Definition handleAllocationChange (processIndex resourceIndex : nat) (value : string)
    (st : FormState) : outcome FormState :=
  row ← read (allocation st) processIndex;
  row' ← assign resourceIndex value row;
  Ok {| numProcesses := numProcesses st;
        numResources := numResources st;
        available := available st;
        max := max st;
        allocation := <[processIndex := row']> (allocation st);
        requests := requests st |}.

Definition with_requests (st : FormState) (newRequests : list FormRequest) : FormState :=
  {| numProcesses := numProcesses st;
     numResources := numResources st;
     available := available st;
     max := max st;
     allocation := allocation st;
     requests := newRequests |}.

Definition addRequest (st : FormState) : FormState :=
  with_requests st
    (requests st ++ [ {| processId := 0;
                         request := replicate (numResources st) ""%string |} ]).

(** [splice(index, 1)] removes nothing past the end. *)
Definition removeRequest (index : nat) (st : FormState) : FormState :=
  if (1 <? length (requests st))%nat
  then with_requests st (delete index (requests st))
  else st.

Definition handleRequestProcessIdChange (index : nat) (value : string) (st : FormState)
  : outcome FormState :=
  let processId' := int_or_0 value in
  if (processId' <? 0) || (processId' >=? Z.of_nat (numProcesses st)) then Ok st
  else
    req ← read (requests st) index;
    Ok (with_requests st
          (<[index := {| processId := Z.to_nat processId'; request := request req |}]>
             (requests st))).

Definition handleRequestResourceChange (requestIndex resourceIndex : nat)
    (value : string) (st : FormState) : outcome FormState :=
  req ← read (requests st) requestIndex;
  request' ← assign resourceIndex value (request req);
  Ok (with_requests st
        (<[requestIndex := {| processId := processId req; request := request' |}]>
           (requests st))).

Definition handleSubmit (st : FormState) : outcome submission :=
  let validAvailable := int_or_0 <$> available st in
  let validMax := (fun row : list cell => int_or_0 <$> row) <$> max st in
  let validAllocation := (fun row : list cell => int_or_0 <$> row) <$> allocation st in
  let validRequests :=
    (fun req => {| Bankers.processId := processId req;
                   Bankers.request := int_or_0 <$> request req |}) <$> requests st in
  validationError ← first_excess (numProcesses st) 0 (numResources st)
                       validAllocation validMax;
  match validationError with
  | Some (i, j) => Ok (Alert i j)
  | None =>
      Ok (Submit {| Bankers.available := validAvailable;
                    Bankers.max := validMax;
                    Bankers.allocation := validAllocation;
                    Bankers.requests := Some validRequests |})
  end.

(** What happens in the form: a field is edited, a button is pressed. *)
Inductive event : Type :=
| NumProcessesChange (value : string)
| NumResourcesChange (value : string)
| AvailableChange (index : nat) (value : string)
| MaxChange (processIndex resourceIndex : nat) (value : string)
| AllocationChange (processIndex resourceIndex : nat) (value : string)
| AddRequest
| RemoveRequest (index : nat)
| RequestProcessIdChange (index : nat) (value : string)
| RequestResourceChange (requestIndex resourceIndex : nat) (value : string).

Definition handle (e : event) (st : FormState) : outcome FormState :=
  match e with
  | NumProcessesChange value => handleNumProcessesChange value st
  | NumResourcesChange value => Ok (handleNumResourcesChange value st)
  | AvailableChange index value => handleAvailableChange index value st
  | MaxChange i j value => handleMaxChange i j value st
  | AllocationChange i j value => handleAllocationChange i j value st
  | AddRequest => Ok (addRequest st)
  | RemoveRequest index => Ok (removeRequest index st)
  | RequestProcessIdChange index value => handleRequestProcessIdChange index value st
  | RequestResourceChange i j value => handleRequestResourceChange i j value st
  end.


End Form.

(** Field [index] of a vector, field [(i, j)] of a matrix is on the screen. *)
Definition shown_in (a : list cell) (index : nat) : Prop := (index < length a)%nat.

Definition shown_at (m : list (list cell)) (i j : nat) : Prop :=
  exists row, m !! i = Some row /\ (j < length row)%nat.

(** The event comes from a field or a button that the form shows in state
    [st]: the form renders one field per entry of the arrays of its state
    and one button per request. *)
Definition rendered (st : FormState) (e : event) : Prop :=
  match e with
  | NumProcessesChange _ | NumResourcesChange _ | AddRequest => True
  | AvailableChange index _ => shown_in (available st) index
  | MaxChange i j _ => shown_at (max st) i j
  | AllocationChange i j _ => shown_at (allocation st) i j
  | RemoveRequest index => (index < length (requests st))%nat
  | RequestProcessIdChange index _ => (index < length (requests st))%nat
  | RequestResourceChange i j _ => shown_at (request <$> requests st) i j
  end.

(** The states the form can be in: the initial one, and the states its
    handlers set on events of the fields and buttons it shows. *)
Inductive reachable (parseInt : string -> option Z) : FormState -> Prop :=
| reachable_initial : reachable parseInt initial
| reachable_event st e st' :
    reachable parseInt st -> rendered st e -> handle parseInt e st = Ok st' ->
    reachable parseInt st'.

(** The arrays of the state have the dimensions the two counters say. *)
Record well_formed (st : FormState) : Prop := {
  wf_processes : (1 <= numProcesses st)%nat;
  wf_resources : (1 <= numResources st)%nat;
  wf_available : length (available st) = numResources st;
  wf_max : length (max st) = numProcesses st
           /\ Forall (fun row => length row = numResources st) (max st);
  wf_allocation : length (allocation st) = numProcesses st
                  /\ Forall (fun row => length row = numResources st) (allocation st);
  wf_requests : Forall (fun req => (processId req < numProcesses st)%nat
                                   /\ length (request req) = numResources st)
                       (requests st)
}.

End BankersInput.

(** ** What the form submits *)

Module FormSpec.
Import BankersInput.

(** Entry [(i, j)] of a matrix of numbers, when there is one. *)
Definition value_at (m : list (list Z)) (i j : nat) : option Z :=
  row ← m !! i; row !! j.

(** Field [(i', j')] is checked before field [(i, j)]: the check goes row by
    row, each row from left to right. *)
Definition checked_before (i j i' j' : nat) : Prop :=
  (i' < i)%nat \/ (i' = i /\ (j' < j)%nat).

(** The fields of the state as numbers: the data handleSubmit builds. *)
Definition converted (parseInt : string -> option Z) (st : FormState)
  : Bankers.SimulationData :=
  {| Bankers.available := int_or_0 parseInt <$> available st;
     Bankers.max := (fun row : list cell => int_or_0 parseInt <$> row) <$> max st;
     Bankers.allocation :=
       (fun row : list cell => int_or_0 parseInt <$> row) <$> allocation st;
     Bankers.requests :=
       Some ((fun req => {| Bankers.processId := processId req;
                            Bankers.request := int_or_0 parseInt <$> request req |})
             <$> requests st) |}.

(** A [parseInt] for the examples: the number a string of decimal digits
    begins with, [None] when it begins with no digit. *)
Definition digit_of (c : Ascii.ascii) : option Z :=
  let n := Ascii.nat_of_ascii c in
  if (48 <=? n)%nat && (n <=? 57)%nat then Some (Z.of_nat (n - 48)) else None.

Fixpoint digits (read : option Z) (s : string) : option Z :=
  match s with
  | EmptyString => read
  | String c s' =>
      match digit_of c with
      | Some d => digits (Some (10 * default 0 read + d)) s'
      | None => read
      end
  end.

Definition decimal (s : string) : option Z := digits None s.

(** The form after the number of resource types was set to 2 and three
    fields were filled in. *)
Definition edited : FormState :=
  {| numProcesses := 3;
     numResources := 2;
     available := ["3"; ""]%string;
     max := [["" ; "7"]; ["" ; ""]; ["" ; ""]]%string;
     allocation := [["" ; "2"]; ["" ; ""]; ["" ; ""]]%string;
     requests := [ {| processId := 0; request := ["" ; ""]%string |} ] |}.

End FormSpec.

(** ** The form of the block-allocation strategies

    The component MemoryInput keeps the list of memory blocks and the list
    of processes, each entry an id and the string typed as its size. *)

Module MemoryInput.

(** An entry [{ id, size }] of either list. *)
Record Field : Type := {
  id : Z;
  size : string
}.

(** The two state cells. *)
Record FormState : Type := {
  memoryBlocks : list Field;
  processes : list Field
}.

Definition initial : FormState :=
  {| memoryBlocks := [ {| id := 1; size := "" |} ];
     processes := [ {| id := 1; size := "" |} ] |}.

(** [fields.length > 0 ? Math.max(...fields.map(field => field.id)) + 1 : 1] *)
Definition new_id (fields : list Field) : Z :=
  match id <$> fields with
  | [] => 1
  | z :: zs => Memory.maximum z zs + 1
  end.

(** [[...fields, { id: newId, size: '' }]] *)
Definition add (fields : list Field) : list Field :=
  fields ++ [ {| id := new_id fields; size := "" |} ].

(** [if (fields.length > 1) fields.filter(field => field.id !== id)] *)
Definition remove (id0 : Z) (fields : list Field) : list Field :=
  if (1 <? length fields)%nat then filter (fun field => id field <> id0) fields
  else fields.

(** [fields.map(field => field.id === id ? { ...field, size: size } : field)] *)
Definition update (id0 : Z) (size0 : string) (fields : list Field) : list Field :=
  (fun field => if decide (id field = id0)
                then {| id := id field; size := size0 |}
                else field) <$> fields.

Definition addMemoryBlock (st : FormState) : FormState :=
  {| memoryBlocks := add (memoryBlocks st); processes := processes st |}.

Definition removeMemoryBlock (id0 : Z) (st : FormState) : FormState :=
  {| memoryBlocks := remove id0 (memoryBlocks st); processes := processes st |}.

Definition updateMemoryBlock (id0 : Z) (size0 : string) (st : FormState) : FormState :=
  {| memoryBlocks := update id0 size0 (memoryBlocks st); processes := processes st |}.

Definition addProcess (st : FormState) : FormState :=
  {| memoryBlocks := memoryBlocks st; processes := add (processes st) |}.

Definition removeProcess (id0 : Z) (st : FormState) : FormState :=
  {| memoryBlocks := memoryBlocks st; processes := remove id0 (processes st) |}.

Definition updateProcess (id0 : Z) (size0 : string) (st : FormState) : FormState :=
  {| memoryBlocks := memoryBlocks st; processes := update id0 size0 (processes st) |}.

(** An entry handleSubmit hands on: the size as parseInt gives it, [None]
    for [NaN]. *)
Record Parsed : Type := {
  parsed_id : Z;
  parsed_size : option Z
}.

(** How handleSubmit ends: with its alert, or with [onSubmit(data)]. *)
Inductive submission : Type :=
| Alert
| Submit (memoryBlocks processes : list Parsed).

Section Form.
Variable parseInt : string -> option Z.

(** [fields.filter(field => field.size !== '')
           .map(field => ({ ...field, size: parseInt(field.size) }))] *)
Definition valid (fields : list Field) : list Parsed :=
  (fun field => {| parsed_id := id field; parsed_size := parseInt (size field) |})
  <$> filter (fun field => size field <> ""%string) fields.

Definition handleSubmit (st : FormState) : submission :=
  let validMemoryBlocks := valid (memoryBlocks st) in
  let validProcesses := valid (processes st) in
  if (length validMemoryBlocks =? 0)%nat || (length validProcesses =? 0)%nat
  then Alert
  else Submit validMemoryBlocks validProcesses.

End Form.

(** What happens in the form. *)
Inductive event : Type :=
| AddMemoryBlock
| RemoveMemoryBlock (id0 : Z)
| UpdateMemoryBlock (id0 : Z) (size0 : string)
| AddProcess
| RemoveProcess (id0 : Z)
| UpdateProcess (id0 : Z) (size0 : string).

Definition handle (e : event) (st : FormState) : FormState :=
  match e with
  | AddMemoryBlock => addMemoryBlock st
  | RemoveMemoryBlock id0 => removeMemoryBlock id0 st
  | UpdateMemoryBlock id0 size0 => updateMemoryBlock id0 size0 st
  | AddProcess => addProcess st
  | RemoveProcess id0 => removeProcess id0 st
  | UpdateProcess id0 size0 => updateProcess id0 size0 st
  end.

(** The states the form can be in. *)
Inductive reachable : FormState -> Prop :=
| reachable_initial : reachable initial
| reachable_event st e : reachable st -> reachable (handle e st).

(** A list of the form: not empty, no id twice. *)
Definition distinct (fields : list Field) : Prop :=
  fields <> [] /\ NoDup (id <$> fields).

End MemoryInput.

(** ** The blocks panel of the results

    renderMemoryBlocks of MemoryVisualization draws, for every memory block,
    either a box "Free" or a box for the process it finds in the block and,
    when the internal fragmentation of the block is positive, a box for it.
    The width of a box is [part / block.size * 100] percent; the embedding
    keeps [part] and [block.size]. *)

Module MemoryVisualization.
Import Memory.

(** [allocation.findIndex(alloc => alloc === index)], [None] for [-1]. *)
Definition findIndex (allocation : list (option nat)) (index : nat) : option nat :=
  fst <$> list_find (fun alloc => alloc = Some index) allocation.

(** A box of the panel; [part] is [None] when [internalFrag] is
    [undefined]. *)
Inductive box : Type :=
| FreeBox (size : Z)
| ProcessBox (processId : Z) (part : option Z) (whole : Z)
| FragmentationBox (internalFrag : Z) (part whole : Z).

(** The boxes of block [index]; [processes[allocatedProcessIndex].id]
    throws when there is no such process. *)
Definition block_boxes (algorithm : AllocationResult) (processes : list Process)
    (index : nat) (block : MemoryBlock) : outcome (list box) :=
  let allocatedProcessIndex := findIndex (allocation algorithm) index in
  let internalFrag := internalFragmentation algorithm !! index in
  match allocatedProcessIndex with
  | Some i =>
      p ← read processes i;
      Ok (ProcessBox (id p) ((fun frag => size block - frag) <$> internalFrag)
                     (size block)
          :: match internalFrag with
             | Some frag =>
                 if frag >? 0 then [FragmentationBox frag frag (size block)] else []
             | None => []
             end)
  | None => Ok [FreeBox (size block)]
  end.

(** The panel: [memoryBlocks.map((block, index) => ...)]. *)
Definition blocks_panel (algorithm : AllocationResult)
    (memoryBlocks : list MemoryBlock) (processes : list Process)
  : outcome (list (list box)) :=
  map_indexed 0 (block_boxes algorithm processes) memoryBlocks.

End MemoryVisualization.

(** * Properties *)

(** ** Outcomes and loops *)

Lemma read_Some {A} (a : list A) i x : a !! i = Some x -> read a i = Ok x.
Proof. unfold read. by intros ->. Qed.

Lemma read_lt {A} (a : list A) i : (i < length a)%nat -> exists x, a !! i = Some x /\ read a i = Ok x.
Proof.
  intros Hi. destruct (lookup_lt_is_Some_2 a i Hi) as [x Hx].
  exists x. split; [done | by apply read_Some].
Qed.

Lemma read_Ok {A} (a : list A) i x : read a i = Ok x -> a !! i = Some x.
Proof. unfold read. destruct (a !! i); [by intros [= ->] | done]. Qed.

Lemma bind_Ok {A B} (m : outcome A) (f : A -> outcome B) b :
  m ≫= f = Ok b -> exists a, m = Ok a /\ f a = Ok b.
Proof. destruct m as [a|e]; [by exists a | done]. Qed.

(** A loop invariant that every iteration re-establishes holds at the end,
    and the loop does not fault. *)
Lemma for_loop_invariant {St} (P : nat -> St -> Prop) (body : nat -> St -> outcome St) n :
  forall lo s,
    P lo s ->
    (forall k s, (lo <= k < lo + n)%nat -> P k s ->
                 exists s', body k s = Ok s' /\ P (S k) s') ->
    exists s', for_loop n lo body s = Ok s' /\ P (lo + n)%nat s'.
Proof.
  induction n as [|n IH]; intros lo s HP Hstep; simpl.
  - exists s. by rewrite Nat.add_0_r.
  - destruct (Hstep lo s ltac:(lia) HP) as (s1 & -> & HP1). simpl.
    destruct (IH (S lo) s1 HP1) as (s' & Hs' & HP').
    { intros k s2 Hk. apply Hstep. lia. }
    exists s'. split; [done|]. by replace (lo + S n)%nat with (S lo + n)%nat by lia.
Qed.

Lemma for_loop_add {St} (body : nat -> St -> outcome St) n1 n2 lo s :
  for_loop (n1 + n2) lo body s
  = s' ← for_loop n1 lo body s; for_loop n2 (lo + n1) body s'.
Proof.
  revert lo s. induction n1 as [|n1 IH]; intros lo s; simpl.
  - by rewrite Nat.add_0_r.
  - destruct (body lo s) as [s1|e]; simpl; [|done].
    rewrite IH. by replace (S lo + n1)%nat with (lo + S n1)%nat by lia.
Qed.

Lemma for_loop_ext {St} (body body' : nat -> St -> outcome St) n lo s :
  (forall k s, (lo <= k < lo + n)%nat -> body k s = body' k s) ->
  for_loop n lo body s = for_loop n lo body' s.
Proof.
  revert lo s. induction n as [|n IH]; intros lo s Hext; simpl; [done|].
  rewrite Hext by lia. destruct (body' lo s); simpl; [|done].
  apply IH. intros. apply Hext. lia.
Qed.

Lemma map_indexed_Ok {A B} (f : nat -> A -> outcome B) (g : nat -> A -> B) a :
  forall lo,
    (forall k x, a !! k = Some x -> f (lo + k)%nat x = Ok (g (lo + k)%nat x)) ->
    map_indexed lo f a = Ok (imap (fun k => g (lo + k)%nat) a).
Proof.
  induction a as [|x a IH]; intros lo Hf; simpl; [done|].
  specialize (Hf 0%nat x eq_refl) as Hx. rewrite Nat.add_0_r in Hx. rewrite Hx. simpl.
  rewrite (IH (S lo)).
  - simpl. rewrite Nat.add_0_r. do 2 f_equal.
    apply imap_ext. intros k y _. simpl. f_equal. lia.
  - intros k y Hk. replace (S lo + k)%nat with (lo + S k)%nat by lia. by apply Hf.
Qed.


Section BankersFacts.
Import Bankers BankersSpec.

Lemma consistent_rows available max allocation i :
  consistent available max allocation ->
  (i < length max)%nat ->
  exists mrow arow,
    max !! i = Some mrow /\ allocation !! i = Some arow
    /\ length mrow = length available /\ length arow = length available.
Proof.
  intros (Hlen & Hmax & Halloc) Hi.
  destruct (lookup_lt_is_Some_2 max i Hi) as [mrow Hm].
  destruct (lookup_lt_is_Some_2 allocation i ltac:(lia)) as [arow Ha].
  exists mrow, arow.
  pose proof (proj1 (Forall_lookup _ _) Hmax i mrow Hm).
  pose proof (proj1 (Forall_lookup _ _) Halloc i arow Ha).
  done.
Qed.

Lemma compute_need_consistent available max allocation :
  consistent available max allocation ->
  compute_need max allocation = Ok (need_of max allocation).
Proof.
  intros Hc. unfold compute_need.
  rewrite (map_indexed_Ok _
             (fun i process => zip_with Z.sub process (default [] (allocation !! i)))).
  - f_equal. unfold need_of. apply list_eq. intros i.
    rewrite list_lookup_imap, lookup_zip_with. simpl.
    destruct (max !! i) as [mrow|] eqn:Hm; simpl; [|done].
    destruct (consistent_rows _ _ _ i Hc) as (? & arow & ? & Ha & _).
    { by eapply lookup_lt_Some. }
    rewrite Ha. done.
  - intros i process Hi. simpl.
    destruct (consistent_rows _ _ _ i Hc) as (mrow & arow & Hm & Ha & Hlm & Hla).
    { by eapply lookup_lt_Some. }
    assert (process = mrow) as -> by congruence.
    rewrite Ha. simpl.
    rewrite (map_indexed_Ok _ (fun j resource => resource - default 0 (arow !! j))).
    + f_equal. apply list_eq. intros j.
      rewrite list_lookup_imap, lookup_zip_with. simpl.
      destruct (mrow !! j) eqn:Hj; simpl; [|done].
      destruct (lookup_lt_is_Some_2 arow j) as [a Haj].
      { apply lookup_lt_Some in Hj. lia. }
      by rewrite Haj.
    + intros j resource Hj. simpl.
      rewrite (read_Some _ _ _ Ha). simpl.
      destruct (lookup_lt_is_Some_2 arow j) as [a Haj].
      { apply lookup_lt_Some in Hj. lia. }
      by rewrite (read_Some _ _ _ Haj), Haj.
Qed.

Lemma can_allocate_from need i row avail n :
  need !! i = Some row ->
  forall j, (j + n = length row)%nat -> length avail = length row ->
  can_allocate need n j i avail
  = Ok (bool_decide (eligible (drop j row) (drop j avail))).
Proof.
  intros Hrow. induction n as [|n IH]; intros j Hj Hlen; simpl.
  - rewrite !drop_ge by lia. by rewrite bool_decide_eq_true_2 by constructor.
  - rewrite (read_Some _ _ _ Hrow). simpl.
    destruct (lookup_lt_is_Some_2 row j ltac:(lia)) as [x Hx].
    destruct (lookup_lt_is_Some_2 avail j ltac:(lia)) as [a Ha].
    rewrite (read_Some _ _ _ Hx), (read_Some _ _ _ Ha). simpl.
    rewrite (drop_S _ _ _ Hx), (drop_S _ _ _ Ha).
    destruct (Z.gtb_spec x a) as [Hgt|Hle].
    + rewrite bool_decide_eq_false_2; [done|].
      unfold eligible. intros Hall. apply Forall2_cons_1 in Hall. lia.
    + rewrite IH by lia. f_equal. apply bool_decide_ext. unfold eligible.
      rewrite Forall2_cons_iff. tauto.
Qed.

Lemma can_allocate_eligible need i row avail :
  need !! i = Some row -> length avail = length row ->
  can_allocate need (length avail) 0 i avail = Ok (bool_decide (eligible row avail)).
Proof.
  intros Hrow Hlen. rewrite (can_allocate_from need i row avail _ Hrow 0%nat) by lia.
  by rewrite !drop_0.
Qed.

Lemma release_add allocation i row avail :
  allocation !! i = Some row -> length avail = length row ->
  release allocation (length avail) i avail = Ok (zip_with Z.add avail row).
Proof.
  intros Hrow Hlen. unfold release.
  destruct (for_loop_invariant
              (fun j v => length v = length avail
                          /\ forall k, v !! k = if decide (k < j)%nat
                                                then zip_with Z.add avail row !! k
                                                else avail !! k)
              (release_one allocation i) (length avail) 0%nat avail)
    as (v & -> & Hv_len & Hv).
  - split; [done|]. intros k. by rewrite decide_False by lia.
  - intros j v [_ Hj] [Hvl Hvk]. unfold release_one.
    rewrite (read_Some _ _ _ Hrow). simpl.
    destruct (lookup_lt_is_Some_2 row j ltac:(lia)) as [x Hx].
    destruct (lookup_lt_is_Some_2 avail j ltac:(lia)) as [a Ha].
    assert (v !! j = Some a) as Hvj.
    { rewrite Hvk. by rewrite decide_False by lia. }
    rewrite (read_Some _ _ _ Hx), (read_Some _ _ _ Hvj). simpl.
    eexists. split; [done|]. split; [by rewrite length_insert|].
    intros k. destruct (decide (k = j)) as [->|Hne].
    + rewrite list_lookup_insert_eq by lia. rewrite decide_True by lia.
      rewrite lookup_zip_with, Ha, Hx. done.
    + rewrite list_lookup_insert_ne by done. rewrite Hvk.
      repeat case_decide; try lia; done.
  - f_equal. apply list_eq. intros k. rewrite Hv. simpl.
    case_decide; [done|].
    rewrite lookup_zip_with. rewrite (lookup_ge_None_2 avail k) by lia. done.
Qed.

Lemma visit_consistent need allocation i nrow arow f st :
  need !! i = Some nrow -> allocation !! i = Some arow ->
  st_finished st !! i = Some f ->
  length nrow = length (st_availableResources st) ->
  length arow = length (st_availableResources st) ->
  visit need allocation (length (st_availableResources st)) i st
  = Ok (visit_result nrow arow i f st).
Proof.
  intros Hn Ha Hf Hln Hla. unfold visit, visit_result.
  rewrite (read_Some _ _ _ Hf). simpl. destruct f; [done|].
  rewrite (can_allocate_eligible _ _ _ _ Hn) by done. simpl.
  case_bool_decide; [|done].
  rewrite (release_add _ _ _ _ Ha) by done. done.
Qed.

Lemma table_length available max allocation :
  consistent available max allocation ->
  length (table max allocation) = length max.
Proof.
  intros (Hlen & _ & _). unfold table, need_of.
  rewrite length_imap, length_zip, length_zip_with. lia.
Qed.

Lemma table_lookup max allocation i e :
  table max allocation !! i = Some e ->
  pid e = i /\ need_of max allocation !! i = Some (need_row e)
  /\ allocation !! i = Some (alloc_row e).
Proof.
  unfold table. rewrite list_lookup_imap.
  destruct (zip _ _ !! i) as [[n a]|] eqn:Hz; simpl; [|done].
  intros [= <-]. simpl. apply lookup_zip_with_Some in Hz as (n' & a' & [= -> ->] & Hn & Ha).
  done.
Qed.

Lemma table_entry_rows available max allocation i e :
  consistent available max allocation ->
  table max allocation !! i = Some e ->
  length (need_row e) = length available /\ length (alloc_row e) = length available.
Proof.
  intros Hc He. destruct (table_lookup _ _ _ _ He) as (_ & Hn & Ha).
  destruct (consistent_rows _ _ _ i Hc) as (mrow & arow & Hm & Ha' & Hlm & Hla).
  { rewrite <- (table_length _ _ _ Hc). by eapply lookup_lt_Some. }
  unfold need_of in Hn. rewrite lookup_zip_with, Hm, Ha' in Hn. simpl in Hn.
  injection Hn as <-. rewrite length_zip_with. split; [lia | congruence].
Qed.

Lemma pending_cons finished e es :
  pending finished (e :: es)
  = if decide (finished !! pid e = Some false) then e :: pending finished es
    else pending finished es.
Proof. unfold pending. by rewrite filter_cons. Qed.

Lemma pending_ext f1 f2 es :
  (forall e, e ∈ es -> f1 !! pid e = f2 !! pid e) ->
  pending f1 es = pending f2 es.
Proof.
  induction es as [|e es IH]; intros Hext; [done|].
  rewrite !pending_cons, (Hext e) by left.
  rewrite IH; [done|]. intros e' He'. apply Hext. by right.
Qed.

Lemma table_drop_pid max allocation i e :
  e ∈ drop i (table max allocation) -> (i <= pid e)%nat.
Proof.
  intros (k & Hk)%list_elem_of_lookup. rewrite lookup_drop in Hk.
  apply table_lookup in Hk as (-> & _). lia.
Qed.

Lemma scan_pass_count avail unfinished :
  forall avail' still fin,
    scan_pass avail unfinished = (avail', still, fin) ->
    (length still + length fin = length unfinished)%nat
    /\ (fin = [] -> still = unfinished /\ avail' = avail).
Proof.
  revert avail. induction unfinished as [|p rest IH]; intros avail avail' still fin; simpl.
  - intros [= <- <- <-]. done.
  - case_decide.
    + destruct (scan_pass _ rest) as [[a s] d] eqn:Hs. intros [= <- <- <-].
      destruct (IH _ _ _ _ Hs) as [Hl _]. simpl. split; [lia | done].
    + destruct (scan_pass _ rest) as [[a s] d] eqn:Hs. intros [= <- <- <-].
      destruct (IH _ _ _ _ Hs) as [Hl Hd]. simpl. split; [lia|].
      intros ->. destruct (Hd eq_refl) as [-> ->]. done.
Qed.

Section Pass.
Variables (available : vector) (max allocation : matrix).
Hypothesis Hc : consistent available max allocation.

Local Abbreviation n := (length max).
Local Abbreviation m := (length available).
Local Abbreviation need := (need_of max allocation).
Local Abbreviation tbl := (table max allocation).

Lemma pass_from k :
  forall i st,
    (i + k = n)%nat ->
    length (st_finished st) = n ->
    length (st_availableResources st) = m ->
    exists st' fin,
      for_loop k i (visit need allocation m) st = Ok st'
      /\ scan_pass (st_availableResources st) (pending (st_finished st) (drop i tbl))
         = (st_availableResources st', pending (st_finished st') (drop i tbl), fin)
      /\ st_safeSequence st' = st_safeSequence st ++ fin
      /\ st_count st' = (st_count st + length fin)%nat
      /\ st_found st' = st_found st || bool_decide (fin <> [])
      /\ (forall j, (j < i)%nat -> st_finished st' !! j = st_finished st !! j)
      /\ length (st_finished st') = n
      /\ length (st_availableResources st') = m.
Proof.
  induction k as [|k IH]; intros i st Hik Hfin Hav.
  - exists st, []. simpl. rewrite drop_ge.
    2:{ rewrite (table_length _ _ _ Hc). lia. }
    rewrite app_nil_r, orb_false_r, Nat.add_0_r. done.
  - destruct (lookup_lt_is_Some_2 tbl i) as [e He].
    { rewrite (table_length _ _ _ Hc). lia. }
    destruct (table_lookup _ _ _ _ He) as (Hpid & Hn & Ha).
    destruct (table_entry_rows _ _ _ _ _ Hc He) as (Hln & Hla).
    destruct (lookup_lt_is_Some_2 (st_finished st) i ltac:(lia)) as [f Hf].
    simpl. rewrite <- Hav.
    rewrite (visit_consistent _ _ _ _ _ _ _ Hn Ha Hf) by congruence. simpl.
    rewrite Hav.
    set (st1 := visit_result (need_row e) (alloc_row e) i f st).
    assert (length (st_finished st1) = n) as Hfin1.
    { subst st1. unfold visit_result. destruct f; [done|].
      case_bool_decide; simpl; [by rewrite length_insert | done]. }
    assert (length (st_availableResources st1) = length available) as Hav1.
    { subst st1. unfold visit_result. destruct f; [done|].
      case_bool_decide; simpl; [|done]. rewrite length_zip_with. lia. }
    destruct (IH (S i) st1 ltac:(lia) Hfin1 Hav1)
      as (st' & fin & Hloop & Hscan & Hseq & Hcount & Hfound & Hkeep & Hfin' & Hav').
    rewrite Hloop.
    assert (st_finished st' !! i = st_finished st1 !! i) as Hi by (apply Hkeep; lia).
    subst st1. unfold visit_result in *. destruct f.
    + (* already finished *)
      exists st', fin. rewrite (drop_S _ _ _ He), !pending_cons, Hpid.
      rewrite Hi, Hf. rewrite !decide_False by done.
      repeat split; try done. intros j Hj. apply Hkeep. lia.
    + case_bool_decide as Hel; simpl in *.
      * (* eligible: finished in this pass *)
        exists st', (i :: fin). rewrite (drop_S _ _ _ He), !pending_cons, Hpid.
        rewrite list_lookup_insert_eq in Hi by lia.
        rewrite Hi, Hf. rewrite decide_True, decide_False by done. simpl.
        rewrite decide_True by done.
        rewrite (pending_ext (st_finished st) (<[i:=true]> (st_finished st))).
        2:{ intros e' He'. apply table_drop_pid in He'.
            by rewrite list_lookup_insert_ne by lia. }
        rewrite Hscan, Hpid. repeat split; try done.
        -- by rewrite Hseq, <- app_assoc.
        -- rewrite Hcount. simpl. lia.
        -- by rewrite Hfound, orb_true_r.
        -- intros j Hj. rewrite Hkeep by lia. by rewrite list_lookup_insert_ne by lia.
      * (* not eligible: still unfinished *)
        exists st', fin. rewrite (drop_S _ _ _ He), !pending_cons, Hpid.
        rewrite Hi, Hf. rewrite !decide_True by done. simpl.
        rewrite decide_False by done. rewrite Hscan.
        repeat split; try done. intros j Hj. apply Hkeep. lia.
Qed.

Lemma unfinished_ids_from (es : list entry) :
  forall (f g : list bool) lo,
    length es = length f ->
    (forall k e, es !! k = Some e -> pid e = (lo + k)%nat) ->
    (forall k, g !! (lo + k)%nat = f !! k) ->
    omap id (imap (fun index (status : bool) =>
                     if negb status then Some (lo + index)%nat else None) f)
    = pid <$> pending g es.
Proof.
  induction es as [|e es IH]; intros [|b f] g lo Hlen Hpid Hg; try done.
  simpl. rewrite pending_cons.
  rewrite (Hpid 0%nat e eq_refl), (Hg 0%nat). simpl.
  rewrite Nat.add_0_r.
  repeat match goal with
         | |- context [list_omap _ _ id ?l] =>
             change (list_omap _ _ id l) with (omap id l)
         end.
  assert (omap id (imap ((fun index (status : bool) =>
                     if negb status then Some (lo + index)%nat else None) ∘ S) f)
          = pid <$> pending g es) as ->.
  { rewrite <- (IH f g (S lo)).
    - f_equal. apply imap_ext. intros k x _. simpl.
      by replace (lo + S k)%nat with (S (lo + k)) by lia.
    - simpl in Hlen. lia.
    - intros k e' Hk. rewrite (Hpid (S k) e' Hk). lia.
    - intros k. specialize (Hg (S k)). simpl in Hg. rewrite <- Hg. f_equal. lia. }
  destruct b; simpl; [done|].
  f_equal. rewrite (Hpid 0%nat e eq_refl). lia.
Qed.

Lemma unfinished_ids_pending (f : list bool) :
  length f = n ->
  unfinished_ids f = pid <$> pending f tbl.
Proof.
  intros Hf. unfold unfinished_ids.
  apply (unfinished_ids_from tbl f f 0%nat).
  - rewrite (table_length _ _ _ Hc). lia.
  - intros k e He. by destruct (table_lookup _ _ _ _ He) as (-> & _).
  - done.
Qed.

Lemma while_passes fuel :
  forall st,
    length (st_finished st) = n ->
    length (st_availableResources st) = m ->
    (st_count st + length (pending (st_finished st) tbl) = n)%nat ->
    (length (pending (st_finished st) tbl) <= fuel)%nat ->
    exists r,
      while_unfinished need allocation n m fuel st = Ok r
      /\ passes (st_availableResources st) (pending (st_finished st) tbl)
                (st_safeSequence st) r.
Proof.
  induction fuel as [|fuel IH]; intros st Hfin Hav Hcount Hfuel.
  - simpl. destruct (Nat.ltb_spec (st_count st) n); [lia|].
    eexists. split; [done|].
    destruct (pending (st_finished st) tbl); [constructor | simpl in *; lia].
  - simpl. destruct (Nat.ltb_spec (st_count st) n) as [Hlt|Hge].
    + destruct (pass_from n 0%nat (set_found false st) eq_refl Hfin Hav)
        as (st' & fin & Hloop & Hscan & Hseq & Hcnt & Hfound & _ & Hfin' & Hav').
      unfold pass. rewrite Hloop. simpl in *. rewrite drop_0 in Hscan.
      destruct (scan_pass_count _ _ _ _ _ Hscan) as [Hlen Hnone].
      assert (pending (st_finished st) tbl <> []) as Hne.
      { intros Heq. rewrite Heq in Hcount. simpl in Hcount. lia. }
      rewrite Hfound. case_bool_decide as Hfin0; simpl.
      * destruct (IH st' Hfin' Hav') as (r & Hr & Hp).
        { lia. }
        { destruct fin; [done | simpl in Hlen; lia]. }
        exists r. split; [done|].
        eapply passes_progress; [done | exact Hscan | done |].
        by rewrite <- Hseq.
      * destruct fin as [|d0 fin']; [|done].
        destruct (Hnone eq_refl) as [Hstill _].
        eexists. split; [done|].
        rewrite (unfinished_ids_pending _ Hfin'), Hstill.
        apply passes_stuck; [done|]. by rewrite Hscan.
    + eexists. split; [done|].
      destruct (pending (st_finished st) tbl); [constructor | simpl in *; lia].
Qed.
End Pass.

Lemma passes_deterministic avail unfinished seq r1 r2 :
  passes avail unfinished seq r1 -> passes avail unfinished seq r2 -> r1 = r2.
Proof.
  intros H1. revert r2.
  induction H1 as [avail seq | avail unf seq Hne Hnone
                  | avail unf seq avail' still fin r Hne Hscan Hfin _ IH];
    intros r2 H2; inversion H2 as [| ? ? ? ? Hnone2 | ? ? ? ? ? ? ? ? Hscan2 Hfin2 Hrest];
    subst; try done.
  - rewrite Hscan2 in Hnone. simpl in Hnone. done.
  - rewrite Hscan in Hnone2. simpl in Hnone2. done.
  - rewrite Hscan in Hscan2. injection Hscan2 as <- <- <-. by apply IH.
Qed.

Lemma pending_replicate (es : list entry) k :
  (forall e, e ∈ es -> (pid e < k)%nat) ->
  pending (replicate k false) es = es.
Proof.
  induction es as [|e es IH]; intros Hes; [done|].
  rewrite pending_cons, decide_True.
  - rewrite IH; [done|]. intros e' He'. apply Hes. by right.
  - apply lookup_replicate_2, Hes. by left.
Qed.

Lemma scan_pass_still_elem avail unfinished :
  forall avail' still fin e,
    scan_pass avail unfinished = (avail', still, fin) -> e ∈ still -> e ∈ unfinished.
Proof.
  revert avail. induction unfinished as [|p rest IH]; intros avail avail' still fin e; simpl.
  - intros [= <- <- <-] He. done.
  - case_decide.
    + destruct (scan_pass _ rest) as [[a s] d] eqn:Hs. intros [= <- <- <-] He.
      right. by eapply IH.
    + destruct (scan_pass _ rest) as [[a s] d] eqn:Hs. intros [= <- <- <-] He.
      apply elem_of_cons in He as [->|He]; [left | right; by eapply IH].
Qed.

Lemma scan_pass_still_ascending avail unfinished :
  forall avail' still fin,
    scan_pass avail unfinished = (avail', still, fin) ->
    StronglySorted lt (pid <$> unfinished) -> StronglySorted lt (pid <$> still).
Proof.
  revert avail. induction unfinished as [|p rest IH]; intros avail avail' still fin; simpl.
  - intros [= <- <- <-] _. constructor.
  - intros Hscan [Hall Hsorted]%StronglySorted_cons. revert Hscan. case_decide.
    + destruct (scan_pass _ rest) as [[a s] d] eqn:Hs. intros [= <- <- <-].
      by eapply IH.
    + destruct (scan_pass _ rest) as [[a s] d] eqn:Hs. intros [= <- <- <-].
      simpl. apply StronglySorted_cons. split; [|by eapply IH].
      apply Forall_fmap, Forall_forall. intros e He.
      apply (scan_pass_still_elem _ _ _ _ _ _ Hs) in He.
      rewrite Forall_fmap, Forall_forall in Hall. by apply Hall.
Qed.

Lemma passes_ascending avail unfinished seq r :
  passes avail unfinished seq r ->
  StronglySorted lt (pid <$> unfinished) ->
  StronglySorted lt (unfinishedProcesses r).
Proof.
  induction 1 as [avail seq | avail unf seq Hne Hnone
                 | avail unf seq avail' still fin r Hne Hscan Hfin _ IH]; simpl.
  - constructor.
  - done.
  - intros Hsorted. apply IH. by eapply scan_pass_still_ascending.
Qed.

Lemma table_ascending max allocation :
  StronglySorted lt (pid <$> table max allocation).
Proof.
  unfold table. generalize (zip (need_of max allocation) allocation). intros rows.
  assert (forall lo,
            StronglySorted lt
              (pid <$> imap (fun i (r : list Z * list Z) =>
                               {| pid := lo + i; need_row := fst r; alloc_row := snd r |})
                            rows)) as Hgen.
  { induction rows as [|r rows IH]; intros lo; simpl; [constructor|].
    apply StronglySorted_cons. split.
    - apply Forall_fmap, Forall_forall. intros e He.
      apply elem_of_lookup_imap_1 in He as (i & r' & -> & _). simpl. lia.
    - specialize (IH (S lo)).
      erewrite imap_ext; [exact IH|]. intros i r' _. simpl. f_equal. lia. }
  apply (Hgen 0%nat).
Qed.
Lemma isSafeState_passes available max allocation :
  consistent available max allocation ->
  exists r,
    isSafeState available max allocation = Ok r
    /\ safety_algorithm available max allocation r.
Proof.
  intros Hc. unfold isSafeState, safety_algorithm.
  rewrite (compute_need_consistent _ _ _ Hc). simpl.
  assert (pending (replicate (length max) false) (table max allocation)
          = table max allocation) as Hall.
  { apply pending_replicate. intros e (k & Hk)%list_elem_of_lookup.
    pose proof (lookup_lt_Some _ _ _ Hk) as Hlt.
    rewrite (table_length _ _ _ Hc) in Hlt.
    by destruct (table_lookup _ _ _ _ Hk) as (-> & _). }
  destruct (while_passes available max allocation Hc (length max)
              {| st_availableResources := available;
                 st_finished := replicate (length max) false;
                 st_safeSequence := [];
                 st_count := 0;
                 st_found := false |}) as (r & Hr & Hp); simpl.
  - by rewrite length_replicate.
  - done.
  - by rewrite Hall, (table_length _ _ _ Hc).
  - by rewrite Hall, (table_length _ _ _ Hc).
  - simpl in Hp. rewrite Hall in Hp. by exists r.
Qed.

(** C1.  On inputs of matching dimensions isSafeState returns, and what it
    returns is the result of the safety algorithm with the ascending-id
    tie-break: need = max − allocation; each pass scans the unfinished
    processes in ascending id order and finishes every eligible one at once
    (allocation row added to the working available vector, id appended to the
    sequence); safe with that sequence and no unfinished process when all
    have finished, unsafe with an empty sequence and the unfinished ids in
    ascending order when a whole pass finishes none.  The algorithm has one
    result only. *)
Theorem isSafeState_safety_algorithm available max allocation :
  consistent available max allocation ->
  exists r,
    isSafeState available max allocation = Ok r
    /\ safety_algorithm available max allocation r
    /\ StronglySorted lt (unfinishedProcesses r)
    /\ forall r', safety_algorithm available max allocation r' -> r' = r.
Proof.
  intros Hc. destruct (isSafeState_passes _ _ _ Hc) as (r & Hr & Hp).
  exists r. split; [done|]. split; [done|]. split.
  - eapply passes_ascending; [exact Hp | apply table_ascending].
  - intros r' Hr'. by eapply passes_deterministic.
Qed.

Lemma isSafeState_safety_algorithm_witness :
  exists r,
    isSafeState [3; 3; 2]
      [[7; 5; 3]; [3; 2; 2]; [9; 0; 2]; [2; 2; 2]; [4; 3; 3]]
      [[0; 1; 0]; [2; 0; 0]; [3; 0; 2]; [2; 1; 1]; [0; 0; 2]] = Ok r
    /\ safety_algorithm [3; 3; 2]
         [[7; 5; 3]; [3; 2; 2]; [9; 0; 2]; [2; 2; 2]; [4; 3; 3]]
         [[0; 1; 0]; [2; 0; 0]; [3; 0; 2]; [2; 1; 1]; [0; 0; 2]] r
    /\ StronglySorted lt (unfinishedProcesses r)
    /\ forall r',
         safety_algorithm [3; 3; 2]
           [[7; 5; 3]; [3; 2; 2]; [9; 0; 2]; [2; 2; 2]; [4; 3; 3]]
           [[0; 1; 0]; [2; 0; 0]; [3; 0; 2]; [2; 1; 1]; [0; 0; 2]] r' -> r' = r.
Proof.
  apply isSafeState_safety_algorithm.
  split; [reflexivity|]. split; repeat constructor.
Defined.

(** The two scenarios of the specification: a safe state, whose sequence
    starts with process 1, and an unsafe one. *)
Example isSafeState_scenarios :
  isSafeState [3; 3; 2]
    [[7; 5; 3]; [3; 2; 2]; [9; 0; 2]; [2; 2; 2]; [4; 3; 3]]
    [[0; 1; 0]; [2; 0; 0]; [3; 0; 2]; [2; 1; 1]; [0; 0; 2]]
  = Ok {| safe := true; safeSequence := [1; 3; 4; 0; 2]%nat; unfinishedProcesses := [] |}
  /\ isSafeState [0; 0; 0] [[1; 1; 1]] [[0; 0; 0]]
     = Ok {| safe := false; safeSequence := []; unfinishedProcesses := [0%nat] |}.
Proof. split; reflexivity. Qed.
End BankersFacts.


(** ** Loops that rewrite an array index by index *)

Lemma splice_lookup {A} (X Y : list A) j :
  (j < length X)%nat -> length X = length Y ->
  (take j X ++ drop j Y) !! j = Y !! j.
Proof.
  intros Hj Hlen. rewrite lookup_app_r by (rewrite length_take; lia).
  rewrite length_take, lookup_drop. f_equal. lia.
Qed.

Lemma splice_insert {A} (X Y : list A) j x :
  X !! j = Some x -> length X = length Y ->
  <[j := x]> (take j X ++ drop j Y) = take (S j) X ++ drop (S j) Y.
Proof.
  intros Hx Hlen. pose proof (lookup_lt_Some _ _ _ Hx) as Hj.
  destruct (lookup_lt_is_Some_2 Y j ltac:(lia)) as [y Hy].
  rewrite (take_S_r _ _ _ Hx), (drop_S _ _ _ Hy), <- app_assoc. simpl.
  rewrite insert_app_r_alt by (rewrite length_take; lia).
  rewrite length_take. replace (j - j `min` length X)%nat with 0%nat by lia. done.
Qed.

Lemma splice_0 {A} (X Y : list A) : take 0 X ++ drop 0 Y = Y.
Proof. by rewrite take_0, drop_0. Qed.

Lemma splice_all {A} (X Y : list A) :
  length X = length Y -> take (length X) X ++ drop (length X) Y = X.
Proof. intros Hlen. by rewrite firstn_all, drop_ge, app_nil_r by lia. Qed.

Section RequestFacts.
Import Bankers BankersSpec RequestSpec RequestProps.

Lemma first_exceeding_from request (b : vector) bound n :
  (forall k, bound k = read b k) ->
  forall j, (j + n = length request)%nat -> length b = length request ->
  first_exceeding n j request bound
  = Ok (Nat.add j <$> first_over (drop j request) (drop j b)).
Proof.
  intros Hbound. induction n as [|n IH]; intros j Hj Hlen; simpl.
  - by rewrite !drop_ge by lia.
  - destruct (lookup_lt_is_Some_2 request j ltac:(lia)) as [r Hr].
    destruct (lookup_lt_is_Some_2 b j ltac:(lia)) as [x Hx].
    rewrite (read_Some _ _ _ Hr), Hbound, (read_Some _ _ _ Hx). simpl.
    rewrite (drop_S _ _ _ Hr), (drop_S _ _ _ Hx). simpl.
    destruct (r >? x); simpl.
    + by rewrite Nat.add_0_r.
    + rewrite IH by lia. f_equal.
      destruct (first_over _ _); simpl; [|done]. f_equal. lia.
Qed.

Lemma first_exceeding_first_over request (b : vector) bound :
  (forall k, bound k = read b k) ->
  length b = length request ->
  first_exceeding (length request) 0 request bound = Ok (first_over request b).
Proof.
  intros Hbound Hlen.
  rewrite (first_exceeding_from request b bound _ Hbound 0%nat) by lia.
  rewrite !drop_0. by destruct (first_over request b).
Qed.

(** [first_over] is the smallest index at which the request is larger. *)
Lemma first_over_Some request bound j :
  first_over request bound = Some j <->
  (exists r b, request !! j = Some r /\ bound !! j = Some b /\ r > b)
  /\ (forall k r b, (k < j)%nat -> request !! k = Some r -> bound !! k = Some b -> r <= b).
Proof.
  revert bound j. induction request as [|r request IH]; intros [|b bound] j; simpl.
  - split; [done|]. intros [(? & ? & Hr & _) _]. by rewrite lookup_nil in Hr.
  - split; [done|]. intros [(? & ? & Hr & _) _]. by rewrite lookup_nil in Hr.
  - split; [done|]. intros [(? & ? & _ & Hb & _) _]. by rewrite lookup_nil in Hb.
  - destruct (Z.gtb_spec r b) as [Hgt|Hle].
    + split.
      * intros [= <-]. split; [exists r, b; repeat split; lia|]. intros; lia.
      * intros [(r' & b' & Hr & Hb & Hrb) Hmin]. destruct j as [|j]; [done|].
        specialize (Hmin 0%nat r b ltac:(lia) eq_refl eq_refl). lia.
    + destruct (first_over request bound) as [i|] eqn:Hi; simpl.
      * split.
        -- intros [= <-]. apply IH in Hi as [Hex Hmin]. split; [done|].
           intros [|k] r' b' Hk; simpl; [intros [= <-] [= <-]; lia|].
           apply Hmin. lia.
        -- intros [(r' & b' & Hr & Hb & Hrb) Hmin]. destruct j as [|j].
           { simpl in *. simplify_eq. lia. }
           f_equal. assert (first_over request bound = Some j) as Hj; [|congruence].
           apply IH. split; [by exists r', b'|].
           intros k r'' b'' Hk. apply (Hmin (S k)). lia.
      * split; [done|].
        intros [(r' & b' & Hr & Hb & Hrb) Hmin]. destruct j as [|j].
        { simpl in *. simplify_eq. lia. }
        assert (first_over request bound = Some j) as Hj; [|congruence].
        apply IH. split; [by exists r', b'|].
        intros k r'' b'' Hk. apply (Hmin (S k)). lia.
Qed.

Lemma first_over_None request bound :
  first_over request bound = None <->
  (forall k r b, request !! k = Some r -> bound !! k = Some b -> r <= b).
Proof.
  revert bound. induction request as [|r request IH]; intros [|b bound]; simpl.
  1-3: split; [|done]; intros _ k r' b' Hr Hb;
       rewrite ?lookup_nil in Hr; rewrite ?lookup_nil in Hb; done.
  destruct (Z.gtb_spec r b) as [Hgt|Hle].
  - split; [done|]. intros Hall. specialize (Hall 0%nat r b eq_refl eq_refl). lia.
  - destruct (first_over request bound) eqn:Hi; simpl.
    + split; [done|]. intros Hall.
      assert (Some n = None) as Hn; [|done]. rewrite <- Hi. apply IH.
      intros k. apply (Hall (S k)).
    + split; [|done]. intros _ [|k] r' b'; simpl.
      * intros [= <-] [= <-]. lia.
      * by apply IH.
Qed.

Section Tentative.
Variables (available : vector) (allocation need : matrix).
Variables (processId : nat) (request arow nrow : vector).
Hypothesis Harow : allocation !! processId = Some arow.
Hypothesis Hnrow : need !! processId = Some nrow.
Hypothesis Hreq : length request = length available.
Hypothesis Hlen_arow : length arow = length available.
Hypothesis Hlen_nrow : length nrow = length available.

Lemma tentative_loop :
  for_loop (length available) 0 (tentative_one processId request)
           (available, allocation, need)
  = Ok (zip_with Z.sub available request,
        <[processId := zip_with Z.add arow request]> allocation,
        <[processId := zip_with Z.sub nrow request]> need).
Proof.
  set (A' := zip_with Z.sub available request).
  set (R' := zip_with Z.add arow request).
  set (N' := zip_with Z.sub nrow request).
  assert (length A' = length available) as HA by (unfold A'; rewrite length_zip_with; lia).
  assert (length R' = length arow) as HR by (unfold R'; rewrite length_zip_with; lia).
  assert (length N' = length nrow) as HN by (unfold N'; rewrite length_zip_with; lia).
  pose proof (lookup_lt_Some _ _ _ Harow) as Hpa.
  pose proof (lookup_lt_Some _ _ _ Hnrow) as Hpn.
  destruct (for_loop_invariant
              (fun j s => s = (take j A' ++ drop j available,
                               <[processId := take j R' ++ drop j arow]> allocation,
                               <[processId := take j N' ++ drop j nrow]> need))
              (tentative_one processId request) (length available) 0%nat
              (available, allocation, need)) as (s & -> & ->).
  - rewrite !splice_0. by rewrite !list_insert_id.
  - intros j s [_ Hj] ->. unfold tentative_one.
    destruct (lookup_lt_is_Some_2 request j ltac:(lia)) as [r Hr].
    destruct (lookup_lt_is_Some_2 available j ltac:(lia)) as [a Ha].
    destruct (lookup_lt_is_Some_2 arow j ltac:(lia)) as [x Hx].
    destruct (lookup_lt_is_Some_2 nrow j ltac:(lia)) as [y Hy].
    rewrite (read_Some _ _ _ Hr). simpl.
    rewrite (read_Some _ j a) by (rewrite splice_lookup by lia; done). simpl.
    rewrite (read_Some _ processId _ (list_lookup_insert_eq _ _ _ Hpa)). simpl.
    rewrite (read_Some _ j x) by (rewrite splice_lookup by lia; done). simpl.
    rewrite (read_Some _ processId _ (list_lookup_insert_eq _ _ _ Hpn)). simpl.
    rewrite (read_Some _ j y) by (rewrite splice_lookup by lia; done). simpl.
    eexists. split; [done|].
    rewrite !list_insert_insert_eq.
    rewrite (splice_insert A' available) by
      (try done; unfold A'; by rewrite lookup_zip_with, Ha, Hr).
    rewrite (splice_insert R' arow) by
      (try done; unfold R'; by rewrite lookup_zip_with, Hx, Hr).
    rewrite (splice_insert N' nrow) by
      (try done; unfold N'; by rewrite lookup_zip_with, Hy, Hr).
    done.
  - simpl. rewrite <- HA at 1 2. rewrite splice_all by done.
    replace (length available) with (length R') at 1 2 by lia.
    rewrite splice_all by done.
    replace (length available) with (length N') at 1 2 by lia.
    rewrite splice_all by done. done.
Qed.

Lemma commit_loop :
  for_loop (length request) 0 (commit_one processId request) (available, allocation)
  = Ok (grant available allocation processId request).
Proof.
  clear Hnrow Hlen_nrow. unfold grant. rewrite Harow.
  set (A' := zip_with Z.sub available request).
  set (R' := zip_with Z.add arow request).
  assert (length A' = length available) as HA by (unfold A'; rewrite length_zip_with; lia).
  assert (length R' = length arow) as HR by (unfold R'; rewrite length_zip_with; lia).
  pose proof (lookup_lt_Some _ _ _ Harow) as Hpa.
  destruct (for_loop_invariant
              (fun j s => s = (take j A' ++ drop j available,
                               <[processId := take j R' ++ drop j arow]> allocation))
              (commit_one processId request) (length request) 0%nat
              (available, allocation)) as (s & -> & ->).
  - rewrite !splice_0. by rewrite !list_insert_id.
  - intros j s [_ Hj] ->. unfold commit_one.
    destruct (lookup_lt_is_Some_2 request j ltac:(lia)) as [r Hr].
    destruct (lookup_lt_is_Some_2 available j ltac:(lia)) as [a Ha].
    destruct (lookup_lt_is_Some_2 arow j ltac:(lia)) as [x Hx].
    rewrite (read_Some _ _ _ Hr). simpl.
    rewrite (read_Some _ j a) by (rewrite splice_lookup by lia; done). simpl.
    rewrite (read_Some _ processId _ (list_lookup_insert_eq _ _ _ Hpa)). simpl.
    rewrite (read_Some _ j x) by (rewrite splice_lookup by lia; done). simpl.
    eexists. split; [done|].
    rewrite !list_insert_insert_eq.
    rewrite (splice_insert A' available) by
      (try done; unfold A'; by rewrite lookup_zip_with, Ha, Hr).
    rewrite (splice_insert R' arow) by
      (try done; unfold R'; by rewrite lookup_zip_with, Hx, Hr).
    done.
  - simpl. rewrite Hreq. rewrite <- HA at 1 2. rewrite splice_all by done.
    replace (length available) with (length R') at 1 2 by lia.
    rewrite splice_all by done. done.
Qed.
End Tentative.

Lemma need_of_row available max allocation processId :
  consistent available max allocation ->
  (processId < length max)%nat ->
  exists mrow arow,
    max !! processId = Some mrow /\ allocation !! processId = Some arow
    /\ length mrow = length available /\ length arow = length available
    /\ need_of max allocation !! processId = Some (zip_with Z.sub mrow arow).
Proof.
  intros Hc Hp.
  destruct (consistent_rows _ _ _ _ Hc Hp) as (mrow & arow & Hm & Ha & Hlm & Hla).
  exists mrow, arow. repeat split; try done.
  unfold need_of. by rewrite lookup_zip_with, Hm, Ha.
Qed.

Lemma grant_consistent available max allocation processId request :
  consistent available max allocation ->
  length request = length available ->
  consistent (fst (grant available allocation processId request)) max
             (snd (grant available allocation processId request)).
Proof.
  intros (Hlen & Hmax & Halloc) Hreq. unfold grant, consistent. simpl.
  assert (length (zip_with Z.sub available request) = length available) as ->
    by (rewrite length_zip_with; lia).
  destruct (allocation !! processId) as [row|] eqn:Hrow; [|done].
  rewrite length_insert. repeat split; try done.
  apply Forall_insert; [done|].
  rewrite length_zip_with.
  pose proof (proj1 (Forall_lookup _ _) Halloc _ _ Hrow) as Hl. simpl in Hl. lia.
Qed.

Lemma resourceRequest_unfold available max allocation processId request :
  consistent available max allocation ->
  (processId < length max)%nat ->
  length request = length available ->
  exists nrow,
    need_of max allocation !! processId = Some nrow
    /\ length nrow = length available
    /\ resourceRequest available max allocation processId request
       = match first_over request nrow with
         | Some j => Ok (exceeds_claim j)
         | None =>
             match first_over request available with
             | Some j => Ok (not_available j)
             | None =>
                 sr ← isSafeState (fst (grant available allocation processId request))
                        max (snd (grant available allocation processId request));
                 Ok (safety_verdict sr)
             end
         end.
Proof.
  intros Hc Hp Hreq.
  destruct (need_of_row _ _ _ _ Hc Hp) as (mrow & arow & Hm & Ha & Hlm & Hla & Hn).
  exists (zip_with Z.sub mrow arow).
  assert (length (zip_with Z.sub mrow arow) = length available) as Hln
    by (rewrite length_zip_with; lia).
  split; [done|]. split; [done|].
  unfold resourceRequest. rewrite (compute_need_consistent _ _ _ Hc). simpl.
  rewrite <- Hreq at 1.
  rewrite (first_exceeding_first_over request (zip_with Z.sub mrow arow)).
  2:{ intros k. by rewrite (read_Some _ _ _ Hn). }
  2:{ lia. }
  simpl. destruct (first_over request (zip_with Z.sub mrow arow)); [done|].
  rewrite <- Hreq at 1.
  rewrite (first_exceeding_first_over request available) by done.
  simpl. destruct (first_over request available); [done|].
  rewrite (tentative_loop available allocation (need_of max allocation) processId
             request arow (zip_with Z.sub mrow arow)) by done.
  simpl. unfold grant. rewrite Ha. simpl.
  destruct (isSafeState _ _ _) as [sr|e]; simpl; [|done].
  unfold safety_verdict. by destruct (safe sr).
Qed.

Lemma passes_shape avail unfinished seq r :
  passes avail unfinished seq r ->
  (safe r = true /\ unfinishedProcesses r = []
   /\ length (safeSequence r) = (length seq + length unfinished)%nat)
  \/ (safe r = false /\ safeSequence r = [] /\ unfinishedProcesses r <> []).
Proof.
  induction 1 as [avail seq | avail unf seq Hne Hnone
                 | avail unf seq avail' still fin r Hne Hscan Hfin _ IH]; simpl.
  - left. repeat split. lia.
  - right. repeat split. by destruct unf.
  - destruct IH as [(Hs & Hu & Hl)|Hun]; [left | by right].
    repeat split; try done. rewrite Hl, length_app.
    destruct (scan_pass_count _ _ _ _ _ Hscan) as [Hcount _]. lia.
Qed.

Lemma isSafeState_shape available max allocation :
  consistent available max allocation ->
  exists r, isSafeState available max allocation = Ok r
            /\ safety_shape (length max) r.
Proof.
  intros Hc. destruct (isSafeState_passes _ _ _ Hc) as (r & Hr & Hp).
  exists r. split; [done|]. unfold safety_shape.
  destruct (passes_shape _ _ _ _ Hp) as [(Hs & Hu & Hl)|Hun]; [left | by right].
  repeat split; try done. rewrite Hl. simpl. apply (table_length _ _ _ Hc).
Qed.

Lemma first_over_lt request bound j :
  first_over request bound = Some j -> (j < length request)%nat.
Proof.
  intros [(r & _ & Hr & _) _]%first_over_Some. by eapply lookup_lt_Some.
Qed.

Lemma resourceRequest_shape available max allocation processId request :
  consistent available max allocation ->
  (processId < length max)%nat ->
  length request = length available ->
  exists rr, resourceRequest available max allocation processId request = Ok rr
             /\ request_shape (length available) rr.
Proof.
  intros Hc Hp Hreq.
  destruct (resourceRequest_unfold _ _ _ _ _ Hc Hp Hreq) as (nrow & Hn & Hln & ->).
  destruct (first_over request nrow) as [j|] eqn:Hj.
  { eexists. split; [done|]. left. exists j. split; [|done].
    apply first_over_lt in Hj. lia. }
  destruct (first_over request available) as [j|] eqn:Hj'.
  { eexists. split; [done|]. right. left. exists j. split; [|done].
    apply first_over_lt in Hj'. lia. }
  destruct (isSafeState_shape _ _ _ (grant_consistent _ _ _ processId _ Hc Hreq))
    as (sr & -> & Hshape). simpl.
  eexists. split; [done|]. unfold safety_verdict.
  destruct Hshape as [(-> & _ & _)|(-> & _ & Hne)].
  - right. right. left. by eexists.
  - right. right. right. by eexists.
Qed.

(** C2.  resourceRequest checks in order.  When the request exceeds the need
    of the process, [j] being the smallest such resource, the result is the
    denial 'Request exceeds maximum claim' at [j], whatever the available
    vector holds and whatever the safety of the state.  Otherwise, when it
    exceeds what is available, the result is the denial 'Resources not
    available' at the smallest such resource.  Only when it passes both is
    isSafeState run, on the state with the request applied, and the result is
    the grant with its safe sequence or the denial 'Resulting state would be
    unsafe' with the unfinished processes. *)
Theorem resourceRequest_check_order available max allocation processId request :
  consistent available max allocation ->
  (processId < length max)%nat ->
  length request = length available ->
  exists nrow,
    need_of max allocation !! processId = Some nrow
    /\ (forall j, first_excess request nrow j ->
              resourceRequest available max allocation processId request
              = Ok (exceeds_claim j))
    /\ (within request nrow ->
        forall j, first_excess request available j ->
                  resourceRequest available max allocation processId request
                  = Ok (not_available j))
    /\ (within request nrow -> within request available ->
        exists sr,
          isSafeState (fst (grant available allocation processId request)) max
                      (snd (grant available allocation processId request)) = Ok sr
          /\ resourceRequest available max allocation processId request
             = Ok (if safe sr then request_granted (safeSequence sr)
                   else would_be_unsafe (unfinishedProcesses sr))).
Proof.
  intros Hc Hp Hreq.
  destruct (resourceRequest_unfold _ _ _ _ _ Hc Hp Hreq) as (nrow & Hn & Hln & ->).
  exists nrow. split; [done|]. repeat split.
  - intros j Hj. apply first_over_Some in Hj. by rewrite Hj.
  - intros Hin j Hj. apply first_over_None in Hin. apply first_over_Some in Hj.
    by rewrite Hin, Hj.
  - intros Hin Hav. apply first_over_None in Hin. apply first_over_None in Hav.
    rewrite Hin, Hav.
    destruct (isSafeState_passes _ _ _ (grant_consistent _ _ _ processId _ Hc Hreq))
      as (sr & Hsr & _).
    exists sr. split; [done|]. by rewrite Hsr.
Qed.

(** A request that fails both static checks is reported as exceeding the
    claim. *)
Lemma resourceRequest_check_order_witness :
  exists nrow,
    need_of [[7; 5; 3]; [3; 2; 2]] [[0; 1; 0]; [2; 0; 0]] !! 1%nat = Some nrow
    /\ (forall j, first_excess [2; 5; 9] nrow j ->
              resourceRequest [3; 3; 2] [[7; 5; 3]; [3; 2; 2]] [[0; 1; 0]; [2; 0; 0]]
                              1 [2; 5; 9]
              = Ok (exceeds_claim j))
    /\ (within [2; 5; 9] nrow ->
        forall j, first_excess [2; 5; 9] [3; 3; 2] j ->
                  resourceRequest [3; 3; 2] [[7; 5; 3]; [3; 2; 2]] [[0; 1; 0]; [2; 0; 0]]
                                  1 [2; 5; 9]
                  = Ok (not_available j))
    /\ (within [2; 5; 9] nrow -> within [2; 5; 9] [3; 3; 2] ->
        exists sr,
          isSafeState (fst (grant [3; 3; 2] [[0; 1; 0]; [2; 0; 0]] 1 [2; 5; 9]))
                      [[7; 5; 3]; [3; 2; 2]]
                      (snd (grant [3; 3; 2] [[0; 1; 0]; [2; 0; 0]] 1 [2; 5; 9])) = Ok sr
          /\ resourceRequest [3; 3; 2] [[7; 5; 3]; [3; 2; 2]] [[0; 1; 0]; [2; 0; 0]]
                             1 [2; 5; 9]
             = Ok (if safe sr then request_granted (safeSequence sr)
                   else would_be_unsafe (unfinishedProcesses sr))).
Proof.
  apply resourceRequest_check_order.
  - split; [reflexivity|]. split; repeat constructor.
  - simpl. lia.
  - reflexivity.
Defined.

Example resourceRequest_fails_both :
  resourceRequest [3; 3; 2] [[7; 5; 3]; [3; 2; 2]] [[0; 1; 0]; [2; 0; 0]] 1 [2; 5; 9]
  = Ok (exceeds_claim 0).
Proof. reflexivity. Qed.

(** C8.  On rectangular inputs of matching dimensions, whatever the sign of
    max − allocation, isSafeState and resourceRequest return: isSafeState one
    of its two results, resourceRequest one of its four; and a request that
    is larger than the need of the process at some resource, negative or not,
    is denied with 'Request exceeds maximum claim'. *)
Theorem negative_need_total available max allocation processId request :
  consistent available max allocation ->
  (processId < length max)%nat ->
  length request = length available ->
  (exists r, isSafeState available max allocation = Ok r
             /\ safety_shape (length max) r)
  /\ (exists rr, resourceRequest available max allocation processId request = Ok rr
                 /\ request_shape (length available) rr)
  /\ (forall nrow j r x,
        need_of max allocation !! processId = Some nrow ->
        request !! j = Some r -> nrow !! j = Some x -> r > x ->
        exists j', (j' <= j)%nat
                   /\ resourceRequest available max allocation processId request
                      = Ok (exceeds_claim j')).
Proof.
  intros Hc Hp Hreq. split; [by apply isSafeState_shape|].
  split; [by apply resourceRequest_shape|].
  intros nrow j r x Hn Hr Hx Hgt.
  destruct (resourceRequest_unfold _ _ _ _ _ Hc Hp Hreq) as (nrow' & Hn' & Hln & ->).
  assert (nrow' = nrow) as -> by congruence.
  destruct (first_over request nrow) as [j'|] eqn:Hj'.
  - exists j'. split; [|done].
    apply first_over_Some in Hj' as [_ Hmin].
    destruct (decide (j' <= j)%nat) as [|Hlt]; [done|].
    specialize (Hmin j r x ltac:(lia) Hr Hx). lia.
  - pose proof (proj1 (first_over_None _ _) Hj' j r x Hr Hx). lia.
Qed.

(** Process 0 holds more than its maximum: its need is negative, and even a
    request for nothing exceeds it. *)
Lemma negative_need_total_witness :
  (exists r, isSafeState [1; 0] [[1; 1]; [2; 1]] [[3; 1]; [0; 1]] = Ok r
             /\ safety_shape 2 r)
  /\ (exists rr, resourceRequest [1; 0] [[1; 1]; [2; 1]] [[3; 1]; [0; 1]] 0 [0; 0] = Ok rr
                 /\ request_shape 2 rr)
  /\ (forall nrow j r x,
        need_of [[1; 1]; [2; 1]] [[3; 1]; [0; 1]] !! 0%nat = Some nrow ->
        [0; 0] !! j = Some r -> nrow !! j = Some x -> r > x ->
        exists j', (j' <= j)%nat
                   /\ resourceRequest [1; 0] [[1; 1]; [2; 1]] [[3; 1]; [0; 1]] 0 [0; 0]
                      = Ok (exceeds_claim j')).
Proof.
  apply (negative_need_total [1; 0] [[1; 1]; [2; 1]] [[3; 1]; [0; 1]] 0 [0; 0]).
  - split; [reflexivity|]. split; repeat constructor.
  - simpl. lia.
  - reflexivity.
Defined.

Example negative_need_denied :
  need_of [[1; 1]; [2; 1]] [[3; 1]; [0; 1]] = [[-2; 0]; [2; 0]]
  /\ resourceRequest [1; 0] [[1; 1]; [2; 1]] [[3; 1]; [0; 1]] 0 [0; 0]
     = Ok (exceeds_claim 0)
  /\ isSafeState [1; 0] [[1; 1]; [2; 1]] [[3; 1]; [0; 1]]
     = Ok {| safe := true; safeSequence := [0; 1]%nat; unfinishedProcesses := [] |}.
Proof. repeat split. Qed.

(** *** The driver *)

Lemma process_request_grant max req st :
  consistent (currentAvailable st) max (currentAllocation st) ->
  request_fits (length max) (length (currentAvailable st)) req ->
  exists r,
    resourceRequest (currentAvailable st) max (currentAllocation st)
                    (processId req) (request req) = Ok r
    /\ process_request max req st
       = Ok {| currentAvailable :=
                 fst (if granted r
                      then grant (currentAvailable st) (currentAllocation st)
                                 (processId req) (request req)
                      else (currentAvailable st, currentAllocation st));
               currentAllocation :=
                 snd (if granted r
                      then grant (currentAvailable st) (currentAllocation st)
                                 (processId req) (request req)
                      else (currentAvailable st, currentAllocation st));
               results := results st ++ [{| ro_processId := processId req;
                                             ro_request := request req;
                                             ro_result := r |}] |}.
Proof.
  intros Hc [Hp Hreq].
  destruct (resourceRequest_shape _ _ _ _ _ Hc Hp Hreq) as (r & Hr & _).
  exists r. split; [done|]. unfold process_request. rewrite Hr. simpl.
  destruct (granted r); [|done].
  destruct (consistent_rows _ _ _ _ Hc Hp) as (mrow & arow & Hm & Ha & Hlm & Hla).
  rewrite (commit_loop _ _ _ _ arow) by done. done.
Qed.

Lemma process_requests_replay max reqs :
  forall st,
    consistent (currentAvailable st) max (currentAllocation st) ->
    Forall (request_fits (length max) (length (currentAvailable st))) reqs ->
    exists rest st',
      replay max (currentAvailable st) (currentAllocation st) reqs = Ok rest
      /\ process_requests max reqs st = Ok st'
      /\ results st' = results st ++ rest.
Proof.
  induction reqs as [|req reqs IH]; intros st Hc Hfits; simpl.
  - exists [], st. by rewrite app_nil_r.
  - apply Forall_cons in Hfits as [Hfit Hfits].
    destruct (process_request_grant _ _ _ Hc Hfit) as (r & -> & ->). simpl.
    set (s := if granted r
              then grant (currentAvailable st) (currentAllocation st)
                         (processId req) (request req)
              else (currentAvailable st, currentAllocation st)).
    assert (consistent (fst s) max (snd s) /\ length (fst s) = length (currentAvailable st))
      as [Hc' Hlen'].
    { subst s. destruct Hfit as [_ Hreq]. destruct (granted r); [|done]. split.
      - by apply grant_consistent.
      - unfold grant. simpl. rewrite length_zip_with. lia. }
    edestruct (IH {| currentAvailable := fst s; currentAllocation := snd s;
                     results := results st ++ [{| ro_processId := processId req;
                                                   ro_request := request req;
                                                   ro_result := r |}] |})
      as (rest & st' & Hrep & Hproc & Hres); simpl.
    { done. }
    { by rewrite Hlen'. }
    simpl in Hrep, Hproc, Hres.
    destruct s as [a' al']. simpl in *. rewrite Hrep. simpl.
    eexists _, st'. split; [done|]. split; [done|].
    by rewrite Hres, <- app_assoc.
Qed.

(** C3.  runBankersAlgorithm reports the verdict of isSafeState on the
    initial state; when that verdict is unsafe no request is evaluated and
    requestResults is empty; when it is safe the requests are replayed in the
    given order against a running state that a granted request changes
    (request subtracted from available, added to the allocation row of the
    process) and a denied request leaves as it was. *)
Theorem runBankersAlgorithm_replay data :
  consistent (available data) (max data) (allocation data) ->
  (forall reqs, requests data = Some reqs ->
                Forall (request_fits (length (max data)) (length (available data))) reqs) ->
  exists init res,
    isSafeState (available data) (max data) (allocation data) = Ok init
    /\ runBankersAlgorithm data = Ok res
    /\ initialState res = init
    /\ (safe init = false -> requestResults res = [])
    /\ (requests data = None -> requestResults res = [])
    /\ (safe init = true ->
        forall reqs, requests data = Some reqs ->
          replay (max data) (available data) (allocation data) reqs
          = Ok (requestResults res)).
Proof.
  intros Hc Hfits.
  destruct (isSafeState_passes _ _ _ Hc) as (init & Hinit & _).
  unfold runBankersAlgorithm. rewrite Hinit. simpl.
  destruct (requests data) as [reqs|] eqn:Hreqs.
  - destruct (safe init) eqn:Hsafe; simpl.
    + destruct (process_requests_replay (max data) reqs
                  {| currentAvailable := available data;
                     currentAllocation := allocation data;
                     results := [] |} Hc (Hfits reqs eq_refl))
        as (rest & st' & Hrep & Hproc & Hres).
      simpl in *.
      assert ((if (0 <? length reqs)%nat
               then process_requests (max data) reqs
                      {| currentAvailable := available data;
                         currentAllocation := allocation data;
                         results := [] |}
               else Ok {| currentAvailable := available data;
                          currentAllocation := allocation data;
                          results := [] |})
              = Ok st') as ->.
      { destruct reqs; [|done]. simpl in Hproc. by rewrite <- Hproc. }
      simpl. eexists _, _. split; [done|]. split; [done|]. simpl.
      split; [by destruct init; simpl in *; subst|].
      split; [intros; congruence|]. split; [done|].
      intros _ reqs' [= <-]. by rewrite Hrep, Hres.
    + eexists _, _. split; [done|]. split; [done|]. simpl.
      split; [by destruct init; simpl in *; subst|].
      repeat split; try done. intros; congruence.
  - simpl. eexists _, _. split; [done|]. split; [done|]. simpl.
    split; [by destruct init|]. done.
Qed.

Lemma runBankersAlgorithm_replay_witness :
  let data :=
    {| available := [3; 3; 2];
       max := [[7; 5; 3]; [3; 2; 2]; [9; 0; 2]; [2; 2; 2]; [4; 3; 3]];
       allocation := [[0; 1; 0]; [2; 0; 0]; [3; 0; 2]; [2; 1; 1]; [0; 0; 2]];
       requests := Some [ {| processId := 1; request := [1; 0; 2] |};
                          {| processId := 4; request := [3; 3; 0] |};
                          {| processId := 0; request := [0; 2; 0] |} ] |} in
  exists init res,
    isSafeState (available data) (max data) (allocation data) = Ok init
    /\ runBankersAlgorithm data = Ok res
    /\ initialState res = init
    /\ (safe init = false -> requestResults res = [])
    /\ (requests data = None -> requestResults res = [])
    /\ (safe init = true ->
        forall reqs, requests data = Some reqs ->
          replay (max data) (available data) (allocation data) reqs
          = Ok (requestResults res)).
Proof.
  intros data. apply (runBankersAlgorithm_replay data).
  - split; [reflexivity|]. split; repeat constructor.
  - intros reqs [= <-]. repeat constructor.
Defined.
End RequestFacts.


Section ConservationFacts.
Import Bankers BankersSpec Conservation.

Lemma entry_at_additive m j : additive m (entry_at j).
Proof.
  intros a r Ha Hr. unfold entry_at. rewrite lookup_zip_with.
  destruct (a !! j) as [x|] eqn:Hx; simpl.
  - destruct (lookup_lt_is_Some_2 r j) as [y ->]; [|done].
    apply lookup_lt_Some in Hx. lia.
  - destruct (r !! j) eqn:Hy; simpl; [|done].
    apply lookup_lt_Some in Hy. apply lookup_ge_None in Hx. lia.
Qed.

Lemma sum_of_additive m : additive m sum_of.
Proof.
  intros a. revert m. induction a as [|x a IH]; intros m [|y r] Ha Hr; simpl in *;
    try done; try lia.
  unfold sum_of in *. simpl. rewrite (IH (length a)) by lia. lia.
Qed.

Lemma held_insert w (allocation : matrix) :
  forall (flags : list bool) i row (b b' : bool),
    allocation !! i = Some row -> flags !! i = Some b ->
    held w allocation (<[i := b']> flags)
    = held w allocation flags - (if b then w row else 0) + (if b' then w row else 0).
Proof.
  unfold held, sum_of.
  induction allocation as [|r allocation IH]; intros [|f flags] [|i] row b b' Hrow Hb;
    simpl in *; try done.
  - simplify_eq. lia.
  - rewrite (IH flags i row b b') by done. lia.
Qed.

Lemma reachable_dims available max allocation st :
  consistent available max allocation ->
  reachable available max allocation st ->
  length (st_finished st) = length max
  /\ length (st_availableResources st) = length available.
Proof.
  intros Hc. induction 1 as [|need st i st' _ [Hf Ha] Hneed Hi Hvisit|st _ IH]; simpl.
  - by rewrite length_replicate.
  - rewrite (compute_need_consistent _ _ _ Hc) in Hneed. injection Hneed as <-.
    destruct (need_of_row _ _ _ _ Hc Hi) as (mrow & arow & Hm & Har & Hlm & Hla & Hn).
    destruct (lookup_lt_is_Some_2 (st_finished st) i ltac:(lia)) as [f Hfi].
    rewrite <- Ha in Hvisit.
    rewrite (visit_consistent _ _ _ _ _ _ _ Hn Har Hfi) in Hvisit.
    2:{ rewrite length_zip_with. lia. }
    2:{ lia. }
    injection Hvisit as <-. unfold visit_result. destruct f; [done|].
    case_bool_decide; simpl; [|done].
    rewrite length_insert, length_zip_with. lia.
  - done.
Qed.

Lemma conserved_sum_reachable w available max allocation st :
  additive (length available) w ->
  consistent available max allocation ->
  reachable available max allocation st ->
  conserved_sum w allocation st
  = conserved_sum w allocation (initial_state available max).
Proof.
  intros Hw Hc. induction 1 as [|need st i st' Hreach IH Hneed Hi Hvisit|st _ IH].
  - done.
  - rewrite <- IH. clear IH.
    destruct (reachable_dims _ _ _ _ Hc Hreach) as [Hf Ha].
    rewrite (compute_need_consistent _ _ _ Hc) in Hneed. injection Hneed as <-.
    destruct (need_of_row _ _ _ _ Hc Hi) as (mrow & arow & Hm & Har & Hlm & Hla & Hn).
    destruct (lookup_lt_is_Some_2 (st_finished st) i ltac:(lia)) as [f Hfi].
    rewrite <- Ha in Hvisit.
    rewrite (visit_consistent _ _ _ _ _ _ _ Hn Har Hfi) in Hvisit.
    2:{ rewrite length_zip_with. lia. }
    2:{ lia. }
    injection Hvisit as <-. unfold visit_result. destruct f; [done|].
    case_bool_decide; [|done].
    unfold conserved_sum, on_hand, held_by_unfinished. simpl.
    rewrite Hw by lia. rewrite list_fmap_insert. simpl.
    rewrite (held_insert w allocation _ i arow true false); [lia | done |].
    by rewrite list_lookup_fmap, Hfi.
  - by rewrite <- IH.
Qed.

(** The states of a pass of isSafeState are among the reachable ones. *)
Lemma pass_reachable available max allocation need k :
  compute_need max allocation = Ok need ->
  forall i st st',
    (i + k <= length max)%nat ->
    reachable available max allocation st ->
    for_loop k i (visit need allocation (length available)) st = Ok st' ->
    reachable available max allocation st'.
Proof.
  intros Hneed. induction k as [|k IH]; intros i st st' Hik Hreach; simpl.
  - by intros [= <-].
  - intros (st1 & Hvisit & Hrest)%bind_Ok.
    apply (IH (S i) st1 st'); [lia | | done].
    by apply (reach_visit _ _ _ need st i st1); [| | lia |].
Qed.

(** The rows of the finished and of the unfinished processes are all the
    rows. *)
Lemma held_partition w (allocation : matrix) :
  forall flags : list bool,
    length flags = length allocation ->
    held w allocation flags + held w allocation (negb <$> flags)
    = held w allocation (replicate (length allocation) true).
Proof.
  unfold held, sum_of.
  induction allocation as [|row allocation IH]; intros [|f flags] Hlen;
    simpl in *; try done.
  specialize (IH flags ltac:(lia)). change (list_fmap _ _ negb flags) with (negb <$> flags).
  destruct f; simpl; lia.
Qed.

(** The working available vector holds what the input had available and
    what the finished processes have given back. *)
Lemma on_hand_reachable w available max allocation st :
  additive (length available) w ->
  consistent available max allocation ->
  reachable available max allocation st ->
  on_hand w st = w available + returned_by_finished w allocation st.
Proof.
  intros Hw Hc Hreach.
  pose proof (conserved_sum_reachable w _ _ _ _ Hw Hc Hreach) as Hsum.
  destruct (reachable_dims _ _ _ _ Hc Hreach) as [Hf _].
  destruct Hc as (Hlen & _ & _).
  pose proof (held_partition w allocation (st_finished st) ltac:(lia)) as Hpart.
  unfold conserved_sum, held_by_unfinished, returned_by_finished, on_hand in *.
  simpl in Hsum. rewrite fmap_replicate in Hsum. simpl in Hsum.
  rewrite Hlen in Hsum. lia.
Qed.

(** C7.  In every state the loops of isSafeState go through, what the
    input has available, what the unfinished processes hold and what the
    finished processes have given back add up to what they did at the start,
    for each resource type and in total.  What the finished processes have
    given back is in the working available vector: that vector is the
    available vector of the input plus the allocation rows of the finished
    processes, so that the working vector and the rows of the unfinished
    processes add up to the same constant. *)
Theorem conservation available max allocation st :
  consistent available max allocation ->
  reachable available max allocation st ->
  (forall j, (j < length available)%nat ->
             stated_sum (entry_at j) available allocation st
             = stated_sum (entry_at j) available allocation (initial_state available max)
             /\ on_hand (entry_at j) st
                = entry_at j available + returned_by_finished (entry_at j) allocation st
             /\ conserved_sum (entry_at j) allocation st
                = stated_sum (entry_at j) available allocation st)
  /\ stated_sum sum_of available allocation st
     = stated_sum sum_of available allocation (initial_state available max)
  /\ on_hand sum_of st = sum_of available + returned_by_finished sum_of allocation st
  /\ conserved_sum sum_of allocation st = stated_sum sum_of available allocation st.
Proof.
  intros Hc Hreach.
  assert (forall w, additive (length available) w ->
            stated_sum w available allocation st
            = stated_sum w available allocation (initial_state available max)
            /\ on_hand w st = w available + returned_by_finished w allocation st
            /\ conserved_sum w allocation st = stated_sum w available allocation st)
    as Hall.
  { intros w Hw.
    pose proof (conserved_sum_reachable w _ _ _ _ Hw Hc Hreach) as Hsum.
    pose proof (on_hand_reachable w _ _ _ _ Hw Hc Hreach) as Hhand.
    pose proof (on_hand_reachable w _ _ _ _ Hw Hc (reach_initial available max allocation))
      as Hhand0.
    unfold stated_sum, conserved_sum in *. lia. }
  split.
  - intros j _. apply Hall, entry_at_additive.
  - apply Hall, sum_of_additive.
Qed.

Lemma conservation_witness :
  stated_sum sum_of [0] [[1]]
    {| st_availableResources := [1];
       st_finished := [true];
       st_safeSequence := [0%nat];
       st_count := 1;
       st_found := true |}
  = stated_sum sum_of [0] [[1]] (initial_state [0] [[1]]).
Proof.
  apply (conservation [0] [[1]] [[1]]).
  - split; [reflexivity|]. split; repeat constructor.
  - apply (reach_visit [0] [[1]] [[1]] [[0]] (initial_state [0] [[1]]) 0%nat).
    + apply reach_initial.
    + reflexivity.
    + simpl. lia.
    + reflexivity.
Defined.

(** With the working available vector in the place of the available vector
    of the input the three terms would not add up to a constant: a returned
    row would count twice.  With one process that holds one unit and needs no
    more, they add up to 1 at the start and to 2 once the process has
    finished. *)
Example working_sum_counts_returned_rows :
  let finished := {| st_availableResources := [1];
                     st_finished := [true];
                     st_safeSequence := [0%nat];
                     st_count := 1;
                     st_found := true |} in
  visit [[0]] [[1]] 1 0 (initial_state [0] [[1]]) = Ok finished
  /\ working_sum sum_of [[1]] (initial_state [0] [[1]]) = 1
  /\ working_sum sum_of [[1]] finished = 2
  /\ stated_sum sum_of [0] [[1]] finished = 1.
Proof. repeat split. Qed.
End ConservationFacts.


Section MemoryFacts.
Import Memory MemorySpec MemoryRun FitSpec.

Lemma for_loop_fold {A St} (l : list A) (body : nat -> St -> outcome St)
    (f : nat -> A -> St -> St) (Inv : St -> Prop) :
  (forall i x s, l !! i = Some x -> Inv s -> body i s = Ok (f i x s) /\ Inv (f i x s)) ->
  forall k i s,
    (i + k = length l)%nat -> Inv s ->
    for_loop k i body s = Ok (fold_indexed f i (drop i l) s)
    /\ Inv (fold_indexed f i (drop i l) s).
Proof.
  intros Hbody. induction k as [|k IH]; intros i s Hik Hinv; simpl.
  - by rewrite drop_ge by lia.
  - destruct (lookup_lt_is_Some_2 l i ltac:(lia)) as [x Hx].
    destruct (Hbody i x s Hx Hinv) as [-> Hinv']. simpl.
    rewrite (drop_S _ _ _ Hx). simpl. apply IH; [lia | done].
Qed.

Lemma fold_indexed_app {A St} (f : nat -> A -> St -> St) (l1 l2 : list A) i s :
  fold_indexed f i (l1 ++ l2) s
  = fold_indexed f (i + length l1) l2 (fold_indexed f i l1 s).
Proof.
  revert i s. induction l1 as [|x l1 IH]; intros i s; simpl.
  - by rewrite Nat.add_0_r.
  - rewrite IH. f_equal. lia.
Qed.

Lemma place_placed i j b p st :
  st_blocks st !! j = Some b -> place i j p st = Ok (placed i j b p st).
Proof. intros Hb. unfold place. by rewrite (read_Some _ _ _ Hb). Qed.

Lemma first_fit_scan_choice i p st n :
  forall j, (j + n = length (st_blocks st))%nat ->
  first_fit_scan n j i p st
  = Ok (apply_choice i p (first_from j (drop j (st_blocks st)) p) st).
Proof.
  induction n as [|n IH]; intros j Hj; simpl.
  - by rewrite drop_ge by lia.
  - destruct (lookup_lt_is_Some_2 (st_blocks st) j ltac:(lia)) as [b Hb].
    rewrite (read_Some _ _ _ Hb), (drop_S _ _ _ Hb). simpl.
    destruct (size b >=? size p).
    + rewrite (place_placed _ _ _ _ _ Hb). unfold apply_choice. by rewrite Hb.
    + apply IH. lia.
Qed.

Lemma next_fit_scan_choice i p st last n :
  forall j, (j < length (st_blocks st))%nat ->
  next_fit_scan n j i p (st, last)
  = Ok (match next_from n j (st_blocks st) p with
        | Some k => (apply_choice i p (Some k) st,
                     ((k + 1) mod length (st_blocks st))%nat)
        | None => (st, last)
        end).
Proof.
  induction n as [|n IH]; intros j Hj; simpl; [done|].
  destruct (lookup_lt_is_Some_2 (st_blocks st) j Hj) as [b Hb].
  rewrite (read_Some _ _ _ Hb), Hb. simpl.
  destruct (size b >=? size p).
  - rewrite (place_placed _ _ _ _ _ Hb). simpl. by rewrite Hb.
  - apply IH. apply Nat.mod_upper_bound. lia.
Qed.

Lemma best_fit_step_at blocks p j b best :
  blocks !! j = Some b ->
  best_fit_step blocks p j best
  = Ok (if (size b >=? size p) && below (size b) (snd best)
        then (Some j, Finite (size b)) else best).
Proof.
  intros Hb. unfold best_fit_step. rewrite (read_Some _ _ _ Hb). simpl.
  by destruct (_ && _).
Qed.

Lemma worst_fit_step_at blocks p j b worst :
  blocks !! j = Some b ->
  worst_fit_step blocks p j worst
  = Ok (if (size b >=? size p) && (size b >? snd worst)
        then (Some j, size b) else worst).
Proof.
  intros Hb. unfold worst_fit_step. rewrite (read_Some _ _ _ Hb). simpl.
  by destruct (_ && _).
Qed.

Lemma best_fit_loop blocks p n :
  forall j best, (j + n = length blocks)%nat ->
  for_loop n j (best_fit_step blocks p) best
  = Ok (best_from j (drop j blocks) p best).
Proof.
  induction n as [|n IH]; intros j best Hj; cbn [for_loop].
  - by rewrite drop_ge by lia.
  - destruct (lookup_lt_is_Some_2 blocks j ltac:(lia)) as [b Hb].
    rewrite (best_fit_step_at _ _ _ _ _ Hb), (drop_S _ _ _ Hb).
    cbn [mbind outcome_bind best_from].
    destruct (_ && _); cbn [mbind outcome_bind]; apply IH; lia.
Qed.

Lemma worst_fit_loop blocks p n :
  forall j worst, (j + n = length blocks)%nat ->
  for_loop n j (worst_fit_step blocks p) worst
  = Ok (worst_from j (drop j blocks) p worst).
Proof.
  induction n as [|n IH]; intros j worst Hj; cbn [for_loop].
  - by rewrite drop_ge by lia.
  - destruct (lookup_lt_is_Some_2 blocks j ltac:(lia)) as [b Hb].
    rewrite (worst_fit_step_at _ _ _ _ _ Hb), (drop_S _ _ _ Hb).
    cbn [mbind outcome_bind worst_from].
    destruct (_ && _); cbn [mbind outcome_bind]; apply IH; lia.
Qed.

(** The choosers pick an index of the block list. *)
Lemma first_from_lt blocks p : forall j k,
  first_from j blocks p = Some k -> (j <= k < j + length blocks)%nat.
Proof.
  induction blocks as [|b blocks IH]; intros j k; simpl; [done|].
  destruct (size b >=? size p).
  - intros [= <-]. lia.
  - intros Hk%IH. lia.
Qed.

Lemma best_from_lt blocks p : forall j best k,
  (forall i, fst best = Some i -> (i < j)%nat) ->
  fst (best_from j blocks p best) = Some k -> (k < j + length blocks)%nat.
Proof.
  induction blocks as [|b blocks IH]; intros j best k Hbest; simpl.
  - intros Hk%Hbest. lia.
  - intros Hk%IH; [lia|]. intros i. destruct (_ && _); simpl.
    + intros [= <-]. lia.
    + intros Hi%Hbest. lia.
Qed.

Lemma worst_from_lt blocks p : forall j worst k,
  (forall i, fst worst = Some i -> (i < j)%nat) ->
  fst (worst_from j blocks p worst) = Some k -> (k < j + length blocks)%nat.
Proof.
  induction blocks as [|b blocks IH]; intros j worst k Hworst; simpl.
  - intros Hk%Hworst. lia.
  - intros Hk%IH; [lia|]. intros i. destruct (_ && _); simpl.
    + intros [= <-]. lia.
    + intros Hi%Hworst. lia.
Qed.

Lemma place_if_found_choice i p st choice :
  (forall j, choice = Some j -> (j < length (st_blocks st))%nat) ->
  place_if_found choice i p st = Ok (apply_choice i p choice st).
Proof.
  intros Hlt. destruct choice as [j|]; simpl; [|done].
  destruct (lookup_lt_is_Some_2 (st_blocks st) j (Hlt j eq_refl)) as [b Hb].
  by rewrite (place_placed _ _ _ _ _ Hb), Hb.
Qed.

(** The loop bodies of the four strategies are choice steps. *)
Lemma first_fit_process_step procs i p st :
  procs !! i = Some p ->
  first_fit_process procs i st = Ok (fst (choice_step choose_first i p (st, tt))).
Proof.
  intros Hp. unfold first_fit_process. rewrite (read_Some _ _ _ Hp). simpl.
  rewrite (first_fit_scan_choice i p st _ 0%nat) by lia. by rewrite drop_0.
Qed.

Lemma best_fit_process_step procs i p st :
  procs !! i = Some p ->
  best_fit_process procs i st = Ok (fst (choice_step choose_best i p (st, tt))).
Proof.
  intros Hp. unfold best_fit_process. rewrite (read_Some _ _ _ Hp). simpl.
  rewrite (best_fit_loop _ p _ 0%nat) by lia. rewrite drop_0. simpl.
  apply place_if_found_choice. intros j Hj.
  apply best_from_lt in Hj; [lia|]. done.
Qed.

Lemma worst_fit_process_step procs i p st :
  procs !! i = Some p ->
  worst_fit_process procs i st = Ok (fst (choice_step choose_worst i p (st, tt))).
Proof.
  intros Hp. unfold worst_fit_process. rewrite (read_Some _ _ _ Hp). simpl.
  rewrite (worst_fit_loop _ p _ 0%nat) by lia. rewrite drop_0. simpl.
  apply place_if_found_choice. intros j Hj.
  apply worst_from_lt in Hj; [lia|]. done.
Qed.

Lemma length_blocks_apply_choice i p choice st :
  length (st_blocks (apply_choice i p choice st)) = length (st_blocks st).
Proof.
  unfold apply_choice. destruct choice as [j|]; [|done].
  destruct (st_blocks st !! j); [|done]. simpl. by rewrite length_insert.
Qed.

Lemma next_fit_process_step procs i p s :
  procs !! i = Some p -> last_in_range s ->
  next_fit_process procs i s = Ok (choice_step choose_next i p s)
  /\ last_in_range (choice_step choose_next i p s).
Proof.
  intros Hp Hlast. unfold next_fit_process. rewrite (read_Some _ _ _ Hp). simpl.
  destruct s as [st last]. simpl in *.
  destruct (decide (length (st_blocks st) = 0)%nat) as [Hz|Hnz].
  - rewrite Hz. simpl. unfold choice_step, choose_next. simpl. rewrite Hz. simpl.
    split; [done|]. unfold last_in_range in *. simpl in *. lia.
  - assert (last < length (st_blocks st))%nat as Hlt.
    { unfold last_in_range in Hlast. simpl in Hlast. lia. }
    rewrite next_fit_scan_choice by done.
    unfold choice_step, choose_next. simpl.
    destruct (next_from _ _ _ _) as [k|]; simpl.
    + split; [done|]. left. simpl.
      destruct (st_blocks st !! k); simpl; rewrite ?length_insert;
        apply Nat.mod_upper_bound; lia.
    + split; [done|]. by left.
Qed.

Section RunFacts.
Context {M : Type}.
Variables (choose : chooser M) (blocks : list MemoryBlock) (procs : list Process) (m0 : M).
Hypothesis Hsound : sound choose.

Local Abbreviation S := (state_after choose blocks procs m0).
Local Abbreviation c := (choice_at choose blocks procs m0).

Lemma state_after_0 : S 0 = (initial blocks procs, m0).
Proof. unfold state_after. by rewrite take_0. Qed.

Lemma state_after_S k p :
  procs !! k = Some p -> S (Datatypes.S k) = choice_step choose k p (S k).
Proof.
  intros Hp. unfold state_after, run_choices.
  rewrite (take_S_r _ _ _ Hp), fold_indexed_app. simpl.
  rewrite length_take_le; [done|]. apply lookup_lt_Some in Hp. lia.
Qed.

Lemma state_after_all k :
  (length procs <= k)%nat -> S k = run_choices choose 0 procs (initial blocks procs, m0).
Proof. intros Hk. unfold state_after. by rewrite take_ge. Qed.

Lemma zeroed_zeroed b : zeroed (zeroed b) = zeroed b.
Proof. done. Qed.

Lemma run_invariant_holds k :
  (k <= length procs)%nat ->
  run_invariant blocks procs (fun k => fst (S k)) c k.
Proof.
  induction k as [|k IH]; intros Hk.
  - split; rewrite ?state_after_0; simpl.
    + done.
    + by rewrite length_fmap.
    + by rewrite length_fmap.
    + intros i Hi. rewrite list_lookup_fmap.
      by destruct (lookup_lt_is_Some_2 procs i ltac:(lia)) as [p ->].
    + intros i Hi. lia.
    + intros j b' Hb. exists b'. by split; [|left].
    + intros j _. split; [done|]. by rewrite list_lookup_fmap.
    + intros i j p Hi. lia.
    + intros i j p b Hi. lia.
    + intros i j Hi. lia.
  - specialize (IH ltac:(lia)). destruct IH as [Ib Ia If Ip Id Io Iu Ift Ir Ic].
    destruct (lookup_lt_is_Some_2 procs k ltac:(lia)) as [p Hp].
    pose proof (state_after_S k p Hp) as HS.
    assert (c k = fst (choose (snd (S k)) (st_blocks (fst (S k))) p)) as Hck.
    { unfold choice_at. by rewrite Hp. }
    unfold choice_step in HS. rewrite <- Hck in HS.
    destruct (c k) as [j0|] eqn:Hc0.
    + (* a block is chosen *)
      symmetry in Hck. destruct (Hsound _ _ _ _ Hck) as (b0 & Hb0 & Hfit0).
      assert (fst (S (Datatypes.S k)) = placed k j0 b0 p (fst (S k))) as Hst.
      { rewrite HS. simpl. by rewrite Hb0. }
      pose proof (lookup_lt_Some _ _ _ Hb0) as Hj0.
      split; rewrite ?Hst; simpl.
      * by rewrite length_insert.
      * by rewrite length_insert.
      * by rewrite length_insert.
      * intros i Hi. rewrite list_lookup_insert_ne by lia. apply Ip. lia.
      * intros i Hi. destruct (decide (i = k)) as [->|Hne].
        -- rewrite list_lookup_insert_eq by lia. by rewrite Hc0.
        -- rewrite list_lookup_insert_ne by done. apply Id. lia.
      * intros j b' Hb'. destruct (decide (j = j0)) as [->|Hne].
        -- rewrite list_lookup_insert_eq in Hb' by done. injection Hb' as <-.
           destruct (Io _ _ Hb0) as (b & Hb & [->| ->]); exists b; split; try done;
             by right.
        -- rewrite list_lookup_insert_ne in Hb' by done. by apply Io.
      * intros j Hj. assert (j <> j0) as Hne.
        { intros ->. by apply (Hj k ltac:(lia)). }
        rewrite !list_lookup_insert_ne by done. apply Iu. intros i Hi. apply Hj. lia.
      * intros i j p' Hi Hp' Hci. destruct (decide (i = k)) as [->|Hik].
        -- assert (j = j0) as -> by congruence. assert (p' = p) as -> by congruence.
           by exists b0.
        -- apply Ift; [lia | done | done].
      * intros i j p' b Hi Hp' Hci Hb Hlater. destruct (decide (i = k)) as [->|Hik].
        -- assert (j = j0) as -> by congruence. assert (p' = p) as -> by congruence.
           assert (b = b0) as -> by congruence.
           rewrite list_lookup_insert_eq; [done|]. lia.
        -- assert (j <> j0) as Hne.
           { intros ->. by apply (Hlater k ltac:(lia)). }
           rewrite list_lookup_insert_ne by done.
           apply (Ir i); [lia | done | done | done |]. intros i' Hi'. apply Hlater. lia.
      * intros i j Hi Hci. destruct (decide (j = j0)) as [->|Hne].
        -- exists (zeroed b0). by rewrite list_lookup_insert_eq.
        -- rewrite list_lookup_insert_ne by done. apply (Ic i); [|done].
           destruct (decide (i = k)) as [->|]; [congruence | lia].
    + (* no block is chosen *)
      assert (fst (S (Datatypes.S k)) = fst (S k)) as Hst by (by rewrite HS).
      split; rewrite ?Hst; try done.
      * intros i Hi. apply Ip. lia.
      * intros i Hi. destruct (decide (i = k)) as [->|Hne].
        -- rewrite Hc0. apply Ip. lia.
        -- apply Id. lia.
      * intros j Hj. apply Iu. intros i Hi. apply Hj. lia.
      * intros i j p' Hi Hp' Hci. destruct (decide (i = k)) as [->|Hik].
        -- congruence.
        -- apply Ift; [lia | done | done].
      * intros i j p' b Hi Hp' Hci Hb Hlater. destruct (decide (i = k)) as [->|Hik].
        -- congruence.
        -- apply (Ir i); [lia | done | done | done |]. intros i' Hi'. apply Hlater. lia.
      * intros i j Hi Hci. apply (Ic i); [|done].
        destruct (decide (i = k)) as [->|]; [congruence | lia].
Qed.
End RunFacts.

(** *** What each chooser picks *)

Lemma first_from_Some blocks p : forall j k,
  first_from j blocks p = Some k ->
  exists b, blocks !! (k - j)%nat = Some b /\ fits p b /\ (j <= k)%nat.
Proof.
  induction blocks as [|b blocks IH]; intros j k; simpl; [done|].
  destruct (Z.geb_spec (size b) (size p)) as [Hge|Hlt].
  - intros [= <-]. exists b. rewrite Nat.sub_diag. by repeat split.
  - intros (b' & Hb' & Hfit & Hjk)%IH. exists b'.
    replace (k - j)%nat with (Datatypes.S (k - Datatypes.S j)) by lia.
    repeat split; [done | done | lia].
Qed.

Lemma next_from_Some blocks p n : forall j k,
  next_from n j blocks p = Some k -> exists b, blocks !! k = Some b /\ fits p b.
Proof.
  induction n as [|n IH]; intros j k; simpl; [done|].
  destruct (blocks !! j) as [b|] eqn:Hb; [|done].
  destruct (Z.geb_spec (size b) (size p)) as [Hge|Hlt].
  - intros [= <-]. by exists b.
  - apply IH.
Qed.

Lemma best_from_so_far p blocks : forall pre best,
  best_so_far pre p best ->
  best_so_far (pre ++ blocks) p (best_from (length pre) blocks p best).
Proof.
  induction blocks as [|b blocks IH]; intros pre best Hbest; simpl.
  - by rewrite app_nil_r.
  - replace (Datatypes.S (length pre)) with (length (pre ++ [b]))
      by (rewrite length_app; simpl; lia).
    rewrite (cons_middle b pre blocks), app_assoc. apply IH.
    unfold best_so_far in *. destruct best as [[i|] bs]; simpl in *.
    + destruct Hbest as [(bi & Hbi & Hfi & Hmin) (bi' & Hbi' & ->)].
      assert (bi' = bi) as -> by congruence. simpl.
      pose proof (lookup_lt_Some _ _ _ Hbi) as Hi.
      destruct (Z.geb_spec (size b) (size p)) as [Hge|Hlt]; simpl.
      * destruct (Z.ltb_spec (size b) (size bi)) as [Hless|Hmore]; simpl.
        -- split; [|exists b; split; [by apply list_lookup_middle | done]].
           exists b. split; [by apply list_lookup_middle|]. split; [done|].
           intros k b' Hk Hfit'. destruct (decide (k < length pre)%nat) as [Hlt|Hge'].
           ++ rewrite lookup_app_l in Hk by done.
              destruct (Hmin k b' Hk Hfit') as [Hle _]. split; lia.
           ++ rewrite lookup_app_r in Hk by lia.
              destruct (k - length pre)%nat as [|?] eqn:Hkk; simpl in Hk; [|done].
              injection Hk as <-. split; [lia|]. intros _. lia.
        -- split; [|exists bi; split; [by apply lookup_app_l_Some | done]].
           exists bi. split; [by apply lookup_app_l_Some|]. split; [done|].
           intros k b' Hk Hfit'. destruct (decide (k < length pre)%nat) as [Hlt|Hge'].
           ++ rewrite lookup_app_l in Hk by done. by apply Hmin.
           ++ rewrite lookup_app_r in Hk by lia.
              destruct (k - length pre)%nat as [|?] eqn:Hkk; simpl in Hk; [|done].
              injection Hk as <-. split; [lia|]. intros _. lia.
      * split; [|exists bi; split; [by apply lookup_app_l_Some | done]].
        exists bi. split; [by apply lookup_app_l_Some|]. split; [done|].
        intros k b' Hk Hfit'. destruct (decide (k < length pre)%nat) as [Hlt'|Hge'].
        -- rewrite lookup_app_l in Hk by done. by apply Hmin.
        -- rewrite lookup_app_r in Hk by lia.
           destruct (k - length pre)%nat as [|?] eqn:Hkk; simpl in Hk; [|done].
           injection Hk as <-. unfold fits in Hfit'. lia.
    + destruct Hbest as [-> Hnone]. simpl.
      destruct (Z.geb_spec (size b) (size p)) as [Hge|Hlt]; simpl.
      * split; [|exists b; split; [by apply list_lookup_middle | done]].
        exists b. split; [by apply list_lookup_middle|]. split; [done|].
        intros k b' Hk Hfit'. destruct (decide (k < length pre)%nat) as [Hlt|Hge'].
        -- rewrite lookup_app_l in Hk by done. by destruct (Hnone k b' Hk).
        -- rewrite lookup_app_r in Hk by lia.
           destruct (k - length pre)%nat as [|?] eqn:Hkk; simpl in Hk; [|done].
           injection Hk as <-. split; [lia|]. intros _. lia.
      * split; [done|]. intros k b' Hk Hfit'.
        destruct (decide (k < length pre)%nat) as [Hlt'|Hge'].
        -- rewrite lookup_app_l in Hk by done. by destruct (Hnone k b' Hk).
        -- rewrite lookup_app_r in Hk by lia.
           destruct (k - length pre)%nat as [|?] eqn:Hkk; simpl in Hk; [|done].
           injection Hk as <-. unfold fits in Hfit'. lia.
Qed.

Lemma choose_best_chooses blocks p :
  chooses best_fit blocks p (fst (choose_best tt blocks p)).
Proof.
  pose proof (best_from_so_far p blocks [] (None, Infinity)) as H.
  simpl in H. unfold choose_best. simpl.
  unfold best_so_far in H. unfold chooses.
  destruct (fst (best_from 0 blocks p (None, Infinity))).
  - apply H. split; [done|]. by intros k b Hk.
  - apply H. split; [done|]. by intros k b Hk.
Qed.

Lemma worst_from_so_far p blocks :
  0 <= size p ->
  forall pre worst,
    worst_so_far pre p worst ->
    worst_so_far (pre ++ blocks) p (worst_from (length pre) blocks p worst).
Proof.
  intros Hp. induction blocks as [|b blocks IH]; intros pre worst Hworst; simpl.
  - by rewrite app_nil_r.
  - replace (Datatypes.S (length pre)) with (length (pre ++ [b]))
      by (rewrite length_app; simpl; lia).
    rewrite (cons_middle b pre blocks), app_assoc. apply IH.
    unfold worst_so_far in *. destruct worst as [[i|] ws]; simpl in *.
    + destruct Hworst as [(bi & Hbi & Hfi & Hmax) (bi' & Hbi' & ->)].
      assert (bi' = bi) as -> by congruence. simpl.
      pose proof (lookup_lt_Some _ _ _ Hbi) as Hi.
      destruct (Z.geb_spec (size b) (size p)) as [Hge|Hlt]; simpl.
      * destruct (Z.gtb_spec (size b) (size bi)) as [Hmore|Hless]; simpl.
        -- split; [|exists b; split; [by apply list_lookup_middle | done]].
           exists b. split; [by apply list_lookup_middle|]. split; [done|].
           intros k b' Hk Hfit'. destruct (decide (k < length pre)%nat) as [Hlt|Hge'].
           ++ rewrite lookup_app_l in Hk by done.
              destruct (Hmax k b' Hk Hfit') as [Hle _]. split; lia.
           ++ rewrite lookup_app_r in Hk by lia.
              destruct (k - length pre)%nat as [|?] eqn:Hkk; simpl in Hk; [|done].
              injection Hk as <-. split; [lia|]. intros _. lia.
        -- split; [|exists bi; split; [by apply lookup_app_l_Some | done]].
           exists bi. split; [by apply lookup_app_l_Some|]. split; [done|].
           intros k b' Hk Hfit'. destruct (decide (k < length pre)%nat) as [Hlt|Hge'].
           ++ rewrite lookup_app_l in Hk by done. by apply Hmax.
           ++ rewrite lookup_app_r in Hk by lia.
              destruct (k - length pre)%nat as [|?] eqn:Hkk; simpl in Hk; [|done].
              injection Hk as <-. split; [lia|]. intros _. lia.
      * split; [|exists bi; split; [by apply lookup_app_l_Some | done]].
        exists bi. split; [by apply lookup_app_l_Some|]. split; [done|].
        intros k b' Hk Hfit'. destruct (decide (k < length pre)%nat) as [Hlt'|Hge'].
        -- rewrite lookup_app_l in Hk by done. by apply Hmax.
        -- rewrite lookup_app_r in Hk by lia.
           destruct (k - length pre)%nat as [|?] eqn:Hkk; simpl in Hk; [|done].
           injection Hk as <-. unfold fits in Hfit'. lia.
    + destruct Hworst as [-> Hnone]. simpl.
      destruct (Z.geb_spec (size b) (size p)) as [Hge|Hlt]; simpl.
      * destruct (Z.gtb_spec (size b) (-1)) as [_|Hneg]; [|lia]. simpl.
        split; [|exists b; split; [by apply list_lookup_middle | done]].
        exists b. split; [by apply list_lookup_middle|]. split; [done|].
        intros k b' Hk Hfit'. destruct (decide (k < length pre)%nat) as [Hlt|Hge'].
        -- rewrite lookup_app_l in Hk by done. by destruct (Hnone k b' Hk).
        -- rewrite lookup_app_r in Hk by lia.
           destruct (k - length pre)%nat as [|?] eqn:Hkk; simpl in Hk; [|done].
           injection Hk as <-. split; [lia|]. intros _. lia.
      * split; [done|]. intros k b' Hk Hfit'.
        destruct (decide (k < length pre)%nat) as [Hlt'|Hge'].
        -- rewrite lookup_app_l in Hk by done. by destruct (Hnone k b' Hk).
        -- rewrite lookup_app_r in Hk by lia.
           destruct (k - length pre)%nat as [|?] eqn:Hkk; simpl in Hk; [|done].
           injection Hk as <-. unfold fits in Hfit'. lia.
Qed.

Lemma choose_worst_chooses blocks p :
  0 <= size p ->
  chooses worst_fit blocks p (fst (choose_worst tt blocks p)).
Proof.
  intros Hp.
  pose proof (worst_from_so_far p blocks Hp [] (None, -1)) as H.
  simpl in H. unfold choose_worst. simpl.
  unfold worst_so_far in H. unfold chooses.
  destruct (fst (worst_from 0 blocks p (None, -1))).
  - apply H. split; [done|]. by intros k b Hk.
  - apply H. split; [done|]. by intros k b Hk.
Qed.

(** worstFit picks a block that is large enough whatever the sizes. *)
Lemma worst_from_fits p blocks : forall pre worst j,
  (forall i, fst worst = Some i -> exists b, pre !! i = Some b /\ fits p b) ->
  fst (worst_from (length pre) blocks p worst) = Some j ->
  exists b, (pre ++ blocks) !! j = Some b /\ fits p b.
Proof.
  induction blocks as [|b blocks IH]; intros pre worst j Hworst; simpl.
  - rewrite app_nil_r. apply Hworst.
  - replace (Datatypes.S (length pre)) with (length (pre ++ [b]))
      by (rewrite length_app; simpl; lia).
    rewrite (cons_middle b pre blocks), app_assoc. apply IH.
    intros i. destruct (Z.geb_spec (size b) (size p)) as [Hge|Hlt]; simpl.
    + destruct (size b >? snd worst); simpl.
      * intros [= <-]. exists b. split; [by apply list_lookup_middle | done].
      * intros (b' & Hb' & Hfit)%Hworst. exists b'.
        split; [by apply lookup_app_l_Some | done].
    + intros (b' & Hb' & Hfit)%Hworst. exists b'.
      split; [by apply lookup_app_l_Some | done].
Qed.

Lemma choose_first_sound : sound choose_first.
Proof.
  intros [] blocks p j Hj. simpl in Hj.
  apply first_from_Some in Hj as (b & Hb & Hfit & _).
  rewrite Nat.sub_0_r in Hb. by exists b.
Qed.

Lemma choose_next_sound : sound choose_next.
Proof.
  intros last blocks p j. unfold choose_next.
  destruct (next_from _ _ _ _) as [k|] eqn:Hk; simpl; [|done].
  intros [= <-]. by eapply next_from_Some.
Qed.

Lemma choose_best_sound : sound choose_best.
Proof.
  intros [] blocks p j Hj. pose proof (choose_best_chooses blocks p) as Hc.
  rewrite Hj in Hc. destruct Hc as (b & Hb & Hfit & _). by exists b.
Qed.

Lemma choose_worst_sound : sound choose_worst.
Proof.
  intros [] blocks p j Hj. simpl in Hj.
  apply (worst_from_fits p blocks [] (None, -1) j); [|done]. by intros i.
Qed.

(** *** The loops of the strategies are runs of choices *)

Lemma fold_unit_chooser (choose : chooser unit) procs : forall i st,
  fold_indexed (fun i p st => fst (choice_step choose i p (st, tt))) i procs st
  = fst (run_choices choose i procs (st, tt)).
Proof.
  unfold run_choices.
  induction procs as [|p procs IH]; intros i st; simpl; [done|].
  rewrite IH. do 2 f_equal. unfold choice_step. simpl.
  by destruct (snd (choose tt (st_blocks st) p)).
Qed.

Lemma unit_loop_choices (choose : chooser unit) procs
    (body : nat -> AllocState -> outcome AllocState) st :
  (forall i p st, procs !! i = Some p ->
                  body i st = Ok (fst (choice_step choose i p (st, tt)))) ->
  for_loop (length procs) 0 body st = Ok (fst (run_choices choose 0 procs (st, tt))).
Proof.
  intros Hbody.
  destruct (for_loop_fold procs body
              (fun i p st => fst (choice_step choose i p (st, tt)))
              (fun _ => True)) with (k := length procs) (i := 0%nat) (s := st)
    as [-> _]; try done.
  - intros i p st' Hp _. split; [by apply Hbody | done].
  - by rewrite drop_0, fold_unit_chooser.
Qed.

Lemma run_loop_choices s blocks procs :
  run_loop s blocks procs = Ok (loop_choices s blocks procs (length procs)).
Proof.
  destruct s; simpl; unfold state_after; rewrite firstn_all.
  - apply unit_loop_choices. intros i p st Hp. by apply first_fit_process_step.
  - unfold nextFit_loop.
    assert (forall i p s, procs !! i = Some p -> last_in_range s ->
              next_fit_process procs i s = Ok (choice_step choose_next i p s)
              /\ last_in_range (choice_step choose_next i p s)) as Hbody.
    { intros i p s Hp Hs. by apply next_fit_process_step. }
    destruct (for_loop_fold procs _ _ _ Hbody (length procs) 0%nat
                (initial blocks procs, 0%nat) eq_refl) as [Hloop _].
    { by right. }
    rewrite Hloop. simpl. by rewrite drop_0.
  - apply unit_loop_choices. intros i p st Hp. by apply best_fit_process_step.
  - apply unit_loop_choices. intros i p st Hp. by apply worst_fit_process_step.
Qed.

Lemma run_report s blocks procs :
  run s blocks procs
  = Ok (report (strategy_name s) procs (loop_choices s blocks procs (length procs))).
Proof.
  pose proof (run_loop_choices s blocks procs) as Hloop.
  destruct s; simpl in *; unfold firstFit, nextFit, bestFit, worstFit.
  - by rewrite Hloop.
  - destruct (nextFit_loop blocks procs) as [st|]; simpl in *; [|done].
    by injection Hloop as ->.
  - by rewrite Hloop.
  - by rewrite Hloop.
Qed.

(** The first [k] processes leave the blocks as they do when they are the
    whole input. *)
Lemma prefix_simulation {M} (choose : chooser M) k procs : forall i s1 s2,
  (i + length procs <= k)%nat ->
  st_blocks (fst s1) = st_blocks (fst s2) ->
  st_internalFragmentation (fst s1) = st_internalFragmentation (fst s2) ->
  snd s1 = snd s2 ->
  st_allocation (fst s1) = take k (st_allocation (fst s2)) ->
  st_blocks (fst (run_choices choose i procs s1))
  = st_blocks (fst (run_choices choose i procs s2))
  /\ snd (run_choices choose i procs s1) = snd (run_choices choose i procs s2).
Proof.
  unfold run_choices.
  induction procs as [|p procs IH]; intros i s1 s2 Hi Hb Hf Hm Ha; simpl; [done|].
  simpl in Hi. apply IH; [lia | | | | ]; unfold choice_step; simpl; rewrite Hb, Hm.
  - unfold apply_choice. destruct (fst (choose _ _ _)) as [j|]; [|done].
    rewrite Hb. destruct (st_blocks (fst s2) !! j); [|done]. simpl. by rewrite Hb.
  - unfold apply_choice. destruct (fst (choose _ _ _)) as [j|]; [|done].
    rewrite Hb. destruct (st_blocks (fst s2) !! j); [|done]. simpl. by rewrite Hf.
  - done.
  - unfold apply_choice. destruct (fst (choose _ _ _)) as [j|]; [|done].
    rewrite Hb. destruct (st_blocks (fst s2) !! j); [|done]. simpl.
    rewrite Ha. by rewrite take_insert_lt by lia.
Qed.

Lemma state_after_prefix {M} (choose : chooser M) blocks procs m0 k :
  (k <= length procs)%nat ->
  st_blocks (fst (state_after choose blocks (take k procs) m0 k))
  = st_blocks (fst (state_after choose blocks procs m0 k))
  /\ snd (state_after choose blocks (take k procs) m0 k)
     = snd (state_after choose blocks procs m0 k).
Proof.
  intros Hk. unfold state_after. rewrite take_take, Nat.min_id.
  apply (prefix_simulation choose k); simpl; try done.
  - rewrite length_take. lia.
  - by rewrite fmap_take.
Qed.

Lemma run_loop_prefix s blocks procs i :
  (i <= length procs)%nat ->
  exists before,
    run_loop s blocks (take i procs) = Ok before
    /\ st_blocks before = st_blocks (loop_choices s blocks procs i).
Proof.
  intros Hi. rewrite run_loop_choices. eexists. split; [done|].
  rewrite length_take_le by done.
  destruct s; simpl; by apply state_after_prefix.
Qed.

Lemma strategy_invariant s blocks procs k :
  (k <= length procs)%nat ->
  run_invariant blocks procs (loop_choices s blocks procs)
                (strategy_choice s blocks procs) k.
Proof.
  intros Hk. destruct s; simpl.
  - by apply run_invariant_holds; [apply choose_first_sound|].
  - by apply run_invariant_holds; [apply choose_next_sound|].
  - by apply run_invariant_holds; [apply choose_best_sound|].
  - by apply run_invariant_holds; [apply choose_worst_sound|].
Qed.
End MemoryFacts.


Section FragmentationFacts.
Import Memory MemorySpec MemoryRun FitSpec FragmentationSpec.

Lemma foldl_add_total (l : list Z) : forall a,
  foldl (fun sum x => sum + x) a l = a + sum_of l.
Proof.
  unfold sum_of. induction l as [|x l IH]; intros a; simpl; [lia|].
  rewrite IH. lia.
Qed.

Lemma foldl_size_total (bs : list MemoryBlock) : forall a,
  foldl (fun sum b => sum + size b) a bs = a + sum_of (size <$> bs).
Proof.
  unfold sum_of. induction bs as [|b bs IH]; intros a; simpl; [lia|].
  rewrite IH. change (list_fmap Process Z size bs) with (size <$> bs). lia.
Qed.

Lemma too_small_total_free_below blocks L :
  too_small_total blocks L = free_below blocks L.
Proof. unfold too_small_total, free_below. by rewrite foldl_size_total. Qed.

Lemma unallocated_elem procs (allocation : list (option nat)) p :
  p ∈ unallocated procs allocation <->
  exists i, procs !! i = Some p /\ allocation !! i = Some None.
Proof.
  unfold unallocated. rewrite list_elem_of_omap. split.
  - intros (x & Hx & ->). apply elem_of_lookup_imap_1 in Hx as (i & q & Hx & Hq).
    exists i. destruct (allocation !! i) as [[k|]|] eqn:Ha; try done.
    by injection Hx as ->.
  - intros (i & Hp & Ha). exists (Some p). split; [|done].
    pose proof (elem_of_lookup_imap_2
                  (fun (index : nat) (q : Process) =>
                     match allocation !! index with
                     | Some None => Some q
                     | _ => None
                     end) procs p i Hp) as Hin.
    simpl in Hin. by rewrite Ha in Hin.
Qed.

Lemma maximum_upper z zs : forall x, x ∈ z :: zs -> x <= maximum z zs.
Proof.
  unfold maximum. revert z. induction zs as [|y zs IH]; intros z x Hx; simpl.
  - apply list_elem_of_singleton in Hx. lia.
  - apply elem_of_cons in Hx as [->|Hx].
    + etrans; [|apply IH; left]. lia.
    + apply elem_of_cons in Hx as [->|Hx].
      * etrans; [|apply IH; left]. lia.
      * apply IH. by right.
Qed.

Lemma maximum_elem z zs : maximum z zs ∈ z :: zs.
Proof.
  unfold maximum. revert z. induction zs as [|y zs IH]; intros z; simpl.
  - left.
  - specialize (IH (Z.max z y)). apply elem_of_cons in IH as [Heq|Hin].
    + rewrite Heq. destruct (Z.max_spec z y) as [[_ ->]|[_ ->]].
      * right. left.
      * left.
    + right. by right.
Qed.

Lemma report_external_largest name procs st L :
  largest_unallocated procs (st_allocation st) L ->
  externalFragmentation (report name procs st) = free_below (st_blocks st) L.
Proof.
  intros [(i & p & Hp & Ha & HL) Hmax]. simpl.
  assert (p ∈ unallocated procs (st_allocation st)) as Hin.
  { apply unallocated_elem. by exists i. }
  destruct (unallocated procs (st_allocation st)) as [|q qs] eqn:Hun.
  { by apply elem_of_nil in Hin. }
  rewrite too_small_total_free_below. f_equal.
  apply Z.le_antisymm.
  - pose proof (maximum_elem (size q) (size <$> qs)) as Hel.
    change (size q :: (size <$> qs)) with (size <$> q :: qs) in Hel.
    apply list_elem_of_fmap in Hel as (q' & -> & Hq').
    rewrite <- Hun in Hq'. apply unallocated_elem in Hq' as (i' & Hp' & Ha').
    by apply (Hmax i').
  - rewrite <- HL. apply maximum_upper.
    change (size q :: (size <$> qs)) with (size <$> q :: qs).
    by apply list_elem_of_fmap_2.
Qed.

Lemma report_total name procs st :
  totalFragmentation (report name procs st)
  = sum_of (internalFragmentation (report name procs st))
    + externalFragmentation (report name procs st).
Proof. simpl. by rewrite foldl_add_total. Qed.

Lemma report_none_unallocated name procs st :
  unallocatedProcesses (report name procs st) = [] ->
  externalFragmentation (report name procs st) = 0
  /\ forall i p, procs !! i = Some p -> st_allocation st !! i <> Some None.
Proof.
  simpl. intros Hnil%fmap_nil_inv. rewrite Hnil. split; [done|].
  intros i p Hp Ha.
  assert (p ∈ unallocated procs (st_allocation st)) as Hin.
  { apply unallocated_elem. by exists i. }
  rewrite Hnil in Hin. by apply elem_of_nil in Hin.
Qed.

(** Either no process before [k] chose block [j], or one did. *)
Lemma chosen_or_not (choice : nat -> option nat) j k :
  (forall i, (i < k)%nat -> choice i <> Some j)
  \/ (exists i, (i < k)%nat /\ choice i = Some j).
Proof.
  induction k as [|k [Hnone|(i & Hi & Hc)]].
  - left. intros i Hi. lia.
  - destruct (decide (choice k = Some j)) as [Hk|Hk].
    + right. exists k. split; [lia | done].
    + left. intros i Hi. destruct (decide (i = k)) as [->|]; [done|]. apply Hnone. lia.
  - right. exists i. split; [lia | done].
Qed.

(** The last process before [k] that chose block [j], when one did. *)
Lemma last_chooser (choice : nat -> option nat) j k :
  (exists i, (i < k)%nat /\ choice i = Some j) ->
  exists i, (i < k)%nat /\ choice i = Some j
            /\ forall i', (i < i' < k)%nat -> choice i' <> Some j.
Proof.
  induction k as [|k IH]; intros (i & Hi & Hc); [lia|].
  destruct (decide (choice k = Some j)) as [Hk|Hk].
  - exists k. repeat split; [lia | done | intros; lia].
  - destruct IH as (i0 & Hi0 & Hc0 & Hlater).
    { exists i. split; [|done]. destruct (decide (i = k)) as [->|]; [done | lia]. }
    exists i0. repeat split; [lia | done |].
    intros i' Hi'. destruct (decide (i' = k)) as [->|]; [done|]. apply Hlater. lia.
Qed.

(** What the finished run says about the choices. *)
Lemma final_choice s blocks procs i :
  (i < length procs)%nat ->
  st_allocation (loop_choices s blocks procs (length procs)) !! i
  = Some (strategy_choice s blocks procs i).
Proof.
  intros Hi.
  by apply (inv_decided _ _ _ _ _ (strategy_invariant s blocks procs _ (le_n _))).
Qed.

Lemma final_choice_Some s blocks procs i j :
  st_allocation (loop_choices s blocks procs (length procs)) !! i = Some (Some j) ->
  (i < length procs)%nat /\ strategy_choice s blocks procs i = Some j.
Proof.
  intros Ha.
  pose proof (strategy_invariant s blocks procs _ (le_n (length procs))) as Hinv.
  assert (i < length procs)%nat as Hi.
  { apply lookup_lt_Some in Ha. by rewrite (inv_allocation _ _ _ _ _ Hinv) in Ha. }
  split; [done|]. rewrite final_choice in Ha by done. congruence.
Qed.

(** With positive process sizes a block is given to one process at most:
    once given it has size 0, too small for any later process. *)
Lemma positive_choice_once s blocks procs i i' j :
  Forall (fun p => 0 < size p) procs ->
  (i < i' < length procs)%nat ->
  strategy_choice s blocks procs i = Some j ->
  strategy_choice s blocks procs i' <> Some j.
Proof.
  intros Hprocs Hi Hc Hc'.
  pose proof (strategy_invariant s blocks procs _ (le_n (length procs))) as Hinv.
  destruct (lookup_lt_is_Some_2 procs i' ltac:(lia)) as [p' Hp'].
  pose proof (proj1 (Forall_lookup _ _) Hprocs i' p' Hp') as Hpos'. simpl in Hpos'.
  destruct (inv_fits _ _ _ _ _ Hinv i' j p' ltac:(lia) Hp' Hc') as (b1 & Hb1 & Hfit1).
  pose proof (strategy_invariant s blocks procs i' ltac:(lia)) as Hinv_i'.
  destruct (inv_consumed _ _ _ _ _ Hinv_i' i j ltac:(lia) Hc) as (b2 & Hb2 & Hzero).
  assert (b1 = b2) as -> by congruence. unfold fits in Hfit1. lia.
Qed.

(** C4.  Every strategy returns, and in its result: a block given to no
    process has internal fragmentation 0; a block has the internal
    fragmentation recorded when it was last given to a process, its size at
    that moment minus the size of the process; the external fragmentation is
    the sum of the sizes of the blocks that at the end of the run still have a
    size above 0 and below the size of the largest process left without a
    block, where a block given to a process has size 0 and any other block its
    original size; the total is the sum of the internal fragmentation entries
    plus the external fragmentation.  With positive process sizes a block is
    given to one process at most, so the process it was last given to is the
    process it was given to. *)
Theorem fragmentation_accounting s blocks procs :
  exists r final,
    run s blocks procs = Ok r
    /\ run_loop s blocks procs = Ok final
    /\ length (internalFragmentation r) = length blocks
    /\ (forall j, (j < length blocks)%nat -> never_chosen (allocation r) j ->
                  internalFragmentation r !! j = Some 0)
    /\ (forall i j p, procs !! i = Some p -> last_chosen (allocation r) i j ->
          exists before b,
            run_loop s blocks (take i procs) = Ok before
            /\ st_blocks before !! j = Some b
            /\ internalFragmentation r !! j = Some (size b - size p))
    /\ (forall L, largest_unallocated procs (allocation r) L ->
                  externalFragmentation r = free_below (st_blocks final) L)
    /\ (forall j b, blocks !! j = Some b -> never_chosen (allocation r) j ->
                    st_blocks final !! j = Some b)
    /\ (forall i j, allocation r !! i = Some (Some j) ->
                    exists b, st_blocks final !! j = Some b /\ size b = 0)
    /\ totalFragmentation r
       = sum_of (internalFragmentation r) + externalFragmentation r
    /\ (Forall (fun p => 0 < size p) procs ->
        forall i j, allocation r !! i = Some (Some j) -> last_chosen (allocation r) i j).
Proof.
  exists (report (strategy_name s) procs (loop_choices s blocks procs (length procs))),
         (loop_choices s blocks procs (length procs)).
  pose proof (strategy_invariant s blocks procs _ (le_n (length procs))) as Hinv.
  split; [apply run_report|]. split; [apply run_loop_choices|].
  split; [apply (inv_fragmentation _ _ _ _ _ Hinv)|].
  assert (forall j, never_chosen
                      (st_allocation (loop_choices s blocks procs (length procs))) j ->
                    forall i, (i < length procs)%nat ->
                              strategy_choice s blocks procs i <> Some j) as Hnever.
  { intros j Hj i Hi Hc. apply (Hj i). rewrite final_choice by done. by rewrite Hc. }
  repeat split.
  - intros j Hj Hnc. simpl in *.
    destruct (inv_untouched _ _ _ _ _ Hinv j (Hnever j Hnc)) as [_ ->].
    by destruct (lookup_lt_is_Some_2 blocks j Hj) as [b ->].
  - intros i j p Hp [Ha Hlast]. simpl in *.
    apply final_choice_Some in Ha as [Hi Hc].
    destruct (inv_fits _ _ _ _ _ Hinv i j p Hi Hp Hc) as (b & Hb & _).
    destruct (run_loop_prefix s blocks procs i ltac:(lia)) as (before & Hbefore & Hbl).
    exists before, b. split; [done|]. split; [by rewrite Hbl|].
    apply (inv_recorded _ _ _ _ _ Hinv i j p b Hi Hp Hc Hb).
    intros i' Hi' Hc'. apply (Hlast i' ltac:(lia)).
    rewrite final_choice by lia. by rewrite Hc'.
  - intros L HL. by apply report_external_largest.
  - intros j b Hb Hnc. simpl in *.
    destruct (inv_untouched _ _ _ _ _ Hinv j (Hnever j Hnc)) as [-> _]. done.
  - intros i j Ha. simpl in *. apply final_choice_Some in Ha as [Hi Hc].
    by apply (inv_consumed _ _ _ _ _ Hinv i j Hi Hc).
  - apply report_total.
  - done.
  - simpl in *. intros i' Hi' Ha'.
    match goal with H : _ !! i = Some (Some j) |- _ =>
      apply final_choice_Some in H as [Hi Hc] end.
    apply final_choice_Some in Ha' as [Hi'' Hc'].
    by apply (positive_choice_once s blocks procs i i' j).
Qed.

(** The process of size 90 takes the block of size 100 and leaves 10 of it
    unused; the process of size 300 gets no block, and the blocks of sizes 50
    and 200, both free and smaller than 300, make up the external
    fragmentation. *)
Lemma fragmentation_accounting_witness :
  exists r,
    run BestFit [ {| id := 1; size := 100 |}; {| id := 2; size := 50 |};
                  {| id := 3; size := 200 |} ]
                [ {| id := 1; size := 90 |}; {| id := 2; size := 300 |} ] = Ok r
    /\ allocation r = [Some 0%nat; None]
    /\ internalFragmentation r = [10; 0; 0]
    /\ externalFragmentation r = 250
    /\ totalFragmentation r = 260
    /\ unallocatedProcesses r = [2].
Proof.
  destruct (fragmentation_accounting BestFit
              [ {| id := 1; size := 100 |}; {| id := 2; size := 50 |};
                {| id := 3; size := 200 |} ]
              [ {| id := 1; size := 90 |}; {| id := 2; size := 300 |} ])
    as (r & final & Hr & _).
  exists r. split; [exact Hr|].
  vm_compute in Hr. injection Hr as <-. repeat split.
Defined.

(** C10.  Every strategy returns, and when its result lists no unallocated
    process every process has a block, the external fragmentation is 0 and
    the total fragmentation is the sum of the internal fragmentation
    entries. *)
Theorem all_allocated_no_external s blocks procs :
  exists r,
    run s blocks procs = Ok r
    /\ (unallocatedProcesses r = [] ->
        (forall i p, procs !! i = Some p -> exists j, allocation r !! i = Some (Some j))
        /\ externalFragmentation r = 0
        /\ totalFragmentation r = sum_of (internalFragmentation r)).
Proof.
  exists (report (strategy_name s) procs (loop_choices s blocks procs (length procs))).
  split; [apply run_report|]. intros Hnil.
  destruct (report_none_unallocated _ _ _ Hnil) as [Hext Hall].
  split; [|split; [done|]].
  - intros i p Hp. simpl.
    pose proof (lookup_lt_Some _ _ _ Hp) as Hi.
    rewrite final_choice by done.
    destruct (strategy_choice s blocks procs i) as [j|] eqn:Hc; [by exists j|].
    exfalso. apply (Hall i p Hp). rewrite final_choice by done. by rewrite Hc.
  - rewrite report_total, Hext. lia.
Qed.

(** Both processes get a block and the block of size 200 stays free: the
    external fragmentation is 0. *)
Lemma all_allocated_no_external_witness :
  exists r,
    run FirstFit [ {| id := 1; size := 100 |}; {| id := 2; size := 50 |};
                   {| id := 3; size := 200 |} ]
                 [ {| id := 1; size := 90 |}; {| id := 2; size := 50 |} ] = Ok r
    /\ (forall i p,
          [ {| id := 1; size := 90 |}; {| id := 2; size := 50 |} ] !! i = Some p ->
          exists j, allocation r !! i = Some (Some j))
    /\ externalFragmentation r = 0
    /\ totalFragmentation r = sum_of (internalFragmentation r).
Proof.
  destruct (all_allocated_no_external FirstFit
              [ {| id := 1; size := 100 |}; {| id := 2; size := 50 |};
                {| id := 3; size := 200 |} ]
              [ {| id := 1; size := 90 |}; {| id := 2; size := 50 |} ])
    as (r & Hr & Hall).
  exists r. split; [exact Hr|]. apply Hall.
  vm_compute in Hr. injection Hr as <-. reflexivity.
Defined.

(** C9.  With positive block and process sizes every strategy returns, and
    in its result a block given to a process is, by its original size, at
    least as large as the process; its internal fragmentation is that size
    minus the size of the process; and no internal fragmentation entry is
    negative. *)
Theorem chosen_block_large_enough s blocks procs :
  Forall (fun b => 0 < size b) blocks ->
  Forall (fun p => 0 < size p) procs ->
  exists r,
    run s blocks procs = Ok r
    /\ (forall i j p b,
          procs !! i = Some p -> allocation r !! i = Some (Some j) ->
          blocks !! j = Some b ->
          size p <= size b
          /\ internalFragmentation r !! j = Some (size b - size p))
    /\ (forall j f, internalFragmentation r !! j = Some f -> 0 <= f).
Proof.
  intros Hblocks Hprocs.
  exists (report (strategy_name s) procs (loop_choices s blocks procs (length procs))).
  pose proof (strategy_invariant s blocks procs _ (le_n (length procs))) as Hinv.
  split; [apply run_report|]. simpl.
  assert (forall i j p b,
            procs !! i = Some p -> strategy_choice s blocks procs i = Some j ->
            blocks !! j = Some b ->
            size p <= size b
            /\ st_internalFragmentation (loop_choices s blocks procs (length procs)) !! j
               = Some (size b - size p)) as Hchosen.
  { intros i j p b Hp Hc Hb.
    pose proof (lookup_lt_Some _ _ _ Hp) as Hi.
    pose proof (proj1 (Forall_lookup _ _) Hprocs i p Hp) as Hpos. simpl in Hpos.
    destruct (inv_fits _ _ _ _ _ Hinv i j p Hi Hp Hc) as (b' & Hb' & Hfit).
    pose proof (strategy_invariant s blocks procs i ltac:(lia)) as Hinv_i.
    destruct (inv_original _ _ _ _ _ Hinv_i j b' Hb') as (b0 & Hb0 & [->| ->]).
    2:{ unfold fits in Hfit. simpl in Hfit. lia. }
    assert (b0 = b) as -> by congruence.
    split; [done|].
    apply (inv_recorded _ _ _ _ _ Hinv i j p b Hi Hp Hc Hb').
    intros i' Hi' Hc'.
    destruct (lookup_lt_is_Some_2 procs i' ltac:(lia)) as [p' Hp'].
    pose proof (proj1 (Forall_lookup _ _) Hprocs i' p' Hp') as Hpos'. simpl in Hpos'.
    destruct (inv_fits _ _ _ _ _ Hinv i' j p' ltac:(lia) Hp' Hc') as (b1 & Hb1 & Hfit1).
    pose proof (strategy_invariant s blocks procs i' ltac:(lia)) as Hinv_i'.
    destruct (inv_consumed _ _ _ _ _ Hinv_i' i j ltac:(lia) Hc) as (b2 & Hb2 & Hzero).
    assert (b1 = b2) as -> by congruence. unfold fits in Hfit1. lia. }
  split.
  - intros i j p b Hp Ha Hb. apply final_choice_Some in Ha as [Hi Hc].
    by apply (Hchosen i).
  - intros j f Hf.
    destruct (chosen_or_not (strategy_choice s blocks procs) j (length procs))
      as [Hnone|(i & Hi & Hc)].
    + destruct (inv_untouched _ _ _ _ _ Hinv j Hnone) as [_ Hzero].
      rewrite Hzero in Hf. destruct (blocks !! j); simpl in Hf; [|done].
      injection Hf as <-. lia.
    + destruct (lookup_lt_is_Some_2 procs i Hi) as [p Hp].
      destruct (inv_fits _ _ _ _ _ Hinv i j p Hi Hp Hc) as (b' & Hb' & _).
      pose proof (strategy_invariant s blocks procs i ltac:(lia)) as Hinv_i.
      destruct (inv_original _ _ _ _ _ Hinv_i j b' Hb') as (b & Hb & _).
      destruct (Hchosen i j p b Hp Hc Hb) as [Hle Hfrag].
      rewrite Hfrag in Hf. injection Hf as <-. lia.
Qed.

Lemma chosen_block_large_enough_witness :
  exists r,
    run NextFit [ {| id := 1; size := 100 |}; {| id := 2; size := 50 |};
                  {| id := 3; size := 200 |} ]
                [ {| id := 1; size := 90 |}; {| id := 2; size := 50 |};
                  {| id := 3; size := 300 |} ] = Ok r
    /\ (forall i j p b,
          [ {| id := 1; size := 90 |}; {| id := 2; size := 50 |};
            {| id := 3; size := 300 |} ] !! i = Some p ->
          allocation r !! i = Some (Some j) ->
          [ {| id := 1; size := 100 |}; {| id := 2; size := 50 |};
            {| id := 3; size := 200 |} ] !! j = Some b ->
          size p <= size b
          /\ internalFragmentation r !! j = Some (size b - size p))
    /\ (forall j f, internalFragmentation r !! j = Some f -> 0 <= f).
Proof.
  apply (chosen_block_large_enough NextFit).
  - repeat constructor.
  - repeat constructor.
Defined.

(** Without the positive sizes a block can be given twice: the second time
    as the empty block it has become, to a process of size 0, and its
    internal fragmentation is then overwritten. *)
Example zero_size_process_reuses_block :
  run FirstFit [ {| id := 1; size := 100 |} ]
               [ {| id := 1; size := 90 |}; {| id := 2; size := 0 |} ]
  = Ok {| algorithm := "First Fit";
          allocation := [Some 0%nat; Some 0%nat];
          internalFragmentation := [0];
          externalFragmentation := 0;
          totalFragmentation := 0;
          unallocatedProcesses := [] |}.
Proof. reflexivity. Qed.

(** The blocks with their original sizes, as the first [i] processes of
    bestFit or worstFit leave them. *)
Lemma strategy_choice_unit (choose : chooser unit) blocks procs i p :
  procs !! i = Some p ->
  choice_at choose blocks procs tt i
  = fst (choose tt (st_blocks (fst (state_after choose blocks procs tt i))) p).
Proof.
  intros Hp. unfold choice_at. rewrite Hp.
  by destruct (snd (state_after choose blocks procs tt i)).
Qed.

(** C5.  bestFit returns, and the block it gives each process, taken in
    input order, is the smallest of the blocks that are then large enough,
    the lowest index among equals, and none when no block is large enough;
    worstFit likewise with the largest.  On blocks of sizes 100, 50 and 200
    and one process of size 60, bestFit gives the block of size 100, worstFit
    the block of size 200, and the two allocations differ. *)
Theorem best_and_worst_fit_choice blocks procs :
  (exists r,
     bestFit blocks procs = Ok r
     /\ forall i p, procs !! i = Some p ->
          exists before choice,
            bestFit_loop blocks (take i procs) = Ok before
            /\ allocation r !! i = Some choice
            /\ chooses best_fit (st_blocks before) p choice)
  /\ (Forall (fun p => 0 <= size p) procs ->
      exists r,
        worstFit blocks procs = Ok r
        /\ forall i p, procs !! i = Some p ->
             exists before choice,
               worstFit_loop blocks (take i procs) = Ok before
               /\ allocation r !! i = Some choice
               /\ chooses worst_fit (st_blocks before) p choice)
  /\ (exists rb rw,
        bestFit [ {| id := 1; size := 100 |}; {| id := 2; size := 50 |};
                  {| id := 3; size := 200 |} ] [ {| id := 1; size := 60 |} ] = Ok rb
        /\ worstFit [ {| id := 1; size := 100 |}; {| id := 2; size := 50 |};
                      {| id := 3; size := 200 |} ] [ {| id := 1; size := 60 |} ] = Ok rw
        /\ allocation rb = [Some 0%nat]
        /\ allocation rw = [Some 2%nat]
        /\ allocation rb <> allocation rw).
Proof.
  split; [|split].
  - exists (report (strategy_name BestFit) procs
                   (loop_choices BestFit blocks procs (length procs))).
    split; [apply (run_report BestFit)|].
    intros i p Hp. pose proof (lookup_lt_Some _ _ _ Hp) as Hi.
    destruct (run_loop_prefix BestFit blocks procs i ltac:(lia))
      as (before & Hbefore & Hbl).
    exists before, (strategy_choice BestFit blocks procs i).
    split; [done|]. split; [by apply (final_choice BestFit)|].
    rewrite Hbl. simpl. rewrite (strategy_choice_unit _ _ _ _ _ Hp).
    apply choose_best_chooses.
  - intros Hpos.
    exists (report (strategy_name WorstFit) procs
                   (loop_choices WorstFit blocks procs (length procs))).
    split; [apply (run_report WorstFit)|].
    intros i p Hp. pose proof (lookup_lt_Some _ _ _ Hp) as Hi.
    destruct (run_loop_prefix WorstFit blocks procs i ltac:(lia))
      as (before & Hbefore & Hbl).
    exists before, (strategy_choice WorstFit blocks procs i).
    split; [done|]. split; [by apply (final_choice WorstFit)|].
    rewrite Hbl. simpl. rewrite (strategy_choice_unit _ _ _ _ _ Hp).
    apply choose_worst_chooses.
    apply (proj1 (Forall_lookup _ _) Hpos i p Hp).
  - eexists _, _. split; [reflexivity|]. split; [reflexivity|]. by repeat split.
Qed.

Lemma best_and_worst_fit_choice_witness :
  exists r,
    worstFit [ {| id := 1; size := 100 |}; {| id := 2; size := 500 |};
               {| id := 3; size := 200 |} ]
             [ {| id := 1; size := 212 |}; {| id := 2; size := 112 |} ] = Ok r
    /\ forall i p,
         [ {| id := 1; size := 212 |}; {| id := 2; size := 112 |} ] !! i = Some p ->
         exists before choice,
           worstFit_loop [ {| id := 1; size := 100 |}; {| id := 2; size := 500 |};
                           {| id := 3; size := 200 |} ]
             (take i [ {| id := 1; size := 212 |}; {| id := 2; size := 112 |} ])
           = Ok before
           /\ allocation r !! i = Some choice
           /\ chooses worst_fit (st_blocks before) p choice.
Proof.
  apply (best_and_worst_fit_choice
           [ {| id := 1; size := 100 |}; {| id := 2; size := 500 |};
             {| id := 3; size := 200 |} ]
           [ {| id := 1; size := 212 |}; {| id := 2; size := 112 |} ]).
  repeat constructor; simpl; lia.
Defined.
End FragmentationFacts.


Section FrameFacts.
Import Store Frame.

Variable h0 : heap.
Local Abbreviation base := (length h0).

Lemma during_start : during h0 h0.
Proof.
  split; [done|]. intros l o Hl Ho. apply lookup_lt_Some in Ho. lia.
Qed.

Lemma during_unchanged h : during h0 h -> unchanged h0 h.
Proof.
  intros [[k ->] _] l o Ho. by apply lookup_app_l_Some.
Qed.

Lemma during_length h : during h0 h -> (base <= length h)%nat.
Proof. intros [[k ->] _]. rewrite length_app. lia. Qed.

(** *** Rules *)

Lemma keeps_ret {A} (a : A) (Q : A -> Prop) : Q a -> keeps h0 (mret a) Q.
Proof. intros HQ h a' h' Hd [= <- <-]. done. Qed.

Lemma keeps_fail {A} e (Q : A -> Prop) : keeps h0 (fail e) Q.
Proof. intros h a h' _ H. done. Qed.

Lemma keeps_bind {A B} (m : prog A) (f : A -> prog B) (Q : A -> Prop) (R : B -> Prop) :
  keeps h0 m Q -> (forall a, Q a -> keeps h0 (f a) R) -> keeps h0 (m ≫= f) R.
Proof.
  intros Hm Hf h b h' Hd. unfold mbind, prog_bind.
  destruct (m h) as [[a h1]|e] eqn:Hmh; [|done].
  destruct (Hm h a h1 Hd Hmh) as [Hd1 HQ]. intros Hfa.
  by apply (Hf a HQ h1).
Qed.

Lemma keeps_weaken {A} (m : prog A) (Q Q' : A -> Prop) :
  keeps h0 m Q -> (forall a, Q a -> Q' a) -> keeps h0 m Q'.
Proof.
  intros Hm HQ h a h' Hd Hmh. destruct (Hm h a h' Hd Hmh). split; [done|]. by apply HQ.
Qed.

Lemma keeps_any {A} (m : prog A) (Q : A -> Prop) :
  keeps h0 m Q -> keeps h0 m (fun _ => True).
Proof. intros Hm. by eapply keeps_weaken. Qed.

Lemma keeps_alloc o :
  object_above base o -> keeps h0 (alloc o) (fun l => (base <= l)%nat).
Proof.
  intros Ho h l h' Hd [= <- <-]. pose proof (during_length h Hd) as Hlen.
  destruct Hd as [Hpre Hab]. split; [split|done].
  - by apply prefix_app_r.
  - intros l o' Hl Hlook. destruct (decide (l < length h)%nat) as [Hlt|Hge].
    + rewrite lookup_app_l in Hlook by done. by apply (Hab l).
    + rewrite lookup_app_r in Hlook by lia.
      destruct (l - length h)%nat; simpl in Hlook; [|done]. by injection Hlook as <-.
Qed.

Lemma keeps_load l : keeps h0 (load l) (fun _ => True).
Proof.
  intros h o h' Hd. unfold load. destruct (h !! l); [|done]. by intros [= <- <-].
Qed.

Lemma keeps_load_above l :
  (base <= l)%nat -> keeps h0 (load l) (object_above base).
Proof.
  intros Hl h o h' Hd. unfold load. destruct (h !! l) as [o'|] eqn:Ho; [|done].
  intros [= ? ?]; subst. split; [done|]. destruct Hd as [_ Hab]. by apply (Hab l).
Qed.

Lemma keeps_store l o :
  (base <= l)%nat -> object_above base o -> keeps h0 (store l o) (fun _ => True).
Proof.
  intros Hl Ho h [] h' Hd. unfold store. destruct (h !! l) as [o'|] eqn:Hlook; [|done].
  intros [= <-]. split; [|done]. destruct Hd as [[k ->] Hab]. split.
  - rewrite insert_app_r_alt by done. by apply prefix_app_r.
  - intros l' o'' Hl' Hlook'. destruct (decide (l' = l)) as [->|Hne].
    + rewrite list_lookup_insert_eq in Hlook' by (by eapply lookup_lt_Some).
      by injection Hlook' as <-.
    + rewrite list_lookup_insert_ne in Hlook' by done. by apply (Hab l').
Qed.

Lemma keeps_num v : keeps h0 (num v) (fun _ => True).
Proof. destruct v; try apply keeps_fail. by apply keeps_ret. Qed.

Lemma keeps_flag v : keeps h0 (flag v) (fun _ => True).
Proof. destruct v; try apply keeps_fail. by apply keeps_ret. Qed.

Lemma keeps_ref v : keeps h0 (ref v) (fun _ => True).
Proof. destruct v; try apply keeps_fail. by apply keeps_ret. Qed.

Lemma keeps_ref_above v :
  value_above base v -> keeps h0 (ref v) (fun l => (base <= l)%nat).
Proof. intros Hv. destruct v; try apply keeps_fail. by apply keeps_ret. Qed.

Lemma keeps_elems l : keeps h0 (elems l) (fun _ => True).
Proof.
  eapply keeps_bind; [apply keeps_load|]. intros [es| |] _;
    try apply keeps_fail. by apply keeps_ret.
Qed.

Lemma keeps_elems_above l :
  (base <= l)%nat -> keeps h0 (elems l) (Forall (value_above base)).
Proof.
  intros Hl. eapply keeps_bind; [by apply keeps_load_above|]. intros [es| |] Habove;
    try apply keeps_fail. by apply keeps_ret.
Qed.

Lemma keeps_length_of l : keeps h0 (length_of l) (fun _ => True).
Proof. eapply keeps_bind; [apply keeps_elems|]. intros es _. by apply keeps_ret. Qed.

Lemma keeps_index l j : keeps h0 (index l j) (fun _ => True).
Proof.
  eapply keeps_bind; [apply keeps_elems|]. intros es _.
  destruct (es !! j); [by apply keeps_ret | apply keeps_fail].
Qed.

Lemma keeps_index_above l j :
  (base <= l)%nat -> keeps h0 (index l j) (value_above base).
Proof.
  intros Hl. eapply keeps_bind; [by apply keeps_elems_above|]. intros es Hes.
  destruct (es !! j) as [v|] eqn:Hv; [|apply keeps_fail].
  apply keeps_ret. by apply (proj1 (Forall_lookup _ _) Hes j v).
Qed.

Lemma keeps_index_ref_above l j :
  (base <= l)%nat -> keeps h0 (index l j ≫= ref) (fun r => (base <= r)%nat).
Proof.
  intros Hl. eapply keeps_bind; [by apply keeps_index_above|].
  intros v Hv. by apply keeps_ref_above.
Qed.

Lemma keeps_index_num l j : keeps h0 (index l j ≫= num) (fun _ => True).
Proof. eapply keeps_bind; [apply keeps_index|]. intros v _. apply keeps_num. Qed.

Lemma keeps_index_ref l j : keeps h0 (index l j ≫= ref) (fun _ => True).
Proof. eapply keeps_bind; [apply keeps_index|]. intros v _. apply keeps_ref. Qed.

Lemma keeps_index_flag l j : keeps h0 (index l j ≫= flag) (fun _ => True).
Proof. eapply keeps_bind; [apply keeps_index|]. intros v _. apply keeps_flag. Qed.

Lemma keeps_set_index l j v :
  (base <= l)%nat -> value_above base v -> keeps h0 (set_index l j v) (fun _ => True).
Proof.
  intros Hl Hv. eapply keeps_bind; [by apply keeps_elems_above|]. intros es Hes.
  destruct (j <? length es)%nat; [|apply keeps_fail].
  apply keeps_store; [done|]. simpl. by apply Forall_insert.
Qed.

Lemma keeps_push l v :
  (base <= l)%nat -> value_above base v -> keeps h0 (push l v) (fun _ => True).
Proof.
  intros Hl Hv. eapply keeps_bind; [by apply keeps_elems_above|]. intros es Hes.
  apply keeps_store; [done|]. simpl. apply Forall_app. split; [done|].
  by apply Forall_singleton.
Qed.

Lemma keeps_size_of r : keeps h0 (size_of r) (fun _ => True).
Proof.
  eapply keeps_bind; [apply keeps_load|]. intros [| |] _;
    try apply keeps_fail. by apply keeps_ret.
Qed.

Lemma keeps_set_size r z :
  (base <= r)%nat -> keeps h0 (set_size r z) (fun _ => True).
Proof.
  intros Hr. eapply keeps_bind; [apply keeps_load|]. intros [| |] _;
    try apply keeps_fail. by apply keeps_store.
Qed.

Lemma keeps_for_each {St} (P : St -> Prop) (body : nat -> St -> prog St) n :
  (forall i s, P s -> keeps h0 (body i s) P) ->
  forall lo s, P s -> keeps h0 (for_each n lo body s) P.
Proof.
  intros Hbody. induction n as [|n IH]; intros lo s Hs; simpl.
  - by apply keeps_ret.
  - eapply keeps_bind; [by apply Hbody|]. intros s' Hs'. by apply IH.
Qed.

Lemma keeps_map_each {A B} (Q : B -> Prop) (f : nat -> A -> prog B) a :
  (forall i x, keeps h0 (f i x) Q) ->
  forall lo, keeps h0 (map_each lo f a) (Forall Q).
Proof.
  intros Hf. induction a as [|x a IH]; intros lo; simpl.
  - by apply keeps_ret.
  - eapply keeps_bind; [apply Hf|]. intros y Hy.
    eapply keeps_bind; [apply IH|]. intros ys Hys.
    apply keeps_ret. by constructor.
Qed.
End FrameFacts.

Section FramePrograms.
Import Store Frame.

Variable h0 : heap.
Local Abbreviation base := (length h0).

Lemma keeps_numbers l : keeps h0 (numbers l) (fun _ => True).
Proof.
  unfold numbers. eapply keeps_bind; [apply keeps_elems|]. intros es _.
  eapply keeps_any. apply (keeps_map_each _ (fun _ => True)). intros i v.
  apply keeps_num.
Qed.

Lemma keeps_spread l : keeps h0 (spread l) (fun l' => (base <= l')%nat).
Proof.
  unfold spread. eapply keeps_bind; [apply keeps_numbers|]. intros zs _.
  apply keeps_alloc. simpl. apply Forall_fmap, Forall_true. intros z. exact I.
Qed.

Lemma Forall_above_refs (ls : list loc) :
  Forall (fun l => (base <= l)%nat) ls -> Forall (value_above base) (Ref <$> ls).
Proof. intros Hls. by apply Forall_fmap. Qed.

Lemma keeps_json_copy_matrix l :
  keeps h0 (json_copy_matrix l) (fun l' => (base <= l')%nat).
Proof.
  unfold json_copy_matrix. eapply keeps_bind; [apply keeps_elems|]. intros rows _.
  eapply keeps_bind.
  { apply (keeps_map_each _ (fun l' => (base <= l')%nat)). intros i v.
    eapply keeps_bind; [apply keeps_ref|]. intros r _. apply keeps_spread. }
  intros copies Hcopies. apply keeps_alloc. by apply Forall_above_refs.
Qed.

Lemma keeps_json_copy_records l :
  keeps h0 (json_copy_records l) (fun l' => (base <= l')%nat).
Proof.
  unfold json_copy_records. eapply keeps_bind; [apply keeps_elems|]. intros recs _.
  eapply keeps_bind.
  { apply (keeps_map_each _ (fun l' => (base <= l')%nat)). intros i v.
    eapply keeps_bind; [apply keeps_ref|]. intros r _.
    eapply keeps_bind; [apply keeps_load|]. intros [| |] _; try apply keeps_fail.
    by apply keeps_alloc. }
  intros copies Hcopies. apply keeps_alloc. by apply Forall_above_refs.
Qed.

Lemma keeps_records l : keeps h0 (records l) (fun _ => True).
Proof.
  unfold records. eapply keeps_bind; [apply keeps_elems|]. intros recs _.
  eapply keeps_any. apply (keeps_map_each _ (fun _ => True)). intros i v.
  eapply keeps_bind; [apply keeps_ref|]. intros r _.
  eapply keeps_bind; [apply keeps_load|]. intros [| |] _; try apply keeps_fail.
  by apply keeps_ret.
Qed.

Lemma keeps_compute_need maxDemand currentAllocation :
  keeps h0 (compute_need maxDemand currentAllocation) (fun l => (base <= l)%nat).
Proof.
  unfold compute_need. eapply keeps_bind; [apply keeps_elems|]. intros rows _.
  eapply keeps_bind.
  { apply (keeps_map_each _ (value_above base)). intros i v.
    eapply keeps_bind; [apply keeps_ref|]. intros process _.
    eapply keeps_bind; [apply keeps_elems|]. intros cols _.
    eapply keeps_bind.
    { apply (keeps_map_each _ (value_above base)). intros j rv.
      eapply keeps_bind; [apply keeps_num|]. intros resource _.
      eapply keeps_bind; [apply keeps_index_ref|]. intros arow _.
      eapply keeps_bind; [apply keeps_index_num|]. intros a _.
      by apply keeps_ret. }
    intros row Hrow. eapply keeps_bind; [by apply keeps_alloc|]. intros r Hr.
    by apply keeps_ret. }
  intros need Hneed. by apply keeps_alloc.
Qed.

Lemma keeps_can_allocate need availableResources n : forall j i,
  keeps h0 (can_allocate need availableResources n j i) (fun _ => True).
Proof.
  induction n as [|n IH]; intros j i; simpl; [by apply keeps_ret|].
  eapply keeps_bind; [apply keeps_index_ref|]. intros row _.
  eapply keeps_bind; [apply keeps_index_num|]. intros x _.
  eapply keeps_bind; [apply keeps_index_num|]. intros a _.
  destruct (x >? a); [by apply keeps_ret | apply IH].
Qed.

Lemma keeps_release_one currentAllocation availableResources i j u :
  (base <= availableResources)%nat ->
  keeps h0 (release_one currentAllocation availableResources i j u) (fun _ => True).
Proof.
  intros Hav. unfold release_one.
  eapply keeps_bind; [apply keeps_index_ref|]. intros row _.
  eapply keeps_bind; [apply keeps_index_num|]. intros x _.
  eapply keeps_bind; [apply keeps_index_num|]. intros a _.
  by apply keeps_set_index.
Qed.

Lemma keeps_visit need currentAllocation availableResources finished safeSequence
    numResources i s :
  (base <= availableResources)%nat -> (base <= finished)%nat ->
  (base <= safeSequence)%nat ->
  keeps h0 (visit need currentAllocation availableResources finished safeSequence
                  numResources i s) (fun _ => True).
Proof.
  intros Hav Hfin Hseq. unfold visit.
  eapply keeps_bind; [apply keeps_index_flag|]. intros [|] _; [by apply keeps_ret|].
  eapply keeps_bind; [apply keeps_can_allocate|]. intros [|] _; [|by apply keeps_ret].
  eapply keeps_bind.
  { apply (keeps_for_each _ (fun _ => True)); [|done].
    intros j u _. by apply keeps_release_one. }
  intros _ _. eapply keeps_bind; [by apply keeps_set_index|]. intros _ _.
  eapply keeps_bind; [by apply keeps_push|]. intros _ _. by apply keeps_ret.
Qed.

Lemma keeps_while_unfinished need currentAllocation availableResources finished
    safeSequence numProcesses numResources fuel :
  (base <= availableResources)%nat -> (base <= finished)%nat ->
  (base <= safeSequence)%nat ->
  forall count,
    keeps h0 (while_unfinished need currentAllocation availableResources finished
                               safeSequence numProcesses numResources fuel count)
          (fun _ => True).
Proof.
  intros Hav Hfin Hseq. induction fuel as [|fuel IH]; intros count; simpl.
  - destruct (count <? numProcesses)%nat; [apply keeps_fail|].
    eapply keeps_bind; [apply keeps_numbers|]. intros seq _. by apply keeps_ret.
  - destruct (count <? numProcesses)%nat.
    + eapply keeps_bind.
      { apply (keeps_for_each _ (fun _ => True)); [|done].
        intros i s _. by apply keeps_visit. }
      intros [count' [|]] _; [apply IH|].
      eapply keeps_bind; [apply keeps_elems|]. intros fs _.
      eapply keeps_bind.
      { apply (keeps_map_each _ (fun _ => True)). intros i v. apply keeps_flag. }
      intros flags _. by apply keeps_ret.
    + eapply keeps_bind; [apply keeps_numbers|]. intros seq _. by apply keeps_ret.
Qed.

Lemma keeps_isSafeState available max allocation :
  keeps h0 (isSafeState available max allocation) (fun _ => True).
Proof.
  unfold isSafeState.
  eapply keeps_bind; [apply keeps_spread|]. intros availableResources Hav.
  eapply keeps_bind; [apply keeps_json_copy_matrix|]. intros maxDemand Hmax.
  eapply keeps_bind; [apply keeps_json_copy_matrix|]. intros currentAllocation Hal.
  eapply keeps_bind; [apply keeps_compute_need|]. intros need Hneed.
  eapply keeps_bind; [apply keeps_length_of|]. intros numProcesses _.
  eapply keeps_bind; [apply keeps_length_of|]. intros numResources _.
  eapply keeps_bind.
  { apply keeps_alloc. simpl. apply Forall_replicate. exact I. }
  intros finished Hfin.
  eapply keeps_bind; [apply keeps_alloc; constructor|]. intros safeSequence Hseq.
  by apply keeps_while_unfinished.
Qed.

Lemma keeps_first_exceeding request (bound : nat -> prog Z) n :
  (forall j, keeps h0 (bound j) (fun _ => True)) ->
  forall j, keeps h0 (first_exceeding n j request bound) (fun _ => True).
Proof.
  intros Hbound. induction n as [|n IH]; intros j; simpl; [by apply keeps_ret|].
  eapply keeps_bind; [apply keeps_index_num|]. intros r _.
  eapply keeps_bind; [apply Hbound|]. intros b _.
  destruct (r >? b); [by apply keeps_ret | apply IH].
Qed.

Lemma keeps_tentative_one availableResources currentAllocation need processId request j u :
  (base <= availableResources)%nat -> (base <= currentAllocation)%nat ->
  (base <= need)%nat ->
  keeps h0 (tentative_one availableResources currentAllocation need processId
                          request j u) (fun _ => True).
Proof.
  intros Hav Hal Hneed. unfold tentative_one.
  eapply keeps_bind; [apply keeps_index_num|]. intros r _.
  eapply keeps_bind; [apply keeps_index_num|]. intros a _.
  eapply keeps_bind; [by apply keeps_set_index|]. intros _ _.
  eapply keeps_bind; [by apply keeps_index_ref_above|]. intros arow Harow.
  eapply keeps_bind; [apply keeps_index_num|]. intros x _.
  eapply keeps_bind; [by apply keeps_set_index|]. intros _ _.
  eapply keeps_bind; [by apply keeps_index_ref_above|]. intros nrow Hnrow.
  eapply keeps_bind; [apply keeps_index_num|]. intros y _.
  by apply keeps_set_index.
Qed.

Lemma keeps_resourceRequest available max allocation processId request :
  keeps h0 (resourceRequest available max allocation processId request)
        (fun _ => True).
Proof.
  unfold resourceRequest.
  eapply keeps_bind; [apply keeps_spread|]. intros availableResources Hav.
  eapply keeps_bind; [apply keeps_json_copy_matrix|]. intros maxDemand Hmax.
  eapply keeps_bind; [apply keeps_json_copy_matrix|]. intros currentAllocation Hal.
  eapply keeps_bind; [apply keeps_compute_need|]. intros need Hneed.
  eapply keeps_bind; [apply keeps_length_of|]. intros numResources _.
  eapply keeps_bind.
  { apply keeps_first_exceeding. intros j.
    eapply keeps_bind; [apply keeps_index_ref|]. intros row _. apply keeps_index_num. }
  intros [j|] _; [by apply keeps_ret|].
  eapply keeps_bind.
  { apply keeps_first_exceeding. intros j. apply keeps_index_num. }
  intros [j|] _; [by apply keeps_ret|].
  eapply keeps_bind.
  { apply (keeps_for_each _ (fun _ => True)); [|done].
    intros j u _. by apply keeps_tentative_one. }
  intros _ _. eapply keeps_bind; [apply keeps_isSafeState|]. intros safetyResult _.
  by apply keeps_ret.
Qed.

Lemma keeps_commit_one currentAvailable currentAllocation processId request j u :
  (base <= currentAvailable)%nat -> (base <= currentAllocation)%nat ->
  keeps h0 (commit_one currentAvailable currentAllocation processId request j u)
        (fun _ => True).
Proof.
  intros Hav Hal. unfold commit_one.
  eapply keeps_bind; [apply keeps_index_num|]. intros r _.
  eapply keeps_bind; [apply keeps_index_num|]. intros a _.
  eapply keeps_bind; [by apply keeps_set_index|]. intros _ _.
  eapply keeps_bind; [by apply keeps_index_ref_above|]. intros row Hrow.
  eapply keeps_bind; [apply keeps_index_num|]. intros x _.
  by apply keeps_set_index.
Qed.

Lemma keeps_process_request max currentAvailable currentAllocation v results :
  (base <= currentAvailable)%nat -> (base <= currentAllocation)%nat ->
  keeps h0 (process_request max currentAvailable currentAllocation v results)
        (fun _ => True).
Proof.
  intros Hav Hal. unfold process_request.
  eapply keeps_bind; [apply keeps_ref|]. intros req _.
  eapply keeps_bind; [apply keeps_load|]. intros [| |processId request] _;
    try apply keeps_fail.
  eapply keeps_bind; [apply keeps_resourceRequest|]. intros requestResult _.
  eapply keeps_bind; [apply keeps_numbers|]. intros asked _.
  destruct (Bankers.granted requestResult); [|by apply keeps_ret].
  eapply keeps_bind; [apply keeps_length_of|]. intros n _.
  eapply keeps_bind.
  { apply (keeps_for_each _ (fun _ => True)); [|done].
    intros j u _. by apply keeps_commit_one. }
  intros _ _. by apply keeps_ret.
Qed.

Lemma keeps_process_requests max currentAvailable currentAllocation reqs :
  (base <= currentAvailable)%nat -> (base <= currentAllocation)%nat ->
  forall results,
    keeps h0 (process_requests max currentAvailable currentAllocation reqs results)
          (fun _ => True).
Proof.
  intros Hav Hal. induction reqs as [|v reqs IH]; intros results; simpl.
  - by apply keeps_ret.
  - eapply keeps_bind; [by apply keeps_process_request|]. intros results' _. apply IH.
Qed.

Lemma keeps_runBankersAlgorithm available max allocation requests :
  keeps h0 (runBankersAlgorithm available max allocation requests) (fun _ => True).
Proof.
  unfold runBankersAlgorithm.
  eapply keeps_bind; [apply keeps_isSafeState|]. intros initialSafetyCheck _.
  eapply keeps_bind; [|intros requestResults _; by apply keeps_ret].
  instantiate (1 := fun _ => True).
  destruct requests as [requests|]; [|by apply keeps_ret].
  eapply keeps_bind; [apply keeps_elems|]. intros reqs _.
  destruct (_ && _); [|by apply keeps_ret].
  eapply keeps_bind; [apply keeps_spread|]. intros currentAvailable Hav.
  eapply keeps_bind; [apply keeps_json_copy_matrix|]. intros currentAllocation Hal.
  by apply keeps_process_requests.
Qed.

Section StrategyPrograms.
Variables (blocks procs allocation internalFragmentation : loc).
Hypothesis Hblocks : (base <= blocks)%nat.
Hypothesis Hallocation : (base <= allocation)%nat.
Hypothesis Hfragmentation : (base <= internalFragmentation)%nat.

Lemma keeps_place i j :
  keeps h0 (place blocks procs allocation internalFragmentation i j) (fun _ => True).
Proof.
  unfold place.
  eapply keeps_bind; [by apply keeps_set_index|]. intros _ _.
  eapply keeps_bind; [by apply keeps_index_ref_above|]. intros b Hb.
  eapply keeps_bind; [apply keeps_size_of|]. intros bsize _.
  eapply keeps_bind; [apply keeps_index_ref|]. intros p _.
  eapply keeps_bind; [apply keeps_size_of|]. intros psize _.
  eapply keeps_bind; [by apply keeps_set_index|]. intros _ _.
  by apply keeps_set_size.
Qed.

Lemma keeps_large_enough i j :
  keeps h0 (large_enough blocks procs i j) (fun _ => True).
Proof.
  unfold large_enough.
  eapply keeps_bind; [apply keeps_index_ref|]. intros b _.
  eapply keeps_bind; [apply keeps_size_of|]. intros bsize _.
  eapply keeps_bind; [apply keeps_index_ref|]. intros p _.
  eapply keeps_bind; [apply keeps_size_of|]. intros psize _.
  by apply keeps_ret.
Qed.

Lemma keeps_first_fit_scan n : forall j i,
  keeps h0 (first_fit_scan blocks procs allocation internalFragmentation n j i)
        (fun _ => True).
Proof.
  induction n as [|n IH]; intros j i; simpl; [by apply keeps_ret|].
  eapply keeps_bind; [apply keeps_large_enough|]. intros [|] _;
    [apply keeps_place | apply IH].
Qed.

Lemma keeps_next_fit_scan numBlocks i last n : forall j,
  keeps h0 (next_fit_scan blocks procs allocation internalFragmentation n j
                          numBlocks i last) (fun _ => True).
Proof.
  induction n as [|n IH]; intros j; simpl; [by apply keeps_ret|].
  eapply keeps_bind; [apply keeps_large_enough|]. intros [|] _; [|apply IH].
  eapply keeps_bind; [apply keeps_place|]. intros _ _. by apply keeps_ret.
Qed.

Lemma keeps_best_fit_step i j best :
  keeps h0 (best_fit_step blocks procs i j best) (fun _ => True).
Proof.
  unfold best_fit_step.
  eapply keeps_bind; [apply keeps_index_ref|]. intros b _.
  eapply keeps_bind; [apply keeps_size_of|]. intros bsize _.
  eapply keeps_bind; [apply keeps_index_ref|]. intros p _.
  eapply keeps_bind; [apply keeps_size_of|]. intros psize _.
  destruct (_ && _); by apply keeps_ret.
Qed.

Lemma keeps_worst_fit_step i j worst :
  keeps h0 (worst_fit_step blocks procs i j worst) (fun _ => True).
Proof.
  unfold worst_fit_step.
  eapply keeps_bind; [apply keeps_index_ref|]. intros b _.
  eapply keeps_bind; [apply keeps_size_of|]. intros bsize _.
  eapply keeps_bind; [apply keeps_index_ref|]. intros p _.
  eapply keeps_bind; [apply keeps_size_of|]. intros psize _.
  destruct (_ && _); by apply keeps_ret.
Qed.

Lemma keeps_place_if_found found i :
  keeps h0 (place_if_found blocks procs allocation internalFragmentation found i)
        (fun _ => True).
Proof. destruct found; simpl; [apply keeps_place | by apply keeps_ret]. Qed.

Lemma keeps_report name :
  keeps h0 (report blocks procs allocation internalFragmentation name) (fun _ => True).
Proof.
  unfold report.
  eapply keeps_bind; [apply keeps_records|]. intros bs _.
  eapply keeps_bind; [apply keeps_records|]. intros ps _.
  eapply keeps_bind; [apply keeps_elems|]. intros chosen _.
  eapply keeps_bind.
  { apply (keeps_map_each _ (fun _ => True)). intros i [| | |];
      try apply keeps_fail; by apply keeps_ret. }
  intros choices _. eapply keeps_bind; [apply keeps_numbers|]. intros frags _.
  by apply keeps_ret.
Qed.
End StrategyPrograms.

Lemma keeps_prepare memoryBlocks processes :
  keeps h0 (prepare memoryBlocks processes)
        (fun '(blocks, procs, allocation, internalFragmentation) =>
           (base <= blocks)%nat /\ (base <= allocation)%nat
           /\ (base <= internalFragmentation)%nat).
Proof.
  unfold prepare.
  eapply keeps_bind; [apply keeps_json_copy_records|]. intros blocks Hblocks.
  eapply keeps_bind; [apply keeps_json_copy_records|]. intros procs Hprocs.
  eapply keeps_bind; [apply keeps_length_of|]. intros numProcs _.
  eapply keeps_bind; [apply keeps_length_of|]. intros numBlocks _.
  eapply keeps_bind.
  { apply keeps_alloc. simpl. apply Forall_replicate. exact I. }
  intros allocation Hallocation.
  eapply keeps_bind.
  { apply keeps_alloc. simpl. apply Forall_replicate. exact I. }
  intros internalFragmentation Hfragmentation.
  by apply keeps_ret.
Qed.

Lemma keeps_firstFit memoryBlocks processes :
  keeps h0 (firstFit memoryBlocks processes) (fun _ => True).
Proof.
  unfold firstFit. eapply keeps_bind; [apply keeps_prepare|].
  intros [[[blocks procs] allocation] internalFragmentation] (Hb & Ha & Hf).
  eapply keeps_bind; [apply keeps_length_of|]. intros numProcs _.
  eapply keeps_bind; [apply keeps_length_of|]. intros numBlocks _.
  eapply keeps_bind.
  { apply (keeps_for_each _ (fun _ => True)); [|done].
    intros i u _. by apply keeps_first_fit_scan. }
  intros _ _. apply keeps_report.
Qed.

Lemma keeps_nextFit memoryBlocks processes :
  keeps h0 (nextFit memoryBlocks processes) (fun _ => True).
Proof.
  unfold nextFit. eapply keeps_bind; [apply keeps_prepare|].
  intros [[[blocks procs] allocation] internalFragmentation] (Hb & Ha & Hf).
  eapply keeps_bind; [apply keeps_length_of|]. intros numProcs _.
  eapply keeps_bind; [apply keeps_length_of|]. intros numBlocks _.
  eapply keeps_bind.
  { apply (keeps_for_each _ (fun _ => True)); [|done].
    intros i last _. by apply keeps_next_fit_scan. }
  intros _ _. apply keeps_report.
Qed.

Lemma keeps_bestFit memoryBlocks processes :
  keeps h0 (bestFit memoryBlocks processes) (fun _ => True).
Proof.
  unfold bestFit. eapply keeps_bind; [apply keeps_prepare|].
  intros [[[blocks procs] allocation] internalFragmentation] (Hb & Ha & Hf).
  eapply keeps_bind; [apply keeps_length_of|]. intros numProcs _.
  eapply keeps_bind; [apply keeps_length_of|]. intros numBlocks _.
  eapply keeps_bind.
  { apply (keeps_for_each _ (fun _ => True)); [|done].
    intros i u _. eapply keeps_bind.
    { apply (keeps_for_each _ (fun _ => True)); [|done].
      intros j best _. apply keeps_best_fit_step. }
    intros best _. by apply keeps_place_if_found. }
  intros _ _. apply keeps_report.
Qed.

Lemma keeps_worstFit memoryBlocks processes :
  keeps h0 (worstFit memoryBlocks processes) (fun _ => True).
Proof.
  unfold worstFit. eapply keeps_bind; [apply keeps_prepare|].
  intros [[[blocks procs] allocation] internalFragmentation] (Hb & Ha & Hf).
  eapply keeps_bind; [apply keeps_length_of|]. intros numProcs _.
  eapply keeps_bind; [apply keeps_length_of|]. intros numBlocks _.
  eapply keeps_bind.
  { apply (keeps_for_each _ (fun _ => True)); [|done].
    intros i u _. eapply keeps_bind.
    { apply (keeps_for_each _ (fun _ => True)); [|done].
      intros j worst _. apply keeps_worst_fit_step. }
    intros worst _. by apply keeps_place_if_found. }
  intros _ _. apply keeps_report.
Qed.

Lemma keeps_unchanged {A} (m : prog A) (Q : A -> Prop) a h' :
  keeps h0 m Q -> m h0 = Ok (a, h') -> unchanged h0 h'.
Proof.
  intros Hm Hrun. destruct (Hm h0 a h' (during_start h0) Hrun) as [Hd _].
  by apply during_unchanged.
Qed.
End FramePrograms.

(** ** The operations on the store and the operations on values *)

Section StoreRuns.
Import Store Holds.

Lemma runs_bind {A B} (m : prog A) (f : A -> prog B) h a h1 b h2 :
  runs m h a h1 -> runs (f a) h1 b h2 -> runs (m ≫= f) h b h2.
Proof. unfold runs, mbind, prog_bind. by intros ->. Qed.

Lemma runs_ret {A} (a : A) h : runs (mret a) h a h.
Proof. done. Qed.

Lemma runs_alloc o h : runs (alloc o) h (length h) (h ++ [o]).
Proof. done. Qed.

Lemma runs_load l o h : h !! l = Some o -> runs (load l) h o h.
Proof. unfold runs, load. by intros ->. Qed.

Lemma runs_store l o o' h :
  h !! l = Some o' -> runs (store l o) h tt (<[l := o]> h).
Proof. unfold runs, store. by intros ->. Qed.

Lemma runs_elems l es h : h !! l = Some (Arr es) -> runs (elems l) h es h.
Proof.
  intros Hl. eapply runs_bind; [by apply runs_load|]. apply runs_ret.
Qed.

Lemma runs_length_of l es h :
  h !! l = Some (Arr es) -> runs (length_of l) h (length es) h.
Proof.
  intros Hl. eapply runs_bind; [by apply runs_elems|]. apply runs_ret.
Qed.

Lemma runs_index l es j v h :
  h !! l = Some (Arr es) -> es !! j = Some v -> runs (index l j) h v h.
Proof.
  intros Hl Hv. eapply runs_bind; [by apply runs_elems|]. rewrite Hv. apply runs_ret.
Qed.

Lemma runs_index_num l zs j z h :
  holds_numbers h l zs -> zs !! j = Some z -> runs (index l j ≫= num) h z h.
Proof.
  intros Hl Hz. eapply runs_bind.
  { eapply runs_index; [exact Hl|]. by rewrite list_lookup_fmap, Hz. }
  reflexivity.
Qed.

Lemma runs_index_ref l (rows : list loc) i r h :
  h !! l = Some (Arr (Ref <$> rows)) -> rows !! i = Some r ->
  runs (index l i ≫= ref) h r h.
Proof.
  intros Hl Hr. eapply runs_bind.
  { eapply runs_index; [exact Hl|]. by rewrite list_lookup_fmap, Hr. }
  reflexivity.
Qed.

Lemma runs_index_flag l (bs : list bool) i b h :
  h !! l = Some (Arr (Flag <$> bs)) -> bs !! i = Some b ->
  runs (index l i ≫= flag) h b h.
Proof.
  intros Hl Hb. eapply runs_bind.
  { eapply runs_index; [exact Hl|]. by rewrite list_lookup_fmap, Hb. }
  reflexivity.
Qed.

Lemma runs_set_index l es j v h :
  h !! l = Some (Arr es) -> (j < length es)%nat ->
  runs (set_index l j v) h tt (<[l := Arr (<[j := v]> es)]> h).
Proof.
  intros Hl Hj. eapply runs_bind; [by apply runs_elems|].
  destruct (Nat.ltb_spec j (length es)) as [_|]; [|lia]. by eapply runs_store.
Qed.

Lemma runs_push l es v h :
  h !! l = Some (Arr es) -> runs (push l v) h tt (<[l := Arr (es ++ [v])]> h).
Proof.
  intros Hl. eapply runs_bind; [by apply runs_elems|]. by eapply runs_store.
Qed.

Lemma map_indexed_inv {A B} (f : nat -> A -> outcome B) a :
  forall lo bs,
    map_indexed lo f a = Ok bs ->
    length bs = length a
    /\ forall k x, a !! k = Some x -> exists y, bs !! k = Some y /\ f (lo + k)%nat x = Ok y.
Proof.
  induction a as [|x a IH]; intros lo bs; simpl.
  - intros [= <-]. split; [done|]. intros k x. by rewrite lookup_nil.
  - intros (y & Hy & (ys & Hys & [= <-])%bind_Ok)%bind_Ok.
    destruct (IH _ _ Hys) as [Hlen Hall]. split; [simpl; lia|].
    intros [|k] z; simpl.
    + intros [= <-]. exists y. by rewrite Nat.add_0_r.
    + intros Hz. destruct (Hall k z Hz) as (w & Hw & Hf). exists w.
      split; [done|]. by replace (lo + S k)%nat with (S lo + k)%nat by lia.
Qed.

(** A map whose callback only reads the store. *)
Lemma runs_map_each {A B} (f : nat -> A -> prog B) (a : list A) h :
  forall (bs : list B) lo,
    length bs = length a ->
    (forall k x y, a !! k = Some x -> bs !! k = Some y -> runs (f (lo + k)%nat x) h y h) ->
    runs (map_each lo f a) h bs h.
Proof.
  induction a as [|x a IH]; intros [|y bs] lo Hlen Hf; simpl in *; try done.
  eapply runs_bind.
  { specialize (Hf 0%nat x y eq_refl eq_refl). by rewrite Nat.add_0_r in Hf. }
  eapply runs_bind; [|done].
  apply IH; [lia|]. intros k z w Hz Hw.
  replace (S lo + k)%nat with (lo + S k)%nat by lia. by apply Hf.
Qed.

Lemma runs_numbers l zs h : holds_numbers h l zs -> runs (numbers l) h zs h.
Proof.
  intros Hl. eapply runs_bind; [by apply runs_elems|].
  apply runs_map_each; [by rewrite length_fmap|].
  intros k x y. rewrite list_lookup_fmap. intros Hx Hy. rewrite Hy in Hx.
  by injection Hx as <-.
Qed.

Lemma runs_spread l zs h :
  holds_numbers h l zs -> runs (spread l) h (length h) (h ++ [Arr (Num <$> zs)]).
Proof.
  intros Hl. eapply runs_bind; [by apply runs_numbers|]. apply runs_alloc.
Qed.

(** Facts about a store that an extension of it keeps. *)
Lemma holds_numbers_prefix h h' l zs :
  h `prefix_of` h' -> holds_numbers h l zs -> holds_numbers h' l zs.
Proof. unfold holds_numbers. intros [k ->]. by apply lookup_app_l_Some. Qed.

Lemma holds_rows_prefix h h' l rows m :
  h `prefix_of` h' -> holds_rows h l rows m -> holds_rows h' l rows m.
Proof.
  intros Hpre [Hl Hrows]. split.
  - destruct Hpre as [k ->]. by apply lookup_app_l_Some.
  - eapply Forall2_impl; [exact Hrows|]. intros r row. by apply holds_numbers_prefix.
Qed.

(** A map whose callback allocates one object: the objects are added to the
    store in order. *)
Lemma runs_copy_each {A B} (f : nat -> A -> prog B) (g : loc -> B) (a : list A) :
  forall cells h k lo,
    length cells = length a ->
    (forall i x c h', a !! i = Some x -> cells !! i = Some c -> h `prefix_of` h' ->
                      runs (f (lo + i)%nat x) h' (g (length h')) (h' ++ [c])) ->
    runs (map_each lo f a) (h ++ k) (g <$> seq (length (h ++ k)) (length a))
         (h ++ k ++ cells).
Proof.
  induction a as [|x a IH]; intros [|c cells] h k lo Hlen Hf; simpl in *; try done.
  - rewrite app_nil_r. done.
  - eapply runs_bind.
    { specialize (Hf 0%nat x c (h ++ k) eq_refl eq_refl (prefix_app_r _ _ _ (reflexivity _))).
      rewrite Nat.add_0_r in Hf. exact Hf. }
    eapply runs_bind; [|done].
    replace (h ++ k ++ c :: cells) with (h ++ (k ++ [c]) ++ cells)
      by (by rewrite <- (app_assoc k [c])).
    replace (S (length (h ++ k))) with (length (h ++ k ++ [c]))
      by (rewrite !length_app; simpl; lia).
    rewrite <- (app_assoc h k [c]). apply IH; [lia|].
    intros i y d h' Hy Hd Hh'.
    replace (S lo + i)%nat with (lo + S i)%nat by lia. by apply Hf.
Qed.

Lemma runs_copy_all {A B} (f : nat -> A -> prog B) (g : loc -> B) (a : list A) cells h :
  length cells = length a ->
  (forall i x c h', a !! i = Some x -> cells !! i = Some c -> h `prefix_of` h' ->
                    runs (f i x) h' (g (length h')) (h' ++ [c])) ->
  runs (map_each 0 f a) h (g <$> seq (length h) (length a)) (h ++ cells).
Proof.
  intros Hlen Hf. pose proof (runs_copy_each f g a cells h [] 0 Hlen Hf) as Hcopy.
  by rewrite app_nil_r in Hcopy.
Qed.

Lemma runs_json_copy_matrix l rows m h :
  holds_rows h l rows m ->
  runs (json_copy_matrix l) h (length h + length m)%nat (h ++ matrix_cells (length h) m).
Proof.
  intros [Hl Hrows]. pose proof (Forall2_length _ _ _ Hrows) as Hlen.
  eapply runs_bind; [by apply runs_elems|].
  eapply runs_bind.
  { apply (runs_copy_all (fun _ v => r ← ref v; spread r) (fun r => r)
                  (Ref <$> rows) ((fun row => Arr (Num <$> row)) <$> m) h);
      [by rewrite !length_fmap|].
    intros i x c h'. rewrite !list_lookup_fmap.
    destruct (rows !! i) as [r|] eqn:Hr; [|done].
    destruct (m !! i) as [row|] eqn:Hrow; [|done]. simpl. intros [= <-] [= <-] Hh'.
    eapply runs_bind; [done|]. apply runs_spread.
    eapply holds_numbers_prefix; [exact Hh'|].
    by eapply Forall2_lookup_lr. }
  rewrite length_fmap, list_fmap_id, Hlen. simpl.
  unfold matrix_cells. rewrite app_assoc.
  replace (length h + length m)%nat
    with (length (h ++ ((fun row => Arr (Num <$> row)) <$> m)))
    by (by rewrite length_app, length_fmap).
  apply runs_alloc.
Qed.

(** Where a copy of a matrix lies, the store holds the matrix. *)
Lemma holds_matrix_cells pre post m :
  holds_rows (pre ++ matrix_cells (length pre) m ++ post) (length pre + length m)
             (seq (length pre) (length m)) m.
Proof.
  unfold matrix_cells. split.
  - rewrite lookup_app_r by lia. rewrite <- app_assoc. rewrite lookup_app_r
      by (rewrite length_fmap; lia).
    rewrite length_fmap. by replace (length pre + length m - length pre - length m)%nat
      with 0%nat by lia.
  - apply Forall2_same_length_lookup. split; [by rewrite length_seq|].
    intros i r row Hr Hrow. apply lookup_seq in Hr as [-> Hi].
    unfold holds_numbers. rewrite lookup_app_r by lia.
    replace (length pre + i - length pre)%nat with i by lia.
    rewrite <- app_assoc. rewrite lookup_app_l by (by rewrite length_fmap).
    by rewrite list_lookup_fmap, Hrow.
Qed.

Lemma runs_compute_need lmx mrows mx lal arows al need h :
  holds_rows h lmx mrows mx -> holds_rows h lal arows al ->
  Bankers.compute_need mx al = Ok need ->
  runs (compute_need lmx lal) h (length h + length need)%nat
       (h ++ matrix_cells (length h) need).
Proof.
  intros [Hlmx Hmrows] Hal Hneed.
  apply map_indexed_inv in Hneed as [Hlen Hneed].
  pose proof (Forall2_length _ _ _ Hmrows) as Hlenm.
  eapply runs_bind; [by apply runs_elems|].
  eapply runs_bind.
  { apply (runs_copy_all
      (fun i v =>
         process ← ref v;
         cols ← elems process;
         row ← map_each 0 (fun j rv =>
                  resource ← num rv;
                  arow ← index lal i ≫= ref;
                  a ← index arow j ≫= num;
                  mret (Num (resource - a))) cols;
         r ← alloc (Arr row);
         mret (Ref r)) Ref
      (Ref <$> mrows) ((fun row => Arr (Num <$> row)) <$> need) h);
      [rewrite !length_fmap; lia|].
    intros i x c h'. rewrite !list_lookup_fmap.
    destruct (mrows !! i) as [r|] eqn:Hr; [|done].
    destruct (need !! i) as [nrow|] eqn:Hnrow; [|done]. simpl. intros [= <-] [= <-] Hh'.
    destruct (mx !! i) as [process|] eqn:Hprocess;
      [|apply lookup_lt_Some in Hr; apply lookup_ge_None in Hprocess; lia].
    destruct (Hneed i process Hprocess) as (nrow' & Hnrow' & Hrow).
    rewrite Hnrow in Hnrow'. injection Hnrow' as <-. simpl in Hrow.
    apply map_indexed_inv in Hrow as [Hlenr Hrow].
    apply (holds_rows_prefix _ _ _ _ _ Hh') in Hal as [Hlal Harows].
    eapply runs_bind; [done|].
    eapply runs_bind.
    { apply runs_elems. eapply holds_numbers_prefix; [exact Hh'|].
      by eapply Forall2_lookup_lr. }
    eapply runs_bind.
    { apply (runs_map_each _ _ _ (Num <$> nrow)); [by rewrite !length_fmap|].
      intros j x y. rewrite !list_lookup_fmap.
      destruct (process !! j) as [resource|] eqn:Hresource; [|done].
      destruct (nrow !! j) as [n|] eqn:Hn; [|done]. simpl. intros [= <-] [= <-].
      destruct (Hrow j resource Hresource) as (n' & Hn' & Hcell).
      rewrite Hn in Hn'. injection Hn' as <-. simpl in Hcell.
      apply bind_Ok in Hcell as (arow & Harow%read_Ok & (a & Ha%read_Ok & [= <-])%bind_Ok).
      destruct (arows !! i) as [ar|] eqn:Har;
        [|apply lookup_lt_Some in Harow; apply lookup_ge_None in Har;
          apply Forall2_length in Harows; lia].
      eapply runs_bind; [done|].
      eapply runs_bind; [by eapply runs_index_ref|].
      eapply runs_bind; [|done].
      eapply runs_index_num; [|exact Ha]. by eapply Forall2_lookup_lr. }
    eapply runs_bind; [apply runs_alloc|]. done. }
  rewrite length_fmap, Hlenm, <- Hlen.
  unfold matrix_cells. rewrite app_assoc.
  replace (length h + length need)%nat
    with (length (h ++ ((fun row => Arr (Num <$> row)) <$> need)))
    by (by rewrite length_app, length_fmap).
  apply runs_alloc.
Qed.
End StoreRuns.

(** The next step of a program is a run among the hypotheses. *)
Ltac run_step :=
  eapply runs_bind; [match goal with H : Holds.runs _ _ _ _ |- _ => exact H end|].

Section StoreLoops.
Import Store Holds Loops.

(** A loop on the store that follows a loop on values, step by step. *)
Lemma runs_for_each {St St'} (R : St -> St' -> heap -> Prop)
    (body : nat -> St -> outcome St) (body' : nat -> St' -> prog St') n :
  forall lo s s' h sf,
    (forall i s s' h s1, (lo <= i < lo + n)%nat -> R s s' h -> body i s = Ok s1 ->
       exists s1' h1, runs (body' i s') h s1' h1 /\ R s1 s1' h1) ->
    R s s' h ->
    for_loop n lo body s = Ok sf ->
    exists sf' hf, runs (for_each n lo body' s') h sf' hf /\ R sf sf' hf.
Proof.
  induction n as [|n IH]; intros lo s s' h sf Hbody HR; simpl.
  - intros [= <-]. by exists s', h.
  - intros (s1 & Hs1 & Hsf)%bind_Ok.
    destruct (Hbody lo s s' h s1 ltac:(lia) HR Hs1) as (s1' & h1 & Hrun1 & HR1).
    destruct (IH (S lo) s1 s1' h1 sf) as (sf' & hf & Hrun & HRf); [|done|done|].
    { intros i t t' k t1 Hi. apply Hbody. lia. }
    exists sf', hf. split; [|done]. by eapply runs_bind.
Qed.

Lemma holds_numbers_insert h l zs w o :
  w <> l -> holds_numbers h l zs -> holds_numbers (<[w := o]> h) l zs.
Proof. unfold holds_numbers. intros Hw. by rewrite list_lookup_insert_ne. Qed.

Lemma holds_rows_insert h l rows m w o :
  w <> l -> w ∉ rows -> holds_rows h l rows m -> holds_rows (<[w := o]> h) l rows m.
Proof.
  intros Hw Hrows [Hl Hm]. split; [by rewrite list_lookup_insert_ne|].
  apply Forall2_same_length_lookup. split; [by eapply Forall2_length|].
  intros i r row Hr Hrow. apply holds_numbers_insert.
  - intros ->. apply Hrows. by eapply list_elem_of_lookup_2.
  - by eapply Forall2_lookup_lr.
Qed.

Lemma holds_rows_lookup h l rows m i row :
  holds_rows h l rows m -> m !! i = Some row ->
  exists r, rows !! i = Some r /\ holds_numbers h r row.
Proof.
  intros [_ Hm] Hrow.
  destruct (rows !! i) as [r|] eqn:Hr.
  - exists r. split; [done|]. by eapply Forall2_lookup_lr.
  - apply lookup_ge_None in Hr. apply lookup_lt_Some in Hrow.
    apply Forall2_length in Hm. lia.
Qed.

(** Reading [m[i][j]] from the matrix at [l]. *)
Lemma runs_entry h l rows m i j row x :
  holds_rows h l rows m -> m !! i = Some row -> row !! j = Some x ->
  runs (r ← index l i ≫= ref; index r j ≫= num) h x h.
Proof.
  intros Hm Hrow Hx. destruct (holds_rows_lookup _ _ _ _ _ _ Hm Hrow) as (r & Hr & Hnum).
  eapply runs_bind; [eapply runs_index_ref; [apply Hm | exact Hr]|].
  by eapply runs_index_num.
Qed.

Section Safety.
Variables (need currentAllocation : list (list Z)).
Variables (lneed lalloc lavail lfinished lsequence : loc) (nrows arows : list loc).
Variables (numProcesses numResources : nat).
Hypothesis Hneed_apart : apart [lavail; lfinished; lsequence] lneed nrows.
Hypothesis Halloc_apart : apart [lavail; lfinished; lsequence] lalloc arows.
Hypothesis Hdistinct : lavail <> lfinished /\ lavail <> lsequence /\ lfinished <> lsequence.

Local Abbreviation safety_store :=
  (safety_store need currentAllocation lneed lalloc lavail lfinished lsequence
                nrows arows).

Lemma runs_can_allocate h avail fin sq n :
  safety_store h avail fin sq ->
  forall j i b,
    Bankers.can_allocate need n j i avail = Ok b ->
    runs (can_allocate lneed lavail n j i) h b h.
Proof.
  intros Hst. induction n as [|n IH]; intros j i b; simpl.
  - by intros [= <-].
  - intros (row & Hrow%read_Ok & (x & Hx%read_Ok & (a & Ha%read_Ok & Hb)%bind_Ok)%bind_Ok)%bind_Ok.
    destruct (holds_rows_lookup _ _ _ _ _ _ (store_need _ _ _ _ _ _ _ _ _ _ _ _ _ Hst) Hrow)
      as (r & Hr & Hnum).
    eapply runs_bind.
    { eapply runs_index_ref; [apply (store_need _ _ _ _ _ _ _ _ _ _ _ _ _ Hst) | exact Hr]. }
    eapply runs_bind; [by eapply runs_index_num|].
    eapply runs_bind.
    { eapply runs_index_num; [apply (store_available _ _ _ _ _ _ _ _ _ _ _ _ _ Hst) | exact Ha]. }
    destruct (x >? a); [by injection Hb as <- | by apply IH].
Qed.

Lemma safety_store_available h avail fin sq avail' :
  safety_store h avail fin sq ->
  safety_store (<[lavail := Arr (Num <$> avail')]> h) avail' fin sq.
Proof.
  intros [Hn Ha Hav Hf Hs]. destruct Hdistinct as (Hd1 & Hd2 & Hd3).
  destruct (Hneed_apart lavail) as [? ?]; [by left|].
  destruct (Halloc_apart lavail) as [? ?]; [by left|].
  split.
  - by apply holds_rows_insert.
  - by apply holds_rows_insert.
  - unfold holds_numbers. apply list_lookup_insert_eq. by eapply lookup_lt_Some.
  - by rewrite list_lookup_insert_ne.
  - by rewrite list_lookup_insert_ne.
Qed.

Lemma safety_store_finished h avail fin sq fin' :
  safety_store h avail fin sq ->
  safety_store (<[lfinished := Arr (Flag <$> fin')]> h) avail fin' sq.
Proof.
  intros [Hn Ha Hav Hf Hs]. destruct Hdistinct as (Hd1 & Hd2 & Hd3).
  destruct (Hneed_apart lfinished) as [? ?]; [by right; left|].
  destruct (Halloc_apart lfinished) as [? ?]; [by right; left|].
  split.
  - by apply holds_rows_insert.
  - by apply holds_rows_insert.
  - by apply holds_numbers_insert.
  - apply list_lookup_insert_eq. by eapply lookup_lt_Some.
  - by rewrite list_lookup_insert_ne.
Qed.

Lemma safety_store_sequence h avail fin sq sq' :
  safety_store h avail fin sq ->
  safety_store (<[lsequence := Arr ((fun i => Num (Z.of_nat i)) <$> sq')]> h)
               avail fin sq'.
Proof.
  intros [Hn Ha Hav Hf Hs]. destruct Hdistinct as (Hd1 & Hd2 & Hd3).
  destruct (Hneed_apart lsequence) as [? ?]; [by do 2 right; left|].
  destruct (Halloc_apart lsequence) as [? ?]; [by do 2 right; left|].
  split.
  - by apply holds_rows_insert.
  - by apply holds_rows_insert.
  - by apply holds_numbers_insert.
  - by rewrite list_lookup_insert_ne.
  - apply list_lookup_insert_eq. by eapply lookup_lt_Some.
Qed.

Lemma runs_release_one h avail fin sq i j avail' :
  safety_store h avail fin sq ->
  Bankers.release_one currentAllocation i j avail = Ok avail' ->
  exists h', runs (release_one lalloc lavail i j tt) h tt h'
             /\ safety_store h' avail' fin sq.
Proof.
  intros Hst (row & Hrow%read_Ok & (x & Hx%read_Ok & (a & Ha%read_Ok & [= <-])%bind_Ok)%bind_Ok)%bind_Ok.
  pose proof (store_allocation _ _ _ _ _ _ _ _ _ _ _ _ _ Hst) as Hal.
  pose proof (store_available _ _ _ _ _ _ _ _ _ _ _ _ _ Hst) as Hav.
  destruct (holds_rows_lookup _ _ _ _ _ _ Hal Hrow) as (r & Hr & Hnum).
  eexists. split.
  - eapply runs_bind; [eapply runs_index_ref; [apply Hal | exact Hr]|].
    eapply runs_bind; [by eapply runs_index_num|].
    eapply runs_bind; [by eapply runs_index_num|].
    eapply runs_set_index; [exact Hav|].
    rewrite length_fmap. by eapply lookup_lt_Some.
  - rewrite <- list_fmap_insert. by eapply safety_store_available.
Qed.

Lemma runs_release h avail fin sq i avail' :
  safety_store h avail fin sq ->
  Bankers.release currentAllocation numResources i avail = Ok avail' ->
  exists h', runs (for_each numResources 0 (release_one lalloc lavail i) tt) h tt h'
             /\ safety_store h' avail' fin sq.
Proof.
  intros Hst Hrel.
  destruct (runs_for_each (fun a (_ : unit) h => safety_store h a fin sq)
              (Bankers.release_one currentAllocation i) (release_one lalloc lavail i)
              numResources 0 avail tt h avail') as ([] & h' & Hrun & Hst'); [|done|done|].
  - intros j a [] k a1 _ Hk Ha1.
    destruct (runs_release_one _ _ _ _ _ _ _ Hk Ha1) as (k' & Hrun & Hk').
    by exists tt, k'.
  - by exists h'.
Qed.

Lemma runs_visit h i st st' :
  safety_store h (Bankers.st_availableResources st) (Bankers.st_finished st)
               (Bankers.st_safeSequence st) ->
  Bankers.visit need currentAllocation numResources i st = Ok st' ->
  exists h',
    runs (visit lneed lalloc lavail lfinished lsequence numResources i
                (Bankers.st_count st, Bankers.st_found st))
         h (Bankers.st_count st', Bankers.st_found st') h'
    /\ safety_store h' (Bankers.st_availableResources st') (Bankers.st_finished st')
                    (Bankers.st_safeSequence st').
Proof.
  intros Hst (f & Hf%read_Ok & Hvisit)%bind_Ok.
  pose proof (store_finished _ _ _ _ _ _ _ _ _ _ _ _ _ Hst) as Hfin.
  assert (runs (index lfinished i ≫= flag) h f h) as Hrunf.
  { by eapply runs_index_flag. }
  destruct f.
  { injection Hvisit as <-. exists h. split; [|done]. by eapply runs_bind. }
  apply bind_Ok in Hvisit as (can & Hcan & Hvisit).
  pose proof (runs_can_allocate _ _ _ _ _ Hst _ _ _ Hcan) as Hrunc.
  destruct can.
  - apply bind_Ok in Hvisit as (avail & Hrel & [= <-]). simpl.
    destruct (runs_release _ _ _ _ _ _ Hst Hrel) as (h1 & Hrun1 & Hst1).
    eexists. split.
    + eapply runs_bind; [exact Hrunf|]. eapply runs_bind; [exact Hrunc|].
      eapply runs_bind; [exact Hrun1|].
      eapply runs_bind.
      { eapply runs_set_index; [apply (store_finished _ _ _ _ _ _ _ _ _ _ _ _ _ Hst1)|].
        rewrite length_fmap. by eapply lookup_lt_Some. }
      eapply runs_bind; [|reflexivity].
      eapply runs_push. rewrite <- list_fmap_insert.
      apply (store_sequence _ _ _ _ _ _ _ _ _ _ _ _ _
               (safety_store_finished _ _ _ _ (<[i := true]> (Bankers.st_finished st)) Hst1)).
    + replace (Arr (((fun i => Num (Z.of_nat i)) <$> Bankers.st_safeSequence st)
                    ++ [Num (Z.of_nat i)]))
        with (Arr ((fun i => Num (Z.of_nat i)) <$> (Bankers.st_safeSequence st ++ [i])))
        by (by rewrite fmap_app).
      eapply safety_store_sequence. rewrite <- list_fmap_insert.
      by eapply safety_store_finished.
  - injection Hvisit as <-. exists h. split; [|done].
    eapply runs_bind; [exact Hrunf|]. by eapply runs_bind.
Qed.

Lemma runs_pass h st st' :
  safety_store h (Bankers.st_availableResources st) (Bankers.st_finished st)
               (Bankers.st_safeSequence st) ->
  Bankers.pass need currentAllocation numProcesses numResources
               (Bankers.set_found false st) = Ok st' ->
  exists h',
    runs (for_each numProcesses 0
            (visit lneed lalloc lavail lfinished lsequence numResources)
            (Bankers.st_count st, false))
         h (Bankers.st_count st', Bankers.st_found st') h'
    /\ safety_store h' (Bankers.st_availableResources st') (Bankers.st_finished st')
                    (Bankers.st_safeSequence st').
Proof.
  intros Hst Hpass.
  destruct (runs_for_each
              (fun s (s' : nat * bool) k =>
                 s' = (Bankers.st_count s, Bankers.st_found s)
                 /\ safety_store k (Bankers.st_availableResources s)
                      (Bankers.st_finished s) (Bankers.st_safeSequence s))
              (Bankers.visit need currentAllocation numResources)
              (visit lneed lalloc lavail lfinished lsequence numResources)
              numProcesses 0 (Bankers.set_found false st)
              (Bankers.st_count st, false) h st')
    as (s' & h' & Hrun & -> & Hst'); [|done|done|].
  - intros i s s' k s1 _ [-> Hk] Hs1.
    destruct (runs_visit _ _ _ _ Hk Hs1) as (k' & Hrun & Hk').
    by exists (Bankers.st_count s1, Bankers.st_found s1), k'.
  - by exists h'.
Qed.

Lemma runs_while_unfinished fuel :
  forall h st r,
    safety_store h (Bankers.st_availableResources st) (Bankers.st_finished st)
                 (Bankers.st_safeSequence st) ->
    Bankers.while_unfinished need currentAllocation numProcesses numResources fuel st
    = Ok r ->
    exists h',
      runs (while_unfinished lneed lalloc lavail lfinished lsequence
              numProcesses numResources fuel (Bankers.st_count st)) h r h'.
Proof.
  assert (forall h st,
    safety_store h (Bankers.st_availableResources st) (Bankers.st_finished st)
                 (Bankers.st_safeSequence st) ->
    runs (seq ← numbers lsequence;
          mret {| Bankers.safe := true;
                  Bankers.safeSequence := Z.to_nat <$> seq;
                  Bankers.unfinishedProcesses := [] |}) h
         {| Bankers.safe := true;
            Bankers.safeSequence := Bankers.st_safeSequence st;
            Bankers.unfinishedProcesses := [] |} h) as Hsafe.
  { intros h st Hst. eapply runs_bind.
    { apply runs_numbers. unfold holds_numbers.
      rewrite (store_sequence _ _ _ _ _ _ _ _ _ _ _ _ _ Hst).
      by rewrite <- (list_fmap_compose Z.of_nat Num). }
    rewrite <- list_fmap_compose.
    replace (Z.to_nat ∘ Z.of_nat <$> Bankers.st_safeSequence st)
      with (Bankers.st_safeSequence st); [done|].
    rewrite <- (list_fmap_id (Bankers.st_safeSequence st)) at 1.
    apply list_fmap_ext. intros _ i _. simpl. lia. }
  induction fuel as [|fuel IH]; intros h st r Hst; simpl.
  - destruct (Bankers.st_count st <? numProcesses)%nat; [done|].
    intros [= <-]. exists h. by apply Hsafe.
  - destruct (Bankers.st_count st <? numProcesses)%nat.
    + intros (st' & Hpass & Hr)%bind_Ok.
      destruct (runs_pass _ _ _ Hst Hpass) as (h1 & Hrun1 & Hst1).
      destruct (Bankers.st_found st') eqn:Hfound.
      * destruct (IH _ _ _ Hst1 Hr) as (h' & Hrun). exists h'.
        eapply runs_bind; [exact Hrun1|]. done.
      * injection Hr as <-. exists h1.
        eapply runs_bind; [exact Hrun1|]. simpl.
        eapply runs_bind.
        { apply runs_elems. apply (store_finished _ _ _ _ _ _ _ _ _ _ _ _ _ Hst1). }
        eapply runs_bind; [|reflexivity].
        apply runs_map_each; [by rewrite length_fmap|].
        intros k x y. rewrite list_lookup_fmap. intros Hx Hy. rewrite Hy in Hx.
        by injection Hx as <-.
    + intros [= <-]. exists h. by apply Hsafe.
Qed.
End Safety.
End StoreLoops.

Section StoreSafety.
Import Store Holds Loops.

Lemma length_matrix_cells b m : length (matrix_cells b m) = S (length m).
Proof. unfold matrix_cells. rewrite length_app, length_fmap. simpl. lia. Qed.

Lemma holds_matrix_cells_end pre m :
  holds_rows (pre ++ matrix_cells (length pre) m) (length pre + length m)
             (seq (length pre) (length m)) m.
Proof.
  pose proof (holds_matrix_cells pre [] m) as H. by rewrite app_nil_r in H.
Qed.

Lemma holds_numbers_end pre zs : holds_numbers (pre ++ [Arr (Num <$> zs)]) (length pre) zs.
Proof. unfold holds_numbers. by rewrite list_lookup_middle. Qed.

Lemma apart_seq written l base n :
  (forall w, w ∈ written -> w < base \/ base + n < w)%nat -> l = (base + n)%nat ->
  apart written l (seq base n).
Proof.
  intros Hw -> w Hin. specialize (Hw w Hin). split; [lia|].
  intros [? ?]%elem_of_seq. lia.
Qed.

Lemma runs_length_rows h l rows m :
  holds_rows h l rows m -> runs (length_of l) h (length m) h.
Proof.
  intros [Hl Hm]. apply Forall2_length in Hm. rewrite <- Hm.
  rewrite <- (length_fmap Ref rows). by apply runs_length_of.
Qed.

Lemma runs_length_numbers h l zs :
  holds_numbers h l zs -> runs (length_of l) h (length zs) h.
Proof.
  intros Hl. rewrite <- (length_fmap Num zs). by apply runs_length_of.
Qed.

(** On a store that holds its arguments, isSafeState returns what it returns
    on values. *)
Lemma runs_isSafeState h la lmx mrows lal arows av mx al r :
  holds_numbers h la av -> holds_rows h lmx mrows mx -> holds_rows h lal arows al ->
  Bankers.isSafeState av mx al = Ok r ->
  exists h', runs (isSafeState la lmx lal) h r h'.
Proof.
  intros Hav Hmx Hal (need & Hneed & Hwhile)%bind_Ok.
  pose proof (map_indexed_inv _ _ _ _ Hneed) as [Hlen _].
  set (h1 := h ++ [Arr (Num <$> av)]).
  set (h2 := h1 ++ matrix_cells (length h1) mx).
  set (h3 := h2 ++ matrix_cells (length h2) al).
  set (h4 := h3 ++ matrix_cells (length h3) need).
  set (h5 := h4 ++ [Arr (replicate (length mx) (Flag false))]).
  set (h6 := h5 ++ [Arr []]).
  assert (h `prefix_of` h1) as P01 by apply prefix_app_r, reflexivity.
  assert (h1 `prefix_of` h2) as P12 by apply prefix_app_r, reflexivity.
  assert (h2 `prefix_of` h3) as P23 by apply prefix_app_r, reflexivity.
  assert (h3 `prefix_of` h4) as P34 by apply prefix_app_r, reflexivity.
  assert (h4 `prefix_of` h5) as P45 by apply prefix_app_r, reflexivity.
  assert (h5 `prefix_of` h6) as P56 by apply prefix_app_r, reflexivity.
  assert (length h1 = S (length h)) as L1 by (unfold h1; rewrite length_app; simpl; lia).
  assert (length h2 = (length h1 + S (length mx))%nat) as L2
    by (unfold h2; by rewrite length_app, length_matrix_cells).
  assert (length h3 = (length h2 + S (length al))%nat) as L3
    by (unfold h3; by rewrite length_app, length_matrix_cells).
  assert (length h4 = (length h3 + S (length need))%nat) as L4
    by (unfold h4; by rewrite length_app, length_matrix_cells).
  assert (length h5 = S (length h4)) as L5 by (unfold h5; rewrite length_app; simpl; lia).
  assert (holds_rows h3 (length h1 + length mx) (seq (length h1) (length mx)) mx) as Hmx3.
  { eapply holds_rows_prefix; [exact P23|]. apply holds_matrix_cells_end. }
  pose proof (holds_matrix_cells_end h2 al) as Hal3. fold h3 in Hal3.
  pose proof (holds_matrix_cells_end h3 need) as Hneed4. fold h4 in Hneed4.
  destruct (runs_while_unfinished need al
              (length h3 + length need) (length h2 + length al) (length h)
              (length h4) (length h5)
              (seq (length h3) (length need)) (seq (length h2) (length al))
              (length mx) (length av)) with (fuel := length mx) (h := h6)
              (st := {| Bankers.st_availableResources := av;
                        Bankers.st_finished := replicate (length mx) false;
                        Bankers.st_safeSequence := [];
                        Bankers.st_count := 0;
                        Bankers.st_found := false |}) (r := r)
    as (h' & Hrun); [| | | |done|].
  - apply apart_seq; [|done]. intros w Hw.
    apply list_elem_of_In in Hw. simpl in Hw. lia.
  - apply apart_seq; [|done]. intros w Hw.
    apply list_elem_of_In in Hw. simpl in Hw. lia.
  - lia.
  - simpl. split.
    + eapply holds_rows_prefix; [|exact Hneed4]. by etrans.
    + eapply holds_rows_prefix; [|exact Hal3]. etrans; [exact P34|]. by etrans.
    + eapply holds_numbers_prefix; [|apply (holds_numbers_end h av)].
      fold h1. etrans; [exact P12|]. etrans; [exact P23|]. etrans; [exact P34|]. by etrans.
    + apply (lookup_app_l_Some h5). unfold h5. rewrite list_lookup_middle by done.
      by rewrite fmap_replicate.
    + unfold h6. by rewrite list_lookup_middle.
  - exists h'. unfold isSafeState.
    eapply runs_bind; [by apply runs_spread|]. fold h1.
    eapply runs_bind.
    { eapply runs_json_copy_matrix. eapply holds_rows_prefix; [exact P01 | exact Hmx]. }
    fold h2.
    eapply runs_bind.
    { eapply runs_json_copy_matrix. eapply holds_rows_prefix; [|exact Hal]. by etrans. }
    fold h3.
    eapply runs_bind; [by eapply runs_compute_need|]. fold h4.
    eapply runs_bind.
    { eapply runs_length_rows. eapply holds_rows_prefix; [exact P34 | exact Hmx3]. }
    eapply runs_bind.
    { eapply runs_length_numbers. eapply holds_numbers_prefix; [|exact Hav].
      etrans; [exact P01|]. etrans; [exact P12|]. by etrans. }
    eapply runs_bind; [apply runs_alloc|]. fold h5.
    eapply runs_bind; [apply runs_alloc|]. fold h6.
    exact Hrun.
Qed.
End StoreSafety.

Section StoreRequests.
Import Store Holds Loops Copies.

Lemma copy_at_end pre m : copy_at (pre ++ matrix_cells (length pre) m) (length pre) m.
Proof. apply holds_matrix_cells_end. Qed.

Lemma copy_at_prefix h h' base m : h `prefix_of` h' -> copy_at h base m -> copy_at h' base m.
Proof. apply holds_rows_prefix. Qed.

(** A write outside a copy leaves the copy as it is. *)
Lemma copy_at_insert h base m w o :
  (w < base \/ base + length m < w)%nat -> copy_at h base m -> copy_at (<[w := o]> h) base m.
Proof.
  intros Hw. apply holds_rows_insert; [lia|]. intros [? ?]%elem_of_seq. lia.
Qed.

(** A write of a row of a copy. *)
Lemma copy_at_insert_row h base m i row :
  (i < length m)%nat -> copy_at h base m ->
  copy_at (<[(base + i)%nat := Arr (Num <$> row)]> h) base (<[i := row]> m).
Proof.
  intros Hi [Hl Hm]. unfold copy_at. rewrite length_insert. split.
  - rewrite list_lookup_insert_ne by lia. done.
  - apply Forall2_same_length_lookup. split; [by rewrite length_seq, length_insert|].
    intros k r row' Hr Hrow'. apply lookup_seq in Hr as [-> Hk].
    destruct (decide (k = i)) as [->|Hne].
    + rewrite list_lookup_insert_eq in Hrow' by done. injection Hrow' as <-.
      unfold holds_numbers. apply list_lookup_insert_eq.
      assert (holds_numbers h (base + i) (default [] (m !! i))) as Hrow.
      { destruct (lookup_lt_is_Some_2 m i Hi) as [old Hold]. rewrite Hold. simpl.
        eapply Forall2_lookup_lr; [exact Hm| |exact Hold]. by apply lookup_seq. }
      by eapply lookup_lt_Some.
    + rewrite list_lookup_insert_ne in Hrow' by done.
      apply holds_numbers_insert; [lia|].
      eapply (Forall2_lookup_lr _ _ _ k); [exact Hm| |exact Hrow']. by apply lookup_seq.
Qed.

Lemma copy_at_row h base m i row :
  copy_at h base m -> m !! i = Some row ->
  seq base (length m) !! i = Some (base + i)%nat /\ holds_numbers h (base + i) row.
Proof.
  intros [Hl Hm] Hrow.
  assert (seq base (length m) !! i = Some (base + i)%nat) as Hi.
  { apply lookup_seq. split; [done|]. by eapply lookup_lt_Some. }
  split; [done|]. by eapply Forall2_lookup_lr.
Qed.

(** [m[i][j] = v] on a copy. *)
Lemma runs_set_entry h base m i j row v :
  copy_at h base m -> m !! i = Some row -> (j < length row)%nat ->
  runs (set_index (base + i) j (Num v)) h tt
       (<[(base + i)%nat := Arr (Num <$> <[j := v]> row)]> h).
Proof.
  intros Hm Hrow Hj. destruct (copy_at_row _ _ _ _ _ Hm Hrow) as [_ Hnum].
  rewrite list_fmap_insert. apply runs_set_index; [done|]. by rewrite length_fmap.
Qed.

Lemma runs_first_exceeding h lrequest request (bound : nat -> outcome Z)
    (bound' : nat -> prog Z) n :
  holds_numbers h lrequest request ->
  (forall j b, bound j = Ok b -> runs (bound' j) h b h) ->
  forall j o,
    Bankers.first_exceeding n j request bound = Ok o ->
    runs (first_exceeding n j lrequest bound') h o h.
Proof.
  intros Hreq Hbound. induction n as [|n IH]; intros j o; simpl.
  - by intros [= <-].
  - intros (r & Hr%read_Ok & (b & Hb & Ho)%bind_Ok)%bind_Ok.
    eapply runs_bind; [by eapply runs_index_num|].
    eapply runs_bind; [by apply Hbound|].
    destruct (r >? b); [by injection Ho as <- | by apply IH].
Qed.

Section Tentative.
Variables (max : list (list Z)) (request : list Z).
Variables (lrequest lavail bmax balloc bneed : nat) (processId : nat).

Local Abbreviation tentative_store :=
  (tentative_store max request lrequest lavail bmax balloc bneed).

Lemma runs_tentative_one h s j s' :
  tentative_store h s ->
  Bankers.tentative_one processId request j s = Ok s' ->
  exists h',
    runs (tentative_one lavail (balloc + length s.1.2) (bneed + length s.2)
                        processId lrequest j tt) h tt h'
    /\ tentative_store h' s'
    /\ length s'.1.2 = length s.1.2 /\ length s'.2 = length s.2.
Proof.
  destruct s as [[avail alloc] need]. simpl.
  intros [Hreq Hav Hmx Hal Hnd (Ho1 & Ho2 & Ho3)]. simpl in *.
  intros (r & Hr%read_Ok & (a & Ha%read_Ok & (arow & Harow%read_Ok & (x & Hx%read_Ok
    & (nrow & Hnrow%read_Ok & (y & Hy%read_Ok & [= <-])%bind_Ok)%bind_Ok)%bind_Ok)%bind_Ok)%bind_Ok)%bind_Ok.
  simpl. rewrite !length_insert.
  pose proof (lookup_lt_Some _ _ _ Harow) as Hpa.
  pose proof (lookup_lt_Some _ _ _ Hnrow) as Hpn.
  pose proof (lookup_lt_Some _ _ _ Hx) as Hjx.
  pose proof (lookup_lt_Some _ _ _ Hy) as Hjy.
  pose proof (lookup_lt_Some _ _ _ Ha) as Hja.
  set (h1 := <[lavail := Arr (Num <$> <[j := a - r]> avail)]> h).
  set (h2 := <[(balloc + processId)%nat := Arr (Num <$> <[j := x + r]> arow)]> h1).
  set (h3 := <[(bneed + processId)%nat := Arr (Num <$> <[j := y - r]> nrow)]> h2).
  assert (lrequest < length h)%nat as Hlreq by (by eapply lookup_lt_Some).
  assert (copy_at h1 balloc alloc) as Hal1 by (apply copy_at_insert; [lia | done]).
  assert (copy_at h1 bneed need) as Hnd1 by (apply copy_at_insert; [lia | done]).
  assert (copy_at h2 bneed need) as Hnd2 by (apply copy_at_insert; [lia | done]).
  exists h3. split; [|split; [split|done]]; simpl.
  - eapply runs_bind; [by eapply runs_index_num|].
    eapply runs_bind; [by eapply runs_index_num|].
    eapply runs_bind.
    { eapply runs_set_index; [exact Hav|]. by rewrite length_fmap. }
    rewrite <- (list_fmap_insert Num). fold h1.
    destruct (copy_at_row _ _ _ _ _ Hal1 Harow) as [Hra Hnuma].
    eapply runs_bind; [eapply runs_index_ref; [apply Hal1 | exact Hra]|].
    eapply runs_bind; [by eapply runs_index_num|].
    eapply runs_bind; [by eapply runs_set_entry|]. fold h2.
    destruct (copy_at_row _ _ _ _ _ Hnd2 Hnrow) as [Hrn Hnumn].
    eapply runs_bind; [eapply runs_index_ref; [apply Hnd2 | exact Hrn]|].
    eapply runs_bind; [by eapply runs_index_num|].
    by eapply runs_set_entry.
  - do 3 (apply holds_numbers_insert; [lia|]). done.
  - do 2 (apply holds_numbers_insert; [lia|]).
    unfold holds_numbers. apply list_lookup_insert_eq. by eapply lookup_lt_Some.
  - do 3 (apply copy_at_insert; [lia|]). done.
  - apply copy_at_insert; [rewrite length_insert; lia|].
    by apply copy_at_insert_row.
  - by apply copy_at_insert_row.
  - rewrite length_insert. lia.
Qed.

Lemma runs_tentative numResources h s s' :
  tentative_store h s ->
  for_loop numResources 0 (Bankers.tentative_one processId request) s = Ok s' ->
  exists h',
    runs (for_each numResources 0
            (tentative_one lavail (balloc + length s.1.2) (bneed + length s.2)
                           processId lrequest) tt) h tt h'
    /\ tentative_store h' s'
    /\ length s'.1.2 = length s.1.2.
Proof.
  intros Hst Hloop.
  destruct (runs_for_each
              (fun t (_ : unit) k =>
                 tentative_store k t
                 /\ length t.1.2 = length s.1.2 /\ length t.2 = length s.2)
              (Bankers.tentative_one processId request)
              (tentative_one lavail (balloc + length s.1.2) (bneed + length s.2)
                             processId lrequest)
              numResources 0 s tt h s') as ([] & h' & Hrun & Hst' & Hl1 & Hl2);
    [|done|done|].
  - intros j t [] k t1 _ (Hk & Hl1 & Hl2) Ht1.
    destruct (runs_tentative_one _ _ _ _ Hk Ht1) as (k' & Hrun & Hk' & Hl1' & Hl2').
    rewrite Hl1, Hl2 in Hrun. exists tt, k'. split; [done|]. split; [done|]. lia.
  - by exists h'.
Qed.
End Tentative.

(** On a store that holds its arguments, resourceRequest returns what it
    returns on values. *)
Lemma runs_resourceRequest h la lmx mrows lal arows lreq av mx al processId request r :
  holds_numbers h la av -> holds_rows h lmx mrows mx -> holds_rows h lal arows al ->
  holds_numbers h lreq request ->
  Bankers.resourceRequest av mx al processId request = Ok r ->
  exists h', runs (resourceRequest la lmx lal processId lreq) h r h'.
Proof.
  intros Hav Hmx Hal Hreq (need & Hneed & Hrest)%bind_Ok.
  pose proof (map_indexed_inv _ _ _ _ Hneed) as [Hlen _].
  set (h1 := h ++ [Arr (Num <$> av)]).
  set (h2 := h1 ++ matrix_cells (length h1) mx).
  set (h3 := h2 ++ matrix_cells (length h2) al).
  set (h4 := h3 ++ matrix_cells (length h3) need).
  assert (h `prefix_of` h1) as P01 by apply prefix_app_r, reflexivity.
  assert (h1 `prefix_of` h2) as P12 by apply prefix_app_r, reflexivity.
  assert (h2 `prefix_of` h3) as P23 by apply prefix_app_r, reflexivity.
  assert (h3 `prefix_of` h4) as P34 by apply prefix_app_r, reflexivity.
  assert (h `prefix_of` h4) as P04
    by (etrans; [exact P01|]; etrans; [exact P12|]; by etrans).
  assert (length h1 = S (length h)) as L1 by (unfold h1; rewrite length_app; simpl; lia).
  assert (length h2 = (length h1 + S (length mx))%nat) as L2
    by (unfold h2; by rewrite length_app, length_matrix_cells).
  assert (length h3 = (length h2 + S (length al))%nat) as L3
    by (unfold h3; by rewrite length_app, length_matrix_cells).
  assert (tentative_store mx request lreq (length h) (length h1) (length h2) (length h3)
            h4 (av, al, need)) as Hst.
  { split; simpl.
    - by eapply holds_numbers_prefix.
    - eapply holds_numbers_prefix; [|apply (holds_numbers_end h av)].
      fold h1. etrans; [exact P12|]. by etrans.
    - eapply copy_at_prefix; [|apply (copy_at_end h1 mx)]. fold h2. by etrans.
    - eapply copy_at_prefix; [|apply (copy_at_end h2 al)]. done.
    - apply (copy_at_end h3 need).
    - apply lookup_lt_Some in Hreq. lia. }
  assert (runs (spread la) h (length h) h1) as R1 by (by apply runs_spread).
  assert (runs (json_copy_matrix lmx) h1 (length h1 + length mx)%nat h2) as R2.
  { eapply runs_json_copy_matrix. by eapply holds_rows_prefix. }
  assert (runs (json_copy_matrix lal) h2 (length h2 + length al)%nat h3) as R3.
  { eapply runs_json_copy_matrix. eapply holds_rows_prefix; [|exact Hal].
    by transitivity h1. }
  assert (runs (compute_need (length h1 + length mx) (length h2 + length al)) h3
               (length h3 + length need)%nat h4) as R4.
  { eapply runs_compute_need; [|apply (holds_matrix_cells_end h2 al)|exact Hneed].
    eapply holds_rows_prefix; [exact P23|]. apply holds_matrix_cells_end. }
  assert (runs (length_of la) h4 (length av) h4) as R5.
  { eapply runs_length_numbers. by eapply holds_numbers_prefix. }
  unfold resourceRequest.
  apply bind_Ok in Hrest as (over & Hover & Hrest).
  assert (runs (first_exceeding (length av) 0 lreq
                  (fun j => row ← index (length h3 + length need) processId ≫= ref;
                            index row j ≫= num)) h4 over h4) as Hrun_over.
  { eapply runs_first_exceeding; [apply (store_request _ _ _ _ _ _ _ _ _ Hst)| |exact Hover].
    intros j b (row & Hrow%read_Ok & Hb%read_Ok)%bind_Ok.
    eapply runs_entry; [apply (store_needed _ _ _ _ _ _ _ _ _ Hst) | exact Hrow | exact Hb]. }
  destruct over as [j|].
  { injection Hrest as <-. exists h4. do 5 run_step.
    eapply runs_bind; [exact Hrun_over|]. done. }
  apply bind_Ok in Hrest as (short & Hshort & Hrest).
  assert (runs (first_exceeding (length av) 0 lreq
                  (fun j => index (length h) j ≫= num)) h4 short h4) as Hrun_short.
  { eapply runs_first_exceeding; [apply (store_request _ _ _ _ _ _ _ _ _ Hst)| |exact Hshort].
    intros j b Hb%read_Ok.
    eapply runs_index_num; [apply (store_avail _ _ _ _ _ _ _ _ _ Hst) | exact Hb]. }
  destruct short as [j|].
  { injection Hrest as <-. exists h4. do 5 run_step.
    eapply runs_bind; [exact Hrun_over|].
    eapply runs_bind; [exact Hrun_short|]. done. }
  apply bind_Ok in Hrest as ([[av' al'] need'] & Hloop & Hrest).
  apply bind_Ok in Hrest as (sr & Hsr & Hr).
  destruct (runs_tentative _ _ _ _ _ _ _ _ _ _ _ _ Hst Hloop)
    as (h5 & Hrun5 & Hst5 & Hlen5).
  simpl in Hrun5, Hlen5.
  destruct (runs_isSafeState h5 (length h) (length h1 + length mx)
              (seq (length h1) (length mx)) (length h2 + length al)
              (seq (length h2) (length al')) av' mx al' sr) as (h6 & Hrun6); [| | |done|].
  { apply (store_avail _ _ _ _ _ _ _ _ _ Hst5). }
  { apply (store_max _ _ _ _ _ _ _ _ _ Hst5). }
  { pose proof (store_alloc _ _ _ _ _ _ _ _ _ Hst5) as Hal5. simpl in Hal5.
    unfold copy_at in Hal5. by rewrite Hlen5 in Hal5 at 1. }
  exists h6. do 5 run_step.
  eapply runs_bind; [exact Hrun_over|].
  eapply runs_bind; [exact Hrun_short|].
  eapply runs_bind; [exact Hrun5|].
  eapply runs_bind; [exact Hrun6|].
  unfold RequestSpec.safety_verdict, RequestSpec.request_granted,
    RequestSpec.would_be_unsafe.
  destruct (Bankers.safe sr); by injection Hr as <-.
Qed.
End StoreRequests.

Section StoreDriver.
Import Store Holds Loops Copies Frame.

Lemma holds_numbers_unchanged h h' l zs :
  unchanged h h' -> holds_numbers h l zs -> holds_numbers h' l zs.
Proof. intros Hh. apply Hh. Qed.

Lemma holds_rows_unchanged h h' l rows m :
  unchanged h h' -> holds_rows h l rows m -> holds_rows h' l rows m.
Proof.
  intros Hh [Hl Hm]. split; [by apply Hh|].
  eapply Forall2_impl; [exact Hm|]. intros r row. by apply holds_numbers_unchanged.
Qed.

Lemma unchanged_prefix h h' : h `prefix_of` h' -> unchanged h h'.
Proof. intros [k ->] l o. apply lookup_app_l_Some. Qed.

Lemma unchanged_insert h0 h w o :
  (length h0 <= w)%nat -> unchanged h0 h -> unchanged h0 (<[w := o]> h).
Proof.
  intros Hw Hh l x Hl. rewrite list_lookup_insert_ne; [by apply Hh|].
  apply lookup_lt_Some in Hl. lia.
Qed.

Section Driver.
Variables (h0 : heap) (max : list (list Z)) (lmax : loc) (mrows : list loc).
Variables (lavail balloc : nat).
Hypothesis Hmax : holds_rows h0 lmax mrows max.

Local Abbreviation driver_store := (driver_store h0 lavail balloc).

Lemma runs_commit_one h lrequest request processId j s s' :
  driver_store h s.1 s.2 ->
  holds_numbers h0 lrequest request ->
  Bankers.commit_one processId request j s = Ok s' ->
  exists h',
    runs (commit_one lavail (balloc + length s.2) processId lrequest j tt) h tt h'
    /\ driver_store h' s'.1 s'.2 /\ length s'.2 = length s.2.
Proof.
  destruct s as [avail alloc]. simpl.
  intros [Hcaller Hav Hal Habove] Hreq.
  intros (r & Hr%read_Ok & (a & Ha%read_Ok & (row & Hrow%read_Ok & (x & Hx%read_Ok
    & [= <-])%bind_Ok)%bind_Ok)%bind_Ok)%bind_Ok.
  simpl. rewrite length_insert.
  pose proof (lookup_lt_Some _ _ _ Hrow) as Hp.
  pose proof (lookup_lt_Some _ _ _ Hx) as Hjx.
  pose proof (lookup_lt_Some _ _ _ Ha) as Hja.
  set (h1 := <[lavail := Arr (Num <$> <[j := a - r]> avail)]> h).
  set (h2 := <[(balloc + processId)%nat := Arr (Num <$> <[j := x + r]> row)]> h1).
  assert (copy_at h1 balloc alloc) as Hal1 by (apply copy_at_insert; [lia | done]).
  exists h2. split; [|split; [split|done]]; simpl.
  - eapply runs_bind.
    { eapply runs_index_num; [|exact Hr]. by apply Hcaller. }
    eapply runs_bind; [by eapply runs_index_num|].
    eapply runs_bind.
    { eapply runs_set_index; [exact Hav|]. by rewrite length_fmap. }
    rewrite <- (list_fmap_insert Num). fold h1.
    destruct (copy_at_row _ _ _ _ _ Hal1 Hrow) as [Hra Hnuma].
    eapply runs_bind; [eapply runs_index_ref; [apply Hal1 | exact Hra]|].
    eapply runs_bind; [by eapply runs_index_num|].
    by eapply runs_set_entry.
  - change (unchanged h0 h2). unfold h2, h1.
    apply unchanged_insert; [lia|]. apply unchanged_insert; [lia | done].
  - apply holds_numbers_insert; [lia|].
    unfold holds_numbers. apply list_lookup_insert_eq. by eapply lookup_lt_Some.
  - by apply copy_at_insert_row.
  - done.
Qed.

Lemma runs_commit h lrequest request processId n s s' :
  driver_store h s.1 s.2 ->
  holds_numbers h0 lrequest request ->
  for_loop n 0 (Bankers.commit_one processId request) s = Ok s' ->
  exists h',
    runs (for_each n 0 (commit_one lavail (balloc + length s.2) processId lrequest) tt)
         h tt h'
    /\ driver_store h' s'.1 s'.2 /\ length s'.2 = length s.2.
Proof.
  intros Hst Hreq Hloop.
  destruct (runs_for_each
              (fun t (_ : unit) k => driver_store k t.1 t.2 /\ length t.2 = length s.2)
              (Bankers.commit_one processId request)
              (commit_one lavail (balloc + length s.2) processId lrequest)
              n 0 s tt h s') as ([] & h' & Hrun & Hst' & Hlen); [|done|done|].
  - intros j t [] k t1 _ (Hk & Hlen) Ht1.
    destruct (runs_commit_one _ _ _ _ _ _ _ Hk Hreq Ht1) as (k' & Hrun & Hk' & Hlen').
    rewrite Hlen in Hrun. exists tt, k'. split; [done|]. split; [done|]. lia.
  - by exists h'.
Qed.

Lemma runs_process_request h rloc req st st' :
  driver_store h (Bankers.currentAvailable st) (Bankers.currentAllocation st) ->
  holds_request h0 rloc req ->
  Bankers.process_request max req st = Ok st' ->
  exists h',
    runs (process_request lmax lavail
            (balloc + length (Bankers.currentAllocation st)) (Ref rloc)
            (Bankers.results st)) h (Bankers.results st') h'
    /\ driver_store h' (Bankers.currentAvailable st') (Bankers.currentAllocation st')
    /\ length (Bankers.currentAllocation st') = length (Bankers.currentAllocation st).
Proof.
  intros Hst (lrequest & Hrloc & Hreq) (rr & Hrr & Hrest)%bind_Ok.
  pose proof Hst as [Hcaller Hav Hal Habove].
  destruct (runs_resourceRequest h lavail lmax mrows
              (balloc + length (Bankers.currentAllocation st))
              (seq balloc (length (Bankers.currentAllocation st))) lrequest
              (Bankers.currentAvailable st) max (Bankers.currentAllocation st)
              (Bankers.processId req) (Bankers.request req) rr)
    as (h1 & Hrun1); [done| |done| |done|].
  { by eapply holds_rows_unchanged. }
  { by apply Hcaller. }
  assert (unchanged h h1) as Hframe.
  { eapply keeps_unchanged; [apply keeps_resourceRequest | exact Hrun1]. }
  assert (driver_store h1 (Bankers.currentAvailable st) (Bankers.currentAllocation st))
    as Hst1.
  { split; [|by apply Hframe|by eapply holds_rows_unchanged|done].
    intros l o Hl. by apply Hframe, Hcaller. }
  assert (runs (numbers lrequest) h1 (Bankers.request req) h1) as Hasked.
  { apply runs_numbers. by apply Hframe, Hcaller. }
  unfold process_request.
  destruct (Bankers.granted rr) eqn:Hgranted.
  - apply bind_Ok in Hrest as ([avail alloc] & Hloop & [= <-]).
    destruct (runs_commit h1 lrequest (Bankers.request req) (Bankers.processId req)
                (length (Bankers.request req))
                (Bankers.currentAvailable st, Bankers.currentAllocation st)
                (avail, alloc) Hst1 Hreq Hloop) as (h2 & Hrun2 & Hst2 & Hlen2).
    simpl in *. exists h2. split; [|done].
    eapply runs_bind; [reflexivity|].
    eapply runs_bind; [apply runs_load, Hcaller, Hrloc|].
    do 2 run_step. rewrite Hgranted.
    eapply runs_bind.
    { apply runs_length_numbers. by apply Hframe, Hcaller. }
    run_step. done.
  - injection Hrest as <-. simpl. exists h1. split; [|done].
    eapply runs_bind; [reflexivity|].
    eapply runs_bind; [apply runs_load, Hcaller, Hrloc|].
    do 2 run_step. by rewrite Hgranted.
Qed.

Lemma runs_process_requests reqs :
  forall refs h st st',
    driver_store h (Bankers.currentAvailable st) (Bankers.currentAllocation st) ->
    Forall2 (holds_request h0) refs reqs ->
    Bankers.process_requests max reqs st = Ok st' ->
    exists h',
      runs (process_requests lmax lavail
              (balloc + length (Bankers.currentAllocation st)) (Ref <$> refs)
              (Bankers.results st)) h (Bankers.results st') h'.
Proof.
  induction reqs as [|req reqs IH]; intros refs h st st' Hst Hrefs; simpl.
  - apply Forall2_nil_inv_r in Hrefs as ->. intros [= <-]. by exists h.
  - apply Forall2_cons_inv_r in Hrefs as (rloc & refs' & Hreq & Hrefs & ->).
    intros (st1 & Hst1 & Hrest)%bind_Ok.
    destruct (runs_process_request _ _ _ _ _ Hst Hreq Hst1) as (h1 & Hrun1 & Hd1 & Hlen1).
    destruct (IH _ _ _ _ Hd1 Hrefs Hrest) as (h' & Hrun). rewrite Hlen1 in Hrun.
    exists h'. simpl. by run_step.
Qed.
End Driver.

(** The field [requests] of the argument of runBankersAlgorithm, in the
    store and as a value. *)
Lemma runs_runBankersAlgorithm h la lmx mrows lal arows lrequests data r :
  holds_numbers h la (Bankers.available data) ->
  holds_rows h lmx mrows (Bankers.max data) ->
  holds_rows h lal arows (Bankers.allocation data) ->
  match lrequests, Bankers.requests data with
  | Some l, Some reqs => holds_requests h l reqs
  | None, None => True
  | _, _ => False
  end ->
  Bankers.runBankersAlgorithm data = Ok r ->
  exists h', runs (runBankersAlgorithm la lmx lal lrequests) h r h'.
Proof.
  intros Hav Hmx Hal Hreqs (isc & Hisc & (st & Hst & [= <-])%bind_Ok)%bind_Ok.
  destruct (runs_isSafeState _ _ _ _ _ _ _ _ _ _ Hav Hmx Hal Hisc) as (h1 & Hrun1).
  assert (unchanged h h1) as Hframe.
  { eapply keeps_unchanged; [apply keeps_isSafeState | exact Hrun1]. }
  unfold runBankersAlgorithm.
  destruct lrequests as [l|], (Bankers.requests data) as [reqs|]; try done.
  - destruct Hreqs as (refs & Hl & Hrefs).
    assert (runs (elems l) h1 (Ref <$> refs) h1) as Hrun2 by (by apply runs_elems, Hframe).
    rewrite <- (Forall2_length _ _ _ Hrefs) in Hst.
    destruct (Bankers.safe isc && (0 <? length refs)%nat) eqn:Hgo.
    + set (h2 := h1 ++ [Arr (Num <$> Bankers.available data)]).
      set (h3 := h2 ++ matrix_cells (length h2) (Bankers.allocation data)).
      assert (runs (spread la) h1 (length h1) h2) as Hrun3
        by (by apply runs_spread, Hframe).
      assert (runs (json_copy_matrix lal) h2
                   (length h2 + length (Bankers.allocation data))%nat h3) as Hrun4.
      { eapply runs_json_copy_matrix. eapply holds_rows_prefix; [by apply prefix_app_r|].
        by eapply holds_rows_unchanged. }
      destruct (runs_process_requests h (Bankers.max data) lmx mrows (length h1)
                  (length h2) Hmx reqs refs h3
                  {| Bankers.currentAvailable := Bankers.available data;
                     Bankers.currentAllocation := Bankers.allocation data;
                     Bankers.results := [] |} st) as (h' & Hrun5); [|done|done|].
      { split; simpl.
        - intros k o Hk. unfold h3, h2. rewrite <- app_assoc.
          apply lookup_app_l_Some. by apply Hframe.
        - eapply holds_numbers_prefix; [by apply prefix_app_r|].
          apply holds_numbers_end.
        - apply copy_at_end.
        - unfold h2. rewrite length_app. simpl.
          assert (length h <= length h1)%nat; [|lia].
          destruct (decide (length h <= length h1)%nat) as [|Hgt]; [done|].
          destruct (lookup_lt_is_Some_2 h (length h1) ltac:(lia)) as [o Ho].
          apply Hframe in Ho. apply lookup_lt_Some in Ho. lia. }
      simpl in Hrun5. exists h'. run_step.
      eapply runs_bind; [|reflexivity].
      eapply runs_bind; [exact Hrun2|].
      rewrite length_fmap, Hgo. do 2 run_step. exact Hrun5.
    + injection Hst as <-. exists h1. run_step.
      eapply runs_bind; [|reflexivity].
      eapply runs_bind; [exact Hrun2|]. by rewrite length_fmap, Hgo.
  - injection Hst as <-. exists h1. run_step. done.
Qed.
End StoreDriver.

Section StoreBlocks.
Import Store Holds Loops Copies Blocks.

Lemma length_record_cells b xs : length (record_cells b xs) = S (length xs).
Proof. unfold record_cells. rewrite length_app, length_fmap. simpl. lia. Qed.

Lemma holds_refs_prefix h h' l refs xs :
  h `prefix_of` h' -> holds_refs h l refs xs -> holds_refs h' l refs xs.
Proof.
  intros [k ->] [Hl Hxs]. split; [by apply lookup_app_l_Some|].
  eapply Forall2_impl; [exact Hxs|]. intros r x. apply lookup_app_l_Some.
Qed.

Lemma records_at_end pre xs : records_at (pre ++ record_cells (length pre) xs) (length pre) xs.
Proof.
  unfold records_at, record_cells. split.
  - rewrite lookup_app_r by lia. rewrite lookup_app_r by (rewrite length_fmap; lia).
    rewrite length_fmap. by replace (length pre + length xs - length pre - length xs)%nat
      with 0%nat by lia.
  - apply Forall2_same_length_lookup. split; [by rewrite length_seq|].
    intros i r x Hr Hx. apply lookup_seq in Hr as [-> Hi].
    unfold holds_record. rewrite lookup_app_r by lia.
    replace (length pre + i - length pre)%nat with i by lia.
    rewrite lookup_app_l by (by rewrite length_fmap).
    by rewrite list_lookup_fmap, Hx.
Qed.

Lemma records_at_insert h base xs w o :
  (w < base \/ base + length xs < w)%nat ->
  records_at h base xs -> records_at (<[w := o]> h) base xs.
Proof.
  intros Hw [Hl Hxs]. split; [rewrite list_lookup_insert_ne by lia; done|].
  apply Forall2_same_length_lookup. split; [by eapply Forall2_length|].
  intros i r x Hr Hx. unfold holds_record.
  pose proof (Forall2_lookup_lr _ _ _ _ _ _ Hxs Hr Hx) as Hrec.
  apply lookup_seq in Hr as [-> Hi]. rewrite list_lookup_insert_ne by lia. done.
Qed.

Lemma records_at_record h base xs i x :
  records_at h base xs -> xs !! i = Some x ->
  seq base (length xs) !! i = Some (base + i)%nat /\ holds_record h (base + i) x.
Proof.
  intros [Hl Hxs] Hx.
  assert (seq base (length xs) !! i = Some (base + i)%nat) as Hi.
  { apply lookup_seq. split; [done|]. by eapply lookup_lt_Some. }
  split; [done|]. by eapply Forall2_lookup_lr.
Qed.

Lemma records_at_insert_record h base xs i x :
  (i < length xs)%nat -> records_at h base xs ->
  records_at (<[(base + i)%nat := Rec (Memory.id x) (Memory.size x)]> h) base
             (<[i := x]> xs).
Proof.
  intros Hi [Hl Hxs]. unfold records_at. rewrite length_insert. split.
  - rewrite list_lookup_insert_ne by lia. done.
  - apply Forall2_same_length_lookup. split; [by rewrite length_seq, length_insert|].
    intros k r y Hr Hy. apply lookup_seq in Hr as [-> Hk].
    unfold holds_record. destruct (decide (k = i)) as [->|Hne].
    + rewrite list_lookup_insert_eq in Hy by done. injection Hy as <-.
      apply list_lookup_insert_eq.
      destruct (lookup_lt_is_Some_2 xs i Hi) as [old Hold].
      assert (holds_record h (base + i) old) as Hrec.
      { eapply Forall2_lookup_lr; [exact Hxs| |exact Hold]. by apply lookup_seq. }
      by eapply lookup_lt_Some.
    + rewrite list_lookup_insert_ne in Hy by done.
      rewrite list_lookup_insert_ne by lia.
      assert (holds_record h (base + k) y) as Hrec; [|done].
      eapply (Forall2_lookup_lr _ _ _ k); [exact Hxs| |exact Hy]. by apply lookup_seq.
Qed.

Lemma runs_size_of h r x : holds_record h r x -> runs (size_of r) h (Memory.size x) h.
Proof. intros Hr. eapply runs_bind; [by apply runs_load|]. done. Qed.

Lemma runs_set_size h r x z :
  holds_record h r x -> runs (set_size r z) h tt (<[r := Rec (Memory.id x) z]> h).
Proof.
  intros Hr. eapply runs_bind; [by apply runs_load|]. simpl. by eapply runs_store.
Qed.

(** Reading [xs[i].size] from the records at [base]. *)
Lemma runs_record_size h base xs i x :
  records_at h base xs -> xs !! i = Some x ->
  runs (r ← index (base + length xs) i ≫= ref; size_of r) h (Memory.size x) h.
Proof.
  intros Hxs Hx. destruct (records_at_record _ _ _ _ _ Hxs Hx) as [Hr Hrec].
  eapply runs_bind; [eapply runs_index_ref; [apply Hxs | exact Hr]|].
  by apply runs_size_of.
Qed.

Lemma runs_records h l refs xs : holds_refs h l refs xs -> runs (records l) h xs h.
Proof.
  intros [Hl Hxs]. eapply runs_bind; [by apply runs_elems|].
  apply runs_map_each; [rewrite length_fmap; symmetry; by eapply Forall2_length|].
  intros k v x. rewrite list_lookup_fmap.
  destruct (refs !! k) as [r|] eqn:Hr; [|done]. simpl. intros [= <-] Hx.
  pose proof (Forall2_lookup_lr _ _ _ _ _ _ Hxs Hr Hx) as Hrec.
  eapply runs_bind; [reflexivity|].
  eapply runs_bind; [by apply runs_load|]. by destruct x.
Qed.

Lemma runs_json_copy_records l refs xs h :
  holds_refs h l refs xs ->
  runs (json_copy_records l) h (length h + length xs)%nat
       (h ++ record_cells (length h) xs).
Proof.
  intros [Hl Hxs]. pose proof (Forall2_length _ _ _ Hxs) as Hlen.
  eapply runs_bind; [by apply runs_elems|].
  eapply runs_bind.
  { apply (runs_copy_all
             (fun _ v => r ← ref v; o ← load r;
                         match o with
                         | Rec i s => alloc (Rec i s)
                         | _ => fail WrongKind
                         end) (fun r => r)
             (Ref <$> refs) ((fun x => Rec (Memory.id x) (Memory.size x)) <$> xs) h);
      [by rewrite !length_fmap|].
    intros i v c h'. rewrite !list_lookup_fmap.
    destruct (refs !! i) as [r|] eqn:Hr; [|done].
    destruct (xs !! i) as [x|] eqn:Hx; [|done]. simpl. intros [= <-] [= <-] Hh'.
    pose proof (Forall2_lookup_lr _ _ _ _ _ _ Hxs Hr Hx) as Hrec.
    eapply runs_bind; [reflexivity|].
    eapply runs_bind.
    { apply runs_load. destruct Hh' as [k ->]. by apply lookup_app_l_Some. }
    apply runs_alloc. }
  rewrite length_fmap, list_fmap_id, Hlen.
  unfold record_cells. rewrite app_assoc.
  replace (length h + length xs)%nat
    with (length (h ++ ((fun x => Rec (Memory.id x) (Memory.size x)) <$> xs)))
    by (by rewrite length_app, length_fmap).
  apply runs_alloc.
Qed.

Section Strategy.
Variables (procs : list Memory.sized) (numBlocks : nat).
Variables (bblocks bprocs lallocation lfragmentation : nat).

Local Abbreviation alloc_store :=
  (alloc_store procs numBlocks bblocks bprocs lallocation lfragmentation).
Local Abbreviation lblocks := (bblocks + numBlocks)%nat.
Local Abbreviation lprocs := (bprocs + length procs)%nat.

Lemma runs_place h st i j p st' :
  alloc_store h st -> procs !! i = Some p ->
  Memory.place i j p st = Ok st' ->
  exists h', runs (place lblocks lprocs lallocation lfragmentation i j) h tt h'
             /\ alloc_store h' st'.
Proof.
  intros [Hb Hp Hc Hf (Hs1 & Hs2 & Hs3) Ho] Hpi (b & Hbj%read_Ok & [= <-])%bind_Ok.
  pose proof (lookup_lt_Some _ _ _ Hpi) as Hi.
  pose proof (lookup_lt_Some _ _ _ Hbj) as Hj.
  set (h1 := <[lallocation :=
                 Arr (choice_value <$> <[i := Some j]> (Memory.st_allocation st))]> h).
  set (h2 := <[lfragmentation :=
                 Arr (Num <$> <[j := Memory.size b - Memory.size p]>
                                (Memory.st_internalFragmentation st))]> h1).
  set (h3 := <[(bblocks + j)%nat := Rec (Memory.id b) 0]> h2).
  assert (records_at h1 bblocks (Memory.st_blocks st)) as Hb1
    by (apply records_at_insert; [lia | done]).
  assert (records_at h1 bprocs procs) as Hp1 by (apply records_at_insert; [lia | done]).
  assert (records_at h2 bblocks (Memory.st_blocks st)) as Hb2
    by (apply records_at_insert; [lia | done]).
  assert (records_at h2 bprocs procs) as Hp2 by (apply records_at_insert; [lia | done]).
  exists h3. split; [|split; simpl].
  - eapply runs_bind.
    { eapply runs_set_index; [exact Hc|]. rewrite length_fmap. lia. }
    change (Num (Z.of_nat j)) with (choice_value (Some j)).
    rewrite <- (list_fmap_insert choice_value). fold h1.
    destruct (records_at_record _ _ _ _ _ Hb1 Hbj) as [Hrb Hrecb].
    rewrite <- Hs1.
    eapply runs_bind; [eapply runs_index_ref; [apply Hb1 | exact Hrb]|].
    eapply runs_bind; [by apply runs_size_of|].
    destruct (records_at_record _ _ _ _ _ Hp1 Hpi) as [Hrp Hrecp].
    eapply runs_bind; [eapply runs_index_ref; [apply Hp1 | exact Hrp]|].
    eapply runs_bind; [by apply runs_size_of|].
    eapply runs_bind.
    { eapply runs_set_index.
      - apply holds_numbers_insert; [lia | exact Hf].
      - rewrite length_fmap. lia. }
    rewrite <- (list_fmap_insert Num). fold h2.
    destruct (records_at_record _ _ _ _ _ Hb2 Hbj) as [_ Hrecb2].
    by apply (runs_set_size _ _ b).
  - by apply (records_at_insert_record h2 bblocks (Memory.st_blocks st) j
                {| Memory.id := Memory.id b; Memory.size := 0 |}).
  - apply records_at_insert; [lia | done].
  - unfold h3, h2, h1. do 2 (rewrite list_lookup_insert_ne by lia).
    apply list_lookup_insert_eq. by eapply lookup_lt_Some.
  - apply holds_numbers_insert; [lia|].
    unfold holds_numbers. apply list_lookup_insert_eq.
    unfold h1. rewrite length_insert. by eapply lookup_lt_Some.
  - by rewrite !length_insert.
  - done.
Qed.

Lemma runs_large_enough h st i j p b :
  alloc_store h st -> procs !! i = Some p -> Memory.st_blocks st !! j = Some b ->
  runs (large_enough lblocks lprocs i j) h (Memory.size b >=? Memory.size p) h.
Proof.
  intros Hst Hp Hb. pose proof Hst as [Hbs Hps _ _ (Hs1 & _) _].
  destruct (records_at_record _ _ _ _ _ Hbs Hb) as [Hrb Hrecb].
  destruct (records_at_record _ _ _ _ _ Hps Hp) as [Hrp Hrecp].
  rewrite <- Hs1.
  eapply runs_bind; [eapply runs_index_ref; [apply Hbs | exact Hrb]|].
  eapply runs_bind; [by apply runs_size_of|].
  eapply runs_bind; [eapply runs_index_ref; [apply Hps | exact Hrp]|].
  eapply runs_bind; [by apply runs_size_of|]. done.
Qed.

Lemma runs_first_fit_scan h st i p n :
  alloc_store h st -> procs !! i = Some p ->
  forall j st',
    Memory.first_fit_scan n j i p st = Ok st' ->
    exists h',
      runs (first_fit_scan lblocks lprocs lallocation lfragmentation n j i) h tt h'
      /\ alloc_store h' st'.
Proof.
  intros Hst Hp. induction n as [|n IH]; intros j st'; simpl.
  - intros [= <-]. by exists h.
  - intros (b & Hb%read_Ok & Hrest)%bind_Ok.
    pose proof (runs_large_enough _ _ _ _ _ _ Hst Hp Hb) as Hfits.
    destruct (Memory.size b >=? Memory.size p).
    + destruct (runs_place _ _ _ _ _ _ Hst Hp Hrest) as (h' & Hrun & Hst').
      exists h'. split; [|done]. by run_step.
    + destruct (IH _ _ Hrest) as (h' & Hrun & Hst').
      exists h'. split; [|done]. by run_step.
Qed.

Lemma runs_next_fit_scan h s i p n :
  alloc_store h (fst s) -> procs !! i = Some p ->
  forall j s',
    Memory.next_fit_scan n j i p s = Ok s' ->
    exists h',
      runs (next_fit_scan lblocks lprocs lallocation lfragmentation n j numBlocks i
                          (snd s)) h (snd s') h'
      /\ alloc_store h' (fst s').
Proof.
  intros Hst Hp. pose proof Hst as [_ _ _ _ (Hs1 & _) _].
  induction n as [|n IH]; intros j s'; simpl.
  - intros [= <-]. by exists h.
  - intros (b & Hb%read_Ok & Hrest)%bind_Ok.
    pose proof (runs_large_enough _ _ _ _ _ _ Hst Hp Hb) as Hfits.
    rewrite Hs1 in Hrest.
    destruct (Memory.size b >=? Memory.size p).
    + apply bind_Ok in Hrest as (st' & Hplace & [= <-]).
      destruct (runs_place _ _ _ _ _ _ Hst Hp Hplace) as (h' & Hrun & Hst').
      exists h'. split; [|done]. run_step. by run_step.
    + destruct (IH _ _ Hrest) as (h' & Hrun & Hst').
      exists h'. split; [|done]. by run_step.
Qed.

Lemma runs_best_fit_step h st i p j best best' :
  alloc_store h st -> procs !! i = Some p ->
  Memory.best_fit_step (Memory.st_blocks st) p j best = Ok best' ->
  runs (best_fit_step lblocks lprocs i j best) h best' h.
Proof.
  intros Hst Hp (b & Hb%read_Ok & Hbest)%bind_Ok.
  pose proof Hst as [Hbs Hps _ _ (Hs1 & _) _].
  destruct (records_at_record _ _ _ _ _ Hbs Hb) as [Hrb Hrecb].
  destruct (records_at_record _ _ _ _ _ Hps Hp) as [Hrp Hrecp].
  rewrite <- Hs1.
  eapply runs_bind; [eapply runs_index_ref; [apply Hbs | exact Hrb]|].
  eapply runs_bind; [by apply runs_size_of|].
  eapply runs_bind; [eapply runs_index_ref; [apply Hps | exact Hrp]|].
  eapply runs_bind; [by apply runs_size_of|].
  destruct ((Memory.size b >=? Memory.size p) && Memory.below (Memory.size b) best.2);
    by injection Hbest as <-.
Qed.

Lemma runs_worst_fit_step h st i p j worst worst' :
  alloc_store h st -> procs !! i = Some p ->
  Memory.worst_fit_step (Memory.st_blocks st) p j worst = Ok worst' ->
  runs (worst_fit_step lblocks lprocs i j worst) h worst' h.
Proof.
  intros Hst Hp (b & Hb%read_Ok & Hworst)%bind_Ok.
  pose proof Hst as [Hbs Hps _ _ (Hs1 & _) _].
  destruct (records_at_record _ _ _ _ _ Hbs Hb) as [Hrb Hrecb].
  destruct (records_at_record _ _ _ _ _ Hps Hp) as [Hrp Hrecp].
  rewrite <- Hs1.
  eapply runs_bind; [eapply runs_index_ref; [apply Hbs | exact Hrb]|].
  eapply runs_bind; [by apply runs_size_of|].
  eapply runs_bind; [eapply runs_index_ref; [apply Hps | exact Hrp]|].
  eapply runs_bind; [by apply runs_size_of|].
  destruct ((Memory.size b >=? Memory.size p) && (Memory.size b >? worst.2));
    by injection Hworst as <-.
Qed.

Lemma runs_place_if_found h st i p found st' :
  alloc_store h st -> procs !! i = Some p ->
  Memory.place_if_found found i p st = Ok st' ->
  exists h',
    runs (place_if_found lblocks lprocs lallocation lfragmentation found i) h tt h'
    /\ alloc_store h' st'.
Proof.
  intros Hst Hp. destruct found as [j|]; simpl.
  - by apply runs_place.
  - intros [= <-]. by exists h.
Qed.

(** A loop that only reads the store. *)
Lemma runs_for_each_read {St} (body : nat -> St -> outcome St)
    (body' : nat -> St -> prog St) h n :
  (forall j s s', body j s = Ok s' -> runs (body' j s) h s' h) ->
  forall lo s s', for_loop n lo body s = Ok s' -> runs (for_each n lo body' s) h s' h.
Proof.
  intros Hbody. induction n as [|n IH]; intros lo s s'; simpl.
  - by intros [= <-].
  - intros (s1 & Hs1 & Hs')%bind_Ok.
    eapply runs_bind; [by apply Hbody|]. by apply IH.
Qed.

Lemma runs_report h st name :
  alloc_store h st ->
  runs (report lblocks lprocs lallocation lfragmentation name) h
       (Memory.report name procs st) h.
Proof.
  intros [Hb Hp Hc Hf (Hs1 & Hs2 & Hs3) Ho]. rewrite <- Hs1.
  eapply runs_bind; [by eapply runs_records|].
  eapply runs_bind; [by eapply runs_records|].
  eapply runs_bind; [by apply runs_elems|].
  eapply runs_bind.
  { apply (runs_map_each _ _ _ (Memory.st_allocation st)); [by rewrite length_fmap|].
    intros k v c. rewrite list_lookup_fmap. intros Hv Hc'. rewrite Hc' in Hv.
    injection Hv as <-. destruct c as [j|]; simpl; [|done].
    by rewrite Nat2Z.id. }
  eapply runs_bind; [by apply runs_numbers|].
  by destruct st.
Qed.
End Strategy.
End StoreBlocks.

Section StoreStrategies.
Import Store Holds Loops Copies Blocks.

Lemma fmap_const_replicate {A B C} (f : B -> C) (c : B) (l : list A) :
  f <$> ((fun _ => c) <$> l) = replicate (length l) (f c).
Proof. induction l as [|x l IH]; [done | by rewrite !fmap_cons, IH]. Qed.

Lemma runs_length_records h base xs :
  records_at h base xs -> runs (length_of (base + length xs)) h (length xs) h.
Proof.
  intros [Hl _]. pose proof (runs_length_of _ _ _ Hl) as Hrun.
  by rewrite length_fmap, length_seq in Hrun.
Qed.

Section Prepared.
Variables (h : heap) (lb lp : loc) (brefs prefs : list loc).
Variables (memoryBlocks processes : list Memory.sized).
Hypothesis Hblocks : holds_refs h lb brefs memoryBlocks.
Hypothesis Hprocs : holds_refs h lp prefs processes.

Local Abbreviation bblocks := (length h).
Local Abbreviation bprocs := (length h + S (length memoryBlocks))%nat.
Local Abbreviation lallocation :=
  (length h + S (length memoryBlocks) + S (length processes))%nat.
Local Abbreviation lfragmentation :=
  (S (length h + S (length memoryBlocks) + S (length processes))).
Local Abbreviation alloc_store :=
  (alloc_store processes (length memoryBlocks) bblocks bprocs lallocation lfragmentation).

Lemma runs_prepare :
  exists h',
    runs (prepare lb lp) h
         ((bblocks + length memoryBlocks)%nat, (bprocs + length processes)%nat,
          lallocation, lfragmentation) h'
    /\ alloc_store h' (Memory.initial memoryBlocks processes).
Proof.
  set (h1 := h ++ record_cells (length h) memoryBlocks).
  set (h2 := h1 ++ record_cells (length h1) processes).
  set (h3 := h2 ++ [Arr (replicate (length processes) Null)]).
  set (h4 := h3 ++ [Arr (replicate (length memoryBlocks) (Num 0))]).
  assert (length h1 = bprocs) as L1
    by (unfold h1; by rewrite length_app, length_record_cells).
  assert (length h2 = lallocation) as L2
    by (unfold h2; by rewrite length_app, length_record_cells, L1).
  assert (length h3 = lfragmentation) as L3
    by (unfold h3; rewrite length_app, L2; simpl; lia).
  assert (h1 `prefix_of` h2) as P12 by apply prefix_app_r, reflexivity.
  assert (h2 `prefix_of` h3) as P23 by apply prefix_app_r, reflexivity.
  assert (h3 `prefix_of` h4) as P34 by apply prefix_app_r, reflexivity.
  assert (records_at h2 bblocks memoryBlocks) as Hb2.
  { eapply holds_refs_prefix; [exact P12|]. apply records_at_end. }
  assert (records_at h2 bprocs processes) as Hp2.
  { rewrite <- L1. apply records_at_end. }
  exists h4. split.
  - unfold prepare.
    eapply runs_bind; [by eapply runs_json_copy_records|]. fold h1.
    eapply runs_bind.
    { eapply runs_json_copy_records. eapply holds_refs_prefix; [|exact Hprocs].
      by apply prefix_app_r. }
    fold h2. rewrite L1.
    eapply runs_bind; [by apply runs_length_records|].
    eapply runs_bind; [by apply runs_length_records|].
    eapply runs_bind; [apply runs_alloc|]. fold h3.
    eapply runs_bind; [apply runs_alloc|]. fold h4.
    by rewrite L2, L3.
  - split; simpl.
    + eapply holds_refs_prefix; [|exact Hb2]. by etrans.
    + eapply holds_refs_prefix; [|exact Hp2]. by etrans.
    + apply (lookup_app_l_Some h3). unfold h3. rewrite <- L2.
      rewrite list_lookup_middle by done. by rewrite fmap_const_replicate.
    + unfold holds_numbers, h4. rewrite <- L3.
      rewrite list_lookup_middle by done. by rewrite fmap_const_replicate.
    + by rewrite !length_fmap.
    + lia.
Qed.

(** What the four strategies begin and end with, around their loop over
    the processes. *)
Lemma runs_strategy {St} (body : loc -> loc -> loc -> loc -> nat -> nat -> St -> prog St)
    (s0 : St) (name : string) (st : Memory.AllocState) :
  (forall h1, alloc_store h1 (Memory.initial memoryBlocks processes) ->
     exists s' h2,
       runs (for_each (length processes) 0
               (body (bblocks + length memoryBlocks)%nat (bprocs + length processes)%nat
                     lallocation lfragmentation (length memoryBlocks)) s0) h1 s' h2
       /\ alloc_store h2 st) ->
  exists h',
    runs ('(blocks, procs, allocation, internalFragmentation) ← prepare lb lp;
          numProcs ← length_of procs;
          numBlocks ← length_of blocks;
          _ ← for_each numProcs 0
                (body blocks procs allocation internalFragmentation numBlocks) s0;
          report blocks procs allocation internalFragmentation name) h
         (Memory.report name processes st) h'.
Proof.
  intros Hloop. destruct runs_prepare as (h1 & Hrun1 & Hst1).
  destruct (Hloop h1 Hst1) as (s' & h2 & Hrun2 & Hst2).
  exists h2. run_step. simpl.
  eapply runs_bind.
  { apply runs_length_records. apply (store_procs _ _ _ _ _ _ _ _ Hst1). }
  eapply runs_bind.
  { apply runs_length_records. apply (store_blocks _ _ _ _ _ _ _ _ Hst1). }
  run_step. by apply runs_report.
Qed.

Local Abbreviation lblocks := (bblocks + length memoryBlocks)%nat.
Local Abbreviation lprocs := (bprocs + length processes)%nat.

Lemma runs_firstFit r :
  Memory.firstFit memoryBlocks processes = Ok r ->
  exists h', runs (firstFit lb lp) h r h'.
Proof.
  intros (st & Hloop & [= <-])%bind_Ok.
  apply (runs_strategy
           (fun blocks procs allocation internalFragmentation numBlocks i _ =>
              first_fit_scan blocks procs allocation internalFragmentation numBlocks 0 i)
           tt "First Fit").
  intros h1 Hst1.
  destruct (runs_for_each (fun s (_ : unit) k => alloc_store k s)
              (Memory.first_fit_process processes)
              (fun i _ => first_fit_scan lblocks lprocs lallocation lfragmentation
                            (length memoryBlocks) 0 i)
              (length processes) 0 (Memory.initial memoryBlocks processes) tt h1 st)
    as ([] & h2 & Hrun & Hst2); [|done|done|by exists tt, h2].
  intros i s [] k s1 _ Hk (p & Hp%read_Ok & Hscan)%bind_Ok.
  rewrite (proj1 (store_sizes _ _ _ _ _ _ _ _ Hk)) in Hscan.
  destruct (runs_first_fit_scan _ _ _ _ _ _ _ _ _ _ _ Hk Hp _ _ Hscan) as (k' & Hrun & Hk').
  by exists tt, k'.
Qed.

Lemma runs_nextFit r :
  Memory.nextFit memoryBlocks processes = Ok r ->
  exists h', runs (nextFit lb lp) h r h'.
Proof.
  intros (s & Hloop & [= <-])%bind_Ok.
  apply (runs_strategy
           (fun blocks procs allocation internalFragmentation numBlocks i
                lastAllocatedIndex =>
              next_fit_scan blocks procs allocation internalFragmentation
                            numBlocks lastAllocatedIndex numBlocks i lastAllocatedIndex)
           0%nat "Next Fit").
  intros h1 Hst1.
  destruct (runs_for_each (fun s (last : nat) k => last = snd s /\ alloc_store k (fst s))
              (Memory.next_fit_process processes)
              (fun i last => next_fit_scan lblocks lprocs lallocation lfragmentation
                               (length memoryBlocks) last (length memoryBlocks) i last)
              (length processes) 0 (Memory.initial memoryBlocks processes, 0%nat)
              0%nat h1 s)
    as (last & h2 & Hrun & _ & Hst2); [|done|done|by exists last, h2].
  intros i t last k t1 _ [-> Hk] (p & Hp%read_Ok & Hscan)%bind_Ok.
  rewrite (proj1 (store_sizes _ _ _ _ _ _ _ _ Hk)) in Hscan.
  destruct (runs_next_fit_scan _ _ _ _ _ _ _ _ _ _ _ Hk Hp _ _ Hscan) as (k' & Hrun & Hk').
  by exists (snd t1), k'.
Qed.

Lemma runs_bestFit r :
  Memory.bestFit memoryBlocks processes = Ok r ->
  exists h', runs (bestFit lb lp) h r h'.
Proof.
  intros (st & Hloop & [= <-])%bind_Ok.
  apply (runs_strategy
           (fun blocks procs allocation internalFragmentation numBlocks i _ =>
              best ← for_each numBlocks 0 (best_fit_step blocks procs i)
                       (None, Memory.Infinity);
              place_if_found blocks procs allocation internalFragmentation (fst best) i)
           tt "Best Fit").
  intros h1 Hst1.
  destruct (runs_for_each (fun s (_ : unit) k => alloc_store k s)
              (Memory.best_fit_process processes)
              (fun i _ =>
                 best ← for_each (length memoryBlocks) 0 (best_fit_step lblocks lprocs i)
                          (None, Memory.Infinity);
                 place_if_found lblocks lprocs lallocation lfragmentation (fst best) i)
              (length processes) 0 (Memory.initial memoryBlocks processes) tt h1 st)
    as ([] & h2 & Hrun & Hst2); [|done|done|by exists tt, h2].
  intros i s [] k s1 _ Hk (p & Hp%read_Ok & (best & Hbest & Hplace)%bind_Ok)%bind_Ok.
  rewrite (proj1 (store_sizes _ _ _ _ _ _ _ _ Hk)) in Hbest.
  destruct (runs_place_if_found _ _ _ _ _ _ _ _ _ _ _ _ Hk Hp Hplace) as (k' & Hrun & Hk').
  exists tt, k'. split; [|done].
  eapply runs_bind; [|exact Hrun].
  eapply runs_for_each_read; [|exact Hbest].
  intros j b b'. by eapply runs_best_fit_step.
Qed.

Lemma runs_worstFit r :
  Memory.worstFit memoryBlocks processes = Ok r ->
  exists h', runs (worstFit lb lp) h r h'.
Proof.
  intros (st & Hloop & [= <-])%bind_Ok.
  apply (runs_strategy
           (fun blocks procs allocation internalFragmentation numBlocks i _ =>
              worst ← for_each numBlocks 0 (worst_fit_step blocks procs i) (None, -1);
              place_if_found blocks procs allocation internalFragmentation (fst worst) i)
           tt "Worst Fit").
  intros h1 Hst1.
  destruct (runs_for_each (fun s (_ : unit) k => alloc_store k s)
              (Memory.worst_fit_process processes)
              (fun i _ =>
                 worst ← for_each (length memoryBlocks) 0 (worst_fit_step lblocks lprocs i)
                           (None, -1);
                 place_if_found lblocks lprocs lallocation lfragmentation (fst worst) i)
              (length processes) 0 (Memory.initial memoryBlocks processes) tt h1 st)
    as ([] & h2 & Hrun & Hst2); [|done|done|by exists tt, h2].
  intros i s [] k s1 _ Hk (p & Hp%read_Ok & (worst & Hworst & Hplace)%bind_Ok)%bind_Ok.
  rewrite (proj1 (store_sizes _ _ _ _ _ _ _ _ Hk)) in Hworst.
  destruct (runs_place_if_found _ _ _ _ _ _ _ _ _ _ _ _ Hk Hp Hplace) as (k' & Hrun & Hk').
  exists tt, k'. split; [|done].
  eapply runs_bind; [|exact Hrun].
  eapply runs_for_each_read; [|exact Hworst].
  intros j w w'. by eapply runs_worst_fit_step.
Qed.
End Prepared.
End StoreStrategies.

Section StoreCalls.
Import Store Holds Copies Frame Calls.

Lemma on_store_unchanged c h r h' : on_store c h = Ok (r, h') -> unchanged h h'.
Proof.
  destruct c; simpl; unfold mbind, prog_bind;
    match goal with |- context [match ?m h with _ => _ end] =>
      destruct (m h) as [[r0 h1]|] eqn:Hrun; [|done] end;
    intros [= <- <-]; (eapply keeps_unchanged; [|exact Hrun]).
  - apply keeps_isSafeState.
  - apply keeps_resourceRequest.
  - apply keeps_runBankersAlgorithm.
  - apply keeps_firstFit.
  - apply keeps_nextFit.
  - apply keeps_bestFit.
  - apply keeps_worstFit.
Qed.

Lemma runs_result {A} (m : prog A) (f : A -> result) h a h' :
  runs m h a h' -> (r ← m; mret (f r)) h = Ok (f a, h').
Proof. intros Hrun. by eapply runs_bind. Qed.

(** On a store that holds the arguments of a call, the call returns what it
    returns on values. *)
Lemma on_store_returns c h v r :
  holds_call h c v -> on_values v = Ok r -> exists h', on_store c h = Ok (r, h').
Proof.
  destruct v as [av mx al | av mx al p q | data | s bs ps]; simpl.
  - intros (la & lm & lal & -> & Hav & [mrows Hmx] & [arows Hal]).
    intros (r0 & Hr0 & [= <-])%bind_Ok.
    destruct (runs_isSafeState _ _ _ _ _ _ _ _ _ _ Hav Hmx Hal Hr0) as (h' & Hrun).
    exists h'. by apply runs_result.
  - intros (la & lm & lal & lr & -> & Hav & [mrows Hmx] & [arows Hal] & Hreq).
    intros (r0 & Hr0 & [= <-])%bind_Ok.
    destruct (runs_resourceRequest _ _ _ _ _ _ _ _ _ _ _ _ _ Hav Hmx Hal Hreq Hr0)
      as (h' & Hrun).
    exists h'. by apply runs_result.
  - intros (la & lm & lal & lrs & -> & Hav & [mrows Hmx] & [arows Hal] & Hreqs).
    intros (r0 & Hr0 & [= <-])%bind_Ok.
    destruct (runs_runBankersAlgorithm _ _ _ _ _ _ _ _ _ Hav Hmx Hal Hreqs Hr0)
      as (h' & Hrun).
    exists h'. by apply runs_result.
  - intros (lb & lp & Hc & [brefs Hbs] & [prefs Hps]).
    intros (r0 & Hr0 & [= <-])%bind_Ok.
    destruct c; try done; injection Hc as <- <- <-; simpl in Hr0.
    + destruct (runs_firstFit _ _ _ _ _ _ _ Hbs Hps _ Hr0) as (h' & Hrun).
      exists h'. by apply runs_result.
    + destruct (runs_nextFit _ _ _ _ _ _ _ Hbs Hps _ Hr0) as (h' & Hrun).
      exists h'. by apply runs_result.
    + destruct (runs_bestFit _ _ _ _ _ _ _ Hbs Hps _ Hr0) as (h' & Hrun).
      exists h'. by apply runs_result.
    + destruct (runs_worstFit _ _ _ _ _ _ _ Hbs Hps _ Hr0) as (h' & Hrun).
      exists h'. by apply runs_result.
Qed.
End StoreCalls.

(** C6.  A call of the engine (isSafeState, resourceRequest,
    runBankersAlgorithm, firstFit, nextFit, bestFit, worstFit) leaves every
    object of the store as it was: the call writes to the copies it has
    allocated only.  Whatever the store and the references the call is
    handed, every object of the store before the call is in the store the
    call leaves, unchanged; this covers every way resourceRequest returns,
    the denials included.  And on a store that holds the arguments of the
    call, rows shared or not, the call does return: it returns what the
    operation returns on values. *)
Theorem engine_leaves_store_unchanged (c : Frame.call) (h : Store.heap) :
  (forall h', Frame.store_after c h = Ok h' -> Frame.unchanged h h')
  /\ (forall v r, Calls.holds_call h c v -> Calls.on_values v = Ok r ->
        exists h', Frame.on_store c h = Ok (r, h') /\ Frame.unchanged h h').
Proof.
  split.
  - intros h' ([r h1] & Hrun & [= <-])%bind_Ok. by eapply on_store_unchanged.
  - intros v r Hv Hr. destruct (on_store_returns _ _ _ _ Hv Hr) as (h' & Hrun).
    exists h'. split; [done|]. by eapply on_store_unchanged.
Qed.

Section FrameRuns.
Import Store Holds Copies Frame Calls FrameExamples.

Lemma engine_leaves_store_unchanged_witness :
  unchanged caller_store store_after_unsafe_request
  /\ exists h', on_store unsafe_request caller_store
                = Ok (Answer (RequestSpec.would_be_unsafe [0; 1]%nat), h')
                /\ unchanged caller_store h'.
Proof.
  destruct (engine_leaves_store_unchanged unsafe_request caller_store) as [Hframe Hruns].
  split.
  - apply Hframe. vm_compute. reflexivity.
  - apply (Hruns (OnResourceRequest [1] [[2]; [2]] [[1]; [0]] 1 [1])).
    + exists 0%nat, 3%nat, 6%nat, 7%nat. split; [reflexivity|].
      split; [reflexivity|]. split; [|split; [|reflexivity]].
      * exists [1; 2]%nat. split; [reflexivity|]. by repeat constructor.
      * exists [4; 5]%nat. split; [reflexivity|]. by repeat constructor.
    + vm_compute. reflexivity.
Defined.

(** The denial comes after the request has been applied to the copies: the
    copy of available holds 0 and the copy of the allocation row of process 1
    holds 1, while the caller's arrays hold 1 and 0 as before. *)
Example unsafe_request_denied :
  result_of (resourceRequest 0 3 6 1 7) caller_store
  = Ok (RequestSpec.would_be_unsafe [0; 1]%nat)
  /\ Bankers.resourceRequest [1] [[2]; [2]] [[1]; [0]] 1 [1]
     = Ok (RequestSpec.would_be_unsafe [0; 1]%nat)
  /\ take (length caller_store) store_after_unsafe_request = caller_store
  /\ store_after_unsafe_request !! 8%nat = Some (Arr [Num 0])
  /\ store_after_unsafe_request !! 13%nat = Some (Arr [Num 1]).
Proof. vm_compute. repeat split. Qed.

(** On the same inputs the operations on the store return what the
    operations on values return. *)
Example store_isSafeState_agrees :
  result_of (isSafeState 0 3 6) caller_store
  = Bankers.isSafeState [1] [[2]; [2]] [[1]; [0]].
Proof. reflexivity. Qed.

Example store_resourceRequest_agrees :
  result_of (resourceRequest 0 3 6 0 7) caller_store
  = Bankers.resourceRequest [1] [[2]; [2]] [[1]; [0]] 0 [1]
  /\ result_of (l ← put_vector [3]; resourceRequest 0 3 6 0 l) caller_store
     = Bankers.resourceRequest [1] [[2]; [2]] [[1]; [0]] 0 [3]
  /\ result_of (l ← put_vector [2]; resourceRequest 0 3 6 1 l) caller_store
     = Bankers.resourceRequest [1] [[2]; [2]] [[1]; [0]] 1 [2].
Proof. repeat split. Qed.

Example store_runBankersAlgorithm_agrees :
  result_of (l ← put_requests [ {| Bankers.processId := 1; Bankers.request := [1] |};
                                {| Bankers.processId := 0; Bankers.request := [1] |};
                                {| Bankers.processId := 0; Bankers.request := [5] |} ];
             runBankersAlgorithm 0 3 6 (Some l)) caller_store
  = Bankers.runBankersAlgorithm
      {| Bankers.available := [1];
         Bankers.max := [[2]; [2]];
         Bankers.allocation := [[1]; [0]];
         Bankers.requests :=
           Some [ {| Bankers.processId := 1; Bankers.request := [1] |};
                  {| Bankers.processId := 0; Bankers.request := [1] |};
                  {| Bankers.processId := 0; Bankers.request := [5] |} ] |}.
Proof. reflexivity. Qed.

Example store_strategies_agree :
  let blocks := [ {| Memory.id := 1; Memory.size := 100 |};
                  {| Memory.id := 2; Memory.size := 50 |};
                  {| Memory.id := 3; Memory.size := 200 |} ] in
  let procs := [ {| Memory.id := 1; Memory.size := 90 |};
                 {| Memory.id := 2; Memory.size := 50 |} ] in
  result_of (firstFit 3 6) memory_store = Memory.firstFit blocks procs
  /\ result_of (nextFit 3 6) memory_store = Memory.nextFit blocks procs
  /\ result_of (bestFit 3 6) memory_store = Memory.bestFit blocks procs
  /\ result_of (worstFit 3 6) memory_store = Memory.worstFit blocks procs.
Proof. repeat split. Qed.
End FrameRuns.

(** * Further properties *)

(** ** The verdict of isSafeState and safe sequences *)

Section SafeSequenceFacts.
Import Bankers BankersSpec SafeSequences.

Lemma add_row_swap (w a b : vector) :
  zip_with Z.add (zip_with Z.add w a) b = zip_with Z.add (zip_with Z.add w b) a.
Proof.
  revert a b. induction w as [|x w IH]; intros [|y a] [|z b]; simpl; try done.
  f_equal; [lia | apply IH].
Qed.

Lemma release_all_add w a es :
  release_all (zip_with Z.add w a) es = zip_with Z.add (release_all w es) a.
Proof.
  revert w. induction es as [|e es IH]; intros w; simpl; [done|].
  rewrite <- IH. f_equal. apply add_row_swap.
Qed.

Lemma release_all_app w es1 es2 :
  release_all w (es1 ++ es2) = release_all (release_all w es1) es2.
Proof. unfold release_all. by rewrite foldl_app. Qed.

Lemma release_all_permutation es1 es2 :
  es1 ≡ₚ es2 -> forall w, release_all w es1 = release_all w es2.
Proof.
  induction 1 as [|e es1 es2 _ IH|e1 e2 es|es1 es2 es3 _ IH1 _ IH2]; intros w; simpl.
  - done.
  - apply IH.
  - f_equal. apply add_row_swap.
  - by rewrite IH1.
Qed.

Lemma length_release_all m w es :
  length w = m -> Forall (gives_back m) es -> length (release_all w es) = m.
Proof.
  revert w. induction es as [|e es IH]; intros w Hw Hes; simpl; [done|].
  apply Forall_cons in Hes as [[He _] Hes]. apply IH; [|done].
  rewrite length_zip_with. lia.
Qed.

Lemma finishes_app w es1 es2 :
  finishes w (es1 ++ es2) <-> finishes w es1 /\ finishes (release_all w es1) es2.
Proof.
  revert w. induction es1 as [|e es1 IH]; intros w; simpl; [tauto|].
  rewrite IH. tauto.
Qed.

(** What one pass does: the processes it finishes, in the order it finishes
    them, could finish in that order, and the others are left as they were. *)
Lemma scan_pass_finishes avail unfinished :
  forall avail' still fin,
    scan_pass avail unfinished = (avail', still, fin) ->
    exists finished,
      fin = pid <$> finished
      /\ finishes avail finished
      /\ avail' = release_all avail finished
      /\ finished ++ still ≡ₚ unfinished.
Proof.
  revert avail. induction unfinished as [|e unfinished IH]; intros avail avail' still fin; simpl.
  - intros [= <- <- <-]. by exists [].
  - destruct (decide (eligible (need_row e) avail)) as [He|He].
    + destruct (scan_pass (zip_with Z.add avail (alloc_row e)) unfinished)
        as [[avail1 still1] fin1] eqn:Hscan.
      intros [= <- <- <-].
      destruct (IH _ _ _ _ Hscan) as (finished & -> & Hfin & -> & Hperm).
      exists (e :: finished). simpl. repeat split; try done. by constructor.
    + destruct (scan_pass avail unfinished) as [[avail1 still1] fin1] eqn:Hscan.
      intros [= <- <- <-].
      destruct (IH _ _ _ _ Hscan) as (finished & -> & Hfin & -> & Hperm).
      exists finished. repeat split; try done.
      rewrite <- Hperm. by rewrite Permutation_middle.
Qed.

(** A pass that finishes no process has met no eligible process. *)
Lemma scan_pass_none avail unfinished :
  snd (scan_pass avail unfinished) = [] ->
  Forall (fun e => ~ eligible (need_row e) avail) unfinished.
Proof.
  induction unfinished as [|e unfinished IH]; simpl; [constructor|].
  destruct (decide (eligible (need_row e) avail)) as [He|He].
  - by destruct (scan_pass (zip_with Z.add avail (alloc_row e)) unfinished) as [[? ?] ?].
  - destruct (scan_pass avail unfinished) as [[avail1 still1] fin1] eqn:Hscan.
    simpl in *. intros Hfin. constructor; [done | by apply IH].
Qed.

Lemma passes_safe avail unfinished seq r :
  passes avail unfinished seq r -> safe r = true ->
  exists finished,
    safeSequence r = seq ++ (pid <$> finished)
    /\ finishes avail finished
    /\ finished ≡ₚ unfinished.
Proof.
  induction 1 as [avail seq | avail unf seq Hne Hnone
                 | avail unf seq avail' still fin r Hne Hscan Hfin _ IH]; intros Hsafe.
  - exists []. simpl. by rewrite app_nil_r.
  - done.
  - destruct (IH Hsafe) as (later & Hseq & Hlater & Hperm).
    destruct (scan_pass_finishes _ _ _ _ _ Hscan) as (first & -> & Hfirst & -> & Hperm').
    exists (first ++ later). split; [|split].
    + by rewrite Hseq, fmap_app, app_assoc.
    + by apply finishes_app.
    + by rewrite Hperm.
Qed.

(** The table of processes, row by row. *)
Lemma table_entries available max allocation :
  consistent available max allocation ->
  table max allocation = entry_of max allocation <$> seq 0 (length max).
Proof.
  intros Hc. apply list_eq. intros i. rewrite list_lookup_fmap.
  destruct (table max allocation !! i) as [e|] eqn:He.
  - pose proof (lookup_lt_Some _ _ _ He) as Hi. rewrite (table_length _ _ _ Hc) in Hi.
    rewrite (lookup_seq_lt _ _ _ Hi). simpl.
    destruct (table_lookup _ _ _ _ He) as (Hp & Hn & Ha).
    unfold entry_of. rewrite Hn, Ha. simpl. destruct e. simpl in *. by subst.
  - apply lookup_ge_None in He. rewrite (table_length _ _ _ Hc) in He.
    by rewrite lookup_seq_ge.
Qed.

Lemma entry_of_rows available max allocation i :
  consistent available max allocation -> (i < length max)%nat ->
  need_of max allocation !! i = Some (need_row (entry_of max allocation i))
  /\ allocation !! i = Some (alloc_row (entry_of max allocation i)).
Proof.
  intros Hc Hi.
  destruct (need_of_row _ _ _ _ Hc Hi) as (mrow & arow & _ & Ha & _ & _ & Hn).
  unfold entry_of. simpl. by rewrite Hn, Ha.
Qed.

Lemma completes_finishes available max allocation ids :
  consistent available max allocation ->
  Forall (fun i => i < length max)%nat ids ->
  forall work,
    completes (need_of max allocation) allocation work ids
    <-> finishes work (entry_of max allocation <$> ids).
Proof.
  intros Hc. induction ids as [|i ids IH]; intros Hids work; simpl; [done|].
  apply Forall_cons in Hids as [Hi Hids].
  destruct (entry_of_rows _ _ _ i Hc Hi) as [-> ->]. by rewrite IH.
Qed.

Lemma ids_in_range (ids : list nat) n :
  ids ≡ₚ seq 0 n -> Forall (fun i => i < n)%nat ids.
Proof.
  intros Hperm. apply Forall_forall. intros i Hi. rewrite Hperm in Hi.
  apply elem_of_seq in Hi. lia.
Qed.

(** The sequence of the safety algorithm is a safe sequence. *)
Lemma safe_sequence_from_passes available max allocation r :
  consistent available max allocation ->
  safety_algorithm available max allocation r ->
  safe r = true ->
  safe_sequence available max allocation (safeSequence r).
Proof.
  intros Hc Hpasses Hsafe.
  destruct (passes_safe _ _ _ _ Hpasses Hsafe) as (finished & Hseq & Hfin & Hperm).
  simpl in Hseq. rewrite (table_entries _ _ _ Hc) in Hperm.
  assert (Forall (fun e => e = entry_of max allocation (pid e)) finished) as Hentries.
  { apply Forall_forall. intros e He. rewrite Hperm in He.
    by apply list_elem_of_fmap in He as (i & -> & _). }
  assert (entry_of max allocation <$> (pid <$> finished) = finished) as Hback.
  { rewrite <- list_fmap_compose. rewrite <- (list_fmap_id finished) at 2.
    apply Forall_fmap_ext_1. eapply Forall_impl; [exact Hentries|].
    intros e He. simpl. by rewrite <- He. }
  assert (safeSequence r ≡ₚ seq 0 (length max)) as Hids.
  { rewrite Hseq, Hperm, <- list_fmap_compose. simpl.
    rewrite (list_fmap_ext (pid ∘ entry_of max allocation) (fun i => i)) by done.
    by rewrite list_fmap_id. }
  split; [done|].
  apply (completes_finishes available); [done | by apply ids_in_range|].
  by rewrite Hseq, Hback.
Qed.

(** X1.  When isSafeState says safe, the sequence it returns is a safe
    sequence of the state: it lists every process once, and in that order
    each process finds its need within what is available once the processes
    before it have given back what they hold. *)
Theorem safe_verdict_safe_sequence available max allocation r :
  consistent available max allocation ->
  isSafeState available max allocation = Ok r ->
  safe r = true ->
  safe_sequence available max allocation (safeSequence r).
Proof.
  intros Hc Hr Hsafe.
  destruct (isSafeState_passes _ _ _ Hc) as (r' & Hr' & Hpasses).
  rewrite Hr in Hr'. injection Hr' as <-.
  by apply safe_sequence_from_passes.
Qed.

(** The state of five processes and three resource types of the textbooks:
    the sequence isSafeState returns, 1 3 4 0 2, is a safe sequence. *)
Lemma safe_verdict_safe_sequence_witness :
  safe_sequence [3; 3; 2]
    [[7; 5; 3]; [3; 2; 2]; [9; 0; 2]; [2; 2; 2]; [4; 3; 3]]
    [[0; 1; 0]; [2; 0; 0]; [3; 0; 2]; [2; 1; 1]; [0; 0; 2]]
    [1; 3; 4; 0; 2]%nat.
Proof.
  apply (safe_verdict_safe_sequence [3; 3; 2]
           [[7; 5; 3]; [3; 2; 2]; [9; 0; 2]; [2; 2; 2]; [4; 3; 3]]
           [[0; 1; 0]; [2; 0; 0]; [3; 0; 2]; [2; 1; 1]; [0; 0; 2]]
           {| safe := true; safeSequence := [1; 3; 4; 0; 2]%nat;
              unfinishedProcesses := [] |}).
  - split; [reflexivity|]. split; repeat constructor.
  - vm_compute. reflexivity.
  - reflexivity.
Defined.

(** *** The unsafe verdict *)

Lemma eligible_mono nrow w w' :
  eligible nrow w -> Forall2 Z.le w w' -> eligible nrow w'.
Proof.
  unfold eligible. intros Hn Hw. eapply Forall2_trans; [|exact Hn|exact Hw].
  intros x y z. lia.
Qed.

Lemma add_row_mono w w' a :
  Forall2 Z.le w w' -> Forall2 Z.le (zip_with Z.add w a) (zip_with Z.add w' a).
Proof.
  intros Hw. revert a. induction Hw as [|x y w w' Hxy _ IH]; intros [|z a]; simpl;
    try constructor; [lia | apply IH].
Qed.

Lemma add_row_ge w a :
  length a = length w -> non_negative a -> Forall2 Z.le w (zip_with Z.add w a).
Proof.
  revert a. induction w as [|x w IH]; intros a Hlen Ha.
  - destruct a; [constructor | done].
  - destruct a as [|z a]; [done|]. simpl in *.
    apply Forall_cons in Ha as [Hz Ha]. constructor; [lia|]. apply IH; [lia | done].
Qed.

Lemma at_most_refl (w : vector) : Forall2 Z.le w w.
Proof. induction w; constructor; [lia | done]. Qed.

Lemma release_all_ge m es :
  forall w, length w = m -> Forall (gives_back m) es -> Forall2 Z.le w (release_all w es).
Proof.
  induction es as [|e es IH]; intros w Hw Hes; simpl; [apply at_most_refl|].
  apply Forall_cons in Hes as [[He Hpos] Hes].
  eapply Forall2_trans; [|apply add_row_ge|apply IH].
  - intros x y z. lia.
  - lia.
  - done.
  - rewrite length_zip_with. lia.
  - done.
Qed.

(** With more at hand the same processes can still finish. *)
Lemma finishes_mono es :
  forall w w', Forall2 Z.le w w' -> finishes w es -> finishes w' es.
Proof.
  induction es as [|e es IH]; intros w w' Hw; simpl; [done|].
  intros [He Hes]. split; [by eapply eligible_mono|].
  eapply IH; [|exact Hes]. by apply add_row_mono.
Qed.

(** Processes that can finish in some order can still finish in that order
    once some of them have finished ahead and given back what they hold. *)
Lemma finishes_filter m (P : entry -> Prop) `{!forall e, Decision (P e)} es :
  forall w w',
    Forall (gives_back m) es -> length w' = m -> Forall2 Z.le w w' ->
    finishes w es ->
    finishes (release_all w' (filter (fun e => ~ P e) es)) (filter P es).
Proof.
  induction es as [|e es IH]; intros w w' Hes Hlen Hw; simpl; [done|].
  apply Forall_cons in Hes as [He Hes]. intros [Hel Hrest].
  assert (Forall2 Z.le (zip_with Z.add w (alloc_row e)) (zip_with Z.add w' (alloc_row e)))
    as Hw1 by (by apply add_row_mono).
  assert (length (zip_with Z.add w' (alloc_row e)) = m) as Hlen1.
  { destruct He as [He _]. rewrite length_zip_with. lia. }
  specialize (IH _ _ Hes Hlen1 Hw1 Hrest).
  destruct (decide (P e)) as [HP|HP].
  - rewrite (filter_cons_True P) by done.
    rewrite (filter_cons_False (fun e => ~ P e)) by tauto.
    simpl. split.
    + eapply eligible_mono; [exact Hel|].
      eapply Forall2_trans; [|exact Hw|apply (release_all_ge m)]; try done.
      * intros x y z. lia.
      * apply Forall_forall. intros x [_ Hx]%list_elem_of_filter.
        by apply (proj1 (Forall_forall _ _) Hes).
    + by rewrite <- release_all_add.
  - rewrite (filter_cons_False P) by done.
    rewrite (filter_cons_True (fun e => ~ P e)) by done.
    exact IH.
Qed.

Lemma filter_all {A} (P : A -> Prop) `{!forall x, Decision (P x)} (l : list A) :
  Forall P l -> filter P l = l.
Proof.
  induction 1 as [|x l Hx _ IH]; [done|]. by rewrite filter_cons_True, IH.
Qed.

Lemma filter_none {A} (P : A -> Prop) `{!forall x, Decision (P x)} (l : list A) :
  Forall (fun x => ~ P x) l -> filter P l = [].
Proof.
  induction 1 as [|x l Hx _ IH]; [done|]. by rewrite filter_cons_False.
Qed.

Lemma passes_unsafe m avail unfinished seq r :
  passes avail unfinished seq r -> safe r = false ->
  length avail = m -> Forall (gives_back m) unfinished -> NoDup (pid <$> unfinished) ->
  forall order, order ≡ₚ unfinished -> ~ finishes avail order.
Proof.
  induction 1 as [avail seq | avail unf seq Hne Hnone
                 | avail unf seq avail' still fin r Hne Hscan Hfin _ IH];
    intros Hsafe Hlen Hgood Hnodup order Hperm Horder.
  - done.
  - apply scan_pass_none in Hnone.
    destruct order as [|e order].
    { apply Permutation_nil_l in Hperm. by subst. }
    destruct Horder as [He _].
    assert (e ∈ unf) as Hin by (rewrite <- Hperm; left).
    by apply (proj1 (Forall_forall _ _) Hnone e Hin).
  - destruct (scan_pass_finishes _ _ _ _ _ Hscan) as (first & -> & Hfirst & -> & Hsplit).
    rewrite <- Hsplit in Hgood, Hnodup. apply Forall_app in Hgood as [Hgood1 Hgood2].
    rewrite fmap_app in Hnodup. apply NoDup_app in Hnodup as (Hnd1 & Hdisj & Hnd2).
    set (P := fun e : entry => pid e ∈ pid <$> still).
    assert (filter P first = []) as HP1.
    { apply filter_none, Forall_forall. intros e He HPe.
      apply (Hdisj (pid e)); [|done]. apply list_elem_of_fmap. by exists e. }
    assert (filter P still = still) as HP2.
    { apply filter_all, Forall_forall. intros e He.
      apply list_elem_of_fmap. by exists e. }
    assert (filter (fun e => ~ P e) first = first) as HN1.
    { apply filter_all, Forall_forall. intros e He HPe.
      apply (Hdisj (pid e)); [|done]. apply list_elem_of_fmap. by exists e. }
    assert (filter (fun e => ~ P e) still = []) as HN2.
    { apply filter_none, Forall_forall. intros e He HPe. apply HPe.
      apply list_elem_of_fmap. by exists e. }
    assert (filter P order ≡ₚ still) as Hkept.
    { rewrite Hperm, <- Hsplit, filter_app, HP1, HP2. done. }
    assert (filter (fun e => ~ P e) order ≡ₚ first) as Hahead.
    { rewrite Hperm, <- Hsplit, filter_app, HN1, HN2. by rewrite app_nil_r. }
    assert (Forall (gives_back m) order) as Hgood_order.
    { rewrite Hperm, <- Hsplit. by apply Forall_app. }
    pose proof (finishes_filter m P order avail avail Hgood_order Hlen
                  (at_most_refl avail) Horder) as Hlater.
    rewrite (release_all_permutation _ _ Hahead) in Hlater.
    apply (IH Hsafe (length_release_all _ _ _ Hlen Hgood1) Hgood2 Hnd2 _ Hkept Hlater).
Qed.

Lemma table_gives_back available max allocation :
  consistent available max allocation -> non_negative_rows allocation ->
  Forall (gives_back (length available)) (table max allocation).
Proof.
  intros Hc Hpos. apply Forall_forall. intros e (i & He)%list_elem_of_lookup.
  destruct (table_entry_rows _ _ _ _ _ Hc He) as [_ Hlen].
  destruct (table_lookup _ _ _ _ He) as (_ & _ & Ha).
  split; [done|].
  apply (proj1 (Forall_forall _ _) Hpos). by eapply list_elem_of_lookup_2.
Qed.

Lemma table_pids available max allocation :
  consistent available max allocation ->
  pid <$> table max allocation = seq 0 (length max).
Proof.
  intros Hc. rewrite (table_entries _ _ _ Hc), <- list_fmap_compose.
  rewrite (list_fmap_ext (pid ∘ entry_of max allocation) (fun i => i)) by done.
  by rewrite list_fmap_id.
Qed.

(** X2.  With no negative allocation, when isSafeState says unsafe the
    state has no safe sequence: in no order can all processes finish. *)
Theorem unsafe_verdict_no_safe_sequence available max allocation r :
  consistent available max allocation ->
  non_negative_rows allocation ->
  isSafeState available max allocation = Ok r ->
  safe r = false ->
  forall ids, ~ safe_sequence available max allocation ids.
Proof.
  intros Hc Hpos Hr Hunsafe ids [Hperm Hcompletes].
  destruct (isSafeState_passes _ _ _ Hc) as (r' & Hr' & Hpasses).
  rewrite Hr in Hr'. injection Hr' as <-.
  apply (completes_finishes available) in Hcompletes; [|done|by apply ids_in_range].
  apply (passes_unsafe (length available) _ _ _ _ Hpasses Hunsafe eq_refl
           (table_gives_back _ _ _ Hc Hpos)) with (order := entry_of max allocation <$> ids).
  - rewrite (table_pids _ _ _ Hc). apply NoDup_seq.
  - rewrite (table_entries _ _ _ Hc). by rewrite Hperm.
  - done.
Qed.

(** One process that needs one unit of each resource when none is
    available: the verdict is unsafe, and no order is a safe sequence. *)
Lemma unsafe_verdict_no_safe_sequence_witness :
  isSafeState [0; 0; 0] [[1; 1; 1]] [[0; 0; 0]]
  = Ok {| safe := false; safeSequence := []; unfinishedProcesses := [0%nat] |}
  /\ forall ids, ~ safe_sequence [0; 0; 0] [[1; 1; 1]] [[0; 0; 0]] ids.
Proof.
  split; [vm_compute; reflexivity|].
  apply (unsafe_verdict_no_safe_sequence [0; 0; 0] [[1; 1; 1]] [[0; 0; 0]]
           {| safe := false; safeSequence := []; unfinishedProcesses := [0%nat] |}).
  - split; [reflexivity|]. split; repeat constructor.
  - unfold non_negative_rows, non_negative. repeat (constructor; try lia).
  - vm_compute. reflexivity.
  - reflexivity.
Defined.

(** X3.  With no negative allocation, a state that isSafeState says is
    safe is still safe, by its verdict, when more of any resource is
    available. *)
Theorem more_available_stays_safe available available' max allocation r :
  consistent available max allocation ->
  non_negative_rows allocation ->
  Forall2 Z.le available available' ->
  isSafeState available max allocation = Ok r ->
  safe r = true ->
  exists r', isSafeState available' max allocation = Ok r' /\ safe r' = true.
Proof.
  intros Hc Hpos Hmore Hr Hsafe.
  assert (consistent available' max allocation) as Hc'.
  { destruct Hc as (? & ? & ?). unfold consistent.
    rewrite <- (Forall2_length _ _ _ Hmore). by split. }
  destruct (isSafeState_passes _ _ _ Hc) as (r0 & Hr0 & Hpasses).
  rewrite Hr in Hr0. injection Hr0 as <-.
  destruct (isSafeState_passes _ _ _ Hc') as (r' & Hr' & Hpasses').
  exists r'. split; [done|].
  destruct (safe r') eqn:Hsafe'; [done|]. exfalso.
  destruct (passes_safe _ _ _ _ Hpasses Hsafe) as (finished & _ & Hfin & Hperm).
  apply (passes_unsafe (length available') _ _ _ _ Hpasses' Hsafe' eq_refl
           (table_gives_back _ _ _ Hc' Hpos)) with (order := finished).
  - rewrite (table_pids _ _ _ Hc'). apply NoDup_seq.
  - done.
  - by eapply finishes_mono.
Qed.

Lemma more_available_stays_safe_witness :
  exists r',
    isSafeState [4; 3; 5]
      [[7; 5; 3]; [3; 2; 2]; [9; 0; 2]; [2; 2; 2]; [4; 3; 3]]
      [[0; 1; 0]; [2; 0; 0]; [3; 0; 2]; [2; 1; 1]; [0; 0; 2]] = Ok r'
    /\ safe r' = true.
Proof.
  apply (more_available_stays_safe [3; 3; 2] [4; 3; 5]
           [[7; 5; 3]; [3; 2; 2]; [9; 0; 2]; [2; 2; 2]; [4; 3; 3]]
           [[0; 1; 0]; [2; 0; 0]; [3; 0; 2]; [2; 1; 1]; [0; 0; 2]]
           {| safe := true; safeSequence := [1; 3; 4; 0; 2]%nat;
              unfinishedProcesses := [] |}).
  - split; [reflexivity|]. split; repeat constructor.
  - unfold non_negative_rows, non_negative. repeat (constructor; try lia).
  - repeat (constructor; try lia).
  - vm_compute. reflexivity.
  - reflexivity.
Defined.
End SafeSequenceFacts.

(** ** The running state of the request loop *)

Section RunningStateFacts.
Import Bankers BankersSpec RequestSpec RequestProps Conservation SafeSequences RunningState.

(** What a grant says of the request. *)
Lemma granted_request available max allocation processId request r :
  consistent available max allocation ->
  (processId < length max)%nat ->
  length request = length available ->
  resourceRequest available max allocation processId request = Ok r ->
  granted r = true ->
  exists nrow sr,
    need_of max allocation !! processId = Some nrow
    /\ first_over request nrow = None
    /\ first_over request available = None
    /\ isSafeState (fst (grant available allocation processId request)) max
                   (snd (grant available allocation processId request)) = Ok sr
    /\ safe sr = true
    /\ r = request_granted (safeSequence sr).
Proof.
  intros Hc Hp Hreq Hr Hgranted.
  destruct (resourceRequest_unfold _ _ _ _ _ Hc Hp Hreq) as (nrow & Hn & _ & Heq).
  rewrite Heq in Hr. exists nrow.
  destruct (first_over request nrow); [injection Hr as <-; done|].
  destruct (first_over request available); [injection Hr as <-; done|].
  apply bind_Ok in Hr as (sr & Hsr & [= <-]). exists sr.
  unfold safety_verdict in *. destruct (safe sr); [done | done].
Qed.

Lemma entry_at_sub (a r : vector) j :
  length r = length a -> entry_at j (zip_with Z.sub a r) = entry_at j a - entry_at j r.
Proof.
  intros Hlen. unfold entry_at. rewrite lookup_zip_with.
  destruct (a !! j) as [x|] eqn:Hx; simpl.
  - destruct (lookup_lt_is_Some_2 r j) as [y ->]; [|done].
    apply lookup_lt_Some in Hx. lia.
  - rewrite (proj2 (lookup_ge_None r j)); [done|]. apply lookup_ge_None in Hx. lia.
Qed.

Lemma column_insert j (allocation : matrix) :
  forall i row row',
    allocation !! i = Some row ->
    sum_of (entry_at j <$> <[i := row']> allocation)
    = sum_of (entry_at j <$> allocation) - entry_at j row + entry_at j row'.
Proof.
  induction allocation as [|r allocation IH]; intros [|i] row row' Hrow; try done.
  - injection Hrow as ->.
    change (<[0%nat := row']> (row :: allocation)) with (row' :: allocation).
    rewrite !fmap_cons. unfold sum_of. simpl. lia.
  - change (<[S i := row']> (r :: allocation)) with (r :: <[i := row']> allocation).
    rewrite !fmap_cons. specialize (IH i row row' Hrow). unfold sum_of in *. simpl.
    rewrite IH. lia.
Qed.

(** A grant moves the request from what is available to what the process
    holds. *)
Lemma grant_column_total available max allocation processId request j :
  consistent available max allocation ->
  (processId < length max)%nat ->
  length request = length available ->
  column_total (fst (grant available allocation processId request))
               (snd (grant available allocation processId request)) j
  = column_total available allocation j.
Proof.
  intros Hc Hp Hreq.
  destruct (consistent_rows _ _ _ _ Hc Hp) as (mrow & arow & Hm & Ha & Hlm & Hla).
  unfold column_total, grant. rewrite Ha. simpl.
  rewrite entry_at_sub by done.
  rewrite (column_insert j allocation processId arow) by done.
  rewrite (entry_at_additive (length available) j arow request) by lia. lia.
Qed.

Lemma within_lookup (request bound : vector) :
  length request = length bound ->
  first_over request bound = None -> Forall2 Z.le request bound.
Proof.
  intros Hlen Hnone. apply Forall2_same_length_lookup. split; [done|].
  intros k r b Hr Hb. by apply (proj1 (first_over_None _ _) Hnone k r b).
Qed.

Lemma grant_within_claims available max allocation processId request nrow :
  consistent available max allocation ->
  (processId < length max)%nat ->
  length request = length available ->
  need_of max allocation !! processId = Some nrow ->
  first_over request nrow = None ->
  within_claims max allocation ->
  within_claims max (snd (grant available allocation processId request)).
Proof.
  intros Hc Hp Hreq Hn Hover Hwithin.
  destruct (need_of_row _ _ _ _ Hc Hp) as (mrow & arow & Hm & Ha & Hlm & Hla & Hn').
  rewrite Hn in Hn'. injection Hn' as ->.
  unfold grant. rewrite Ha. simpl.
  apply Forall2_same_length_lookup. split.
  { rewrite length_insert. by eapply Forall2_length. }
  intros i row mrow' Hrow Hmrow'.
  destruct (decide (i = processId)) as [->|Hne].
  - rewrite list_lookup_insert_eq in Hrow by (by eapply lookup_lt_Some).
    injection Hrow as <-. rewrite Hm in Hmrow'. injection Hmrow' as <-.
    apply Forall2_same_length_lookup. split; [rewrite length_zip_with; lia|].
    intros k x y Hx Hy. apply lookup_zip_with_Some in Hx as (a & r & -> & Hak & Hr).
    pose proof (proj1 (first_over_None _ _) Hover k r (y - a) Hr) as Hle.
    rewrite lookup_zip_with, Hy, Hak in Hle. simpl in Hle.
    specialize (Hle eq_refl). lia.
  - rewrite list_lookup_insert_ne in Hrow by done.
    by eapply (Forall2_lookup_lr _ _ _ i).
Qed.

Lemma grant_non_negative available allocation processId request :
  length request = length available ->
  first_over request available = None ->
  non_negative (fst (grant available allocation processId request)).
Proof.
  intros Hreq Hover. unfold grant. simpl.
  apply Forall_lookup. intros k z Hz.
  apply lookup_zip_with_Some in Hz as (a & r & -> & Ha & Hr).
  pose proof (proj1 (first_over_None _ _) Hover k r a Hr Ha). lia.
Qed.

(** What the request loop keeps of its running state. *)
Lemma process_requests_keeps max reqs :
  forall st st',
    consistent (currentAvailable st) max (currentAllocation st) ->
    Forall (request_fits (length max) (length (currentAvailable st))) reqs ->
    process_requests max reqs st = Ok st' ->
    consistent (currentAvailable st') max (currentAllocation st')
    /\ (non_negative (currentAvailable st) -> non_negative (currentAvailable st'))
    /\ (within_claims max (currentAllocation st) ->
        within_claims max (currentAllocation st'))
    /\ (forall j, column_total (currentAvailable st') (currentAllocation st') j
                  = column_total (currentAvailable st) (currentAllocation st) j)
    /\ (says_safe (currentAvailable st) max (currentAllocation st) ->
        says_safe (currentAvailable st') max (currentAllocation st')).
Proof.
  induction reqs as [|req reqs IH]; intros st st' Hc Hfits; simpl.
  - by intros [= <-].
  - apply Forall_cons in Hfits as [Hfit Hfits].
    destruct (process_request_grant _ _ _ Hc Hfit) as (r & Hr & ->). simpl.
    destruct Hfit as [Hp Hreq].
    intros Hrest.
    destruct (granted r) eqn:Hgranted.
    + destruct (granted_request _ _ _ _ _ _ Hc Hp Hreq Hr Hgranted)
        as (nrow & sr & Hn & Hover & Hshort & Hsr & Hsafe & _).
      pose proof (grant_consistent _ _ _ (processId req) _ Hc Hreq) as Hc1.
      pose proof (grant_non_negative _ (currentAllocation st) (processId req) _
                    Hreq Hshort) as Hpos1.
      pose proof (fun j => grant_column_total _ _ _ _ _ j Hc Hp Hreq) as Htotal1.
      pose proof (grant_within_claims _ _ _ _ _ _ Hc Hp Hreq Hn Hover) as Hwithin1.
      assert (length (fst (grant (currentAvailable st) (currentAllocation st)
                                 (processId req) (request req)))
              = length (currentAvailable st)) as Hlen1.
      { unfold grant. simpl. rewrite length_zip_with. lia. }
      set (s := grant (currentAvailable st) (currentAllocation st)
                      (processId req) (request req)) in *.
      apply IH in Hrest as (Hc' & Hpos & Hwithin & Htotal & Hsays); simpl in *.
      * split; [done|]. split; [|split; [|split]].
        -- intros _. by apply Hpos.
        -- intros Hw. by apply Hwithin, Hwithin1.
        -- intros j. by rewrite Htotal, Htotal1.
        -- intros _. apply Hsays. by exists sr.
      * done.
      * by rewrite Hlen1.
    + by apply IH in Hrest.
Qed.

(** X4.  The request loop of runBankersAlgorithm keeps the books: through
    any requests within the dimensions of the state, what is available stays
    without negative entries, no process comes to hold more than its
    maximum claim, and for every resource type what is available and what
    the processes hold add up to what they did before. *)
Theorem request_loop_keeps_accounts max reqs st st' :
  consistent (currentAvailable st) max (currentAllocation st) ->
  Forall (request_fits (length max) (length (currentAvailable st))) reqs ->
  non_negative (currentAvailable st) ->
  within_claims max (currentAllocation st) ->
  process_requests max reqs st = Ok st' ->
  consistent (currentAvailable st') max (currentAllocation st')
  /\ non_negative (currentAvailable st')
  /\ within_claims max (currentAllocation st')
  /\ forall j, column_total (currentAvailable st') (currentAllocation st') j
               = column_total (currentAvailable st) (currentAllocation st) j.
Proof.
  intros Hc Hfits Hpos Hwithin Hrun.
  destruct (process_requests_keeps _ _ _ _ Hc Hfits Hrun) as (? & ? & ? & ? & _).
  auto.
Qed.

(** Two processes and one resource type; process 1 asks for the last unit
    and is denied, process 0 asks for it and is granted.  One unit was
    available and one held: two units in all, before and after. *)
Lemma request_loop_keeps_accounts_witness :
  exists st',
    process_requests [[2]; [2]]
      [ {| processId := 1; request := [1] |}; {| processId := 0; request := [1] |} ]
      {| currentAvailable := [1]; currentAllocation := [[1]; [0]]; results := [] |}
    = Ok st'
    /\ currentAvailable st' = [0] /\ currentAllocation st' = [[2]; [0]]
    /\ consistent (currentAvailable st') [[2]; [2]] (currentAllocation st')
    /\ non_negative (currentAvailable st')
    /\ within_claims [[2]; [2]] (currentAllocation st')
    /\ forall j, column_total (currentAvailable st') (currentAllocation st') j
                 = column_total [1] [[1]; [0]] j.
Proof.
  eexists. split; [vm_compute; reflexivity|]. split; [reflexivity|].
  split; [reflexivity|].
  apply (request_loop_keeps_accounts [[2]; [2]]
           [ {| processId := 1; request := [1] |}; {| processId := 0; request := [1] |} ]
           {| currentAvailable := [1]; currentAllocation := [[1]; [0]]; results := [] |}).
  - split; [reflexivity|]. split; repeat constructor.
  - repeat constructor.
  - repeat constructor. lia.
  - repeat constructor; lia.
  - vm_compute. reflexivity.
Defined.

(** X5.  The request loop of runBankersAlgorithm never leaves a safe
    state: started in a state isSafeState says is safe, through any requests
    within the dimensions of the state, granted or denied, it ends in a state
    isSafeState says is safe. *)
Theorem request_loop_stays_safe max reqs st st' :
  consistent (currentAvailable st) max (currentAllocation st) ->
  Forall (request_fits (length max) (length (currentAvailable st))) reqs ->
  says_safe (currentAvailable st) max (currentAllocation st) ->
  process_requests max reqs st = Ok st' ->
  says_safe (currentAvailable st') max (currentAllocation st').
Proof.
  intros Hc Hfits Hsafe Hrun.
  destruct (process_requests_keeps _ _ _ _ Hc Hfits Hrun) as (_ & _ & _ & _ & Hsays).
  auto.
Qed.

Lemma request_loop_stays_safe_witness :
  exists st',
    process_requests [[2]; [2]]
      [ {| processId := 1; request := [1] |}; {| processId := 0; request := [1] |} ]
      {| currentAvailable := [1]; currentAllocation := [[1]; [0]]; results := [] |}
    = Ok st'
    /\ says_safe (currentAvailable st') [[2]; [2]] (currentAllocation st').
Proof.
  eexists. split; [vm_compute; reflexivity|].
  apply (request_loop_stays_safe [[2]; [2]]
           [ {| processId := 1; request := [1] |}; {| processId := 0; request := [1] |} ]
           {| currentAvailable := [1]; currentAllocation := [[1]; [0]]; results := [] |}).
  - split; [reflexivity|]. split; repeat constructor.
  - repeat constructor.
  - eexists. split; [vm_compute; reflexivity | reflexivity].
  - vm_compute. reflexivity.
Defined.

(** X6.  A request that resourceRequest grants is within the need of the
    process and within what is available, and the sequence returned with the
    grant is a safe sequence of the state the grant leads to. *)
Theorem granted_request_safe_sequence available max allocation processId request r :
  consistent available max allocation ->
  (processId < length max)%nat ->
  length request = length available ->
  resourceRequest available max allocation processId request = Ok r ->
  granted r = true ->
  exists nrow seq,
    need_of max allocation !! processId = Some nrow
    /\ Forall2 Z.le request nrow
    /\ Forall2 Z.le request available
    /\ rr_safeSequence r = Some seq
    /\ safe_sequence (fst (grant available allocation processId request)) max
                     (snd (grant available allocation processId request)) seq.
Proof.
  intros Hc Hp Hreq Hr Hgranted.
  destruct (granted_request _ _ _ _ _ _ Hc Hp Hreq Hr Hgranted)
    as (nrow & sr & Hn & Hover & Hshort & Hsr & Hsafe & ->).
  destruct (need_of_row _ _ _ _ Hc Hp) as (mrow & arow & _ & _ & Hlm & Hla & Hn').
  rewrite Hn in Hn'. injection Hn' as ->.
  exists (zip_with Z.sub mrow arow), (safeSequence sr).
  split; [done|]. split; [|split; [|split; [done|]]].
  - apply within_lookup; [rewrite length_zip_with; lia | done].
  - by apply within_lookup.
  - pose proof (grant_consistent _ _ _ processId _ Hc Hreq) as Hc'.
    destruct (isSafeState_passes _ _ _ Hc') as (sr' & Hsr' & Hpasses).
    rewrite Hsr in Hsr'. injection Hsr' as <-.
    by apply safe_sequence_from_passes.
Qed.

Lemma granted_request_safe_sequence_witness :
  exists nrow seq,
    need_of [[2]; [2]] [[1]; [0]] !! 0%nat = Some nrow
    /\ Forall2 Z.le [1] nrow
    /\ Forall2 Z.le [1] [1]
    /\ rr_safeSequence (request_granted [0; 1]%nat) = Some seq
    /\ safe_sequence (fst (grant [1] [[1]; [0]] 0 [1])) [[2]; [2]]
                     (snd (grant [1] [[1]; [0]] 0 [1])) seq.
Proof.
  apply (granted_request_safe_sequence [1] [[2]; [2]] [[1]; [0]] 0 [1]).
  - split; [reflexivity|]. split; repeat constructor.
  - simpl. lia.
  - reflexivity.
  - vm_compute. reflexivity.
  - reflexivity.
Defined.
End RunningStateFacts.

(** ** First fit and next fit *)

Section ScanFacts.
Import Memory MemorySpec MemoryRun FitSpec FragmentationSpec ScanSpec.

Lemma first_from_first blocks p : forall j k,
  first_from j blocks p = Some k ->
  (j <= k)%nat /\ first_fit blocks p (k - j).
Proof.
  induction blocks as [|b blocks IH]; intros j k; simpl; [done|].
  destruct (size b >=? size p) eqn:Hb.
  - intros [= <-]. split; [lia|]. rewrite Nat.sub_diag. exists b.
    split; [done|]. split; [unfold fits; lia|]. intros k ? ?. lia.
  - intros Hk. destruct (IH _ _ Hk) as (Hjk & b' & Hb' & Hfit & Hlow).
    split; [lia|]. replace (k - j)%nat with (S (k - S j)) by lia.
    exists b'. split; [done|]. split; [done|].
    intros [|i] c Hi Hc; simpl in Hc.
    + injection Hc as <-. unfold fits. lia.
    + apply (Hlow i c); [lia|done].
Qed.

Lemma first_from_None blocks p : forall j,
  first_from j blocks p = None -> no_fit blocks p.
Proof.
  induction blocks as [|b blocks IH]; intros j; simpl.
  - by intros _ k c.
  - destruct (size b >=? size p) eqn:Hb; [done|]. intros Hnone [|k] c Hc; simpl in Hc.
    + injection Hc as <-. unfold fits. lia.
    + by apply (IH _ Hnone k c).
Qed.

(** firstFit chooses the first fit. *)
Lemma choose_first_chooses blocks p :
  chooses first_fit blocks p (fst (choose_first tt blocks p)).
Proof.
  simpl. destruct (first_from 0 blocks p) as [k|] eqn:Hk; simpl.
  - apply first_from_first in Hk as [_ Hk]. by rewrite Nat.sub_0_r in Hk.
  - by eapply first_from_None.
Qed.

Lemma visited_0 blocks j : (j < length blocks)%nat -> visited blocks j 0 = j.
Proof. intros Hj. unfold visited. rewrite Nat.add_0_r. by apply Nat.mod_small. Qed.

Lemma visited_S blocks j t :
  visited blocks ((j + 1) mod length blocks) t = visited blocks j (S t).
Proof.
  unfold visited. rewrite Nat.Div0.add_mod_idemp_l. f_equal. lia.
Qed.

(** Every block is visited within one round. *)
Lemma visited_onto blocks j k :
  (j < length blocks)%nat -> (k < length blocks)%nat ->
  exists t, (t < length blocks)%nat /\ visited blocks j t = k.
Proof.
  intros Hj Hk. unfold visited. destruct (decide (j <= k)%nat) as [Hle|Hgt].
  - exists (k - j)%nat. split; [lia|].
    replace (j + (k - j))%nat with k by lia. by apply Nat.mod_small.
  - exists (k + length blocks - j)%nat. split; [lia|].
    replace (j + (k + length blocks - j))%nat with (k + 1 * length blocks)%nat by lia.
    rewrite Nat.Div0.mod_add. by apply Nat.mod_small.
Qed.

(** What [n] rounds of the scan of nextFit find. *)
Lemma next_from_rounds blocks p n : forall j,
  (j < length blocks)%nat ->
  match next_from n j blocks p with
  | Some k =>
      exists t b, (t < n)%nat /\ k = visited blocks j t
        /\ blocks !! k = Some b /\ fits p b
        /\ forall t' b', (t' < t)%nat -> blocks !! visited blocks j t' = Some b' ->
                         ~ fits p b'
  | None =>
      forall t b', (t < n)%nat -> blocks !! visited blocks j t = Some b' -> ~ fits p b'
  end.
Proof.
  induction n as [|n IH]; intros j Hj; simpl.
  - intros t b' Ht. lia.
  - destruct (lookup_lt_is_Some_2 blocks j Hj) as [b Hb]. rewrite Hb.
    assert ((j + 1) mod length blocks < length blocks)%nat as Hnext.
    { apply Nat.mod_upper_bound. lia. }
    destruct (size b >=? size p) eqn:Hfit.
    + exists 0%nat, b. rewrite visited_0 by done.
      split; [lia|]. split; [done|]. split; [done|]. split; [unfold fits; lia|].
      intros t' b' Ht'. lia.
    + specialize (IH _ Hnext).
      destruct (next_from n _ blocks p) as [k|].
      * destruct IH as (t & c & Ht & Hk & Hc & Hcfit & Hlow).
        exists (S t), c. rewrite <- visited_S.
        split; [lia|]. split; [done|]. split; [done|]. split; [done|].
        intros [|t'] b' Ht' Hb'.
        -- rewrite visited_0 in Hb' by done. rewrite Hb in Hb'. injection Hb' as <-.
           unfold fits. lia.
        -- rewrite <- visited_S in Hb'. apply (Hlow t' b'); [lia|done].
      * intros [|t] b' Ht Hb'.
        -- rewrite visited_0 in Hb' by done. rewrite Hb in Hb'. injection Hb' as <-.
           unfold fits. lia.
        -- rewrite <- visited_S in Hb'. apply (IH t b'); [lia|done].
Qed.

(** nextFit chooses the next fit from [lastAllocatedIndex]. *)
Lemma choose_next_chooses start blocks p :
  (start < length blocks)%nat \/ start = 0%nat ->
  chooses (next_fit start) blocks p (fst (choose_next start blocks p)).
Proof.
  intros Hstart. unfold choose_next.
  destruct (decide (start < length blocks)%nat) as [Hlt|Hge].
  - pose proof (next_from_rounds blocks p (length blocks) start Hlt) as Hrounds.
    destruct (next_from _ _ _ _) as [k|]; simpl.
    + destruct Hrounds as (t & b & ?). by exists t, b.
    + intros k b Hb Hfit.
      destruct (visited_onto blocks start k Hlt (lookup_lt_Some _ _ _ Hb))
        as (t & Ht & Hk).
      apply (Hrounds t b); [done| by rewrite Hk |done].
  - assert (blocks = []) as ->.
    { destruct blocks; [done|]. simpl in *. lia. }
    simpl. by intros k b.
Qed.

(** The state nextFit is in after [k] processes. *)
Lemma next_state_in_range blocks procs k :
  last_in_range (state_after choose_next blocks procs 0%nat k).
Proof.
  induction k as [|k IH].
  - rewrite state_after_0. by right.
  - destruct (procs !! k) as [p|] eqn:Hp.
    + rewrite (state_after_S _ _ _ _ _ _ Hp).
      by apply (next_fit_process_step procs k p).
    + apply lookup_ge_None in Hp.
      rewrite state_after_all by lia. by rewrite state_after_all in IH by lia.
Qed.

Lemma nextFit_loop_choices blocks procs :
  nextFit_loop blocks procs
  = Ok (state_after choose_next blocks procs 0%nat (length procs)).
Proof.
  unfold nextFit_loop, state_after. rewrite firstn_all.
  assert (forall i p s, procs !! i = Some p -> last_in_range s ->
            next_fit_process procs i s = Ok (choice_step choose_next i p s)
            /\ last_in_range (choice_step choose_next i p s)) as Hbody.
  { intros i p s Hp Hs. by apply next_fit_process_step. }
  destruct (for_loop_fold procs _ _ _ Hbody (length procs) 0%nat
              (initial blocks procs, 0%nat) eq_refl) as [Hloop _].
  { by right. }
  rewrite Hloop. by rewrite drop_0.
Qed.

(** nextFit on the first [i] processes. *)
Lemma nextFit_loop_prefix blocks procs i :
  (i <= length procs)%nat ->
  exists before,
    nextFit_loop blocks (take i procs)
    = Ok (before, snd (state_after choose_next blocks procs 0%nat i))
    /\ st_blocks before = st_blocks (fst (state_after choose_next blocks procs 0%nat i)).
Proof.
  intros Hi. rewrite nextFit_loop_choices, length_take_le by done.
  destruct (state_after_prefix choose_next blocks procs 0%nat i Hi) as [Hbl Hlast].
  exists (fst (state_after choose_next blocks (take i procs) 0%nat i)).
  split; [|done]. rewrite <- Hlast. by destruct (state_after _ _ _ _ _).
Qed.

(** X7.  firstFit returns, and the block it gives each process, taken in
    input order, is the block of lowest index among those that are then
    large enough, and none when no block is large enough. *)
Theorem first_fit_choice blocks procs :
  exists r,
    firstFit blocks procs = Ok r
    /\ forall i p, procs !! i = Some p ->
         exists before choice,
           firstFit_loop blocks (take i procs) = Ok before
           /\ allocation r !! i = Some choice
           /\ chooses first_fit (st_blocks before) p choice.
Proof.
  exists (report (strategy_name FirstFit) procs
                 (loop_choices FirstFit blocks procs (length procs))).
  split; [apply (run_report FirstFit)|].
  intros i p Hp. pose proof (lookup_lt_Some _ _ _ Hp) as Hi.
  destruct (run_loop_prefix FirstFit blocks procs i ltac:(lia))
    as (before & Hbefore & Hbl).
  exists before, (strategy_choice FirstFit blocks procs i).
  split; [done|]. split; [by apply (final_choice FirstFit)|].
  rewrite Hbl. simpl. rewrite (strategy_choice_unit _ _ _ _ _ Hp).
  apply choose_first_chooses.
Qed.

(** X8.  nextFit returns, and the block it gives each process, taken in
    input order, is the first block that is then large enough in circular
    order from where its scan starts, and none when no block is large enough;
    the scan starts at block 0 for the first process, and for the next
    process right after the block just given, wrapping around, or where it
    started when no block was given. *)
Theorem next_fit_choice blocks procs :
  exists r,
    nextFit blocks procs = Ok r
    /\ nextFit_loop blocks (take 0 procs) = Ok (initial blocks [], 0%nat)
    /\ forall i p, procs !! i = Some p ->
         exists before start choice after,
           nextFit_loop blocks (take i procs) = Ok (before, start)
           /\ allocation r !! i = Some choice
           /\ chooses (next_fit start) (st_blocks before) p choice
           /\ nextFit_loop blocks (take (S i) procs)
              = Ok (after, resume blocks start choice).
Proof.
  exists (report (strategy_name NextFit) procs
                 (loop_choices NextFit blocks procs (length procs))).
  split; [apply (run_report NextFit)|]. split; [by rewrite take_0|].
  intros i p Hp. pose proof (lookup_lt_Some _ _ _ Hp) as Hi.
  destruct (nextFit_loop_prefix blocks procs i ltac:(lia)) as (before & Hbefore & Hbl).
  destruct (nextFit_loop_prefix blocks procs (S i) ltac:(lia)) as (after & Hafter & _).
  set (s := state_after choose_next blocks procs 0%nat i) in *.
  exists before, (snd s), (strategy_choice NextFit blocks procs i), after.
  split; [done|]. split; [by apply (final_choice NextFit)|].
  assert (strategy_choice NextFit blocks procs i
          = fst (choose_next (snd s) (st_blocks (fst s)) p)) as Hchoice.
  { simpl. unfold choice_at. by rewrite Hp. }
  split.
  - rewrite Hbl, Hchoice. apply choose_next_chooses. apply next_state_in_range.
  - rewrite Hafter. do 2 f_equal.
    rewrite (state_after_S _ _ _ _ _ _ Hp), Hchoice. fold s.
    pose proof (inv_blocks _ _ _ _ _ (strategy_invariant NextFit blocks procs i ltac:(lia)))
      as Hlen.
    simpl in Hlen. fold s in Hlen. unfold choice_step, choose_next. simpl. rewrite Hlen.
    by destruct (next_from _ _ _ _).
Qed.

End ScanFacts.

(** ** Unallocated processes and free memory *)

Section FreeFacts.
Import Memory MemorySpec MemoryRun FitSpec FragmentationSpec ScanSpec.

(** A process that gets no block fits none of the blocks as they are then. *)
Lemma choice_none_no_fit s blocks procs i p :
  (s = WorstFit -> 0 <= size p) ->
  procs !! i = Some p ->
  strategy_choice s blocks procs i = None ->
  no_fit (st_blocks (loop_choices s blocks procs i)) p.
Proof.
  intros Hpos Hp Hnone. destruct s; simpl in *.
  - rewrite (strategy_choice_unit _ _ _ _ _ Hp) in Hnone.
    pose proof (choose_first_chooses
                  (st_blocks (fst (state_after choose_first blocks procs tt i))) p) as Hc.
    by rewrite Hnone in Hc.
  - unfold choice_at in Hnone. rewrite Hp in Hnone.
    pose proof (choose_next_chooses
                  (snd (state_after choose_next blocks procs 0%nat i))
                  (st_blocks (fst (state_after choose_next blocks procs 0%nat i))) p
                  (next_state_in_range blocks procs i)) as Hc.
    by rewrite Hnone in Hc.
  - rewrite (strategy_choice_unit _ _ _ _ _ Hp) in Hnone.
    pose proof (choose_best_chooses
                  (st_blocks (fst (state_after choose_best blocks procs tt i))) p) as Hc.
    by rewrite Hnone in Hc.
  - rewrite (strategy_choice_unit _ _ _ _ _ Hp) in Hnone.
    pose proof (choose_worst_chooses
                  (st_blocks (fst (state_after choose_worst blocks procs tt i))) p
                  (Hpos eq_refl)) as Hc.
    by rewrite Hnone in Hc.
Qed.

(** A block keeps its size or is emptied. *)
Lemma block_later s blocks procs i j b bf :
  (i <= length procs)%nat ->
  st_blocks (loop_choices s blocks procs i) !! j = Some b ->
  st_blocks (loop_choices s blocks procs (length procs)) !! j = Some bf ->
  size bf = size b \/ size bf = 0.
Proof.
  intros Hi Hb Hbf.
  pose proof (strategy_invariant s blocks procs i Hi) as Inv.
  pose proof (strategy_invariant s blocks procs (length procs) ltac:(lia)) as Fin.
  destruct (chosen_or_not (strategy_choice s blocks procs) j i) as [Hnot|(i0 & Hi0 & Hc)].
  - destruct (inv_untouched _ _ _ _ _ Inv j Hnot) as [Hsame _].
    rewrite Hb in Hsame.
    destruct (inv_original _ _ _ _ _ Fin j bf Hbf) as (b0 & Hb0 & [->| ->]).
    + left. congruence.
    + by right.
  - destruct (inv_consumed _ _ _ _ _ Fin i0 j ltac:(lia) Hc) as (b' & Hb' & Hzero).
    right. congruence.
Qed.

Lemma free_below_all blocks L :
  (forall b, b ∈ blocks -> 0 < size b -> size b < L) ->
  free_below blocks L = free_total blocks.
Proof.
  intros Hall. unfold free_below, free_total. do 2 f_equal.
  induction blocks as [|b blocks IH]; [done|].
  assert (forall c, c ∈ blocks -> 0 < size c -> size c < L) as Hrest.
  { intros c Hc. apply Hall. by right. }
  destruct (decide (0 < size b)) as [Hb|Hb].
  - rewrite !filter_cons_True; [|done|]; [by rewrite IH|].
    split; [done|]. apply Hall; [by left|done].
  - rewrite !filter_cons_False; [by apply IH|done|]. by intros [? _].
Qed.

(** A process without a block at the end is larger than every block that
    is then free. *)
Lemma unallocated_too_large s blocks procs :
  (s = WorstFit -> Forall (fun p => 0 <= size p) procs) ->
  forall i p j b,
    procs !! i = Some p ->
    st_allocation (loop_choices s blocks procs (length procs)) !! i = Some None ->
    st_blocks (loop_choices s blocks procs (length procs)) !! j = Some b ->
    0 < size b -> size b < size p.
Proof.
  intros Hpos i p j b Hp Halloc Hb Hfree.
  pose proof (lookup_lt_Some _ _ _ Hp) as Hi.
  rewrite (final_choice s blocks procs i Hi) in Halloc. injection Halloc as Hnone.
  pose proof (strategy_invariant s blocks procs i ltac:(lia)) as Inv.
  pose proof (strategy_invariant s blocks procs (length procs) ltac:(lia)) as Fin.
  assert (j < length (st_blocks (loop_choices s blocks procs i)))%nat as Hj.
  { rewrite (inv_blocks _ _ _ _ _ Inv), <- (inv_blocks _ _ _ _ _ Fin).
    by eapply lookup_lt_Some. }
  destruct (lookup_lt_is_Some_2 _ _ Hj) as [bi Hbi].
  assert (~ fits p bi) as Hno.
  { apply (choice_none_no_fit s blocks procs i p) with (k := j); try done.
    intros ->. apply (proj1 (Forall_lookup _ _) (Hpos eq_refl) i p Hp). }
  unfold fits in Hno.
  destruct (block_later s blocks procs i j bi b ltac:(lia) Hbi Hb); lia.
Qed.

(** When every free block is smaller than every process without a block,
    the external fragmentation is all the free memory. *)
Lemma external_all_free name procs st :
  (forall i p j b,
     procs !! i = Some p -> st_allocation st !! i = Some None ->
     st_blocks st !! j = Some b -> 0 < size b -> size b < size p) ->
  unallocatedProcesses (report name procs st) <> [] ->
  externalFragmentation (report name procs st) = free_total (st_blocks st).
Proof.
  intros Hsmall Hsome. simpl in *.
  destruct (unallocated procs _) as [|q qs] eqn:Hun; [done|].
  rewrite too_small_total_free_below. apply free_below_all.
  intros b [j Hb]%list_elem_of_lookup Hfree.
  pose proof (maximum_elem (size q) (size <$> qs)) as Hmax.
  change (size q :: (size <$> qs)) with (size <$> (q :: qs)) in Hmax.
  apply list_elem_of_fmap in Hmax as (p & -> & Hin).
  rewrite <- Hun in Hin. apply unallocated_elem in Hin as (i & Hp & Halloc).
  by apply (Hsmall i p j b).
Qed.

(** X9.  A process that ends without a block is larger than every block
    that is still free at the end, whatever the strategy (worstFit: for
    process sizes that are not negative); so when some process is left
    unallocated the external fragmentation is all the free memory that is
    left. *)
Theorem unallocated_process_fits_no_free_block s blocks procs :
  (s = WorstFit -> Forall (fun p => 0 <= size p) procs) ->
  exists r final,
    run s blocks procs = Ok r
    /\ run_loop s blocks procs = Ok final
    /\ (forall i p j b,
          procs !! i = Some p -> allocation r !! i = Some None ->
          st_blocks final !! j = Some b -> 0 < size b -> size b < size p)
    /\ (unallocatedProcesses r <> [] ->
        externalFragmentation r = free_total (st_blocks final)).
Proof.
  intros Hpos.
  exists (report (strategy_name s) procs (loop_choices s blocks procs (length procs))),
         (loop_choices s blocks procs (length procs)).
  split; [apply run_report|]. split; [apply run_loop_choices|].
  pose proof (unallocated_too_large s blocks procs Hpos) as Hsmall.
  split; [exact Hsmall|].
  by apply external_all_free.
Qed.

Lemma unallocated_process_fits_no_free_block_witness :
  exists r,
    run WorstFit [ {| id := 1; size := 100 |}; {| id := 2; size := 500 |};
                   {| id := 3; size := 200 |} ]
                 [ {| id := 1; size := 212 |}; {| id := 2; size := 417 |};
                   {| id := 3; size := 112 |} ] = Ok r
    /\ allocation r = [Some 1%nat; None; Some 2%nat]
    /\ externalFragmentation r = 100.
Proof.
  destruct (unallocated_process_fits_no_free_block WorstFit
              [ {| id := 1; size := 100 |}; {| id := 2; size := 500 |};
                {| id := 3; size := 200 |} ]
              [ {| id := 1; size := 212 |}; {| id := 2; size := 417 |};
                {| id := 3; size := 112 |} ])
    as (r & final & Hr & Hfinal & _ & Hext).
  { intros _. repeat constructor; simpl; lia. }
  exists r. split; [exact Hr|].
  vm_compute in Hr. injection Hr as <-.
  vm_compute in Hfinal. injection Hfinal as <-.
  split; [reflexivity|]. by rewrite Hext.
Defined.

Lemma unallocated_cons p procs (a : option nat) allocation :
  unallocated (p :: procs) (a :: allocation)
  = match a with Some _ => [] | None => [p] end ++ unallocated procs allocation.
Proof.
  unfold unallocated. rewrite imap_cons.
  rewrite (imap_ext _ (fun index p => match allocation !! index with
                                      | Some None => Some p
                                      | _ => None
                                      end)) by done.
  by destruct a.
Qed.

(** The processes without a block and the blocks given, counted. *)
Lemma unallocated_given procs : forall allocation : list (option nat),
  length allocation = length procs ->
  (length (unallocated procs allocation) + length (given allocation))%nat = length procs.
Proof.
  induction procs as [|p procs IH]; intros [|a allocation] Hlen; try done.
  rewrite unallocated_cons, length_app.
  specialize (IH allocation ltac:(simpl in Hlen; lia)).
  destruct a as [j|].
  - change (given (Some j :: allocation)) with (j :: given allocation).
    cbn [length]. lia.
  - change (given (None :: allocation)) with (given allocation).
    cbn [length]. lia.
Qed.

Lemma given_elem (allocation : list (option nat)) j :
  j ∈ given allocation <-> exists i, allocation !! i = Some (Some j).
Proof.
  unfold given. rewrite list_elem_of_omap. split.
  - intros (c & [i Hi]%list_elem_of_lookup & Hc). exists i. by rewrite Hi, Hc.
  - intros [i Hi]. exists (Some j). split; [|done]. by eapply list_elem_of_lookup_2.
Qed.

Lemma given_NoDup : forall allocation : list (option nat),
  (forall i i' j, (i < i')%nat -> allocation !! i = Some (Some j) ->
                  allocation !! i' <> Some (Some j)) ->
  NoDup (given allocation).
Proof.
  intros l. induction l as [|a allocation IH]; intros Honce; [constructor|].
  assert (NoDup (given allocation)) as Hrest.
  { apply IH. intros i i' j Hlt Hi. apply (Honce (S i) (S i') j); [lia|done]. }
  destruct a as [j|]; [|done].
  change (given (Some j :: allocation)) with (j :: given allocation).
  constructor; [|done].
  intros [i Hi]%given_elem. exact (Honce 0%nat (S i) j ltac:(lia) eq_refl Hi).
Qed.

(** X10.  In the result of every strategy the allocation has one entry per
    process and every entry that is not null is the index of a block; with
    positive process sizes no block is given twice, so the processes that
    get a block are at most as many as the blocks. *)
Theorem allocation_within_blocks s blocks procs :
  exists r,
    run s blocks procs = Ok r
    /\ length (allocation r) = length procs
    /\ (forall i j, allocation r !! i = Some (Some j) -> (j < length blocks)%nat)
    /\ (length (unallocatedProcesses r) + length (given (allocation r)))%nat
       = length procs
    /\ (Forall (fun p => 0 < size p) procs ->
        NoDup (given (allocation r))
        /\ (length procs <= length blocks + length (unallocatedProcesses r))%nat).
Proof.
  exists (report (strategy_name s) procs (loop_choices s blocks procs (length procs))).
  split; [apply run_report|].
  pose proof (strategy_invariant s blocks procs (length procs) ltac:(lia)) as Fin.
  pose proof (inv_allocation _ _ _ _ _ Fin) as Hlen.
  assert (forall i j,
            st_allocation (loop_choices s blocks procs (length procs)) !! i
            = Some (Some j) -> (j < length blocks)%nat) as Hin.
  { intros i j Hij. apply final_choice_Some in Hij as [Hi Hc].
    destruct (lookup_lt_is_Some_2 procs i Hi) as [p Hp].
    destruct (inv_fits _ _ _ _ _ Fin i j p Hi Hp Hc) as (b & Hb & _).
    rewrite <- (inv_blocks _ _ _ _ _ (strategy_invariant s blocks procs i ltac:(lia))).
    by eapply lookup_lt_Some. }
  assert ((length (unallocated procs
                     (st_allocation (loop_choices s blocks procs (length procs))))
           + length (given (st_allocation (loop_choices s blocks procs (length procs)))))%nat
          = length procs) as Hcount by by apply unallocated_given.
  simpl. rewrite length_fmap.
  split; [done|]. split; [done|]. split; [done|].
  intros Hpos.
  assert (NoDup (given (st_allocation (loop_choices s blocks procs (length procs)))))
    as Hnodup.
  { apply given_NoDup. intros i i' j Hlt Hi Hi'.
    apply final_choice_Some in Hi as [_ Hc]. apply final_choice_Some in Hi' as [Hlt' Hc'].
    by apply (positive_choice_once s blocks procs i i' j Hpos ltac:(lia) Hc). }
  split; [done|].
  assert (length (given (st_allocation (loop_choices s blocks procs (length procs))))
          <= length blocks)%nat; [|lia].
  assert (given (st_allocation (loop_choices s blocks procs (length procs)))
          ⊆+ seq 0 (length blocks)) as Hsub.
  { apply NoDup_submseteq; [done|].
    intros j [i Hi]%given_elem. apply elem_of_seq. specialize (Hin i j Hi). lia. }
  apply submseteq_length in Hsub. by rewrite length_seq in Hsub.
Qed.

Lemma sum_of_zeros {A} (l : list A) : sum_of ((fun _ => 0) <$> l) = 0.
Proof. induction l as [|x l IH]; [done|]. rewrite fmap_cons. simpl. by rewrite IH. Qed.

Lemma unallocated_all procs : forall allocation : list (option nat),
  length allocation = length procs ->
  Forall (fun choice => choice = None) allocation ->
  unallocated procs allocation = procs.
Proof.
  induction procs as [|p procs IH]; intros [|a allocation] Hlen Hall; try done.
  rewrite unallocated_cons.
  apply Forall_cons in Hall as [-> Hall].
  rewrite IH; [done| |done]. simpl in Hlen. lia.
Qed.

(** X11.  On empty input every strategy returns: with no block, every
    process is unallocated, with no fragmentation of either kind; with no
    process, the allocation is empty and the fragmentation is 0 for every
    block and in total. *)
Theorem empty_input s :
  (forall procs,
     run s [] procs
     = Ok {| algorithm := strategy_name s;
             allocation := (fun _ => None) <$> procs;
             internalFragmentation := [];
             externalFragmentation := 0;
             totalFragmentation := 0;
             unallocatedProcesses := id <$> procs |})
  /\ (forall blocks,
        run s blocks []
        = Ok {| algorithm := strategy_name s;
                allocation := [];
                internalFragmentation := (fun _ => 0) <$> blocks;
                externalFragmentation := 0;
                totalFragmentation := 0;
                unallocatedProcesses := [] |}).
Proof.
  split.
  - intros procs. rewrite run_report.
    pose proof (strategy_invariant s [] procs (length procs) ltac:(lia)) as Fin.
    pose proof (inv_allocation _ _ _ _ _ Fin) as Hlen.
    pose proof (inv_blocks _ _ _ _ _ Fin) as Hblocks.
    pose proof (inv_fragmentation _ _ _ _ _ Fin) as Hfrag.
    assert (forall i, (i < length procs)%nat ->
              strategy_choice s [] procs i = None) as Hnone.
    { intros i Hi. destruct (lookup_lt_is_Some_2 procs i Hi) as [p Hp].
      destruct (strategy_choice s [] procs i) as [j|] eqn:Hc; [|done].
      destruct (inv_fits _ _ _ _ _ Fin i j p Hi Hp Hc) as (b & Hb & _).
      apply lookup_lt_Some in Hb.
      rewrite (inv_blocks _ _ _ _ _ (strategy_invariant s [] procs i ltac:(lia))) in Hb.
      simpl in Hb. lia. }
    simpl in Hlen, Hblocks, Hfrag.
    apply nil_length_inv in Hblocks, Hfrag.
    assert (st_allocation (loop_choices s [] procs (length procs))
            = (fun _ => None) <$> procs) as Halloc.
    { apply list_eq. intros i. rewrite list_lookup_fmap.
      destruct (procs !! i) as [p|] eqn:Hp; simpl.
      - pose proof (lookup_lt_Some _ _ _ Hp) as Hi.
        by rewrite (final_choice s [] procs i Hi), Hnone.
      - apply lookup_ge_None. rewrite Hlen. by apply lookup_ge_None. }
    assert (unallocated procs (st_allocation (loop_choices s [] procs (length procs)))
            = procs) as Hun.
    { apply unallocated_all; [done|].
      rewrite Halloc. apply Forall_fmap. by apply Forall_true. }
    unfold report. rewrite Hun, Halloc, Hblocks, Hfrag. by destruct procs.
  - intros blocks. rewrite run_report. unfold report.
    assert (loop_choices s blocks [] (length (@nil Process)) = initial blocks []) as ->.
    { by destruct s. }
    simpl. rewrite foldl_add_total, sum_of_zeros. done.
Qed.

End FreeFacts.

(** ** The memory a run accounts for *)

Section AccountingFacts.
Import Memory MemorySpec MemoryRun FitSpec FragmentationSpec ScanSpec Accounting.

Lemma sum_of_insert (l : list Z) : forall i x y,
  l !! i = Some x -> sum_of (<[i := y]> l) = sum_of l - x + y.
Proof.
  unfold sum_of. induction l as [|z l IH]; intros [|i] x y Hx; simpl in *; try done.
  - injection Hx as ->. lia.
  - rewrite (IH i x y Hx). lia.
Qed.

Lemma memory_total_insert (blocks : list MemoryBlock) j b b' :
  blocks !! j = Some b ->
  memory_total (<[j := b']> blocks) = memory_total blocks - size b + size b'.
Proof.
  intros Hb. unfold memory_total. rewrite list_fmap_insert.
  apply sum_of_insert. by rewrite list_lookup_fmap, Hb.
Qed.

Lemma allocated_total_insert (procs : list Process) : forall allocation i p j,
  procs !! i = Some p -> allocation !! i = Some None ->
  allocated_total procs (<[i := Some j]> allocation)
  = allocated_total procs allocation + size p.
Proof.
  unfold allocated_total, sum_of.
  induction procs as [|q procs IH]; intros [|a allocation] [|i] p j Hp Ha;
    simpl in *; try done.
  - injection Hp as ->. injection Ha as ->. lia.
  - rewrite (IH allocation i p j Hp Ha). lia.
Qed.

Lemma allocated_total_none (procs : list Process) :
  allocated_total procs ((fun _ => None) <$> procs) = 0.
Proof.
  unfold allocated_total, sum_of. induction procs as [|q procs IH]; [done|].
  rewrite fmap_cons. simpl. by rewrite IH.
Qed.

(** The arrays after one more process. *)
Lemma loop_choices_S s blocks procs k p :
  procs !! k = Some p ->
  loop_choices s blocks procs (S k)
  = apply_choice k p (strategy_choice s blocks procs k) (loop_choices s blocks procs k).
Proof.
  intros Hp. destruct s; simpl; rewrite (state_after_S _ _ _ _ _ _ Hp);
    unfold choice_step, choice_at; simpl; by rewrite Hp.
Qed.

(** With positive process sizes the memory of the blocks is, at every step,
    what the processes placed so far take, the internal fragmentation
    recorded and the memory the blocks still have. *)
Lemma memory_accounted s blocks procs k :
  Forall (fun p => 0 < size p) procs ->
  (k <= length procs)%nat ->
  memory_total blocks
  = allocated_total procs (st_allocation (loop_choices s blocks procs k))
    + sum_of (st_internalFragmentation (loop_choices s blocks procs k))
    + memory_total (st_blocks (loop_choices s blocks procs k)).
Proof.
  intros Hpos. induction k as [|k IH]; intros Hk.
  - assert (loop_choices s blocks procs 0 = initial blocks procs) as ->.
    { by destruct s. }
    simpl. rewrite allocated_total_none.
    assert (forall {A} (l : list A), sum_of ((fun _ => 0) <$> l) = 0) as Hzero.
    { intros A l. induction l as [|x l IHl]; [done|].
      rewrite fmap_cons. unfold sum_of in *. simpl. by rewrite IHl. }
    rewrite Hzero. lia.
  - specialize (IH ltac:(lia)).
    destruct (lookup_lt_is_Some_2 procs k ltac:(lia)) as [p Hp].
    pose proof (strategy_invariant s blocks procs k ltac:(lia)) as Inv.
    pose proof (strategy_invariant s blocks procs (S k) Hk) as Inv'.
    rewrite (loop_choices_S _ _ _ _ _ Hp).
    destruct (strategy_choice s blocks procs k) as [j|] eqn:Hc; [|done].
    destruct (inv_fits _ _ _ _ _ Inv' k j p ltac:(lia) Hp Hc) as (b & Hb & Hfit).
    simpl. rewrite Hb. simpl.
    assert (0 < size p) as Hp0 by apply (proj1 (Forall_lookup _ _) Hpos k p Hp).
    assert (st_internalFragmentation (loop_choices s blocks procs k) !! j = Some 0)
      as Hfrag.
    { destruct (chosen_or_not (strategy_choice s blocks procs) j k)
        as [Hnot|(i & Hi & Hci)].
      - destruct (inv_untouched _ _ _ _ _ Inv j Hnot) as [Hsame Hzero].
        rewrite Hzero, <- Hsame, Hb. done.
      - destruct (inv_consumed _ _ _ _ _ Inv i j Hi Hci) as (b' & Hb' & Hsize).
        rewrite Hb in Hb'. injection Hb' as <-. unfold fits in Hfit. lia. }
    rewrite (allocated_total_insert _ _ _ p j Hp (inv_pending _ _ _ _ _ Inv k ltac:(lia))).
    rewrite (sum_of_insert _ _ _ _ Hfrag).
    rewrite (memory_total_insert _ _ _ _ Hb). simpl. lia.
Qed.

Lemma free_total_all (blocks : list MemoryBlock) :
  Forall (fun b => 0 <= size b) blocks -> free_total blocks = memory_total blocks.
Proof.
  unfold free_total, memory_total, sum_of.
  induction blocks as [|b blocks IH]; intros Hall; [done|].
  apply Forall_cons in Hall as [Hb Hall]. specialize (IH Hall).
  destruct (decide (0 < size b)) as [Hpos|Hzero].
  - rewrite filter_cons_True by done. rewrite !fmap_cons. simpl. by rewrite IH.
  - rewrite filter_cons_False by done. rewrite fmap_cons. simpl. rewrite IH. lia.
Qed.

(** X12.  With positive process sizes every strategy accounts for all the
    memory: the sizes of the blocks add up to the sizes of the processes
    that got a block, plus the internal fragmentation, plus the memory the
    blocks have left.  So, with block sizes that are not negative, when some
    process is left unallocated the total fragmentation is the memory of the
    blocks minus the sizes of the processes that got a block. *)
Theorem memory_accounting s blocks procs :
  Forall (fun p => 0 < size p) procs ->
  exists r final,
    run s blocks procs = Ok r
    /\ run_loop s blocks procs = Ok final
    /\ memory_total blocks
       = allocated_total procs (allocation r) + sum_of (internalFragmentation r)
         + memory_total (st_blocks final)
    /\ (Forall (fun b => 0 <= size b) blocks -> unallocatedProcesses r <> [] ->
        totalFragmentation r = memory_total blocks - allocated_total procs (allocation r)).
Proof.
  intros Hpos.
  assert (Forall (fun p => 0 <= size p) procs) as Hpos0.
  { eapply Forall_impl; [exact Hpos|]. simpl. intros p. lia. }
  pose proof (unallocated_too_large s blocks procs (fun _ => Hpos0)) as Hsmall.
  exists (report (strategy_name s) procs (loop_choices s blocks procs (length procs))),
         (loop_choices s blocks procs (length procs)).
  split; [apply run_report|]. split; [apply run_loop_choices|].
  pose proof (memory_accounted s blocks procs (length procs) Hpos ltac:(lia)) as Hacc.
  split; [exact Hacc|].
  intros Hblocks Hsome. rewrite report_total, (external_all_free _ _ _ Hsmall Hsome).
  rewrite free_total_all; [simpl in *; lia|].
  pose proof (strategy_invariant s blocks procs (length procs) ltac:(lia)) as Fin.
  apply Forall_lookup. intros j b' Hb'.
  destruct (inv_original _ _ _ _ _ Fin j b' Hb') as (b & Hb & [->| ->]); [|done].
  apply (proj1 (Forall_lookup _ _) Hblocks j b Hb).
Qed.

Lemma memory_accounting_witness :
  exists r,
    run FirstFit [ {| id := 1; size := 100 |}; {| id := 2; size := 500 |};
                   {| id := 3; size := 200 |} ]
                 [ {| id := 1; size := 212 |}; {| id := 2; size := 417 |};
                   {| id := 3; size := 112 |} ] = Ok r
    /\ totalFragmentation r = 800 - 324.
Proof.
  destruct (memory_accounting FirstFit
              [ {| id := 1; size := 100 |}; {| id := 2; size := 500 |};
                {| id := 3; size := 200 |} ]
              [ {| id := 1; size := 212 |}; {| id := 2; size := 417 |};
                {| id := 3; size := 112 |} ])
    as (r & final & Hr & _ & _ & Htotal).
  { repeat constructor; simpl; lia. }
  exists r. split; [exact Hr|].
  rewrite Htotal.
  - vm_compute in Hr. injection Hr as <-. reflexivity.
  - repeat constructor; simpl; lia.
  - vm_compute in Hr. injection Hr as <-. done.
Defined.

End AccountingFacts.

(** ** runAllAlgorithms and its caller *)

Section AllAlgorithmsFacts.
Import Store Holds Frame AllAlgorithms.

Lemma holds_refs_unchanged h h' l refs xs :
  unchanged h h' -> holds_refs h l refs xs -> holds_refs h' l refs xs.
Proof.
  intros Hsame [Hl Hxs]. split; [by apply Hsame|].
  eapply Forall2_impl; [exact Hxs|]. intros r x. apply Hsame.
Qed.

Lemma unchanged_trans h1 h2 h3 : unchanged h1 h2 -> unchanged h2 h3 -> unchanged h1 h3.
Proof. intros H12 H23 l o Hl. by apply H23, H12. Qed.

(** Every strategy returns on values. *)
Lemma run_returns s blocks procs : exists r, Memory.run s blocks procs = Ok r.
Proof. eexists. apply run_report. Qed.

(** A strategy on a store that holds its arguments: what it returns, and the
    store it leaves. *)
Lemma runs_run s h lb lp brefs prefs blocks procs :
  holds_refs h lb brefs blocks -> holds_refs h lp prefs procs ->
  exists r h',
    Memory.run s blocks procs = Ok r
    /\ on_store (match s with
                 | Memory.FirstFit => FirstFit lb lp
                 | Memory.NextFit => NextFit lb lp
                 | Memory.BestFit => BestFit lb lp
                 | Memory.WorstFit => WorstFit lb lp
                 end) h = Ok (Allocation r, h')
    /\ unchanged h h'.
Proof.
  intros Hb Hp. destruct (run_returns s blocks procs) as [r Hr]. exists r.
  assert (exists h', on_store (match s with
                               | Memory.FirstFit => FirstFit lb lp
                               | Memory.NextFit => NextFit lb lp
                               | Memory.BestFit => BestFit lb lp
                               | Memory.WorstFit => WorstFit lb lp
                               end) h = Ok (Allocation r, h')) as [h' Hrun].
  { apply (on_store_returns _ h (Calls.OnStrategy s blocks procs)).
    - exists lb, lp. split; [by destruct s|]. split; [by exists brefs|by exists prefs].
    - simpl. by rewrite Hr. }
  exists h'. split; [done|]. split; [done|]. by eapply on_store_unchanged.
Qed.

(** The call of a strategy inside a larger program. *)
Lemma on_store_strategy (m : prog Memory.AllocationResult) h r h' :
  (x ← m; mret (Allocation x)) h = Ok (Allocation r, h') -> runs m h r h'.
Proof.
  unfold runs, mbind, prog_bind. destruct (m h) as [[x h1]|]; [|done].
  by intros [= -> ->].
Qed.

(** runAllAlgorithms on a store that holds its arguments. *)
Lemma runs_runAllAlgorithms h lb lp brefs prefs blocks procs :
  holds_refs h lb brefs blocks -> holds_refs h lp prefs procs ->
  exists results h',
    runAllAlgorithms blocks procs = Ok results
    /\ runs (runAllAlgorithms_on_store lb lp) h results h'
    /\ unchanged h h'.
Proof.
  intros Hb Hp.
  destruct (runs_run Memory.FirstFit h lb lp brefs prefs blocks procs Hb Hp)
    as (r1 & h1 & Hr1 & Hrun1%on_store_strategy & Hs1).
  destruct (runs_run Memory.NextFit h1 lb lp brefs prefs blocks procs)
    as (r2 & h2 & Hr2 & Hrun2%on_store_strategy & Hs2);
    [by eapply holds_refs_unchanged..|].
  assert (unchanged h h2) as Hh2 by by eapply unchanged_trans.
  destruct (runs_run Memory.BestFit h2 lb lp brefs prefs blocks procs)
    as (r3 & h3 & Hr3 & Hrun3%on_store_strategy & Hs3);
    [by eapply holds_refs_unchanged..|].
  assert (unchanged h h3) as Hh3 by by eapply unchanged_trans.
  destruct (runs_run Memory.WorstFit h3 lb lp brefs prefs blocks procs)
    as (r4 & h4 & Hr4 & Hrun4%on_store_strategy & Hs4);
    [by eapply holds_refs_unchanged..|].
  exists {| firstFit := r1; nextFit := r2; bestFit := r3; worstFit := r4 |}, h4.
  simpl in Hr1, Hr2, Hr3, Hr4. split; [|split].
  - unfold runAllAlgorithms. by rewrite Hr1, Hr2, Hr3, Hr4.
  - unfold runAllAlgorithms_on_store.
    eapply runs_bind; [exact Hrun1|]. eapply runs_bind; [exact Hrun2|].
    eapply runs_bind; [exact Hrun3|]. eapply runs_bind; [exact Hrun4|]. done.
  - by eapply unchanged_trans.
Qed.

(** X13.  runAllAlgorithms returns the results of firstFit, nextFit,
    bestFit and worstFit, each as the strategy gives it when run alone on the
    blocks and processes handed in: on a store that holds these, the four
    calls made one after the other return what the four strategies return on
    values, and every object of the caller's store is left as it was, so the
    two arrays still hold the blocks and the processes. *)
Theorem runAllAlgorithms_runs_each_alone h lb lp blocks procs :
  holds_records h lb blocks -> holds_records h lp procs ->
  exists results h',
    runAllAlgorithms_on_store lb lp h = Ok (results, h')
    /\ runAllAlgorithms blocks procs = Ok results
    /\ (forall s, Memory.run s blocks procs = Ok (entry s results))
    /\ unchanged h h'
    /\ holds_records h' lb blocks /\ holds_records h' lp procs.
Proof.
  intros [brefs Hb] [prefs Hp].
  destruct (runs_runAllAlgorithms h lb lp brefs prefs blocks procs Hb Hp)
    as (results & h' & Hvalues & Hrun & Hsame).
  exists results, h'. split; [exact Hrun|]. split; [exact Hvalues|].
  split; [|split; [done|split]].
  - unfold runAllAlgorithms in Hvalues.
    apply bind_Ok in Hvalues as (r1 & Hr1 & Hvalues).
    apply bind_Ok in Hvalues as (r2 & Hr2 & Hvalues).
    apply bind_Ok in Hvalues as (r3 & Hr3 & Hvalues).
    apply bind_Ok in Hvalues as (r4 & Hr4 & [= <-]).
    by intros [].
  - exists brefs. by eapply holds_refs_unchanged.
  - exists prefs. by eapply holds_refs_unchanged.
Qed.

Lemma runAllAlgorithms_runs_each_alone_witness :
  exists results h',
    runAllAlgorithms_on_store 3 6 FrameExamples.memory_store = Ok (results, h')
    /\ Memory.allocation (firstFit results) = [Some 0%nat; Some 1%nat]
    /\ Memory.allocation (worstFit results) = [Some 2%nat; Some 0%nat]
    /\ unchanged FrameExamples.memory_store h'.
Proof.
  destruct (runAllAlgorithms_runs_each_alone FrameExamples.memory_store 3 6
              [ {| Memory.id := 1; Memory.size := 100 |};
                {| Memory.id := 2; Memory.size := 50 |};
                {| Memory.id := 3; Memory.size := 200 |} ]
              [ {| Memory.id := 1; Memory.size := 90 |};
                {| Memory.id := 2; Memory.size := 50 |} ])
    as (results & h' & Hrun & Hvalues & _ & Hsame & _).
  - exists [0; 1; 2]%nat. split; [done|]. by repeat constructor.
  - exists [4; 5]%nat. split; [done|]. by repeat constructor.
  - exists results, h'. split; [exact Hrun|].
    vm_compute in Hvalues. injection Hvalues as <-. by repeat split.
Defined.

(** X14.  handleMemorySubmit passes on the four results of runAllAlgorithms,
    each with the two arrays that were submitted attached to it; these
    arrays still hold the blocks and the processes as submitted, with the
    sizes the strategies have set to 0 in their own copies only. *)
Theorem handleMemorySubmit_attaches_input h lb lp blocks procs :
  holds_records h lb blocks -> holds_records h lp procs ->
  exists shown h',
    handleMemorySubmit lb lp h = Ok (shown, h')
    /\ forall s,
         Memory.run s blocks procs = Ok (result (entry s shown))
         /\ holds_records h' (memoryBlocks (entry s shown)) blocks
         /\ holds_records h' (processes (entry s shown)) procs.
Proof.
  intros [brefs Hb] [prefs Hp].
  destruct (runs_runAllAlgorithms h lb lp brefs prefs blocks procs Hb Hp)
    as (results & h' & Hvalues & Hrun & Hsame).
  eexists _, h'. split.
  - unfold handleMemorySubmit. eapply runs_bind; [exact Hrun|]. reflexivity.
  - unfold runAllAlgorithms in Hvalues.
    apply bind_Ok in Hvalues as (r1 & Hr1 & Hvalues).
    apply bind_Ok in Hvalues as (r2 & Hr2 & Hvalues).
    apply bind_Ok in Hvalues as (r3 & Hr3 & Hvalues).
    apply bind_Ok in Hvalues as (r4 & Hr4 & [= <-]).
    intros s. split; [by destruct s|].
    split; [exists brefs|exists prefs]; destruct s; simpl;
      by eapply holds_refs_unchanged.
Qed.

Lemma handleMemorySubmit_attaches_input_witness :
  exists shown h',
    handleMemorySubmit 3 6 FrameExamples.memory_store = Ok (shown, h')
    /\ memoryBlocks (bestFit shown) = 3%nat
    /\ h' !! 3%nat = Some (Arr [Ref 0%nat; Ref 1%nat; Ref 2%nat])
    /\ h' !! 0%nat = Some (Rec 1 100).
Proof.
  destruct (handleMemorySubmit_attaches_input FrameExamples.memory_store 3 6
              [ {| Memory.id := 1; Memory.size := 100 |};
                {| Memory.id := 2; Memory.size := 50 |};
                {| Memory.id := 3; Memory.size := 200 |} ]
              [ {| Memory.id := 1; Memory.size := 90 |};
                {| Memory.id := 2; Memory.size := 50 |} ])
    as (shown & h' & Hrun & _).
  - exists [0; 1; 2]%nat. split; [done|]. by repeat constructor.
  - exists [4; 5]%nat. split; [done|]. by repeat constructor.
  - exists shown, h'. split; [exact Hrun|].
    vm_compute in Hrun. injection Hrun as <- <-. by repeat split.
Defined.

End AllAlgorithmsFacts.

(** ** The form of the Banker's algorithm *)

Section FormFacts.
Import BankersInput.
Variable parseInt : string -> option Z.

Lemma assign_shown index value (a : list cell) :
  (index < length a)%nat -> assign index value a = Ok (<[index := value]> a).
Proof. intros Hlt%Nat.ltb_lt. unfold assign. by rewrite Hlt. Qed.

Lemma length_widen_or_cut n (row : list cell) : length (widen_or_cut n row) = n.
Proof.
  unfold widen_or_cut. destruct (length row <? n)%nat eqn:Hlen.
  - apply Nat.ltb_lt in Hlen. rewrite length_app, length_replicate. lia.
  - apply Nat.ltb_ge in Hlen. rewrite length_take. lia.
Qed.

Lemma length_cut_or_widen n (row : list cell) : length (cut_or_widen n row) = n.
Proof.
  unfold cut_or_widen. destruct (n <? length row)%nat eqn:Hlen.
  - apply Nat.ltb_lt in Hlen. rewrite length_take. lia.
  - apply Nat.ltb_ge in Hlen. rewrite length_app, length_replicate. lia.
Qed.

Lemma well_formed_initial : well_formed initial.
Proof.
  split; simpl; try lia; try done.
  - split; [done|]. by repeat constructor.
  - split; [done|]. by repeat constructor.
  - repeat constructor.
Qed.

(** A matrix of the form with one field changed. *)
Lemma assign_in_matrix (m : list (list cell)) np nr i j (value : string) row :
  length m = np -> Forall (fun row => length row = nr) m ->
  m !! i = Some row ->
  length (<[i := <[j := value]> row]> m) = np
  /\ Forall (fun row => length row = nr) (<[i := <[j := value]> row]> m).
Proof.
  intros Hlen Hrows Hrow. split; [by rewrite length_insert|].
  apply Forall_insert; [done|]. rewrite length_insert.
  by apply (proj1 (Forall_lookup _ _) Hrows i row).
Qed.

(** An event of a field or button on the screen is handled, and the state
    it sets has the dimensions its counters say. *)
Lemma handle_keeps_shape st e :
  well_formed st -> rendered st e ->
  exists st', handle parseInt e st = Ok st' /\ well_formed st'.
Proof.
  intros [Hnp Hnr Hav [Hmax Hmaxrows] [Hal Halrows] Hreqs] Hshown.
  destruct e as [value|value|index value|i j value|i j value| |index|index value
                |i j value]; simpl in *.
  - unfold handleNumProcessesChange.
    destruct (int_or_0 parseInt value <? 1) eqn:Hsmall.
    { eexists. split; [done|]. by split. }
    apply Z.ltb_ge in Hsmall. set (n := Z.to_nat (int_or_0 parseInt value)).
    assert (1 <= n)%nat as Hn by (unfold n; lia).
    destruct (length (max st) <? n)%nat eqn:Hgrow.
    + apply Nat.ltb_lt in Hgrow.
      assert ((n <? length (allocation st))%nat = false) as ->.
      { apply Nat.ltb_ge. lia. }
      eexists. split; [done|]. split; simpl; try done.
      * split; [rewrite length_app, length_replicate; lia|].
        apply Forall_app. split; [done|].
        apply Forall_replicate. by rewrite length_replicate.
      * split; [rewrite length_app, length_replicate; lia|].
        apply Forall_app. split; [done|].
        apply Forall_replicate. by rewrite length_replicate.
      * eapply Forall_impl; [exact Hreqs|]. simpl. intros req [? ?]. split; [lia|done].
    + apply Nat.ltb_ge in Hgrow.
      eexists. split; [done|]. split; simpl; try done.
      * split; [rewrite length_take; lia|]. by apply Forall_take.
      * split; [rewrite length_take; lia|]. by apply Forall_take.
      * apply Forall_forall. intros req [Hlt Hin]%list_elem_of_filter.
        split; [done|]. by apply (proj1 (Forall_forall _ _) Hreqs req Hin).
  - eexists. split; [done|]. unfold handleNumResourcesChange.
    destruct (int_or_0 parseInt value <? 1) eqn:Hsmall; [by split|].
    apply Z.ltb_ge in Hsmall.
    split; simpl; try done.
    * lia.
    * apply length_widen_or_cut.
    * rewrite length_fmap. split; [done|].
      apply Forall_fmap, Forall_true. intros row. apply length_widen_or_cut.
    * rewrite length_fmap. split; [done|].
      apply Forall_fmap, Forall_true. intros row. apply length_widen_or_cut.
    * apply Forall_fmap. eapply Forall_impl; [exact Hreqs|]. simpl.
      intros req [? _]. split; [done|]. apply length_cut_or_widen.
  - unfold handleAvailableChange. rewrite (assign_shown _ _ _ Hshown). simpl.
    eexists. split; [done|]. split; simpl; try done.
    by rewrite length_insert.
  - destruct Hshown as (row & Hrow & Hj).
    unfold handleMaxChange, read. rewrite Hrow. simpl.
    rewrite (assign_shown _ _ _ Hj). simpl.
    eexists. split; [done|]. split; simpl; try done.
    by eapply assign_in_matrix.
  - destruct Hshown as (row & Hrow & Hj).
    unfold handleAllocationChange, read. rewrite Hrow. simpl.
    rewrite (assign_shown _ _ _ Hj). simpl.
    eexists. split; [done|]. split; simpl; try done.
    by eapply assign_in_matrix.
  - eexists. split; [done|]. split; simpl; try done.
    apply Forall_app. split; [done|]. repeat constructor; simpl; [lia|].
    by rewrite length_replicate.
  - eexists. split; [done|]. unfold removeRequest.
    destruct (1 <? length (requests st))%nat; [|by split].
    split; simpl; try done. by apply Forall_delete.
  - unfold handleRequestProcessIdChange.
    destruct ((int_or_0 parseInt value <? 0)
              || (int_or_0 parseInt value >=? Z.of_nat (numProcesses st))) eqn:Hout.
    { eexists. split; [done|]. by split. }
    apply orb_false_iff in Hout as [Hlow%Z.ltb_ge Hhigh].
    assert (int_or_0 parseInt value < Z.of_nat (numProcesses st)) as Hlt by lia.
    destruct (lookup_lt_is_Some_2 _ _ Hshown) as [req Hreq].
    unfold read. rewrite Hreq. simpl.
    eexists. split; [done|]. split; simpl; try done.
    apply Forall_insert; [done|]. simpl. split; [lia|].
    by apply (proj1 (Forall_lookup _ _) Hreqs index req).
  - destruct Hshown as (row & Hrow & Hj).
    rewrite list_lookup_fmap in Hrow.
    destruct (requests st !! i) as [req|] eqn:Hreq; [|done].
    injection Hrow as <-.
    unfold handleRequestResourceChange, read. rewrite Hreq. simpl.
    rewrite (assign_shown _ _ _ Hj). simpl.
    eexists. split; [done|]. split; simpl; try done.
    apply Forall_insert; [done|]. simpl.
    destruct (proj1 (Forall_lookup _ _) Hreqs i req Hreq) as [Hp Hlen].
    split; [done|]. by rewrite length_insert.
Qed.

Lemma reachable_well_formed st : reachable parseInt st -> well_formed st.
Proof.
  induction 1 as [|st e st' _ IH Hshown Hhandle]; [apply well_formed_initial|].
  destruct (handle_keeps_shape st e IH Hshown) as (st1 & Hst1 & Hwf). congruence.
Qed.

End FormFacts.


Section FormExamples.
Import BankersInput FormSpec.

(** The edited form is what four events make of the initial form. *)
Lemma reachable_edited : reachable decimal edited.
Proof.
  assert (reachable decimal (handleNumResourcesChange decimal "2" initial)) as H1.
  { by apply (reachable_event decimal initial (NumResourcesChange "2"));
      [apply reachable_initial| |]. }
  set (st2 := {| numProcesses := 3;
                 numResources := 2;
                 available := ["3"; ""]%string;
                 max := [["" ; ""]; ["" ; ""]; ["" ; ""]]%string;
                 allocation := [["" ; ""]; ["" ; ""]; ["" ; ""]]%string;
                 requests := [ {| processId := 0; request := ["" ; ""]%string |} ] |}).
  assert (reachable decimal st2) as H2.
  { apply (reachable_event decimal _ (AvailableChange 0 "3") _ H1); [|done].
    vm_compute. lia. }
  set (st3 := {| numProcesses := 3;
                 numResources := 2;
                 available := ["3"; ""]%string;
                 max := [["" ; "7"]; ["" ; ""]; ["" ; ""]]%string;
                 allocation := [["" ; ""]; ["" ; ""]; ["" ; ""]]%string;
                 requests := [ {| processId := 0; request := ["" ; ""]%string |} ] |}).
  assert (reachable decimal st3) as H3.
  { apply (reachable_event decimal st2 (MaxChange 0 1 "7") _ H2); [|done].
    eexists. split; [reflexivity|]. vm_compute. lia. }
  apply (reachable_event decimal st3 (AllocationChange 0 1 "2") _ H3); [|done].
  eexists. split; [reflexivity|]. vm_compute. lia.
Qed.

End FormExamples.


(** ** What the form submits *)

Section SubmitFacts.
Import BankersInput FormSpec.
Variable parseInt : string -> option Z.

Lemma value_at_row (m : list (list Z)) i j row :
  m !! i = Some row -> value_at m i j = row !! j.
Proof. intros Hrow. unfold value_at. by rewrite Hrow. Qed.

(** The inner loop of the check finds the first field of the row whose
    allocation exceeds the maximum claim. *)
Lemma first_excess_in_row_first A M i arow mrow :
  A !! i = Some arow -> M !! i = Some mrow ->
  forall n j,
    exists found,
      first_excess_in_row n j i A M = Ok found
      /\ match found with
         | Some j0 =>
             (j <= j0 < j + n)%nat
             /\ exceeds (arow !! j0) (mrow !! j0) = true
             /\ forall j', (j <= j' < j0)%nat -> exceeds (arow !! j') (mrow !! j') = false
         | None =>
             forall j', (j <= j' < j + n)%nat -> exceeds (arow !! j') (mrow !! j') = false
         end.
Proof.
  intros Ha Hm. induction n as [|n IH]; intros j; simpl.
  - exists None. split; [done|]. intros j' ?. lia.
  - unfold read. rewrite Ha, Hm. simpl.
    destruct (exceeds (arow !! j) (mrow !! j)) eqn:Hj.
    + exists (Some j). split; [done|]. split; [lia|]. split; [done|]. intros j' ?. lia.
    + destruct (IH (S j)) as (found & -> & Hfound). exists found. split; [done|].
      destruct found as [j0|].
      * destruct Hfound as (Hrange & Hex & Hbefore). split; [lia|]. split; [done|].
        intros j' Hj'. destruct (decide (j' = j)) as [->|Hne]; [done|].
        apply Hbefore. lia.
      * intros j' Hj'. destruct (decide (j' = j)) as [->|Hne]; [done|].
        apply Hfound. lia.
Qed.

(** The check finds the first field, row by row, whose allocation exceeds
    the maximum claim. *)
Lemma first_excess_first nr A M :
  length A = length M ->
  forall n i, (i + n <= length A)%nat ->
    exists found,
      first_excess n i nr A M = Ok found
      /\ match found with
         | Some (i0, j0) =>
             (i <= i0 < i + n)%nat /\ (j0 < nr)%nat
             /\ exceeds (value_at A i0 j0) (value_at M i0 j0) = true
             /\ forall i' j', (i <= i')%nat -> (j' < nr)%nat ->
                  checked_before i0 j0 i' j' ->
                  exceeds (value_at A i' j') (value_at M i' j') = false
         | None =>
             forall i' j', (i <= i' < i + n)%nat -> (j' < nr)%nat ->
               exceeds (value_at A i' j') (value_at M i' j') = false
         end.
Proof.
  intros Hlen. induction n as [|n IH]; intros i Hi; simpl.
  - exists None. split; [done|]. intros i' j' ?. lia.
  - destruct (lookup_lt_is_Some_2 A i ltac:(lia)) as [arow Ha].
    destruct (lookup_lt_is_Some_2 M i ltac:(lia)) as [mrow Hm].
    destruct (first_excess_in_row_first A M i arow mrow Ha Hm nr 0%nat)
      as (found & -> & Hfound). simpl.
    destruct found as [j0|].
    + exists (Some (i, j0)). split; [done|].
      destruct Hfound as (Hrange & Hex & Hbefore).
      split; [lia|]. split; [lia|].
      rewrite (value_at_row A i j0 arow Ha), (value_at_row M i j0 mrow Hm).
      split; [done|].
      intros i' j' Hi' Hj' [Hlt|[-> Hlt]]; [lia|].
      rewrite (value_at_row A i j' arow Ha), (value_at_row M i j' mrow Hm).
      apply Hbefore. lia.
    + assert (forall j', (j' < nr)%nat ->
                exceeds (value_at A i j') (value_at M i j') = false) as Hrow.
      { intros j' Hj'.
        rewrite (value_at_row A i j' arow Ha), (value_at_row M i j' mrow Hm).
        apply Hfound. lia. }
      destruct (IH (S i) ltac:(lia)) as (rest & -> & Hrest). exists rest.
      split; [done|]. destruct rest as [[i0 j0]|].
      * destruct Hrest as (Hrange & Hj0 & Hex & Hbefore).
        split; [lia|]. split; [done|]. split; [done|].
        intros i' j' Hi' Hj' Hb.
        destruct (decide (i' = i)) as [->|Hne]; [by apply Hrow|].
        apply Hbefore; [lia|done|done].
      * intros i' j' Hi' Hj'.
        destruct (decide (i' = i)) as [->|Hne]; [by apply Hrow|].
        apply Hrest; [lia|done].
Qed.

(** The numbers of a well-formed state have the dimensions of the state. *)
Lemma converted_consistent st :
  well_formed st ->
  BankersSpec.consistent (Bankers.available (converted parseInt st))
                         (Bankers.max (converted parseInt st))
                         (Bankers.allocation (converted parseInt st))
  /\ length (Bankers.max (converted parseInt st)) = numProcesses st
  /\ length (Bankers.available (converted parseInt st)) = numResources st
  /\ forall reqs, Bankers.requests (converted parseInt st) = Some reqs ->
       Forall (RequestSpec.request_fits (numProcesses st) (numResources st)) reqs.
Proof.
  intros [Hnp Hnr Hav [Hmax Hmaxrows] [Hal Halrows] Hreqs]. simpl.
  split; [|split; [|split]].
  - split; [|split].
    + rewrite !length_fmap. congruence.
    + apply Forall_fmap. eapply Forall_impl; [exact Hmaxrows|]. simpl.
      intros row Hrow. rewrite !length_fmap. congruence.
    + apply Forall_fmap. eapply Forall_impl; [exact Halrows|]. simpl.
      intros row Hrow. rewrite !length_fmap. congruence.
  - by rewrite length_fmap.
  - by rewrite length_fmap.
  - intros reqs [= <-]. apply Forall_fmap. eapply Forall_impl; [exact Hreqs|].
    simpl. intros req [Hp Hlen]. split; simpl; [done|]. by rewrite length_fmap.
Qed.

(** What handleSubmit does in a well-formed state. *)
Lemma handleSubmit_checked st :
  well_formed st ->
  exists found,
    first_excess (numProcesses st) 0 (numResources st)
      (Bankers.allocation (converted parseInt st)) (Bankers.max (converted parseInt st))
    = Ok found
    /\ handleSubmit parseInt st
       = Ok (match found with
             | Some (i, j) => Alert i j
             | None => Submit (converted parseInt st)
             end)
    /\ match found with
       | Some (i0, j0) =>
           (i0 < numProcesses st)%nat /\ (j0 < numResources st)%nat
           /\ exceeds (value_at (Bankers.allocation (converted parseInt st)) i0 j0)
                      (value_at (Bankers.max (converted parseInt st)) i0 j0) = true
           /\ forall i' j', (j' < numResources st)%nat -> checked_before i0 j0 i' j' ->
                exceeds (value_at (Bankers.allocation (converted parseInt st)) i' j')
                        (value_at (Bankers.max (converted parseInt st)) i' j') = false
       | None =>
           forall i' j', (i' < numProcesses st)%nat -> (j' < numResources st)%nat ->
             exceeds (value_at (Bankers.allocation (converted parseInt st)) i' j')
                     (value_at (Bankers.max (converted parseInt st)) i' j') = false
       end.
Proof.
  intros Hwf. destruct (converted_consistent st Hwf) as ([Hrows _] & Hlen & _).
  destruct (first_excess_first (numResources st)
              (Bankers.allocation (converted parseInt st))
              (Bankers.max (converted parseInt st)) (eq_sym Hrows)
              (numProcesses st) 0%nat) as (found & Hfound & Hspec).
  { rewrite <- Hrows, Hlen. lia. }
  exists found. split; [done|]. split.
  - unfold handleSubmit. simpl in Hfound. rewrite Hfound. simpl.
    by destruct found as [[i j]|].
  - destruct found as [[i0 j0]|].
    + destruct Hspec as (Hi0 & Hj0 & Hex & Hbefore).
      split; [lia|]. split; [done|]. split; [done|].
      intros i' j' Hj' Hb. apply Hbefore; [lia|done|done].
    + intros i' j' Hi' Hj'. apply Hspec; [lia|done].
Qed.

(** When no field exceeds, the allocation is within the maximum claims. *)
Lemma converted_within_claims st :
  well_formed st ->
  (forall i' j', (i' < numProcesses st)%nat -> (j' < numResources st)%nat ->
     exceeds (value_at (Bankers.allocation (converted parseInt st)) i' j')
             (value_at (Bankers.max (converted parseInt st)) i' j') = false) ->
  RunningState.within_claims (Bankers.max (converted parseInt st))
                             (Bankers.allocation (converted parseInt st)).
Proof.
  intros Hwf Hall.
  destruct (converted_consistent st Hwf) as ((Hrows & Hmrows & Harows) & Hlen & Hav & _).
  unfold RunningState.within_claims.
  apply Forall2_same_length_lookup. split; [done|].
  intros i arow mrow Ha Hm.
  pose proof (proj1 (Forall_lookup _ _) Harows i arow Ha) as Hla.
  pose proof (proj1 (Forall_lookup _ _) Hmrows i mrow Hm) as Hlm.
  cbv beta in Hla, Hlm.
  apply Forall2_same_length_lookup. split; [congruence|].
  intros j a m Haj Hmj.
  assert (i < numProcesses st)%nat as Hi.
  { rewrite <- Hlen. by eapply lookup_lt_Some. }
  assert (j < numResources st)%nat as Hj.
  { pose proof (lookup_lt_Some _ _ _ Hmj) as Hjm. rewrite Hlm, Hav in Hjm. done. }
  specialize (Hall i j Hi Hj).
  rewrite (value_at_row _ i j arow Ha), (value_at_row _ i j mrow Hm), Haj, Hmj in Hall.
  simpl in Hall. lia.
Qed.


End SubmitFacts.

(** X16.  In a state of the form whose arrays have the dimensions the
    counters say, handleSubmit does not throw.  It alerts for process i and
    resource j exactly when that is the first field, row by row, whose
    allocation, as a number, exceeds the maximum claim; otherwise it submits
    the fields as numbers (0 for a field that is empty or not a number), and
    what it submits has matching dimensions, no allocation above its maximum
    claim, and requests of existing processes with one entry per resource
    type. *)
Theorem handleSubmit_checks_claims parseInt st :
  BankersInput.well_formed st ->
  exists s,
    BankersInput.handleSubmit parseInt st = Ok s
    /\ match s with
       | BankersInput.Alert i j =>
           (i < BankersInput.numProcesses st)%nat
           /\ (j < BankersInput.numResources st)%nat
           /\ (exists a m,
                 FormSpec.value_at (Bankers.allocation (FormSpec.converted parseInt st)) i j
                 = Some a
                 /\ FormSpec.value_at (Bankers.max (FormSpec.converted parseInt st)) i j
                    = Some m
                 /\ m < a)
           /\ forall i' j' a m,
                (j' < BankersInput.numResources st)%nat ->
                FormSpec.checked_before i j i' j' ->
                FormSpec.value_at (Bankers.allocation (FormSpec.converted parseInt st)) i' j'
                = Some a ->
                FormSpec.value_at (Bankers.max (FormSpec.converted parseInt st)) i' j'
                = Some m ->
                a <= m
       | BankersInput.Submit data =>
           data = FormSpec.converted parseInt st
           /\ BankersSpec.consistent (Bankers.available data) (Bankers.max data)
                                     (Bankers.allocation data)
           /\ RunningState.within_claims (Bankers.max data) (Bankers.allocation data)
           /\ length (Bankers.max data) = BankersInput.numProcesses st
           /\ length (Bankers.available data) = BankersInput.numResources st
           /\ forall reqs, Bankers.requests data = Some reqs ->
                Forall (RequestSpec.request_fits (BankersInput.numProcesses st)
                                                 (BankersInput.numResources st)) reqs
       end.
Proof.
  intros Hwf.
  destruct (handleSubmit_checked parseInt st Hwf) as (found & _ & Hsubmit & Hfound).
  eexists. split; [exact Hsubmit|].
  destruct found as [[i j]|].
  - destruct Hfound as (Hi & Hj & Hex & Hbefore).
    split; [done|]. split; [done|]. split.
    + unfold BankersInput.exceeds in Hex.
      destruct (FormSpec.value_at _ i j) as [a|]; [|done].
      destruct (FormSpec.value_at _ i j) as [m|]; [|done].
      exists a, m. split; [done|]. split; [done|]. lia.
    + intros i' j' a m Hj' Hb Ha Hm. specialize (Hbefore i' j' Hj' Hb).
      rewrite Ha, Hm in Hbefore. simpl in Hbefore. lia.
  - destruct (converted_consistent parseInt st Hwf) as (Hc & Hlen & Hav & Hreqs).
    split; [done|]. split; [done|].
    split; [by apply converted_within_claims|]. done.
Qed.

Lemma handleSubmit_checks_claims_witness :
  exists data,
    BankersInput.handleSubmit FormSpec.decimal FormSpec.edited
    = Ok (BankersInput.Submit data)
    /\ Bankers.max data = [[0; 7]; [0; 0]; [0; 0]]
    /\ RunningState.within_claims (Bankers.max data) (Bankers.allocation data).
Proof.
  destruct (handleSubmit_checks_claims FormSpec.decimal FormSpec.edited
              (reachable_well_formed _ _ reachable_edited)) as (s & Hs & Hdata).
  vm_compute in Hs. injection Hs as <-.
  eexists. split; [reflexivity|]. split; [reflexivity|]. apply Hdata.
Defined.



(** ** The form of the block-allocation strategies *)

Section MemoryFormFacts.
Import MemoryInput.

(** The id of a new entry is above every id of the list. *)
Lemma new_id_above fields f : f ∈ fields -> id f < new_id fields.
Proof.
  intros Hf. unfold new_id.
  assert (id f ∈ id <$> fields) as Hin by (apply list_elem_of_fmap; by exists f).
  destruct (id <$> fields) as [|z zs]; [by apply elem_of_nil in Hin|].
  pose proof (maximum_upper z zs (id f) Hin). lia.
Qed.

Lemma add_distinct fields : NoDup (id <$> fields) -> distinct (add fields).
Proof.
  intros Hids. unfold add. split; [by destruct fields|].
  rewrite fmap_app. apply NoDup_app. split; [done|]. split.
  - intros z (f & -> & Hf)%list_elem_of_fmap Hnew. simpl in Hnew.
    apply list_elem_of_singleton in Hnew. pose proof (new_id_above fields f Hf). lia.
  - simpl. apply NoDup_singleton.
Qed.

Lemma update_ids id0 size0 fields : id <$> update id0 size0 fields = id <$> fields.
Proof.
  unfold update. rewrite <- list_fmap_compose. apply list_fmap_ext.
  intros k f _. simpl. by destruct (decide (id f = id0)).
Qed.

Lemma update_distinct id0 size0 fields :
  distinct fields -> distinct (update id0 size0 fields).
Proof.
  intros [Hne Hids]. split; [by destruct fields|]. by rewrite update_ids.
Qed.

Lemma update_other id0 size0 fields :
  id0 ∉ id <$> fields -> update id0 size0 fields = fields.
Proof.
  intros Hnot. unfold update. rewrite <- (list_fmap_id fields) at 2.
  apply list_fmap_ext. intros k f Hf. simpl.
  destruct (decide (id f = id0)) as [<-|]; [|done].
  exfalso. apply Hnot. apply list_elem_of_fmap. exists f. split; [done|].
  by eapply list_elem_of_lookup_2.
Qed.

(** With distinct ids, an update changes the one entry of that id. *)
Lemma update_at fields : forall k f size0,
  NoDup (id <$> fields) -> fields !! k = Some f ->
  update (id f) size0 fields = <[k := {| id := id f; size := size0 |}]> fields.
Proof.
  induction fields as [|g fields IH]; intros k f size0 Hids Hf; [done|].
  rewrite fmap_cons in Hids. apply NoDup_cons in Hids as [Hg Hids].
  destruct k as [|k]; simpl in Hf.
  - injection Hf as ->.
    change (update (id f) size0 (f :: fields))
      with ((if decide (id f = id f) then {| id := id f; size := size0 |} else f)
            :: update (id f) size0 fields).
    rewrite decide_True by done. by rewrite update_other.
  - change (update (id f) size0 (g :: fields))
      with ((if decide (id g = id f) then {| id := id g; size := size0 |} else g)
            :: update (id f) size0 fields).
    rewrite decide_False.
    + by rewrite (IH k f size0 Hids Hf).
    + intros Heq. apply Hg. rewrite Heq. apply list_elem_of_fmap. exists f.
      split; [done|]. by eapply list_elem_of_lookup_2.
Qed.

Lemma filter_other id0 (fields : list Field) :
  id0 ∉ id <$> fields -> filter (fun field => id field <> id0) fields = fields.
Proof.
  induction fields as [|g fields IH]; intros Hnot; [done|].
  rewrite fmap_cons in Hnot. apply not_elem_of_cons in Hnot as [Hg Hnot].
  rewrite filter_cons_True by done. by rewrite IH.
Qed.

(** With distinct ids, the filter of a removal drops the one entry of that
    id. *)
Lemma filter_at fields : forall k f,
  NoDup (id <$> fields) -> fields !! k = Some f ->
  filter (fun field => id field <> id f) fields = delete k fields.
Proof.
  induction fields as [|g fields IH]; intros k f Hids Hf; [done|].
  rewrite fmap_cons in Hids. apply NoDup_cons in Hids as [Hg Hids].
  destruct k as [|k]; simpl in Hf.
  - injection Hf as ->. rewrite filter_cons_False by (intros Hne; by apply Hne).
    by rewrite filter_other.
  - rewrite filter_cons_True.
    + change (delete (S k) (g :: fields)) with (g :: delete k fields).
      by rewrite (IH k f Hids Hf).
    + intros Heq. apply Hg. rewrite Heq. apply list_elem_of_fmap. exists f.
      split; [done|]. by eapply list_elem_of_lookup_2.
Qed.

Lemma remove_distinct id0 fields : distinct fields -> distinct (remove id0 fields).
Proof.
  intros [Hne Hids]. unfold remove.
  destruct (1 <? length fields)%nat eqn:Hlen; [|done].
  apply Nat.ltb_lt in Hlen. split.
  - destruct fields as [|f [|g fields]]; simpl in Hlen; try lia.
    rewrite !fmap_cons in Hids. apply NoDup_cons in Hids as [Hf _].
    destruct (decide (id f = id0)) as [Hf0|Hf0].
    + rewrite filter_cons_False by (intros Hn; by apply Hn).
      rewrite filter_cons_True; [done|].
      intros Hg0. apply Hf. replace (id f) with (id g) by congruence. by left.
    + by rewrite filter_cons_True.
  - eapply sublist_NoDup; [exact Hids|]. apply fmap_sublist, sublist_filter.
Qed.

Lemma distinct_initial : distinct (memoryBlocks initial) /\ distinct (processes initial).
Proof. split; (split; [done|]); simpl; apply NoDup_singleton. Qed.

Lemma reachable_distinct st :
  reachable st -> distinct (memoryBlocks st) /\ distinct (processes st).
Proof.
  induction 1 as [|st e _ [Hb Hp]]; [apply distinct_initial|].
  destruct e; simpl; split; try done.
  - apply add_distinct, Hb.
  - by apply remove_distinct.
  - by apply update_distinct.
  - apply add_distinct, Hp.
  - by apply remove_distinct.
  - by apply update_distinct.
Qed.

(** With an entry entered in it, a list has a valid entry. *)
Lemma valid_nil parseInt fields :
  valid parseInt fields = [] <-> Forall (fun field => size field = ""%string) fields.
Proof.
  unfold valid. split.
  - intros Hnil. apply fmap_nil_inv in Hnil.
    apply Forall_forall. intros f Hf.
    destruct (decide (size f = ""%string)) as [|Hsize]; [done|].
    assert (f ∈ filter (fun field => size field <> ""%string) fields) as Hin.
    { by apply list_elem_of_filter. }
    rewrite Hnil in Hin. by apply elem_of_nil in Hin.
  - intros Hall. induction fields as [|f fields IH]; [done|].
    apply Forall_cons in Hall as [Hf Hall].
    rewrite filter_cons_False by (intros Hn; by apply Hn). by apply IH.
Qed.

Lemma valid_ids parseInt fields :
  parsed_id <$> valid parseInt fields
  = id <$> filter (fun field => size field <> ""%string) fields.
Proof. unfold valid. by rewrite <- list_fmap_compose. Qed.

End MemoryFormFacts.

(** X18.  In every state the memory form can reach, the list of blocks and
    the list of processes are not empty and no id occurs twice in a list;
    so typing a size changes the one entry of that id and nothing else, and
    removing an entry, which the form does only while more than one is left,
    drops that entry alone. *)
Theorem memory_form_entries_distinct st fields :
  MemoryInput.reachable st ->
  fields = MemoryInput.memoryBlocks st \/ fields = MemoryInput.processes st ->
  MemoryInput.distinct fields
  /\ forall k f, fields !! k = Some f ->
       (forall size0,
          MemoryInput.update (MemoryInput.id f) size0 fields
          = <[k := {| MemoryInput.id := MemoryInput.id f; MemoryInput.size := size0 |}]>
              fields)
       /\ ((1 < length fields)%nat ->
           MemoryInput.remove (MemoryInput.id f) fields = delete k fields)
       /\ (length fields = 1%nat ->
           MemoryInput.remove (MemoryInput.id f) fields = fields).
Proof.
  intros Hst Hfields.
  assert (MemoryInput.distinct fields) as Hd.
  { destruct (reachable_distinct st Hst) as [Hb Hp]. by destruct Hfields as [->| ->]. }
  split; [exact Hd|]. destruct Hd as [_ Hids].
  intros k f Hf. split; [|split].
  - intros size0. by apply update_at.
  - intros Hlen. unfold MemoryInput.remove.
    apply Nat.ltb_lt in Hlen. rewrite Hlen. by apply filter_at.
  - intros Hlen. unfold MemoryInput.remove. by rewrite Hlen.
Qed.

Lemma memory_form_entries_distinct_witness :
  MemoryInput.distinct
    (MemoryInput.processes
       (MemoryInput.handle MemoryInput.AddProcess
          (MemoryInput.handle (MemoryInput.UpdateProcess 1 "212") MemoryInput.initial)))
  /\ MemoryInput.remove 1
       [ {| MemoryInput.id := 1; MemoryInput.size := "212" |};
         {| MemoryInput.id := 2; MemoryInput.size := "" |} ]
     = [ {| MemoryInput.id := 2; MemoryInput.size := "" |} ].
Proof.
  destruct (memory_form_entries_distinct
              (MemoryInput.handle MemoryInput.AddProcess
                 (MemoryInput.handle (MemoryInput.UpdateProcess 1 "212")
                    MemoryInput.initial))
              [ {| MemoryInput.id := 1; MemoryInput.size := "212" |};
                {| MemoryInput.id := 2; MemoryInput.size := "" |} ])
    as [Hd Hat].
  - do 2 apply MemoryInput.reachable_event. apply MemoryInput.reachable_initial.
  - by right.
  - split; [exact Hd|].
    destruct (Hat 0%nat {| MemoryInput.id := 1; MemoryInput.size := "212" |} eq_refl)
      as (_ & Hremove & _).
    apply Hremove. simpl. lia.
Defined.

(** X19.  handleSubmit of the memory form alerts exactly when no block has a
    size entered or no process has; otherwise it submits, in their order and
    with their ids, the blocks and the processes that have a size entered,
    each size as parseInt reads it: both submitted lists are not empty, and
    in a state the form can reach no id occurs twice in either. *)
Theorem memory_form_submits_entered parseInt st :
  match MemoryInput.handleSubmit parseInt st with
  | MemoryInput.Alert =>
      Forall (fun field => MemoryInput.size field = ""%string)
             (MemoryInput.memoryBlocks st)
      \/ Forall (fun field => MemoryInput.size field = ""%string)
                (MemoryInput.processes st)
  | MemoryInput.Submit blocks procs =>
      ~ Forall (fun field => MemoryInput.size field = ""%string)
               (MemoryInput.memoryBlocks st)
      /\ ~ Forall (fun field => MemoryInput.size field = ""%string)
                  (MemoryInput.processes st)
      /\ blocks <> [] /\ procs <> []
      /\ blocks = MemoryInput.valid parseInt (MemoryInput.memoryBlocks st)
      /\ procs = MemoryInput.valid parseInt (MemoryInput.processes st)
      /\ MemoryInput.parsed_id <$> blocks
         `sublist_of` MemoryInput.id <$> MemoryInput.memoryBlocks st
      /\ MemoryInput.parsed_id <$> procs
         `sublist_of` MemoryInput.id <$> MemoryInput.processes st
      /\ (MemoryInput.reachable st ->
          NoDup (MemoryInput.parsed_id <$> blocks)
          /\ NoDup (MemoryInput.parsed_id <$> procs))
  end.
Proof.
  unfold MemoryInput.handleSubmit.
  destruct (MemoryInput.valid parseInt (MemoryInput.memoryBlocks st)) as [|b bs] eqn:Hb.
  { simpl. left. by apply (valid_nil parseInt). }
  destruct (MemoryInput.valid parseInt (MemoryInput.processes st)) as [|p ps] eqn:Hp.
  { simpl. right. by apply (valid_nil parseInt). }
  simpl.
  split; [intros Hall; apply (valid_nil parseInt) in Hall; congruence|].
  split; [intros Hall; apply (valid_nil parseInt) in Hall; congruence|].
  split; [done|]. split; [done|]. split; [done|]. split; [done|].
  assert (MemoryInput.parsed_id <$> b :: bs
          `sublist_of` MemoryInput.id <$> MemoryInput.memoryBlocks st) as Hsb.
  { rewrite <- Hb, valid_ids. apply fmap_sublist, sublist_filter. }
  assert (MemoryInput.parsed_id <$> p :: ps
          `sublist_of` MemoryInput.id <$> MemoryInput.processes st) as Hsp.
  { rewrite <- Hp, valid_ids. apply fmap_sublist, sublist_filter. }
  split; [done|]. split; [done|].
  intros Hst. destruct (reachable_distinct st Hst) as [[_ Hbd] [_ Hpd]].
  split; (eapply sublist_NoDup; [|done]); done.
Qed.

(** ** The blocks panel of the results *)

Section PanelFacts.
Import Memory MemorySpec MemoryRun FitSpec FragmentationSpec MemoryVisualization.

(** With positive process sizes, the block given to a process is recorded
    with its original size minus the size of the process. *)
Lemma positive_choice_recorded s blocks procs i j p b :
  Forall (fun p => 0 < size p) procs ->
  procs !! i = Some p -> strategy_choice s blocks procs i = Some j ->
  blocks !! j = Some b ->
  size p <= size b
  /\ st_internalFragmentation (loop_choices s blocks procs (length procs)) !! j
     = Some (size b - size p).
Proof.
  intros Hprocs Hp Hc Hb.
  pose proof (strategy_invariant s blocks procs _ (le_n (length procs))) as Hinv.
  pose proof (lookup_lt_Some _ _ _ Hp) as Hi.
  pose proof (proj1 (Forall_lookup _ _) Hprocs i p Hp) as Hpos. simpl in Hpos.
  destruct (inv_fits _ _ _ _ _ Hinv i j p Hi Hp Hc) as (b' & Hb' & Hfit).
  pose proof (strategy_invariant s blocks procs i ltac:(lia)) as Hinv_i.
  destruct (inv_original _ _ _ _ _ Hinv_i j b' Hb') as (b0 & Hb0 & [->| ->]).
  2:{ unfold fits in Hfit. simpl in Hfit. lia. }
  assert (b0 = b) as -> by congruence.
  split; [done|].
  apply (inv_recorded _ _ _ _ _ Hinv i j p b Hi Hp Hc Hb').
  intros i' Hi'. apply (positive_choice_once s blocks procs i i' j Hprocs); [lia|done].
Qed.

(** findIndex finds the first process that was given the block. *)
Lemma findIndex_Some allocation index i :
  findIndex allocation index = Some i <->
  allocation !! i = Some (Some index)
  /\ forall i', (i' < i)%nat -> allocation !! i' <> Some (Some index).
Proof.
  unfold findIndex. split.
  - destruct (list_find _ allocation) as [[k x]|] eqn:Hfind; [|done].
    simpl. intros [= ->].
    apply list_find_Some in Hfind as (Hx & -> & Hfirst).
    split; [done|]. intros i' Hi' Hy. by apply (Hfirst i' (Some index)).
  - intros [Hi Hfirst].
    assert (list_find (fun alloc => alloc = Some index) allocation
            = Some (i, Some index)) as ->; [|done].
    apply list_find_Some. split; [done|]. split; [done|].
    intros i' y Hy Hi' ->. by apply (Hfirst i').
Qed.

Lemma findIndex_None allocation index :
  findIndex allocation index = None <-> never_chosen allocation index.
Proof.
  unfold findIndex, never_chosen. split.
  - destruct (list_find _ allocation) as [[k x]|] eqn:Hfind; [done|]. intros _.
    apply list_find_None in Hfind. intros i Hi.
    by apply (proj1 (Forall_lookup _ _) Hfind i (Some index)).
  - intros Hnever.
    assert (list_find (fun alloc => alloc = Some index) allocation = None) as ->;
      [|done].
    apply list_find_None. apply Forall_lookup. intros i x Hx ->. by apply (Hnever i).
Qed.

End PanelFacts.

(** X20.  With positive block and process sizes the blocks panel is drawn
    without an exception for the result of every strategy, one entry per
    block: a block that no process was given is drawn free with its size; a
    block that was given is drawn with the id of the one process that has
    it, the share of the process being the size of the process, and, when
    the process is smaller than the block, with the rest as internal
    fragmentation, so that the two shares add up to the size of the
    block. *)
Theorem blocks_panel_shows_allocation s blocks procs :
  Forall (fun b => 0 < Memory.size b) blocks ->
  Forall (fun p => 0 < Memory.size p) procs ->
  exists r panel,
    Memory.run s blocks procs = Ok r
    /\ MemoryVisualization.blocks_panel r blocks procs = Ok panel
    /\ length panel = length blocks
    /\ forall j b, blocks !! j = Some b ->
         (FragmentationSpec.never_chosen (Memory.allocation r) j
          /\ panel !! j = Some [MemoryVisualization.FreeBox (Memory.size b)])
         \/ (exists i p,
               procs !! i = Some p
               /\ (forall i', Memory.allocation r !! i' = Some (Some j) <-> i' = i)
               /\ Memory.size p <= Memory.size b
               /\ panel !! j
                  = Some (MemoryVisualization.ProcessBox
                            (Memory.id p) (Some (Memory.size p)) (Memory.size b)
                          :: if Memory.size p <? Memory.size b
                             then [MemoryVisualization.FragmentationBox
                                     (Memory.size b - Memory.size p)
                                     (Memory.size b - Memory.size p) (Memory.size b)]
                             else [])).
Proof.
  intros Hblocks Hprocs.
  set (final := MemoryRun.loop_choices s blocks procs (length procs)).
  set (r := Memory.report (MemoryRun.strategy_name s) procs final).
  assert (forall j b, blocks !! j = Some b ->
            (FragmentationSpec.never_chosen (Memory.allocation r) j
             /\ MemoryVisualization.block_boxes r procs j b
                = Ok [MemoryVisualization.FreeBox (Memory.size b)])
            \/ (exists i p,
                  procs !! i = Some p
                  /\ (forall i', Memory.allocation r !! i' = Some (Some j) <-> i' = i)
                  /\ Memory.size p <= Memory.size b
                  /\ MemoryVisualization.block_boxes r procs j b
                     = Ok (MemoryVisualization.ProcessBox
                             (Memory.id p) (Some (Memory.size p)) (Memory.size b)
                           :: if Memory.size p <? Memory.size b
                              then [MemoryVisualization.FragmentationBox
                                      (Memory.size b - Memory.size p)
                                      (Memory.size b - Memory.size p) (Memory.size b)]
                              else []))) as Hbox.
  { intros j b Hb. unfold MemoryVisualization.block_boxes.
    destruct (MemoryVisualization.findIndex (Memory.allocation r) j) as [i|] eqn:Hfind.
    - right. apply findIndex_Some in Hfind as [Hi Hfirst].
      pose proof Hi as Hi'. apply final_choice_Some in Hi' as [Hlt Hc].
      destruct (lookup_lt_is_Some_2 procs i Hlt) as [p Hp].
      destruct (positive_choice_recorded s blocks procs i j p b Hprocs Hp Hc Hb)
        as [Hfit Hfrag].
      exists i, p. split; [done|]. split; [|split; [done|]].
      + intros i'. split; [|by intros ->].
        intros Hi'. destruct (Nat.lt_trichotomy i' i) as [Hlt'|[->|Hgt]]; [|done|].
        * by destruct (Hfirst i' Hlt').
        * apply final_choice_Some in Hi' as [Hlt' Hc'].
          by destruct (positive_choice_once s blocks procs i i' j Hprocs
                         ltac:(lia) Hc).
      + unfold read. rewrite Hp. simpl. unfold r. simpl. unfold final.
        rewrite Hfrag. simpl.
        replace (Memory.size b - (Memory.size b - Memory.size p))
          with (Memory.size p) by lia.
        do 2 f_equal.
        destruct (Memory.size p <? Memory.size b) eqn:Hlt'.
        * apply Z.ltb_lt in Hlt'.
          assert ((Memory.size b - Memory.size p >? 0) = true) as -> by lia. done.
        * apply Z.ltb_ge in Hlt'.
          assert ((Memory.size b - Memory.size p >? 0) = false) as -> by lia. done.
    - left. split; [|done]. by apply findIndex_None. }
  exists r. eexists. split; [apply run_report|]. split.
  { apply (map_indexed_Ok _ (fun j b =>
                               match MemoryVisualization.block_boxes r procs j b with
                               | Ok boxes => boxes
                               | Fault _ => []
                               end)).
    intros j b Hb. simpl.
    by destruct (Hbox j b Hb) as [[_ ->]|(i & p & _ & _ & _ & ->)]. }
  split; [by rewrite length_imap|].
  intros j b Hb. rewrite list_lookup_imap, Hb. simpl.
  destruct (Hbox j b Hb) as [[Hnever ->]|(i & p & Hp & Honly & Hfit & ->)].
  - by left.
  - right. by exists i, p.
Qed.

Lemma blocks_panel_shows_allocation_witness :
  exists r panel,
    Memory.run Memory.BestFit
      [ {| Memory.id := 1; Memory.size := 100 |}; {| Memory.id := 2; Memory.size := 50 |};
        {| Memory.id := 3; Memory.size := 200 |} ]
      [ {| Memory.id := 1; Memory.size := 90 |}; {| Memory.id := 2; Memory.size := 50 |} ]
    = Ok r
    /\ MemoryVisualization.blocks_panel r
         [ {| Memory.id := 1; Memory.size := 100 |};
           {| Memory.id := 2; Memory.size := 50 |};
           {| Memory.id := 3; Memory.size := 200 |} ]
         [ {| Memory.id := 1; Memory.size := 90 |};
           {| Memory.id := 2; Memory.size := 50 |} ]
       = Ok panel
    /\ panel = [ [ MemoryVisualization.ProcessBox 1 (Some 90) 100;
                   MemoryVisualization.FragmentationBox 10 10 100 ];
                 [ MemoryVisualization.ProcessBox 2 (Some 50) 50 ];
                 [ MemoryVisualization.FreeBox 200 ] ].
Proof.
  destruct (blocks_panel_shows_allocation Memory.BestFit
              [ {| Memory.id := 1; Memory.size := 100 |};
                {| Memory.id := 2; Memory.size := 50 |};
                {| Memory.id := 3; Memory.size := 200 |} ]
              [ {| Memory.id := 1; Memory.size := 90 |};
                {| Memory.id := 2; Memory.size := 50 |} ])
    as (r & panel & Hr & Hpanel & _).
  - repeat constructor; simpl; lia.
  - repeat constructor; simpl; lia.
  - exists r, panel. split; [exact Hr|]. split; [exact Hpanel|].
    vm_compute in Hr. injection Hr as <-.
    vm_compute in Hpanel. by injection Hpanel as <-.
Defined.

(** A process of size 0 can be given a block that is taken: the panel then
    shows the first process of the block with the whole block as its share. *)
Example zero_size_process_hides_fragmentation :
  exists r,
    Memory.run Memory.FirstFit
      [ {| Memory.id := 1; Memory.size := 100 |} ]
      [ {| Memory.id := 1; Memory.size := 90 |}; {| Memory.id := 2; Memory.size := 0 |} ]
    = Ok r
    /\ MemoryVisualization.blocks_panel r
         [ {| Memory.id := 1; Memory.size := 100 |} ]
         [ {| Memory.id := 1; Memory.size := 90 |};
           {| Memory.id := 2; Memory.size := 0 |} ]
       = Ok [ [ MemoryVisualization.ProcessBox 1 (Some 100) 100 ] ].
Proof. eexists. split; reflexivity. Qed.

(** ** The processes an unsafe verdict lists *)

Section StuckFacts.
Import Bankers BankersSpec SafeSequences.

Lemma filter_submseteq {A} (P : A -> Prop) `{!forall x, Decision (P x)} (l k : list A) :
  l ⊆+ k -> filter P l ⊆+ filter P k.
Proof.
  intros [rest Hrest]%submseteq_Permutation.
  rewrite Hrest, filter_app. by apply submseteq_inserts_r.
Qed.

(** The more processes have given back what they hold, the more is at
    hand. *)
Lemma release_all_submseteq m w es1 es2 :
  length w = m -> Forall (gives_back m) es2 -> es1 ⊆+ es2 ->
  Forall2 Z.le (release_all w es1) (release_all w es2).
Proof.
  intros Hw Hes [rest Hrest]%submseteq_Permutation.
  rewrite Hrest in Hes. apply Forall_app in Hes as [Hes1 Hes2].
  rewrite (release_all_permutation _ _ Hrest), release_all_app.
  apply (release_all_ge m); [by apply length_release_all|done].
Qed.

Lemma completes_in_range available max allocation ids :
  consistent available max allocation ->
  forall work,
    completes (need_of max allocation) allocation work ids ->
    Forall (fun i => i < length max)%nat ids.
Proof.
  intros (Hlen & _ & _). induction ids as [|i ids IH]; intros work; simpl; [done|].
  destruct (need_of max allocation !! i) as [nrow|] eqn:Hn; [|done].
  destruct (allocation !! i) as [arow|]; [|done].
  intros [_ Hrest]. constructor; [|by eapply IH].
  apply lookup_lt_Some in Hn. unfold need_of in Hn. rewrite length_zip_with in Hn. lia.
Qed.

(** The processes an unsafe verdict lists are among the unfinished ones. *)
Lemma passes_unfinished_among avail unfinished seq r :
  passes avail unfinished seq r ->
  forall p, p ∈ unfinishedProcesses r -> p ∈ pid <$> unfinished.
Proof.
  induction 1 as [avail seq | avail unf seq Hne Hnone
                 | avail unf seq avail' still fin r Hne Hscan Hfin _ IH];
    intros p Hp; simpl in *.
  - by apply elem_of_nil in Hp.
  - done.
  - destruct (scan_pass_finishes _ _ _ _ _ Hscan) as (first & _ & _ & _ & Hsplit).
    rewrite <- Hsplit, fmap_app. apply elem_of_app. right. by apply IH.
Qed.

(** No process the verdict lists as unfinished is among processes that can
    finish one after the other. *)
Lemma passes_never m avail unfinished seq r :
  passes avail unfinished seq r ->
  length avail = m -> Forall (gives_back m) unfinished -> NoDup (pid <$> unfinished) ->
  forall order, order ⊆+ unfinished -> finishes avail order ->
    forall e, e ∈ order -> pid e ∉ unfinishedProcesses r.
Proof.
  induction 1 as [avail seq | avail unf seq Hne Hnone
                 | avail unf seq avail' still fin r Hne Hscan Hfin Hrest IH];
    intros Hlen Hgood Hnodup order Hsub Horder e He.
  - simpl. apply not_elem_of_nil.
  - apply scan_pass_none in Hnone.
    destruct order as [|e0 order]; [by apply elem_of_nil in He|].
    destruct Horder as [He0 _].
    assert (e0 ∈ unf) as Hin by (eapply elem_of_submseteq; [|exact Hsub]; by left).
    by destruct (proj1 (Forall_forall _ _) Hnone e0 Hin).
  - destruct (scan_pass_finishes _ _ _ _ _ Hscan) as (first & -> & Hfirst & -> & Hsplit).
    assert (Forall (gives_back m) order) as Hgood_order.
    { apply Forall_forall. intros x Hx.
      apply (proj1 (Forall_forall _ _) Hgood). by eapply elem_of_submseteq. }
    rewrite <- Hsplit in Hgood, Hnodup, Hsub.
    apply Forall_app in Hgood as [Hgood1 Hgood2].
    rewrite fmap_app in Hnodup. apply NoDup_app in Hnodup as (Hnd1 & Hdisj & Hnd2).
    set (P := fun e : entry => pid e ∈ pid <$> still).
    assert (filter P first = []) as HP1.
    { apply filter_none, Forall_forall. intros x Hx HPx.
      apply (Hdisj (pid x)); [|done]. apply list_elem_of_fmap. by exists x. }
    assert (filter P still = still) as HP2.
    { apply filter_all, Forall_forall. intros x Hx.
      apply list_elem_of_fmap. by exists x. }
    assert (filter (fun e => ~ P e) first = first) as HN1.
    { apply filter_all, Forall_forall. intros x Hx HPx.
      apply (Hdisj (pid x)); [|done]. apply list_elem_of_fmap. by exists x. }
    assert (filter (fun e => ~ P e) still = []) as HN2.
    { apply filter_none, Forall_forall. intros x Hx HPx. apply HPx.
      apply list_elem_of_fmap. by exists x. }
    assert (filter P order ⊆+ still) as Hkept.
    { apply (filter_submseteq P) in Hsub.
      by rewrite filter_app, HP1, HP2 in Hsub. }
    assert (filter (fun e => ~ P e) order ⊆+ first) as Hahead.
    { apply (filter_submseteq (fun e => ~ P e)) in Hsub.
      by rewrite filter_app, HN1, HN2, app_nil_r in Hsub. }
    pose proof (finishes_filter m P order avail avail Hgood_order Hlen
                  (at_most_refl avail) Horder) as Hlater.
    assert (finishes (release_all avail first) (filter P order)) as Hlater'.
    { eapply finishes_mono; [|exact Hlater].
      by apply (release_all_submseteq m). }
    destruct (decide (P e)) as [HPe|HPe].
    + apply (IH (length_release_all _ _ _ Hlen Hgood1) Hgood2 Hnd2 _ Hkept Hlater').
      by apply list_elem_of_filter.
    + intros Hin. apply HPe. by apply (passes_unfinished_among _ _ _ _ Hrest).
Qed.

(** The processes the verdict does not list can finish one after the
    other. *)
Lemma passes_finished avail unfinished seq r :
  passes avail unfinished seq r ->
  exists finished remaining,
    finishes avail finished
    /\ finished ++ remaining ≡ₚ unfinished
    /\ unfinishedProcesses r = pid <$> remaining.
Proof.
  induction 1 as [avail seq | avail unf seq Hne Hnone
                 | avail unf seq avail' still fin r Hne Hscan Hfin _ IH].
  - by exists [], [].
  - by exists [], unf.
  - destruct IH as (later & remaining & Hlater & Hperm & Hr).
    destruct (scan_pass_finishes _ _ _ _ _ Hscan) as (first & -> & Hfirst & -> & Hsplit).
    exists (first ++ later), remaining. split; [by apply finishes_app|].
    split; [|done]. by rewrite <- app_assoc, Hperm.
Qed.

Lemma table_entry_of available max allocation e :
  consistent available max allocation ->
  e ∈ table max allocation ->
  e = entry_of max allocation (pid e) /\ (pid e < length max)%nat.
Proof.
  intros Hc He. rewrite (table_entries _ _ _ Hc) in He.
  apply list_elem_of_fmap in He as (i & -> & Hi). apply elem_of_seq in Hi.
  split; [done|]. simpl. lia.
Qed.

End StuckFacts.

(** X21.  The processes isSafeState lists as unfinished are exactly the
    processes that can never finish: with matching dimensions and no
    negative allocation, no listed process occurs in any sequence of
    distinct processes that can finish one after the other from the
    available vector, and the processes that are not listed can all finish
    one after the other in some order. *)
Theorem unfinished_processes_never_finish available max allocation r :
  BankersSpec.consistent available max allocation ->
  SafeSequences.non_negative_rows allocation ->
  Bankers.isSafeState available max allocation = Ok r ->
  (forall ids, NoDup ids ->
     SafeSequences.completes (BankersSpec.need_of max allocation) allocation
                             available ids ->
     forall p, p ∈ ids -> p ∉ Bankers.unfinishedProcesses r)
  /\ (exists ids,
        NoDup ids
        /\ SafeSequences.completes (BankersSpec.need_of max allocation) allocation
                                   available ids
        /\ forall p, (p < length max)%nat ->
             p ∉ Bankers.unfinishedProcesses r -> p ∈ ids).
Proof.
  intros Hc Hpos Hr.
  destruct (isSafeState_passes _ _ _ Hc) as (r' & Hr' & Hpasses).
  rewrite Hr in Hr'. injection Hr' as <-.
  pose proof (table_pids _ _ _ Hc) as Hpids.
  assert (NoDup (BankersSpec.pid <$> BankersSpec.table max allocation)) as Hnodup.
  { rewrite Hpids. apply NoDup_seq. }
  split.
  - intros ids Hids Hcomp p Hp.
    pose proof (completes_in_range _ _ _ _ Hc _ Hcomp) as Hrange.
    apply (completes_finishes _ _ _ _ Hc Hrange) in Hcomp.
    apply (passes_never (length available) _ _ _ _ Hpasses eq_refl
             (table_gives_back _ _ _ Hc Hpos) Hnodup
             (SafeSequences.entry_of max allocation <$> ids))
      with (e := SafeSequences.entry_of max allocation p); [|done|].
    + rewrite (table_entries _ _ _ Hc). apply fmap_submseteq.
      apply NoDup_submseteq; [done|]. intros i Hi. apply elem_of_seq.
      pose proof (proj1 (Forall_forall _ _) Hrange i Hi). simpl in *. lia.
    + apply list_elem_of_fmap. by exists p.
  - destruct (passes_finished _ _ _ _ Hpasses)
      as (finished & remaining & Hfin & Hperm & Hlisted).
    assert (forall e, e ∈ finished ->
              e = SafeSequences.entry_of max allocation (BankersSpec.pid e)
              /\ (BankersSpec.pid e < length max)%nat) as Hentries.
    { intros e He. apply (table_entry_of available); [done|].
      rewrite <- Hperm. apply elem_of_app. by left. }
    exists (BankersSpec.pid <$> finished). split; [|split].
    + rewrite <- Hperm, fmap_app in Hnodup. by apply NoDup_app in Hnodup as [? _].
    + apply (completes_finishes _ _ _ _ Hc).
      * apply Forall_fmap, Forall_forall. intros e He. by apply Hentries.
      * rewrite <- list_fmap_compose.
        rewrite (list_fmap_ext _ (fun e => e) finished).
        -- by rewrite list_fmap_id.
        -- intros k e He. simpl. symmetry. apply Hentries.
           by eapply list_elem_of_lookup_2.
    + intros p Hp Hnot.
      assert (p ∈ BankersSpec.pid <$> BankersSpec.table max allocation) as Hin.
      { rewrite Hpids. apply elem_of_seq. lia. }
      rewrite <- Hperm, fmap_app in Hin. apply elem_of_app in Hin as [Hin|Hin]; [done|].
      by rewrite Hlisted in Hnot.
Qed.

Lemma unfinished_processes_never_finish_witness :
  exists r,
    Bankers.isSafeState [1] [[1]; [5]; [5]] [[0]; [1]; [1]] = Ok r
    /\ Bankers.unfinishedProcesses r = [1; 2]%nat
    /\ 0%nat ∉ Bankers.unfinishedProcesses r.
Proof.
  eexists. split; [reflexivity|]. split; [reflexivity|].
  refine (proj1 (unfinished_processes_never_finish [1] [[1]; [5]; [5]] [[0]; [1]; [1]]
                   _ _ _ eq_refl) [0%nat] _ _ 0%nat _).
  - split; [done|]. split; repeat constructor.
  - unfold SafeSequences.non_negative_rows, SafeSequences.non_negative.
    repeat (constructor; try lia).
  - apply NoDup_singleton.
  - simpl. split; [|done]. repeat constructor. lia.
  - by left.
Defined.

(** ** The request of nothing *)

Section ZeroRequestFacts.
Import Bankers BankersSpec RequestSpec RequestProps SafeSequences RunningState.

Lemma sub_zeros (v : vector) : zip_with Z.sub v (replicate (length v) 0) = v.
Proof. induction v as [|x v IH]; simpl; [done|]. rewrite IH. f_equal. lia. Qed.

Lemma add_zeros (v : vector) n : length v = n -> zip_with Z.add v (replicate n 0) = v.
Proof.
  intros <-. induction v as [|x v IH]; simpl; [done|]. rewrite IH. f_equal. lia.
Qed.

Lemma zeros_within (bound : vector) n :
  non_negative bound -> first_over (replicate n 0) bound = None.
Proof.
  intros Hpos. apply first_over_None. intros k r b Hr Hb.
  apply lookup_replicate in Hr as [-> _].
  apply (proj1 (Forall_lookup _ _) Hpos k b Hb).
Qed.

(** The state a grant of nothing leads to is the state. *)
Lemma grant_zeros available max allocation processId :
  consistent available max allocation ->
  grant available allocation processId (replicate (length available) 0)
  = (available, allocation).
Proof.
  intros (_ & _ & Hrows). unfold grant. rewrite sub_zeros. f_equal.
  destruct (allocation !! processId) as [row|] eqn:Hrow; [|done].
  rewrite add_zeros.
  - by apply list_insert_id.
  - apply (proj1 (Forall_lookup _ _) Hrows processId row Hrow).
Qed.

End ZeroRequestFacts.

(** X22.  A request of nothing (0 of every resource type, what the form
    submits for a request whose fields are left empty) is answered with the
    verdict of isSafeState on the state as it is: with matching dimensions,
    no allocation above its maximum claim and nothing negative available it
    passes both checks, the state it would lead to is the state itself, and
    it is granted, with the safe sequence of the state, exactly when the
    state is safe. *)
Theorem zero_request_verdict available max allocation processId sr :
  BankersSpec.consistent available max allocation ->
  RunningState.within_claims max allocation ->
  SafeSequences.non_negative available ->
  (processId < length max)%nat ->
  Bankers.isSafeState available max allocation = Ok sr ->
  RequestSpec.grant available allocation processId (replicate (length available) 0)
  = (available, allocation)
  /\ Bankers.resourceRequest available max allocation processId
       (replicate (length available) 0)
     = Ok (RequestSpec.safety_verdict sr)
  /\ (Bankers.safe sr = true ->
      RequestSpec.safety_verdict sr = RequestSpec.request_granted (Bankers.safeSequence sr)).
Proof.
  intros Hc Hwithin Hpos Hp Hsr.
  pose proof (grant_zeros available max allocation processId Hc) as Hgrant.
  split; [exact Hgrant|]. split.
  - destruct (resourceRequest_unfold available max allocation processId
                (replicate (length available) 0) Hc Hp)
      as (nrow & Hn & Hlen & ->); [by rewrite length_replicate|].
    assert (SafeSequences.non_negative nrow) as Hneed.
    { destruct (need_of_row _ _ _ _ Hc Hp) as (mrow & arow & Hm & Ha & _ & _ & Hn').
      rewrite Hn in Hn'. injection Hn' as ->.
      pose proof (Forall2_lookup_lr _ _ _ _ _ _ Hwithin Ha Hm) as Hrow.
      apply Forall_lookup. intros k x Hx.
      apply lookup_zip_with_Some in Hx as (m & a & -> & Hmk & Hak).
      pose proof (Forall2_lookup_lr _ _ _ _ _ _ Hrow Hak Hmk). lia. }
    rewrite (zeros_within nrow _ Hneed), (zeros_within available _ Hpos).
    rewrite Hgrant. simpl. by rewrite Hsr.
  - intros Hsafe. unfold RequestSpec.safety_verdict. by rewrite Hsafe.
Qed.

Lemma zero_request_verdict_witness :
  Bankers.resourceRequest [3; 3; 2]
    [[7; 5; 3]; [3; 2; 2]; [9; 0; 2]; [2; 2; 2]; [4; 3; 3]]
    [[0; 1; 0]; [2; 0; 0]; [3; 0; 2]; [2; 1; 1]; [0; 0; 2]] 0 [0; 0; 0]
  = Ok (RequestSpec.request_granted [1; 3; 4; 0; 2]%nat).
Proof.
  refine (proj1 (proj2 (zero_request_verdict [3; 3; 2]
            [[7; 5; 3]; [3; 2; 2]; [9; 0; 2]; [2; 2; 2]; [4; 3; 3]]
            [[0; 1; 0]; [2; 0; 0]; [3; 0; 2]; [2; 1; 1]; [0; 0; 2]] 0%nat
            {| Bankers.safe := true;
               Bankers.safeSequence := [1; 3; 4; 0; 2]%nat;
               Bankers.unfinishedProcesses := [] |} _ _ _ _ _))).
  - split; [done|]. split; repeat constructor.
  - unfold RunningState.within_claims. repeat (constructor; try lia).
  - unfold SafeSequences.non_negative. repeat (constructor; try lia).
  - simpl. lia.
  - reflexivity.
Defined.
